(** * Mark-compact collector: page state machine, planner and recycling

    A shallow embedding of the concurrent mark-compact collector
    (gc/collector/mark_compact.cc).  The collector thread, its helper
    threads and application threads that take an access fault all act on
    one array of per-page status words; their code is embedded as programs
    over atomic events, and run by an interleaving semantics.  The planner
    (the prefix sum over the chunk-info vector) and the liveness
    bookkeeping of the mark phase are embedded as pure functions. *)

From Stdlib Require Import ZArith Lia Bool List Sorted.
From stdpp Require Import base list.
Import ListNotations.
Local Open Scope Z_scope.

(* ================================================================== *)
(** * Part I: definitions *)
(* ================================================================== *)

(** ** Constants of the platform and of the collector's header

    [gPageSize] is a run-time global; the other constants are declared in
    headers that are not part of the sources, so they are taken as
    parameters.  What the proofs need of them is collected in
    [PlatformOk]. *)

Class Platform : Type := {
  gPageSize : Z;
  kAlignment : Z;
  kBitsPerVectorWord : Z;
  kOffsetChunkSize : Z;
  kBitsPerBitmapWord : Z;
  kBitmapWordsPerVectorWord : nat;
  kSigbusCounterCompactionDoneMask : Z;
}.

Class PlatformOk (P : Platform) : Prop := {
  gPageSize_pos : 0 < gPageSize;
  kAlignment_pos : 0 < kAlignment;
  kBitsPerVectorWord_pos : 0 < kBitsPerVectorWord;
  kOffsetChunkSize_eq : kOffsetChunkSize = kBitsPerVectorWord * kAlignment;
  kBitsPerBitmapWord_pos : 0 < kBitsPerBitmapWord;
  kBitsPerVectorWord_eq :
    kBitsPerVectorWord = Z.of_nat kBitmapWordsPerVectorWord * kBitsPerBitmapWord;
  kOffsetChunkSize_page : (kOffsetChunkSize | gPageSize);
  (* a page-aligned offset leaves the low byte of a status word free *)
  gPageSize_state_mask : (256 | gPageSize);
  kSigbusMask_pos : 0 < kSigbusCounterCompactionDoneMask;
}.

(** [static constexpr ssize_t kMinFromSpaceMadviseSize = 8 * MB] *)
Definition MB : Z := 1024 * 1024.
Definition kMinFromSpaceMadviseSize : Z := 8 * MB.
(** [static constexpr size_t kMutatorCompactionBufferCount = 2048] *)
Definition kMutatorCompactionBufferCount : Z := 2048.

(** The three instantiations of the [kMode] template parameter. *)
Inductive Mode : Type := kCopyMode | kMinorFaultMode | kFallbackMode.

Definition Mode_eqb (a b : Mode) : bool :=
  match a, b with
  | kCopyMode, kCopyMode | kMinorFaultMode, kMinorFaultMode
  | kFallbackMode, kFallbackMode => true
  | _, _ => false
  end.

(** ** Page states *)

Inductive PageState : Type :=
| kUnprocessed
| kProcessing
| kProcessed
| kProcessingAndMapping
| kMutatorProcessing
| kProcessedAndMapping
| kProcessedAndMapped.

(** Modelled from the spec: the [PageState] enumeration is declared in the
    collector's header, which is not among the sources.  The spec keeps
    the state as a small integer in the low bits of a 32-bit status word;
    the sources read it back with [static_cast<uint8_t>], so the state is
    the low byte.  The numbering below is the one of the header; the
    proofs use only that the codes are distinct, fit in a byte, and that
    [kUnprocessed] is the zero a fresh status array is filled with. *)
Definition PageState_code (s : PageState) : Z :=
  match s with
  | kUnprocessed => 0
  | kProcessing => 1
  | kProcessed => 2
  | kProcessingAndMapping => 3
  | kMutatorProcessing => 4
  | kProcessedAndMapping => 5
  | kProcessedAndMapped => 6
  end.

(** [kPageStateMask]: the low byte of a status word. *)
Definition kPageStateMask : Z := 255.

Definition PageState_eqb (a b : PageState) : bool :=
  PageState_code a =? PageState_code b.

Definition all_PageStates : list PageState :=
  [kUnprocessed; kProcessing; kProcessed; kProcessingAndMapping;
   kMutatorProcessing; kProcessedAndMapping; kProcessedAndMapped].

(** [static_cast<PageState>(static_cast<uint8_t>(raw_state))]; a byte that
    is no enumerator decodes to [None]. *)
Definition state_of (raw : Z) : option PageState :=
  find (fun s => PageState_code s =? Z.land raw kPageStateMask) all_PageStates.

Definition is_state (raw : Z) (s : PageState) : bool :=
  Z.land raw kPageStateMask =? PageState_code s.

(** Truncation to [uint32_t] and [uint16_t]. *)
Definition to_uint32 (z : Z) : Z := z mod 2 ^ 32.
Definition to_uint16 (z : Z) : Z := z mod 2 ^ 16.
(** Truncation to [size_t]. *)
Definition to_size_t (z : Z) : Z := z mod 2 ^ 64.

(** The position of a state in the lifecycle of the spec:
    Unprocessed, then Processing or MutatorProcessing, then
    ProcessingAndMapping, Processed, ProcessedAndMapping,
    ProcessedAndMapped. *)
Definition lifecycle_rank (s : PageState) : nat :=
  match s with
  | kUnprocessed => 0
  | kProcessing => 1
  | kMutatorProcessing => 1
  | kProcessingAndMapping => 2
  | kProcessed => 3
  | kProcessedAndMapping => 4
  | kProcessedAndMapped => 5
  end%nat.

(** Strictly forward in the partial order of the lifecycle. *)
Definition lifecycle_lt (a b : PageState) : Prop :=
  (lifecycle_rank a < lifecycle_rank b)%nat.

Definition lifecycle_ltb (a b : PageState) : bool :=
  (lifecycle_rank a <? lifecycle_rank b)%nat.

(** ** Address helpers *)

Definition AlignDown (x n : Z) : Z := (x / n) * n.
Definition AlignUp (x n : Z) : Z := ((x + n - 1) / n) * n.
Definition RoundUp (x n : Z) : Z := ((x + n - 1) / n) * n.
Definition RoundDown (x n : Z) : Z := (x / n) * n.

Section Helpers.
Context {P : Platform}.

Definition DivideByPageSize (n : Z) : Z := n / gPageSize.
Definition ModuloPageSize (n : Z) : Z := n mod gPageSize.

End Helpers.

(** ** Events and programs

    A thread's code is a tree of atomic events.  An event is one access to
    the shared words (a load, a compare-and-swap, a store, a fetch-add),
    one system call, or one call of a routine that is not unfolded
    (copying a page's objects, backing off).  The tree branches on the
    answer to the event. *)

(** The arrays of page states: the status words of the moving space, and
    the page-status maps of the linear-alloc spaces (the [state_arr]
    argument of [MapProcessedPages]). *)
Inductive status_array : Type :=
| MovingPagesStatus
| LinearAllocPageStatus (space : nat).

Definition status_array_eqb (a b : status_array) : bool :=
  match a, b with
  | MovingPagesStatus, MovingPagesStatus => true
  | LinearAllocPageStatus m, LinearAllocPageStatus n => Nat.eqb m n
  | _, _ => false
  end.

Inductive Errno : Type := EAGAIN | ENOENT | EEXIST | EOTHER (n : Z).

Definition Errno_eqb (a b : Errno) : bool :=
  match a, b with
  | EAGAIN, EAGAIN | ENOENT, ENOENT | EEXIST, EEXIST => true
  | EOTHER m, EOTHER n => m =? n
  | _, _ => false
  end.

Inductive MadvBehavior : Type := MADV_REMOVE | MADV_DONTNEED.

Inductive event : Type :=
(* Atomic<...>::load, compare_exchange_strong, store on a page state *)
| AtomicLoad (arr : status_array) (idx : nat)
| AtomicCas (arr : status_array) (idx : nat) (expected desired : Z)
| AtomicStore (arr : status_array) (idx : nat) (v : Z)
(* compaction_in_progress_count_.fetch_add(1) / fetch_sub(1) *)
| InProgressFetchAdd (delta : Z)
(* compaction_buffer_counter_.fetch_add(1) *)
| BufferCounterFetchAdd
(* sigbus_in_progress_count_ *)
| SigbusCountLoad
| SigbusCountCas (expected desired : Z)
| SigbusCountFetchSub
(* ioctl(uffd_, UFFDIO_COPY / ZEROPAGE / CONTINUE / WAKE, ...) *)
| IoctlCopy (dst src len : Z)
| IoctlZeropage (start len : Z)
| IoctlContinue (start len : Z)
| IoctlWake (start len : Z)
| MadviseCall (addr size : Z) (behavior : MadvBehavior)
(* CompactPage(obj, offset, addr, needs_memset_zero) for page [idx] *)
| CompactPageCall (idx : nat) (obj offset addr : Z) (needs_memset_zero : bool)
(* SlideBlackPage(first_obj, next_page_first_obj, first_chunk_size,
                  pre_compact_page, dest, needs_memset_zero) for page [idx] *)
| SlideBlackPageCall (idx : nat) (first_obj next_page_first_obj
    first_chunk_size pre_compact_page dest : Z) (needs_memset_zero : bool)
| BackOffCall (i : Z)
(* ConcurrentlyProcessLinearAllocPage<kMode>(fault_page, is_minor_fault) *)
| ProcessLinearAllocPageCall (mode : Mode) (fault_page : Z) (is_minor_fault : bool)
(* read(uffd_, &msg, sizeof(msg)) *)
| ReadUffd
(* thread_pool_counter_-- *)
| ThreadPoolCounterDecr.

(** The answer to an event: nothing, a word, the outcome of a
    compare-and-swap with the word that was observed, or the outcome of a
    system call ([ret], [errno] and the byte count the kernel writes
    back). *)
Inductive resp : Type :=
| RUnit
| RVal (v : Z)
| RCas (ok : bool) (observed : Z)
| RSys (ret : Z) (err : Errno) (acted : Z)
| RMsg (nread : Z) (is_pagefault : bool) (address : Z) (minor : bool).

Definition resp_val (r : resp) : Z :=
  match r with
  | RVal v => v | RCas _ v => v | RSys _ _ v => v | RMsg _ _ v _ => v
  | RUnit => 0
  end.
Definition resp_ok (r : resp) : bool :=
  match r with RCas ok _ => ok | RSys ret _ _ => ret =? 0 | _ => true end.
Definition resp_ret (r : resp) : Z :=
  match r with RSys ret _ _ => ret | RMsg nread _ _ _ => nread | _ => 0 end.
Definition resp_flag (r : resp) : bool :=
  match r with RMsg _ b _ _ => b | _ => false end.
Definition resp_minor (r : resp) : bool :=
  match r with RMsg _ _ _ b => b | _ => false end.
Definition resp_errno (r : resp) : Errno :=
  match r with RSys _ e _ => e | _ => EOTHER 0 end.

Inductive prog (A : Type) : Type :=
| Ret (a : A)
| Crash                       (* CHECK failure, LOG(FATAL), UNREACHABLE() *)
| Spin                        (* the bound of a waiting loop is used up *)
| Vis (e : event) (k : resp -> prog A).

Arguments Ret {A} a.
Arguments Crash {A}.
Arguments Spin {A}.
Arguments Vis {A} e k.

Fixpoint bind {A B : Type} (p : prog A) (f : A -> prog B) : prog B :=
  match p with
  | Ret a => f a
  | Crash => Crash
  | Spin => Spin
  | Vis e k => Vis e (fun r => bind (k r) f)
  end.

Declare Scope prog_scope.
Delimit Scope prog_scope with prog.
Notation "x <- c1 ;; c2" := (bind c1 (fun x => c2))
  (at level 100, c1 at next level, right associativity) : prog_scope.
Notation "c1 ;; c2" := (bind c1 (fun _ => c2))
  (at level 100, right associativity) : prog_scope.
Local Open Scope prog_scope.

Definition trigger (e : event) : prog resp := Vis e (fun r => Ret r).

(** [CHECK(b)] *)
Definition CHECK (b : bool) : prog unit := if b then Ret tt else Crash.

(** One turn of a loop either goes on with a new loop state or leaves the
    loop with a result. *)
Inductive turn (S R : Type) : Type :=
| Continue (s : S)
| Break (r : R).
Arguments Continue {S R} s.
Arguments Break {S R} r.

(** A loop with a bound on the number of turns; a loop that uses up its
    bound ends in [Spin]. *)
Fixpoint loop {S R : Type} (fuel : nat) (body : S -> prog (turn S R)) (s : S)
  : prog R :=
  match fuel with
  | O => Spin
  | Datatypes.S fuel' =>
      x <- body s ;;
      match x with
      | Continue s' => loop fuel' body s'
      | Break r => Ret r
      end
  end.

(** ** The collector's data *)

(** [LinearAllocSpaceData]: the range of a registered linear-alloc space. *)
Record LinearAllocSpaceData : Type := {
  begin_ : Z;
  end_ : Z;
}.

(** The fields of [MarkCompact] that the compaction phase reads and never
    writes.  Addresses are integers and [0] is [nullptr].  [klass_SizeOf]
    stands for [from_klass->SizeOf<kVerifyNone>()] of the class at a
    to-space address, an operation of the object model. *)
Record MarkCompact : Type := {
  bump_pointer_space_Begin : Z;
  moving_space_begin_ : Z;
  moving_space_end_ : Z;
  from_space_begin_ : Z;
  from_space_slide_diff_ : Z;
  black_allocations_begin_ : Z;
  post_compact_end_ : Z;
  moving_first_objs_count_ : nat;
  black_page_count_ : nat;
  first_objs_moving_space_ : list Z;
  pre_compact_offset_moving_space_ : list Z;
  black_alloc_pages_first_chunk_size_ : list Z;
  class_after_obj_hash_map_ : list (Z * Z);
  super_class_after_class_hash_map_ : list (Z * Z);
  klass_SizeOf : Z -> Z;
  use_uffd_sigbus_ : bool;
  minor_fault_initialized_ : bool;
  linear_alloc_spaces_data_ : list LinearAllocSpaceData;
  compaction_buffers_map_Begin : Z;
  shadow_to_space_map_Begin : Z;
  conc_compaction_termination_page_ : Z;
  gKernelHasFaultRetry : bool;
}.

(** What the handler reads of [Thread::Current()]. *)
Record Thread : Type := {
  GetTlabStart : Z;
  GetTlabEnd : Z;
  GetThreadLocalGcBuffer : Z;
}.

Definition SetThreadLocalGcBuffer (self : Thread) (buf : Z) : Thread :=
  {| GetTlabStart := GetTlabStart self;
     GetTlabEnd := GetTlabEnd self;
     GetThreadLocalGcBuffer := buf |}.

(** The fields that only the collector thread writes while it compacts
    ("These variables are maintained by FreeFromSpacePages()").
    [class_after_obj_iter_] is the part of the ordered map that the
    reverse iterator has not passed yet, highest class first; [[]] is
    [rend()]. *)
Record Reclaim : Type := {
  last_reclaimed_page_ : Z;
  last_reclaimable_page_ : Z;
  cur_reclaimable_page_ : Z;
  last_checked_reclaim_page_idx_ : nat;
  class_after_obj_iter_ : list (Z * Z);
}.

(** [siginfo_t] *)
Record siginfo : Type := {
  si_code : Z;
  si_addr : Z;
}.

(** [BUS_ADRERR] of <signal.h>. *)
Definition BUS_ADRERR : Z := 2.

(** Reading an array of 32-bit entries; out of its bounds the model reads 0. *)
Definition read (l : list Z) (i : nat) : Z := default 0 (l !! i).

Definition load (arr : status_array) (idx : nat) : prog Z :=
  r <- trigger (AtomicLoad arr idx) ;; Ret (resp_val r).

(** [compare_exchange_strong]: the outcome, and the word observed (which
    C++ writes back into [expected] when the exchange fails). *)
Definition compare_exchange_strong (arr : status_array) (idx : nat)
    (expected desired : Z) : prog (bool * Z) :=
  r <- trigger (AtomicCas arr idx expected desired) ;;
  Ret (resp_ok r, if resp_ok r then expected else resp_val r).

Definition store (arr : status_array) (idx : nat) (v : Z) : prog unit :=
  trigger (AtomicStore arr idx v) ;; Ret tt.

Definition BackOff (i : Z) : prog unit :=
  trigger (BackOffCall i) ;; Ret tt.

Definition code := PageState_code.

Section Programs.
Context {P : Platform}.
Variable this : MarkCompact.
(** The bound on the turns of the loops that retry or wait. *)
Variable fuel : nat.

(** Modelled from the spec: [HasAddress] is declared in the collector's
    header; the moving region is a contiguous range of addresses. *)
Definition HasAddress (obj : Z) : bool :=
  (moving_space_begin_ this <=? obj) && (obj <? moving_space_end_ this).

(** *** CopyIoctl *)
Definition CopyIoctl (dst buffer length : Z) : prog unit :=
  loop fuel (fun '(dst, src, length) =>
    if length >? 0 then
      r <- trigger (IoctlCopy dst src length) ;;
      if resp_ret r =? 0 then
        Ret (Break tt)
      else if Errno_eqb (resp_errno r) EAGAIN then
        (* Ioctl aborted due to mmap_lock contention. Adjust the values
           and try again. *)
        let copy := resp_val r in
        let length := to_size_t (length - copy) in
        Ret (Continue (dst + copy, src + copy, length))
      else
        Crash
    else
      Ret (Break tt)) (dst, buffer, length).

(** *** ZeropageIoctl *)
Definition ZeropageIoctl (addr length : Z) (tolerate_eexist tolerate_enoent : bool)
  : prog unit :=
  loop fuel (fun '(start, length) =>
    if length >? 0 then
      r <- trigger (IoctlZeropage start length) ;;
      if resp_ret r =? 0 then
        Ret (Break tt)
      else if Errno_eqb (resp_errno r) EAGAIN then
        let zeropage := resp_val r in
        let length := to_size_t (length - zeropage) in
        Ret (Continue (start + zeropage, length))
      else
        CHECK ((tolerate_enoent && Errno_eqb (resp_errno r) ENOENT)
               || (tolerate_eexist && Errno_eqb (resp_errno r) EEXIST)) ;;
        Ret (Break tt)
    else
      Ret (Break tt)) (addr, length).

(** *** MapProcessedPages *)

(** The claiming loop: [for (; arr_idx < arr_len; arr_idx++, length += gPageSize)]
    with a compare-and-swap from [kProcessed] to [kProcessedAndMapping]. *)
Definition claim_processed (state_arr : status_array) (arr_idx arr_len : nat)
    (length : Z) : prog (nat * Z) :=
  loop (S (arr_len - arr_idx)) (fun '(arr_idx, length) =>
    if (arr_idx <? arr_len)%nat then
      c <- compare_exchange_strong state_arr arr_idx
             (code kProcessed) (code kProcessedAndMapping) ;;
      if fst c then Ret (Continue (S arr_idx, length + gPageSize))
      else Ret (Break (arr_idx, length))
    else Ret (Break (arr_idx, length))) (arr_idx, length).

(** [for (...; len > 0; len -= gPageSize) { arr_idx--; store(s); }] *)
Definition store_backwards (state_arr : status_array) (s : PageState)
    (arr_idx : nat) (len : Z) : prog nat :=
  loop (S (Z.to_nat (len / gPageSize))) (fun '(arr_idx, len) =>
    if len >? 0 then
      let arr_idx := Nat.pred arr_idx in
      store state_arr arr_idx (code s) ;;
      Ret (Continue (arr_idx, len - gPageSize))
    else Ret (Break arr_idx)) (arr_idx, len).

Definition MapProcessedPages (kFirstPageMapping : bool) (to_space_start : Z)
    (state_arr : status_array) (arr_idx arr_len : nat) : prog unit :=
  let length := if kFirstPageMapping then gPageSize else 0 in
  let arr_idx := if kFirstPageMapping then S arr_idx else arr_idx in
  claimed <- claim_processed state_arr arr_idx arr_len length ;;
  let '(arr_idx, length) := claimed in
  if length >? 0 then
    r <- trigger (IoctlContinue to_space_start length) ;;
    let mapped := resp_val r in
    arr_idx <-
      (if (resp_ret r =? -1) && Errno_eqb (resp_errno r) EAGAIN then
         (* Bail out by setting the remaining pages' state back to
            kProcessed and then waking up any waiting threads. *)
         arr_idx <- store_backwards state_arr kProcessed arr_idx
                      (to_size_t (length - mapped)) ;;
         w <- trigger (IoctlWake (to_space_start + mapped) (length - mapped)) ;;
         CHECK (resp_ret w =? 0) ;;
         Ret arr_idx
       else
         CHECK ((resp_ret r =? 0) || negb kFirstPageMapping
                || Errno_eqb (resp_errno r) ENOENT) ;;
         Ret arr_idx) ;;
    if use_uffd_sigbus_ this then
      store_backwards state_arr kProcessedAndMapped arr_idx mapped ;;
      Ret tt
    else Ret tt
  else Ret tt.

(** *** DoPageCompactionWithStateChange *)
Definition DoPageCompactionWithStateChange (kMode : Mode) (page_idx : nat)
    (to_space_page page : Z) (map_immediately : bool) (func : prog unit)
  : prog bool :=
  let expected_state := code kUnprocessed in
  let desired_state :=
    code (if map_immediately then kProcessingAndMapping else kProcessing) in
  won <- (if Mode_eqb kMode kFallbackMode then Ret true
          else c <- compare_exchange_strong MovingPagesStatus page_idx
                      expected_state desired_state ;;
               Ret (fst c)) ;;
  if won : bool then
    func ;;
    match kMode with
    | kCopyMode =>
        if map_immediately then
          CopyIoctl to_space_page page gPageSize ;;
          store MovingPagesStatus page_idx (code kProcessedAndMapped) ;;
          Ret true
        else
          (* Add the src page's index in the status word. *)
          let store_val := to_uint32 (page - from_space_begin_ this) in
          let store_val := Z.lor store_val (code kProcessed) in
          store MovingPagesStatus page_idx store_val ;;
          Ret true
    | kMinorFaultMode =>
        compare_exchange_strong MovingPagesStatus page_idx
          (code kProcessing) (code kProcessed) ;;
        Crash
    | kFallbackMode => Ret true
    end
  else
    Ret false.

(** *** MapMovingSpacePages *)

(** The claiming loop of [MapMovingSpacePages]. *)
Definition claim_moving (arr_idx arr_len : nat) : prog Z :=
  loop (S (arr_len - arr_idx)) (fun '(i, length) =>
    if (i <? arr_len)%nat then
      let desired_state := code kProcessedAndMapping in
      cur_state <- load MovingPagesStatus i ;;
      if negb (is_state cur_state kProcessed) then Ret (Break length)
      else
        c <- compare_exchange_strong MovingPagesStatus i cur_state desired_state ;;
        if fst c then Ret (Continue (S i, length + gPageSize))
        else Ret (Break length)
    else Ret (Break length)) (arr_idx, 0).

(** [for (size_t i = arr_idx; length > 0; length -= gPageSize, i++)] *)
Definition store_mapped (arr_idx : nat) (length : Z) : prog Z :=
  loop (S (Z.to_nat (length / gPageSize))) (fun '(i, length) =>
    if length >? 0 then
      store MovingPagesStatus i (code kProcessedAndMapped) ;;
      Ret (Continue (S i, length - gPageSize))
    else Ret (Break length)) (arr_idx, length).

Definition MapMovingSpacePages (arr_idx arr_len : nat) : prog Z :=
  cur_state <- load MovingPagesStatus arr_idx ;;
  if negb (is_state cur_state kProcessed) then
    Ret 0
  else
    let from_space_offset := Z.land cur_state (Z.lnot kPageStateMask) in
    let to_space_start := moving_space_begin_ this + Z.of_nat arr_idx * gPageSize in
    let from_space_start := from_space_begin_ this + from_space_offset in
    length <- claim_moving arr_idx arr_len ;;
    if length >? 0 then
      CopyIoctl to_space_start from_space_start length ;;
      length <- store_mapped arr_idx length ;;
      Ret length
    else
      Ret length.

(** *** FreeFromSpacePages *)

(** [for (; idx > cur_page_idx; idx--)]: the to-space page up to which the
    from-space pages can be freed. *)
Definition scan_reclaim_idx (cur_page_idx idx : nat) : prog nat :=
  loop (S (idx - cur_page_idx)) (fun idx =>
    if (cur_page_idx <? idx)%nat then
      raw <- load MovingPagesStatus (idx - 1) ;;
      if is_state raw kMutatorProcessing then
        (* Some mutator is working on the page. *)
        Ret (Break idx)
      else Ret (Continue (idx - 1)%nat)
    else Ret (Break idx)) idx.

(** The first page among [i, i+1, ..., i+count-1] whose first object is
    not [first_obj], with that object. *)
Fixpoint find_different (first_obj : Z) (i count : nat) : option (nat * Z) :=
  match count with
  | O => None
  | S count =>
      let obj := read (first_objs_moving_space_ this) i in
      if obj =? first_obj then find_different first_obj (S i) count
      else Some (i, obj)
  end.

(** The first from-space page to be freed, calculated from [idx]; the
    result is [(reclaim_begin, idx_addr)]. *)
Definition reclaim_begin_of (idx : nat) : Z * Z :=
  if (moving_first_objs_count_ this <=? idx)%nat then
    (* black-allocated portion of the moving-space *)
    let idx_addr := black_allocations_begin_ this
                    + Z.of_nat (idx - moving_first_objs_count_ this) * gPageSize in
    let reclaim_begin := idx_addr in
    let first_obj := read (first_objs_moving_space_ this) idx in
    let reclaim_begin :=
      if negb (first_obj =? 0) && (first_obj <? reclaim_begin) then
        let idx_len := (moving_first_objs_count_ this + black_page_count_ this)%nat in
        match find_different first_obj (idx + 1) (idx_len - (idx + 1)) with
        | Some (i, obj) =>
            if negb (obj =? 0) then AlignUp obj gPageSize
            else black_allocations_begin_ this
                 + Z.of_nat (i - moving_first_objs_count_ this) * gPageSize
        | None => reclaim_begin
        end
      else reclaim_begin in
    (reclaim_begin, idx_addr)
  else
    let idx_addr := bump_pointer_space_Begin this
                    + read (pre_compact_offset_moving_space_ this) idx * kAlignment in
    let reclaim_begin := idx_addr in
    let first_obj := read (first_objs_moving_space_ this) idx in
    let reclaim_begin :=
      if first_obj <? reclaim_begin then
        match find_different first_obj (idx + 1)
                (moving_first_objs_count_ this - (idx + 1)) with
        | Some (_, obj) => obj
        | None => black_allocations_begin_ this
        end
      else reclaim_begin in
    (AlignUp reclaim_begin gPageSize, idx_addr).

(** "Check if the 'class_after_obj_map_' map allows pages to be freed."
    The result is the new [reclaim_begin] and the new position of the
    iterator. *)
Fixpoint class_after_obj_scan (iter : list (Z * Z)) (reclaim_begin idx_addr : Z)
  : Z * list (Z * Z) :=
  match iter with
  | [] => (reclaim_begin, [])
  | (klass, obj_addr) :: rest =>
      (* Check with class' end to ensure that, if required, the entire
         class survives. *)
      let klass_end := klass + klass_SizeOf this klass in
      if klass_end >=? reclaim_begin then
        (* Found a class which is in the reclaim range. *)
        if obj_addr <? idx_addr then
          (* Its lowest-address object is not compacted yet. Reclaim
             starting from the end of this class. *)
          (AlignUp klass_end gPageSize, iter)
        else
          class_after_obj_scan rest reclaim_begin idx_addr
      else
        (reclaim_begin, iter)
  end.

(** Waiting for page [i] to be mapped. *)
Definition wait_mapped (i : nat) : prog unit :=
  raw <- load MovingPagesStatus i ;;
  loop fuel (fun '(raw, backoff_count) =>
    if negb (is_state raw kProcessedAndMapped) then
      BackOff backoff_count ;;
      raw <- load MovingPagesStatus i ;;
      Ret (Continue (raw, backoff_count + 1))
    else Ret (Break tt)) (raw, 0).

Definition wait_all_mapped (i end_idx : nat) : prog unit :=
  loop (S (end_idx - i)) (fun i =>
    if (i <? end_idx)%nat then
      wait_mapped i ;; Ret (Continue (S i))
    else Ret (Break tt)) i.

Definition FreeFromSpacePages (rc : Reclaim) (cur_page_idx : nat) (mode : Mode)
    (end_idx_for_mapping : nat) : prog (bool * Reclaim) :=
  idx <- scan_reclaim_idx cur_page_idx (last_checked_reclaim_page_idx_ rc) ;;
  if (idx =? last_checked_reclaim_page_idx_ rc)%nat then
    (* Nothing to do. *)
    Ret (false, rc)
  else
    let '(reclaim_begin, idx_addr) := reclaim_begin_of idx in
    let '(reclaim_begin, iter) :=
      class_after_obj_scan (class_after_obj_iter_ rc) reclaim_begin idx_addr in
    let ret := Mode_eqb mode kFallbackMode in
    let size := last_reclaimed_page_ rc - reclaim_begin in
    madv <-
      (if size >? kMinFromSpaceMadviseSize then
         (* Map all the pages in the range. *)
         ret <-
           (if Mode_eqb mode kCopyMode && (cur_page_idx <? end_idx_for_mapping)%nat then
              len <- MapMovingSpacePages cur_page_idx end_idx_for_mapping ;;
              wait_all_mapped (cur_page_idx + Z.to_nat (DivideByPageSize len))
                              end_idx_for_mapping ;;
              Ret true
            else Ret ret) ;;
         (* Retain a few pages for subsequent compactions. *)
         let gBufferPages := 4 * gPageSize in
         let size := size - gBufferPages in
         let addr := last_reclaimed_page_ rc - size in
         let behavior :=
           if minor_fault_initialized_ this then MADV_REMOVE else MADV_DONTNEED in
         r <- trigger (MadviseCall (addr + from_space_slide_diff_ this) size behavior) ;;
         CHECK (resp_ret r =? 0) ;;
         Ret (ret, addr, addr)
       else Ret (ret, last_reclaimed_page_ rc, cur_reclaimable_page_ rc)) ;;
    let '(ret, last_reclaimed, cur_reclaimable) := madv in
    CHECK (reclaim_begin <=? last_reclaimable_page_ rc) ;;
    Ret (ret, {| last_reclaimed_page_ := last_reclaimed;
                 last_reclaimable_page_ := reclaim_begin;
                 cur_reclaimable_page_ := cur_reclaimable;
                 last_checked_reclaim_page_idx_ := idx;
                 class_after_obj_iter_ := iter |}).

(** *** UpdateClassAfterObjMap *)

(** [class_after_obj_ordered_map_.try_emplace(key, obj)], followed by the
    choice of the lowest-address object when the key is present. *)
Fixpoint emplace_lowest (key obj : Z) (m : list (Z * Z)) : list (Z * Z) :=
  match m with
  | [] => [(key, obj)]
  | (k, o) :: m' =>
      if key <? k then (key, obj) :: m
      else if key =? k then (k, if obj <? o then obj else o) :: m'
      else (k, o) :: emplace_lowest key obj m'
  end.

Definition hash_map_find (m : list (Z * Z)) (key : Z) : option Z :=
  snd <$> find (fun kv => fst kv =? key) m.

(** The ordered map, in ascending order of the class address. *)
Definition UpdateClassAfterObjMap : list (Z * Z) :=
  fold_left (fun ordered pair =>
    let key := match hash_map_find (super_class_after_class_hash_map_ this) (fst pair) with
               | Some super => super
               | None => fst pair
               end in
    if (snd pair <? key) && HasAddress key then emplace_lowest key (snd pair) ordered
    else ordered) (class_after_obj_hash_map_ this) [].

(** *** CompactMovingSpace *)

(** The loop over the allocated-black pages.  The loop state is [idx],
    [pre_compact_page], [to_space_end], [shadow_space_end], [page],
    [next_page_first_obj] and the reclaim fields. *)
Definition compact_black_pages (kMode : Mode)
    (st : nat * Z * Z * Z * Z * Z * Reclaim)
  : prog (nat * Z * Z * Z * Z * Z * Reclaim) :=
  let '(idx0, _, _, _, _, _, _) := st in
  loop (S (idx0 - moving_first_objs_count_ this)) (fun st =>
    let '(idx, pre_compact_page, to_space_end, shadow_space_end, page,
          next_page_first_obj, rc) := st in
    if (moving_first_objs_count_ this <? idx)%nat then
      let idx := (idx - 1)%nat in
      let pre_compact_page := pre_compact_page - gPageSize in
      let to_space_end := to_space_end - gPageSize in
      let shadow_space_end :=
        if Mode_eqb kMode kMinorFaultMode then shadow_space_end - gPageSize
        else shadow_space_end in
      let page :=
        if Mode_eqb kMode kMinorFaultMode then shadow_space_end
        else if Mode_eqb kMode kFallbackMode then to_space_end
        else page in
      let first_obj := read (first_objs_moving_space_ this) idx in
      let first_chunk_size := read (black_alloc_pages_first_chunk_size_ this) idx in
      rc <-
        (if negb (first_obj =? 0) then
           DoPageCompactionWithStateChange kMode idx to_space_end page true
             (trigger (SlideBlackPageCall idx first_obj next_page_first_obj
                         first_chunk_size pre_compact_page page
                         (Mode_eqb kMode kCopyMode)) ;; Ret tt) ;;
           (* We are sliding here, so no point attempting to madvise for
              every page. Wait for enough pages to be done. *)
           if Z.of_nat idx mod DivideByPageSize kMinFromSpaceMadviseSize =? 0 then
             f <- FreeFromSpacePages rc idx kMode 0 ;; Ret (snd f)
           else Ret rc
         else Ret rc) ;;
      Ret (Continue (idx, pre_compact_page, to_space_end, shadow_space_end, page,
                     first_obj, rc))
    else Ret (Break st)) st.

(** The loop over the pages of the compacted portion.  The loop state is
    [idx], [to_space_end], [shadow_space_end], [page],
    [end_idx_for_mapping] and the reclaim fields. *)
Definition compact_moving_pages (kMode : Mode) (reserve_page : Z)
    (st : nat * Z * Z * Z * nat * Reclaim)
  : prog (nat * Z * Z * Z * nat * Reclaim) :=
  let '(idx0, _, _, _, _, _) := st in
  loop (S idx0) (fun st =>
    let '(idx, to_space_end, shadow_space_end, page, end_idx_for_mapping, rc) := st in
    if (0 <? idx)%nat then
      let idx := (idx - 1)%nat in
      let to_space_end := to_space_end - gPageSize in
      let shadow_space_end :=
        if Mode_eqb kMode kMinorFaultMode then shadow_space_end - gPageSize
        else shadow_space_end in
      let '(page, rc) :=
        if Mode_eqb kMode kMinorFaultMode then (shadow_space_end, rc)
        else if Mode_eqb kMode kFallbackMode then (to_space_end, rc)
        else
          if cur_reclaimable_page_ rc >? last_reclaimable_page_ rc then
            let cur := cur_reclaimable_page_ rc - gPageSize in
            (cur + from_space_slide_diff_ this,
             {| last_reclaimed_page_ := last_reclaimed_page_ rc;
                last_reclaimable_page_ := last_reclaimable_page_ rc;
                cur_reclaimable_page_ := cur;
                last_checked_reclaim_page_idx_ := last_checked_reclaim_page_idx_ rc;
                class_after_obj_iter_ := class_after_obj_iter_ rc |})
          else (reserve_page, rc) in
      let first_obj := read (first_objs_moving_space_ this) idx in
      success <-
        DoPageCompactionWithStateChange kMode idx to_space_end page
          (page =? reserve_page)
          (trigger (CompactPageCall idx first_obj
                      (read (pre_compact_offset_moving_space_ this) idx) page
                      (Mode_eqb kMode kCopyMode)) ;; Ret tt) ;;
      (if Mode_eqb kMode kCopyMode && (negb success || (page =? reserve_page))
          && (1 <? end_idx_for_mapping - idx)%nat then
         (* map the pages in the following pages as they can't be mapped
            with the subsequent pages as their src-side pages won't be
            contiguous. *)
         MapMovingSpacePages (idx + 1) end_idx_for_mapping ;; Ret tt
       else Ret tt) ;;
      f <- FreeFromSpacePages rc idx kMode end_idx_for_mapping ;;
      let end_idx_for_mapping := if fst f then idx else end_idx_for_mapping in
      Ret (Continue (idx, to_space_end, shadow_space_end, page,
                     end_idx_for_mapping, snd f))
    else Ret (Break st)) st.

Definition CompactMovingSpace (kMode : Mode) (page : Z) : prog unit :=
  let page_status_arr_len :=
    (moving_first_objs_count_ this + black_page_count_ this)%nat in
  let idx := page_status_arr_len in
  let to_space_end :=
    bump_pointer_space_Begin this + Z.of_nat page_status_arr_len * gPageSize in
  let shadow_space_end :=
    if Mode_eqb kMode kMinorFaultMode then
      shadow_to_space_map_Begin this + Z.of_nat page_status_arr_len * gPageSize
    else 0 in
  let pre_compact_page :=
    black_allocations_begin_ this + Z.of_nat (black_page_count_ this) * gPageSize in
  let class_after_obj_ordered_map_ := UpdateClassAfterObjMap in
  (* These variables are maintained by FreeFromSpacePages(). *)
  let rc := {| last_reclaimed_page_ := pre_compact_page;
               last_reclaimable_page_ := pre_compact_page;
               cur_reclaimable_page_ := pre_compact_page;
               last_checked_reclaim_page_idx_ := idx;
               class_after_obj_iter_ := rev class_after_obj_ordered_map_ |} in
  (* Allocated-black pages *)
  st <- compact_black_pages kMode
          (idx, pre_compact_page, to_space_end, shadow_space_end, page, 0, rc) ;;
  let '(idx, _, to_space_end, shadow_space_end, page, _, rc) := st in
  (* Reserved page to be used if we can't find any reclaimable page for
     processing. *)
  let reserve_page := page in
  let end_idx_for_mapping := idx in
  st <- compact_moving_pages kMode reserve_page
          (idx, to_space_end, shadow_space_end, page, end_idx_for_mapping, rc) ;;
  let '(idx, _, _, _, end_idx_for_mapping, _) := st in
  (* map one last time to finish anything left. *)
  if Mode_eqb kMode kCopyMode && (0 <? end_idx_for_mapping)%nat then
    MapMovingSpacePages idx end_idx_for_mapping ;; Ret tt
  else Ret tt.

(** *** ConcurrentlyProcessMovingPage *)

(** The loop that claims the empty pages of the remaining TLAB. *)
Definition claim_zero_pages (page_idx end_idx : nat) : prog Z :=
  loop (S (end_idx - page_idx)) (fun '(idx, length) =>
    if (idx <? end_idx)%nat then
      (* We should never have a case where two workers are trying to
         install a zeropage in this range as we synchronize using
         moving_pages_status_[page_idx]. *)
      c <- compare_exchange_strong MovingPagesStatus idx
             (code kUnprocessed) (code kProcessedAndMapping) ;;
      if fst c then Ret (Continue (S idx, length + gPageSize))
      else Ret (Break length)
    else Ret (Break length)) (page_idx, 0).

(** [for (size_t len = 0, idx = page_idx; len < length; idx++, len += gPageSize)] *)
Definition store_zero_pages (page_idx : nat) (length : Z) : prog unit :=
  loop (S (Z.to_nat (length / gPageSize))) (fun '(len, idx) =>
    if len <? length then
      store MovingPagesStatus idx (code kProcessedAndMapped) ;;
      Ret (Continue (len + gPageSize, S idx))
    else Ret (Break tt)) (0, page_idx).

Definition ConcurrentlyProcessMovingPage (kMode : Mode) (self : Thread)
    (fault_page buf : Z) (nr_moving_space_used_pages : nat) : prog Thread :=
  let unused_space_begin :=
    bump_pointer_space_Begin this + Z.of_nat nr_moving_space_used_pages * gPageSize in
  if Mode_eqb kMode kCopyMode && (fault_page >=? unused_space_begin) then
    (* There is a race which allows more than one thread to install a
       zero-page. But we can tolerate that. *)
    ZeropageIoctl fault_page gPageSize true true ;;
    Ret self
  else
    let page_idx :=
      Z.to_nat (DivideByPageSize (fault_page - bump_pointer_space_Begin this)) in
    let first_obj := read (first_objs_moving_space_ this) page_idx in
    if first_obj =? 0 then
      (* Install zero-page in the entire remaining tlab to avoid multiple
         ioctl invocations. *)
      let end_ := AlignDown (GetTlabEnd self) gPageSize in
      let end_ :=
        if (fault_page <? GetTlabStart self) || (fault_page >=? end_)
        then fault_page + gPageSize else end_ in
      let end_idx :=
        (page_idx + Z.to_nat (DivideByPageSize (end_ - fault_page)))%nat in
      length <- claim_zero_pages page_idx end_idx ;;
      (if length >? 0 then
         ZeropageIoctl fault_page length false true ;;
         store_zero_pages page_idx length
       else Ret tt) ;;
      Ret self
    else
      raw_state <- load MovingPagesStatus page_idx ;;
      loop fuel (fun '(raw_state, backoff_count, buf, self) =>
        if is_state raw_state kProcessing || is_state raw_state kMutatorProcessing
           || is_state raw_state kProcessingAndMapping
           || is_state raw_state kProcessedAndMapping then
          if negb (use_uffd_sigbus_ this) then
            Ret (Break self)
          else
            (* Wait for the page to be mapped (by gc-thread or some
               mutator) before returning. *)
            BackOff backoff_count ;;
            raw_state <- load MovingPagesStatus page_idx ;;
            Ret (Continue (raw_state, backoff_count + 1, buf, self))
        else if is_state raw_state kProcessedAndMapped then
          (* Nothing to do. *)
          Ret (Break self)
        else
          (* ScopedInProgressCount spc(this) *)
          trigger (InProgressFetchAdd 1) ;;
          c <- (if is_state raw_state kUnprocessed then
                  compare_exchange_strong MovingPagesStatus page_idx raw_state
                    (code kMutatorProcessing)
                else Ret (false, raw_state)) ;;
          if fst c then
            bs <-
              (if Mode_eqb kMode kMinorFaultMode then
                 Ret (shadow_to_space_map_Begin this + Z.of_nat page_idx * gPageSize,
                      self)
               else if buf =? 0 then
                 r <- trigger BufferCounterFetchAdd ;;
                 let idx := to_uint16 (resp_val r) in
                 (* The buffer-map is one page bigger as the first buffer
                    is used by GC-thread. *)
                 CHECK (idx <=? kMutatorCompactionBufferCount) ;;
                 let buf := compaction_buffers_map_Begin this + idx * gPageSize in
                 Ret (buf, SetThreadLocalGcBuffer self buf)
               else Ret (buf, self)) ;;
            let '(buf, self) := bs in
            (if fault_page <? post_compact_end_ this then
               (* The page has to be compacted. *)
               trigger (CompactPageCall page_idx first_obj
                          (read (pre_compact_offset_moving_space_ this) page_idx)
                          buf (Mode_eqb kMode kCopyMode))
             else
               let pre_compact_page :=
                 black_allocations_begin_ this + (fault_page - post_compact_end_ this) in
               let first_chunk_size :=
                 read (black_alloc_pages_first_chunk_size_ this) page_idx in
               let next_page_first_obj :=
                 if (page_idx + 1 <?
                     moving_first_objs_count_ this + black_page_count_ this)%nat
                 then read (first_objs_moving_space_ this) (page_idx + 1) else 0 in
               trigger (SlideBlackPageCall page_idx first_obj next_page_first_obj
                          first_chunk_size pre_compact_page buf
                          (Mode_eqb kMode kCopyMode))) ;;
            store MovingPagesStatus page_idx (code kProcessedAndMapping) ;;
            if Mode_eqb kMode kCopyMode then
              CopyIoctl fault_page buf gPageSize ;;
              store MovingPagesStatus page_idx (code kProcessedAndMapped) ;;
              trigger (InProgressFetchAdd (-1)) ;;
              Ret (Break self)
            else
              (* We don't support minor-fault feature anymore. *)
              Crash
          else
            let raw_state := snd c in
            if is_state raw_state kProcessed then
              let arr_len :=
                (moving_first_objs_count_ this + black_page_count_ this)%nat in
              (* The page is processed but not mapped. We should map it. *)
              len <- MapMovingSpacePages page_idx arr_len ;;
              if len >=? gPageSize then
                trigger (InProgressFetchAdd (-1)) ;;
                Ret (Break self)
              else
                raw_state <- load MovingPagesStatus page_idx ;;
                trigger (InProgressFetchAdd (-1)) ;;
                Ret (Continue (raw_state, backoff_count, buf, self))
            else
              trigger (InProgressFetchAdd (-1)) ;;
              Ret (Continue (raw_state, backoff_count, buf, self)))
        (raw_state, 0, buf, self).

(** *** ConcurrentCompaction

    The loop of a helper thread.  It handles the faults that the kernel
    hands it until the fault on the termination page. *)
Definition ConcurrentCompaction (kMode : Mode) (self : Thread) (buf : Z) : prog unit :=
  let nr_moving_space_used_pages :=
    (moving_first_objs_count_ this + black_page_count_ this)%nat in
  loop fuel (fun self =>
    msg <- trigger ReadUffd ;;
    CHECK (resp_ret msg >? 0) ;;
    CHECK (resp_flag msg) ;;
    let fault_addr := resp_val msg in
    if fault_addr =? conc_compaction_termination_page_ this then
      r <- trigger ThreadPoolCounterDecr ;;
      let ret := resp_val r mod 2 ^ 8 in
      (if negb (gKernelHasFaultRetry this) || (ret =? 1) then
         ZeropageIoctl fault_addr gPageSize false false
       else
         w <- trigger (IoctlWake fault_addr gPageSize) ;;
         CHECK (resp_ret w =? 0)) ;;
      Ret (Break tt)
    else
      let fault_page := AlignDown fault_addr gPageSize in
      if HasAddress fault_addr then
        self <- ConcurrentlyProcessMovingPage kMode self fault_page buf
                  nr_moving_space_used_pages ;;
        Ret (Continue self)
      else
        trigger (ProcessLinearAllocPageCall
                   (if minor_fault_initialized_ this then kMinorFaultMode
                    else kCopyMode) fault_page (resp_minor msg)) ;;
        Ret (Continue self)) self.

(** *** SigbusHandler *)

(** The constructor of [ScopedInProgressCount]: "Increment the count only
    if compaction is not done yet."  The result is [compaction_done_]. *)
Definition ScopedInProgressCount : prog bool :=
  prev <- trigger SigbusCountLoad ;;
  loop fuel (fun prev =>
    if Z.land prev kSigbusCounterCompactionDoneMask =? 0 then
      c <- trigger (SigbusCountCas prev (prev + 1)) ;;
      if resp_ok c then Ret (Break false)
      else Ret (Continue (resp_val c))
    else Ret (Break true)) (resp_val prev).

(** The destructor of [ScopedInProgressCount]. *)
Definition ScopedInProgressCount_exit (compaction_done : bool) : prog unit :=
  if negb compaction_done then trigger SigbusCountFetchSub ;; Ret tt
  else Ret tt.

Definition in_linear_alloc_space (fault_page : Z) (data : LinearAllocSpaceData) : bool :=
  (begin_ data <=? fault_page) && (end_ data >? fault_page).

Definition SigbusHandler (self : Thread) (info : siginfo) : prog (bool * Thread) :=
  if negb (si_code info =? BUS_ADRERR) then
    (* Userfaultfd raises SIGBUS with BUS_ADRERR. All other causes can't
       be handled here. *)
    Ret (false, self)
  else
    compaction_done <- ScopedInProgressCount ;;
    let fault_page := AlignDown (si_addr info) gPageSize in
    if negb compaction_done then
      if HasAddress fault_page then
        let nr_moving_space_used_pages :=
          (moving_first_objs_count_ this + black_page_count_ this)%nat in
        self <-
          (if minor_fault_initialized_ this then
             ConcurrentlyProcessMovingPage kMinorFaultMode self fault_page 0
               nr_moving_space_used_pages
           else
             ConcurrentlyProcessMovingPage kCopyMode self fault_page
               (GetThreadLocalGcBuffer self) nr_moving_space_used_pages) ;;
        ScopedInProgressCount_exit compaction_done ;;
        Ret (true, self)
      else
        (* Find the linear-alloc space containing fault-addr *)
        match find (in_linear_alloc_space fault_page) (linear_alloc_spaces_data_ this) with
        | Some _ =>
            trigger (ProcessLinearAllocPageCall
                       (if minor_fault_initialized_ this then kMinorFaultMode
                        else kCopyMode) fault_page false) ;;
            ScopedInProgressCount_exit compaction_done ;;
            Ret (true, self)
        | None =>
            (* Fault address doesn't belong to either moving-space or
               linear-alloc. *)
            ScopedInProgressCount_exit compaction_done ;;
            Ret (false, self)
        end
    else
      (* We may spuriously get SIGBUS fault, which was initiated before
         the compaction was finished, but ends up here. In that case, if
         the fault address is valid then consider it handled. *)
      Ret (HasAddress fault_page
           || existsb (in_linear_alloc_space fault_page) (linear_alloc_spaces_data_ this),
           self).

End Programs.

(** ** The shared words and the meaning of an event *)

(** The arrays of page states are modelled without their bounds (an access
    beyond the end of an array is undefined in C++). *)
Record Shared : Type := {
  status : status_array -> nat -> Z;
  compaction_in_progress_count_ : Z;
  compaction_buffer_counter_ : Z;
  sigbus_in_progress_count_ : Z;
  thread_pool_counter_ : Z;
}.

Definition set_status (sh : Shared) (arr : status_array) (idx : nat) (v : Z)
  : Shared :=
  {| status := fun a i => if status_array_eqb a arr && Nat.eqb i idx then v
                          else status sh a i;
     compaction_in_progress_count_ := compaction_in_progress_count_ sh;
     compaction_buffer_counter_ := compaction_buffer_counter_ sh;
     sigbus_in_progress_count_ := sigbus_in_progress_count_ sh;
     thread_pool_counter_ := thread_pool_counter_ sh |}.

Definition set_sigbus_count (sh : Shared) (v : Z) : Shared :=
  {| status := status sh;
     compaction_in_progress_count_ := compaction_in_progress_count_ sh;
     compaction_buffer_counter_ := compaction_buffer_counter_ sh;
     sigbus_in_progress_count_ := v;
     thread_pool_counter_ := thread_pool_counter_ sh |}.

(** The word an event acts on, before the event. *)
Definition word_before (sh : Shared) (e : event) : Z :=
  match e with
  | AtomicLoad arr idx | AtomicCas arr idx _ _ | AtomicStore arr idx _ =>
      status sh arr idx
  | InProgressFetchAdd _ => compaction_in_progress_count_ sh
  | BufferCounterFetchAdd => compaction_buffer_counter_ sh
  | SigbusCountLoad | SigbusCountCas _ _ | SigbusCountFetchSub =>
      sigbus_in_progress_count_ sh
  | ThreadPoolCounterDecr => thread_pool_counter_ sh
  | _ => 0
  end.

(** One event, executed atomically.  The answer of a system call is the
    kernel's, [env]; the routines that are not unfolded answer nothing. *)
Definition exec_event (sh : Shared) (e : event) (env : resp) : resp * Shared :=
  match e with
  | AtomicLoad arr idx => (RVal (status sh arr idx), sh)
  | AtomicCas arr idx expected desired =>
      let cur := status sh arr idx in
      if cur =? expected then (RCas true cur, set_status sh arr idx desired)
      else (RCas false cur, sh)
  | AtomicStore arr idx v => (RUnit, set_status sh arr idx v)
  | InProgressFetchAdd delta =>
      (RVal (compaction_in_progress_count_ sh),
       {| status := status sh;
          compaction_in_progress_count_ := compaction_in_progress_count_ sh + delta;
          compaction_buffer_counter_ := compaction_buffer_counter_ sh;
          sigbus_in_progress_count_ := sigbus_in_progress_count_ sh;
          thread_pool_counter_ := thread_pool_counter_ sh |})
  | BufferCounterFetchAdd =>
      (RVal (compaction_buffer_counter_ sh),
       {| status := status sh;
          compaction_in_progress_count_ := compaction_in_progress_count_ sh;
          compaction_buffer_counter_ := to_uint16 (compaction_buffer_counter_ sh + 1);
          sigbus_in_progress_count_ := sigbus_in_progress_count_ sh;
          thread_pool_counter_ := thread_pool_counter_ sh |})
  | SigbusCountLoad => (RVal (sigbus_in_progress_count_ sh), sh)
  | SigbusCountCas expected desired =>
      let cur := sigbus_in_progress_count_ sh in
      if cur =? expected then (RCas true cur, set_sigbus_count sh desired)
      else (RCas false cur, sh)
  | SigbusCountFetchSub =>
      (RVal (sigbus_in_progress_count_ sh),
       set_sigbus_count sh (sigbus_in_progress_count_ sh - 1))
  | IoctlCopy _ _ _ | IoctlZeropage _ _ | IoctlContinue _ _ | IoctlWake _ _
  | MadviseCall _ _ _ | ReadUffd => (env, sh)
  | ThreadPoolCounterDecr =>
      (RVal (thread_pool_counter_ sh),
       {| status := status sh;
          compaction_in_progress_count_ := compaction_in_progress_count_ sh;
          compaction_buffer_counter_ := compaction_buffer_counter_ sh;
          sigbus_in_progress_count_ := sigbus_in_progress_count_ sh;
          thread_pool_counter_ := thread_pool_counter_ sh - 1 |})
  | CompactPageCall _ _ _ _ _ | SlideBlackPageCall _ _ _ _ _ _ _
  | BackOffCall _ | ProcessLinearAllocPageCall _ _ _ => (RUnit, sh)
  end.

Definition is_syscall (e : event) : bool :=
  match e with
  | IoctlCopy _ _ _ | IoctlZeropage _ _ | IoctlContinue _ _ | IoctlWake _ _
  | MadviseCall _ _ _ | ReadUffd => true
  | _ => false
  end.

(** A system call that does all it was asked to. *)
Definition full_success (e : event) : resp :=
  match e with
  | IoctlCopy _ _ len | IoctlZeropage _ len | IoctlContinue _ len => RSys 0 (EOTHER 0) len
  | _ => RSys 0 (EOTHER 0) 0
  end.

(** An entry of a trace: the thread, the event, its answer, and the word
    the event acted on as it was before the event. *)
Record entry : Type := {
  tid : nat;
  ev : event;
  ans : resp;
  old_word : Z;
}.

(** ** One thread running alone *)

Inductive outcome (A : Type) : Type :=
| Done (a : A)
| Crashed
| Spinning.
Arguments Done {A} a.
Arguments Crashed {A}.
Arguments Spinning {A}.

(** [run p sh kernel]: the program runs to its end with no other thread
    in between.  [kernel] lists the answers of the system calls in the
    order of the calls; once the list is used up every call succeeds in
    full.  The result is the outcome, the shared words at the end, the
    events in the order they happened, and the answers not used. *)
Fixpoint run {A : Type} (p : prog A) (sh : Shared) (kernel : list resp)
  : outcome A * Shared * list entry * list resp :=
  match p with
  | Ret a => (Done a, sh, [], kernel)
  | Crash => (Crashed, sh, [], kernel)
  | Spin => (Spinning, sh, [], kernel)
  | Vis e k =>
      let env := if is_syscall e then default (full_success e) (head kernel)
                 else RUnit in
      let kernel' := if is_syscall e then tail kernel else kernel in
      let '(r, sh') := exec_event sh e env in
      let '(o, sh'', tr, rest) := run (k r) sh' kernel' in
      (o, sh'',
       {| tid := 0; ev := e; ans := r; old_word := word_before sh e |} :: tr,
       rest)
  end.

(** The program runs from [sh] to its end, with result [a], leaving the
    shared words [sh'] and the trace [tr]. *)
Definition runs {A : Type} (p : prog A) (sh : Shared) (kernel : list resp)
    (a : A) (sh' : Shared) (tr : list entry) (rest : list resp) : Prop :=
  run p sh kernel = (Done a, sh', tr, rest).

(** ** Threads running together *)

(** A configuration: the shared words, the code each thread has left to
    run, and the trace so far, the latest event first. *)
Record config : Type := {
  shared : Shared;
  pool : list (prog unit);
  trace : list entry;
}.

(** Thread [t] performs its next event; [env] is the kernel's answer if
    the event is a system call. *)
Definition step (t : nat) (env : resp) (c : config) : option config :=
  match pool c !! t with
  | Some (Vis e k) =>
      let '(r, sh') := exec_event (shared c) e env in
      Some {| shared := sh';
              pool := <[t := k r]> (pool c);
              trace := {| tid := t; ev := e; ans := r;
                          old_word := word_before (shared c) e |} :: trace c |}
  | _ => None
  end.

(** A schedule names, turn by turn, the thread that moves and the answer
    of the kernel; a turn of a thread that has nothing to run is
    skipped. *)
Fixpoint run_pool (sched : list (nat * resp)) (c : config) : config :=
  match sched with
  | [] => c
  | (t, env) :: sched' =>
      run_pool sched' (default c (step t env c))
  end.

Definition reachable (c0 c : config) : Prop :=
  exists sched, run_pool sched c0 = c.

(** All pages unprocessed, no handler in flight. *)
Definition fresh_shared : Shared :=
  {| status := fun _ _ => code kUnprocessed;
     compaction_in_progress_count_ := 0;
     compaction_buffer_counter_ := 1;
     sigbus_in_progress_count_ := 0;
     thread_pool_counter_ := 0 |}.

Definition initial (threads : list (prog unit)) : config :=
  {| shared := fresh_shared; pool := threads; trace := [] |}.

(** The first [n] words of an array of page states. *)
Definition status_prefix (sh : Shared) (arr : status_array) (n : nat) : list Z :=
  map (status sh arr) (seq 0 n).

(** ** Reading a trace *)

(** The event copies the objects of destination page [i]. *)
Definition compacts (i : nat) (e : event) : bool :=
  match e with
  | CompactPageCall idx _ _ _ _ => Nat.eqb idx i
  | SlideBlackPageCall idx _ _ _ _ _ _ => Nat.eqb idx i
  | _ => false
  end.

Definition is_compaction (e : event) : bool :=
  match e with
  | CompactPageCall _ _ _ _ _ | SlideBlackPageCall _ _ _ _ _ _ _ => true
  | _ => false
  end.

Definition compacted_page (e : event) : option nat :=
  match e with
  | CompactPageCall idx _ _ _ _ | SlideBlackPageCall idx _ _ _ _ _ _ => Some idx
  | _ => None
  end.

(** The number of times page [i] was compacted. *)
Definition compaction_count (i : nat) (tr : list entry) : nat :=
  length (List.filter (fun x => compacts i (ev x)) tr).

(** The entry is a compare-and-swap of thread [t] that moved moving-space
    page [i] from [kUnprocessed] to state [s]. *)
Definition wins_page (t i : nat) (s : PageState) (x : entry) : Prop :=
  tid x = t /\
  exists expected desired observed,
    ev x = AtomicCas MovingPagesStatus i expected desired /\
    ans x = RCas true observed /\
    state_of expected = Some kUnprocessed /\
    state_of desired = Some s.

(** The transition of a page state that an entry performs, if it writes
    one: the state before and the state after. *)
Definition transition_of (x : entry) : option (option PageState * option PageState) :=
  match ev x, ans x with
  | AtomicCas _ _ _ desired, RCas true observed =>
      Some (state_of observed, state_of desired)
  | AtomicStore _ _ v, _ => Some (state_of (old_word x), state_of v)
  | _, _ => None
  end.

Definition forward_transition (x : entry) : Prop :=
  match transition_of x with
  | Some (Some a, Some b) => lifecycle_lt a b
  | Some _ => False
  | None => True
  end.

(** ** Monitors

    A monitor watches the events of one thread: it has a state, says
    which events it allows in a state, and moves with each event and its
    answer.  [wp p Q m] holds when every run of [p] from monitor state
    [m], whatever the answers, performs only allowed events and ends, if
    it ends with a result, in a state that satisfies [Q]. *)

Section Monitor.
Context {M : Type}.
Variable allowed : M -> event -> Prop.
Variable next : M -> event -> resp -> M.

Fixpoint wp {A : Type} (p : prog A) (Q : A -> M -> Prop) (m : M) : Prop :=
  match p with
  | Ret a => Q a m
  | Crash => True
  | Spin => True
  | Vis e k => allowed m e /\ forall r, wp (k r) Q (next m e r)
  end.

(** The state of the monitor of thread [t] after the trace [tr] (latest
    event first). *)
Fixpoint replay (t : nat) (tr : list entry) (m0 : M) : M :=
  match tr with
  | [] => m0
  | x :: older =>
      let m := replay t older m0 in
      if Nat.eqb (tid x) t then next m (ev x) (ans x) else m
  end.

(** Every event of thread [t] in the trace was allowed when it happened. *)
Fixpoint accepted (t : nat) (tr : list entry) (m0 : M) : Prop :=
  match tr with
  | [] => True
  | x :: older =>
      accepted t older m0 /\ (tid x = t -> allowed (replay t older m0) (ev x))
  end.

End Monitor.

(** ** The ownership of pages

    The discipline of the page states.  A thread that moves a page out of
    [kUnprocessed] or [kProcessed] by a compare-and-swap owns the page
    until it stores [kProcessed] or [kProcessedAndMapped]; only the owner
    stores to the page, and only who moved the page out of
    [kUnprocessed] into one of the processing states may copy its
    objects, once. *)

Definition loc : Type := status_array * nat.

Definition loc_eqb (a b : loc) : bool :=
  status_array_eqb (fst a) (fst b) && Nat.eqb (snd a) (snd b).

Record token : Type := {
  tok_state : PageState;     (* the state the owner left the page in *)
  tok_compact : bool;        (* the owner has still to copy the objects *)
}.

Definition own : Type := loc -> option token.

Definition own_none : own := fun _ => None.

Definition own_put (K : own) (l : loc) (t : token) : own :=
  fun l' => if loc_eqb l' l then Some t else K l'.

Definition own_remove (K : own) (l : loc) : own :=
  fun l' => if loc_eqb l' l then None else K l'.

Definition owned_state (s : PageState) : bool :=
  match s with
  | kProcessing | kMutatorProcessing | kProcessingAndMapping
  | kProcessedAndMapping => true
  | _ => false
  end.

Definition compacting_state (s : PageState) : bool :=
  match s with
  | kProcessing | kMutatorProcessing | kProcessingAndMapping => true
  | _ => false
  end.

Definition claimable_state (s : PageState) : bool :=
  match s with
  | kUnprocessed | kProcessed => true
  | _ => false
  end.

Definition own_after_write (K : own) (l : loc) (b : PageState) (compact : bool) : own :=
  if owned_state b then own_put K l {| tok_state := b; tok_compact := compact |}
  else own_remove K l.

Definition own_allowed (K : own) (e : event) : Prop :=
  match e with
  | AtomicCas arr idx expected desired =>
      match state_of expected, state_of desired with
      | Some a, Some b =>
          lifecycle_lt a b /\
          match K (arr, idx) with
          | None => claimable_state a = true /\ owned_state b = true
          | Some _ => True
          end
      | _, _ => False
      end
  | AtomicStore arr idx v =>
      match K (arr, idx), state_of v with
      | Some t, Some b => lifecycle_lt (tok_state t) b
      | _, _ => False
      end
  | CompactPageCall idx _ _ _ _ | SlideBlackPageCall idx _ _ _ _ _ _ =>
      match K (MovingPagesStatus, idx) with
      | Some t => tok_compact t = true
      | None => False
      end
  | _ => True
  end.

Definition own_next (K : own) (e : event) (r : resp) : own :=
  match e with
  | AtomicCas arr idx expected desired =>
      if resp_ok r then
        match state_of expected, state_of desired with
        | Some a, Some b =>
            own_after_write K (arr, idx) b
              match K (arr, idx) with
              | Some t => tok_compact t
              | None => PageState_eqb a kUnprocessed && compacting_state b
              end
        | _, _ => K
        end
      else K
  | AtomicStore arr idx v =>
      match K (arr, idx), state_of v with
      | Some t, Some b => own_after_write K (arr, idx) b (tok_compact t)
      | _, _ => K
      end
  | CompactPageCall idx _ _ _ _ | SlideBlackPageCall idx _ _ _ _ _ _ =>
      match K (MovingPagesStatus, idx) with
      | Some t =>
          own_put K (MovingPagesStatus, idx)
            {| tok_state := tok_state t; tok_compact := false |}
      | None => K
      end
  | _ => K
  end.

(** A program keeps the discipline and gives back all it took. *)
Definition disciplined {A : Type} (p : prog A) : Prop :=
  wp own_allowed own_next p (fun _ K => forall l, K l = None) own_none.

(** The pages thread [t] owns after the trace. *)
Definition owns (t : nat) (tr : list entry) : own :=
  replay own_next t tr own_none.

(** ** The order of the collector's own compactions

    The monitor remembers the page the thread compacted last, and allows
    the compaction of a lower page only. *)

Definition desc_allowed (m : option nat) (e : event) : Prop :=
  match compacted_page e, m with
  | Some i, Some last => (i < last)%nat
  | _, _ => True
  end.

Definition desc_next (m : option nat) (e : event) (r : resp) : option nat :=
  match compacted_page e with
  | Some i => Some i
  | None => m
  end.

(** ** The parties of a collection cycle *)

Inductive job : Type :=
(* the collector thread: CompactMovingSpace<kMode>(page) *)
| CollectorJob (kMode : Mode) (page : Z)
(* a helper thread: ConcurrentCompaction<kMode>(buf) *)
| HelperJob (kMode : Mode) (self : Thread) (buf : Z)
(* an application thread: the access faults it takes, one handler each *)
| MutatorJob (self : Thread) (faults : list siginfo).

Definition concurrent_job (j : job) : Prop :=
  match j with
  | CollectorJob kMode _ | HelperJob kMode _ _ => kMode <> kFallbackMode
  | MutatorJob _ _ => True
  end.

Section Parties.
Context {P : Platform}.
Variable this : MarkCompact.
Variable fuel : nat.

Fixpoint handle_faults (self : Thread) (faults : list siginfo) : prog unit :=
  match faults with
  | [] => Ret tt
  | info :: faults' =>
      r <- SigbusHandler this fuel self info ;;
      handle_faults (snd r) faults'
  end.

Definition code_of (j : job) : prog unit :=
  match j with
  | CollectorJob kMode page => CompactMovingSpace this fuel kMode page
  | HelperJob kMode self buf => ConcurrentCompaction this fuel kMode self buf
  | MutatorJob self faults => handle_faults self faults
  end.

End Parties.

(** ** The invariant of the page states

    [compactions_won tr]: every compaction in the trace is preceded, in
    the same thread, by the compare-and-swap that moved the page out of
    [kUnprocessed] into one of the processing states. *)
Fixpoint compactions_won (tr : list entry) : Prop :=
  match tr with
  | [] => True
  | x :: older =>
      compactions_won older /\
      forall i, compacted_page (ev x) = Some i ->
        exists y s, In y older /\ wins_page (tid x) i s y /\
                    compacting_state s = true
  end.

Record own_inv (c : config) : Prop := {
  (* a token tells the state of its page *)
  inv_state : forall t l tok, owns t (trace c) l = Some tok ->
    state_of (status (shared c) (fst l) (snd l)) = Some (tok_state tok) /\
    owned_state (tok_state tok) = true;
  (* a page has one owner at most *)
  inv_excl : forall t1 t2 l tok, t1 <> t2 ->
    owns t1 (trace c) l = Some tok -> owns t2 (trace c) l = None;
  (* a page is compacted once at most *)
  inv_once : forall i, (compaction_count i (trace c) <= 1)%nat;
  (* who has still to compact a page holds the only right to do so *)
  inv_todo : forall t i tok,
    owns t (trace c) (MovingPagesStatus, i) = Some tok ->
    tok_compact tok = true -> compaction_count i (trace c) = 0%nat;
  (* an unprocessed page was never compacted *)
  inv_fresh : forall i,
    state_of (status (shared c) MovingPagesStatus i) = Some kUnprocessed ->
    compaction_count i (trace c) = 0%nat;
  (* every write moved its page forward *)
  inv_forward : Forall forward_transition (trace c);
  (* who has still to compact a page won it *)
  inv_winner : forall t i tok,
    owns t (trace c) (MovingPagesStatus, i) = Some tok ->
    tok_compact tok = true ->
    exists y s, In y (trace c) /\ wins_page t i s y /\ compacting_state s = true;
  inv_compactor : compactions_won (trace c);
}.

(** Equality of locations is decidable. *)
#[global] Instance status_array_eq_dec : EqDecision status_array.
Proof. solve_decision. Defined.

#[global] Instance loc_eq_dec : EqDecision loc.
Proof. unfold loc. apply _. Defined.

(** ** Ownership of runs of pages, and classes of events *)

Abbreviation owp := (wp own_allowed own_next).

(** A run of [n] pages from page [a] of an array, all owned with the same
    token, and nothing else. *)
Definition own_run (K : own) (arr : status_array) (a n : nat) (tok : token) : Prop :=
  forall arr' i,
    K (arr', i) =
    if status_array_eqb arr' arr && (a <=? i)%nat && (i <? a + n)%nat
    then Some tok else None.

Definition own_empty (K : own) : Prop := forall l, K l = None.

(** The token of a page that is being mapped. *)
Definition tok_mapping : token :=
  {| tok_state := kProcessedAndMapping; tok_compact := false |}.

(** What the compaction phase relies on in the collector's fields: the
    moving space and the black allocations begin at page boundaries
    ([DCHECK_ALIGNED_PARAM(black_allocations_begin_, gPageSize)]), and the
    from-space lies [from_space_slide_diff_] above the moving space. *)
Record MarkCompactOk {P : Platform} (this : MarkCompact) : Prop := {
  Begin_aligned : (gPageSize | bump_pointer_space_Begin this);
  black_allocations_begin_aligned : (gPageSize | black_allocations_begin_ this);
  from_space_slide_diff_eq :
    from_space_slide_diff_ this =
    from_space_begin_ this - bump_pointer_space_Begin this;
}.

(** A monitor without a state: it allows the events of a class. *)
Definition only (ok : event -> Prop) (m : unit) (e : event) : Prop := ok e.
Definition stay (m : unit) (e : event) (r : resp) : unit := tt.

(** All the events of a program are of the class [ok]. *)
Definition keeps {A : Type} (ok : event -> Prop) (p : prog A) : Prop :=
  wp (only ok) stay p (fun _ _ => True) tt.

(** The events that write no page state and copy no objects. *)
Definition silent_event (e : event) : Prop :=
  match e with
  | AtomicCas _ _ _ _ | AtomicStore _ _ _ | CompactPageCall _ _ _ _ _
  | SlideBlackPageCall _ _ _ _ _ _ _ => False
  | _ => True
  end.

(** The events that copy no objects. *)
Definition no_compaction (e : event) : Prop := is_compaction e = false.

(** [cur_reclaimable_page_] is at a page boundary. *)
Definition reclaim_aligned {P : Platform} (rc : Reclaim) : Prop :=
  (gPageSize | cur_reclaimable_page_ rc).

(** The pages thread [t] compacted, the latest first. *)
Fixpoint compaction_pages (t : nat) (tr : list entry) : list nat :=
  match tr with
  | [] => []
  | x :: older =>
      match (if Nat.eqb (tid x) t then compacted_page (ev x) else None) with
      | Some i => i :: compaction_pages t older
      | None => compaction_pages t older
      end
  end.

(** The events that write no page state. *)
Definition writes_no_state (e : event) : Prop :=
  match e with
  | AtomicCas _ _ _ _ | AtomicStore _ _ _ => False
  | _ => True
  end.

(** ** A small heap

    A platform with pages of 4 KiB, and a collector with a moving space of
    four used pages: two pages of the compacted portion and two pages of
    black allocations, the last of them empty. *)
Module Example.

#[export] Instance platform : Platform := {|
  gPageSize := 4096;
  kAlignment := 8;
  kBitsPerVectorWord := 64;
  kOffsetChunkSize := 512;
  kBitsPerBitmapWord := 64;
  kBitmapWordsPerVectorWord := 1;
  kSigbusCounterCompactionDoneMask := 2 ^ 31;
|}.

Definition heap : MarkCompact := {|
  bump_pointer_space_Begin := 0x10000000;
  moving_space_begin_ := 0x10000000;
  moving_space_end_ := 0x10000000 + 16 * 4096;
  from_space_begin_ := 0x20000000;
  from_space_slide_diff_ := 0x10000000;
  black_allocations_begin_ := 0x10000000 + 4 * 4096;
  post_compact_end_ := 0x10000000 + 2 * 4096;
  moving_first_objs_count_ := 2;
  black_page_count_ := 2;
  first_objs_moving_space_ := [0x10000000; 0x10000800; 0x10004000; 0];
  pre_compact_offset_moving_space_ := [0; 1024; 0; 0];
  black_alloc_pages_first_chunk_size_ := [0; 0; 4096; 0];
  class_after_obj_hash_map_ := [];
  super_class_after_class_hash_map_ := [];
  klass_SizeOf := fun _ => 128;
  use_uffd_sigbus_ := true;
  minor_fault_initialized_ := false;
  linear_alloc_spaces_data_ := [ {| begin_ := 0x30000000; end_ := 0x30010000 |} ];
  compaction_buffers_map_Begin := 0x40000000;
  shadow_to_space_map_Begin := 0;
  conc_compaction_termination_page_ := 0x50000000;
  gKernelHasFaultRetry := true;
|}.

(** An application thread with no TLAB and no compaction buffer yet. *)
Definition mutator : Thread :=
  {| GetTlabStart := 0; GetTlabEnd := 0; GetThreadLocalGcBuffer := 0 |}.

(** An access fault at an address of page [i] of the moving space. *)
Definition fault_on (i : Z) : siginfo :=
  {| si_code := BUS_ADRERR; si_addr := 0x10000000 + i * 4096 + 8 |}.

(** A schedule that gives thread [t] the next [n] turns; the kernel does
    all it is asked to. *)
Definition turns (t n : nat) : list (nat * resp) :=
  replicate n (t, RSys 0 (EOTHER 0) 4096).

(** The collector thread in copy mode, and an application thread that
    takes a fault on page 0. *)
Definition race_jobs : list job :=
  [CollectorJob kCopyMode 0x40000000; MutatorJob mutator [fault_on 0]].

(** The application thread handles its fault first, then the collector
    runs its pass. *)
Definition race : config :=
  run_pool (turns 1 20 ++ turns 0 40) (initial (map (code_of heap 5) race_jobs)).

(** The collector alone, with no userfaultfd. *)
Definition fallback : config :=
  run_pool (turns 0 40) (initial [CompactMovingSpace heap 5 kFallbackMode 0]).

(** Two pages of the moving space and three pages of a linear-alloc space
    are processed and wait to be mapped. *)
Definition processed : Shared :=
  {| status := fun arr i =>
       match arr with
       | MovingPagesStatus =>
           if (i <? 2)%nat then Z.lor (Z.of_nat i * 4096) (code kProcessed)
           else code kUnprocessed
       | LinearAllocPageStatus _ =>
           if (i <? 3)%nat then code kProcessed else code kUnprocessed
       end;
     compaction_in_progress_count_ := 0;
     compaction_buffer_counter_ := 1;
     sigbus_in_progress_count_ := 0;
     thread_pool_counter_ := 0 |}.

End Example.

(** The pages compacted in a trace, by any thread, the latest first. *)
Definition all_compactions (tr : list entry) : list nat :=
  omap (fun x => compacted_page (ev x)) tr.

(** One thread of a pool seen through a monitor: what is left of its
    program is still accepted from the monitor state its own steps have
    reached. *)
Definition thread_wp {M : Type} (allowed : M -> event -> Prop)
    (next : M -> event -> resp -> M) (t0 : nat) (m0 : M) (c : config) : Prop :=
  forall p, pool c !! t0 = Some p ->
    wp allowed next p (fun _ _ => True) (replay next t0 (trace c) m0).

Abbreviation dwp := (wp desc_allowed desc_next).

(** The collector's loop is at page [idx]: the pages it has compacted are
    all at or above it. *)
Definition below (idx : nat) (m : option nat) : Prop :=
  match m with Some last => (idx <= last)%nat | None => True end.

(** ** Partial answers of the kernel *)

(** The answer of a map call that was aborted after [m] bytes. *)
Definition short (m : Z) : resp := RSys (-1) EAGAIN m.

(** The calls that [CopyIoctl] makes when its calls are aborted, one after
    the other, after [ms] bytes: each call is for what the ones before
    left unmapped. *)
Fixpoint copy_calls (dst src length : Z) (ms : list Z) : list event :=
  IoctlCopy dst src length ::
  match ms with
  | [] => []
  | m :: ms' => copy_calls (dst + m) (src + m) (length - m) ms'
  end.

Fixpoint zeropage_calls (start length : Z) (ms : list Z) : list event :=
  IoctlZeropage start length ::
  match ms with
  | [] => []
  | m :: ms' => zeropage_calls (start + m) (length - m) ms'
  end.

Definition sum_Z (ms : list Z) : Z := fold_right Z.add 0 ms.

(** The system calls of a trace, the earliest first. *)
Definition syscalls (tr : list entry) : list event :=
  List.filter is_syscall (map ev tr).

(** The page states that a trace stores (not the compare-and-swaps). *)
Definition stores_of (tr : list entry) : list (status_array * nat * Z) :=
  omap (fun x => match ev x with
                 | AtomicStore arr idx v => Some (arr, idx, v)
                 | _ => None
                 end) tr.

(** ** Describing the shared words after a run *)

(** [sh'] is [sh] with the words of pages [a .. a+n-1] of [arr] set to
    [v]. *)
Definition updated (sh sh' : Shared) (arr : status_array) (a n : nat) (v : Z)
  : Prop :=
  (forall arr' i, status sh' arr' i =
     if bool_decide (arr' = arr /\ (a <= i < a + n)%nat) then v
     else status sh arr' i) /\
  compaction_in_progress_count_ sh' = compaction_in_progress_count_ sh /\
  compaction_buffer_counter_ sh' = compaction_buffer_counter_ sh /\
  sigbus_in_progress_count_ sh' = sigbus_in_progress_count_ sh /\
  thread_pool_counter_ sh' = thread_pool_counter_ sh.

(** The entry stores [v] into a page of [arr] between [lo] and [hi], over
    the word that the page had in [sh]. *)
Definition stores_over (sh : Shared) (arr : status_array) (lo hi : nat) (v : Z)
    (x : entry) : Prop :=
  exists i, (lo <= i < hi)%nat /\ ev x = AtomicStore arr i v /\
            old_word x = status sh arr i.

(** The entry takes a page back from [kProcessedAndMapping] to
    [kProcessed]. *)
Definition rewinds (x : entry) : Prop :=
  transition_of x = Some (Some kProcessedAndMapping, Some kProcessed).

(** A transition that the page-state protocol knows: forward, or the
    rewind of a page whose mapping did not happen. *)
Definition lawful_transition (x : entry) : Prop :=
  forward_transition x \/ rewinds x.

(** The entry of thread 0 for an event and its answer. *)
Definition entry_of (sh : Shared) (e : event) (r : resp) : entry :=
  {| tid := 0; ev := e; ans := r; old_word := word_before sh e |}.

(** No entry of the trace is a compaction. *)
Definition quiet (tr : list entry) : Prop :=
  Forall (fun x => no_compaction (ev x)) tr.

(** The page lies in the moving space or in a registered linear-alloc
    space. *)
Definition claims_fault {P : Platform} (this : MarkCompact) (fault_page : Z) : bool :=
  HasAddress this fault_page
  || existsb (in_linear_alloc_space fault_page) (linear_alloc_spaces_data_ this).

(** The compaction-done bit of [sigbus_in_progress_count_] is set. *)
Definition compaction_finished {P : Platform} (sh : Shared) : Prop :=
  Z.land (sigbus_in_progress_count_ sh) kSigbusCounterCompactionDoneMask <> 0.

(** The parts of the result of [run]. *)
Definition outcome_of {A : Type}
    (r : outcome A * Shared * list entry * list resp) : outcome A :=
  fst (fst (fst r)).
Definition shared_of {A : Type}
    (r : outcome A * Shared * list entry * list resp) : Shared :=
  snd (fst (fst r)).
Definition trace_of {A : Type}
    (r : outcome A * Shared * list entry * list resp) : list entry :=
  snd (fst r).

(** ** Runs with a partial map call *)
Module Partial.
Import Example.

(** [MapMovingSpacePages] on the two processed pages of the moving space;
    the first copy call is aborted after one page. *)
Definition short_copy : outcome Z * Shared * list entry * list resp :=
  run (MapMovingSpacePages heap 5 0 2) processed [short 4096].

(** [MapProcessedPages] on the three processed pages of the linear-alloc
    space; the continue call is aborted after one page. *)
Definition short_continue : outcome unit * Shared * list entry * list resp :=
  run (MapProcessedPages heap false 0x30000000 (LinearAllocPageStatus 0) 0 3)
      processed [short 4096; RSys 0 (EOTHER 0) 0].

End Partial.

(** ** The planner: PrepareForCompaction *)

(** [std::exclusive_scan(vec, vec + n, vec, init)] on [uint32_t] entries:
    entry [i] becomes [init] plus the entries before it, and the entries
    from [n] on stay. *)
Fixpoint exclusive_scan (vec : list Z) (n : nat) (init : Z) {struct n} : list Z :=
  match n, vec with
  | S n', x :: vec' => init :: exclusive_scan vec' n' (to_uint32 (init + x))
  | _, _ => vec
  end.

(** The block of [PrepareForCompaction] that turns the live bytes of the
    chunks into the live bytes before each chunk: the number of entries
    scanned, the vector after the scan, and [total]. *)
Definition scan_chunk_info (vector_len vector_length_ : nat) (chunk_info_vec_ : list Z)
  : nat * list Z * Z :=
  (* Update the vector one past the heap usage as it is required for black
     allocated objects' post-compact address computation. *)
  let '(vector_len, total) :=
    if (vector_len <? vector_length_)%nat then (S vector_len, 0)
    else
      (* Fetch the value stored in the last element before it gets
         overwritten by std::exclusive_scan(). *)
      (vector_len, read chunk_info_vec_ (vector_len - 1)) in
  let chunk_info_vec_ := exclusive_scan chunk_info_vec_ vector_len 0 in
  let total := to_uint32 (total + read chunk_info_vec_ (vector_len - 1)) in
  (vector_len, chunk_info_vec_, total).

Module Planner.

(** The fields of the collector that [PrepareForCompaction] reads and
    writes.  [moving_first_objs_count_] is as
    [InitMovingSpaceFirstObjects] left it. *)
Record State : Type := {
  space_begin : Z;
  black_allocations_begin_ : Z;
  vector_length_ : nat;
  chunk_info_vec_ : list Z;
  moving_first_objs_count_ : nat;
  post_compact_end_ : Z;
  black_objs_slide_diff_ : Z;
}.

End Planner.

Section Planning.
Context {P : Platform}.

(** [PrepareForCompaction], up to the two checks on the end of the
    compacted heap; [None] when a [CHECK] fails. *)
Definition PrepareForCompaction (st : Planner.State) : option Planner.State :=
  let space_begin := Planner.space_begin st in
  let vector_len :=
    Z.to_nat ((Planner.black_allocations_begin_ st - space_begin) / kOffsetChunkSize) in
  let '(vector_len, chunk_info_vec_, total) :=
    scan_chunk_info vector_len (Planner.vector_length_ st) (Planner.chunk_info_vec_ st) in
  let post_compact_end_ := AlignUp (space_begin + total) gPageSize in
  if post_compact_end_ =?
     space_begin + Z.of_nat (Planner.moving_first_objs_count_ st) * gPageSize then
    let black_objs_slide_diff_ := Planner.black_allocations_begin_ st - post_compact_end_ in
    (* We shouldn't be consuming more space after compaction than
       pre-compaction. *)
    if black_objs_slide_diff_ >=? 0 then
      Some {| Planner.space_begin := space_begin;
              Planner.black_allocations_begin_ := Planner.black_allocations_begin_ st;
              Planner.vector_length_ := Planner.vector_length_ st;
              Planner.chunk_info_vec_ := chunk_info_vec_;
              Planner.moving_first_objs_count_ := Planner.moving_first_objs_count_ st;
              Planner.post_compact_end_ := post_compact_end_;
              Planner.black_objs_slide_diff_ := black_objs_slide_diff_ |}
    else None
  else None.

End Planning.

(** The live bytes of the chunks of [vec] before chunk [i]. *)
Definition live_before (vec : list Z) (i : nat) : Z := sum_Z (firstn i vec).

(** A histogram of live bytes that the 32 bits of an entry can sum. *)
Definition histogram_ok (vec : list Z) : Prop :=
  Forall (fun x => 0 <= x) vec /\ sum_Z vec < 2 ^ 32.

Module PlanExample.

(** One chunk of the heap, with one object of 8 bytes, and no room in the
    vector past the heap usage. *)
Definition full_vector : nat * list Z * Z := scan_chunk_info 1 1 [8].

(** A page of the heap in use before the black allocations, with one
    object of 8 bytes alive. *)
Definition one_object : Planner.State :=
  {| Planner.space_begin := 0x10000000;
     Planner.black_allocations_begin_ := 0x10000000 + 4096;
     Planner.vector_length_ := 16;
     Planner.chunk_info_vec_ := 8 :: repeat 0 15;
     Planner.moving_first_objs_count_ := 1;
     Planner.post_compact_end_ := 0;
     Planner.black_objs_slide_diff_ := 0 |}.

End PlanExample.

(** ** Marking: the live-words bitmap and the histogram of the chunks *)

(** The live-words bitmap: bit [i] stands for the [kAlignment] bytes at
    [Begin + i * kAlignment]. *)
Definition bitmap : Type := Z -> bool.

(** The bits set among the [len] bits from bit [lo]. *)
Fixpoint count_bits (bm : bitmap) (lo : Z) (len : nat) : Z :=
  match len with
  | O => 0
  | S len' => (if bm lo then 1 else 0) + count_bits bm (lo + 1) len'
  end.

(** [chunk_info_vec_[i] += x] and [chunk_info_vec_[i] = x] on [uint32_t]
    entries. *)
Definition add_at (vec : nat -> Z) (i : nat) (x : Z) : nat -> Z :=
  fun j => if Nat.eqb j i then to_uint32 (vec i + x) else vec j.

Definition set_at (vec : nat -> Z) (i : nat) (x : Z) : nat -> Z :=
  fun j => if Nat.eqb j i then to_uint32 x else vec j.

Record Liveness : Type := {
  live_words_bitmap_ : bitmap;
  chunk_info_vec_ : nat -> Z;
}.

(** Nothing marked yet. *)
Definition no_liveness : Liveness :=
  {| live_words_bitmap_ := fun _ => false; chunk_info_vec_ := fun _ => 0 |}.

Section Marking.
Context {P : Platform}.
(** [live_words_bitmap_->Begin()], the start of the moving space. *)
Variable Begin : Z.

(** [POPCOUNT(Bitmap::Begin()[w])]: the bits set in word [w] of the
    bitmap. *)
Definition POPCOUNT (bm : bitmap) (w : nat) : Z :=
  count_bits bm (Z.of_nat w * kBitsPerBitmapWord) (Z.to_nat kBitsPerBitmapWord).

Definition LiveBytesInBitmapWord (bm : bitmap) (chunk_idx : nat) : Z :=
  let index := (chunk_idx * kBitmapWordsPerVectorWord)%nat in
  let words :=
    fold_left (fun words i => words + POPCOUNT bm (index + i))
              (seq 0 kBitmapWordsPerVectorWord) 0 in
  words * kAlignment.

(** Modelled from the spec: [SetLiveWords(begin, size)] records the words
    of [begin, begin + size) in the live-words bitmap, and returns the
    index of the bit of [begin]. *)
Definition SetLiveWords (bm : bitmap) (begin size : Z) : bitmap * Z :=
  let bit_index := (begin - Begin) / kAlignment in
  (fun i => bm i || ((bit_index <=? i) && (i <? bit_index + size / kAlignment)),
   bit_index).

(** [for (...; size > kOffsetChunkSize; size -= kOffsetChunkSize)
       chunk_info_vec_[chunk_idx++] = kOffsetChunkSize;] *)
Fixpoint fill_chunks (turns : nat) (vec : nat -> Z) (chunk_idx : nat) (size : Z)
  : (nat -> Z) * nat * Z :=
  match turns with
  | O => (vec, chunk_idx, size)
  | S turns' =>
      if size >? kOffsetChunkSize then
        fill_chunks turns' (set_at vec chunk_idx kOffsetChunkSize) (S chunk_idx)
          (size - kOffsetChunkSize)
      else (vec, chunk_idx, size)
  end.

Definition UpdateLivenessInfo (st : Liveness) (obj_begin obj_size : Z) : Liveness :=
  let size := RoundUp obj_size kAlignment in
  let '(bm, bit_index) := SetLiveWords (live_words_bitmap_ st) obj_begin size in
  let chunk_idx := Z.to_nat ((obj_begin - Begin) / kOffsetChunkSize) in
  (* Compute the bit-index within the chunk-info vector word. *)
  let bit_index := bit_index mod kBitsPerVectorWord in
  let first_chunk_portion :=
    Z.min size ((kBitsPerVectorWord - bit_index) * kAlignment) in
  let vec := add_at (chunk_info_vec_ st) chunk_idx first_chunk_portion in
  let chunk_idx := S chunk_idx in
  let size := size - first_chunk_portion in
  let '(vec, chunk_idx, size) :=
    fill_chunks (Z.to_nat (size / kOffsetChunkSize)) vec chunk_idx size in
  let vec := add_at vec chunk_idx size in
  {| live_words_bitmap_ := bm; chunk_info_vec_ := vec |}.

(** The marking of a list of objects, each given by its address and its
    size. *)
Definition mark_all (objs : list (Z * Z)) : Liveness :=
  fold_left (fun st o => UpdateLivenessInfo st (fst o) (snd o)) objs no_liveness.

(** The bits of the words of an object. *)
Definition first_bit (o : Z * Z) : Z := (fst o - Begin) / kAlignment.
Definition bit_count (o : Z * Z) : Z := RoundUp (snd o) kAlignment / kAlignment.

(** An object of the moving space: aligned, and not empty. *)
Definition object_ok (o : Z * Z) : Prop :=
  Begin <= fst o /\ (kAlignment | fst o - Begin) /\ 0 < snd o.

(** Two objects share no word. *)
Definition apart (o1 o2 : Z * Z) : Prop :=
  first_bit o1 + bit_count o1 <= first_bit o2 \/
  first_bit o2 + bit_count o2 <= first_bit o1.

(** Objects of the moving space, no two of which share a word. *)
Fixpoint objects_ok (objs : list (Z * Z)) : Prop :=
  match objs with
  | [] => True
  | o :: rest => object_ok o /\ Forall (apart o) rest /\ objects_ok rest
  end.

End Marking.

(** The bits that the range of [n] bits from [b] shares with the [len] bits
    from [lo]. *)
Definition overlap (b n lo len : Z) : Z :=
  Z.max 0 (Z.min (b + n) (lo + len) - Z.max b lo).

(** No bit of the range is set. *)
Definition fresh (bm : bitmap) (b n : Z) : Prop :=
  forall i, b <= i < b + n -> bm i = false.

(** The histogram tells, chunk by chunk, the live bytes of the bitmap. *)
Definition live_inv {P : Platform} (st : Liveness) : Prop :=
  forall c : nat,
    chunk_info_vec_ st c =
    kAlignment * count_bits (live_words_bitmap_ st)
                   (Z.of_nat c * kBitsPerVectorWord) (Z.to_nat kBitsPerVectorWord).

(** ** The reclaim point of FreeFromSpacePages *)

Section ReclaimPoint.
Context {P : Platform}.
Variable this : MarkCompact.

(** The address before compaction at which the content of page [idx]
    begins: [idx_addr]. *)
Definition idx_addr_of (idx : nat) : Z := snd (reclaim_begin_of this idx).




End ReclaimPoint.

(** ** A large black object *)
Module LargeObject.

(** The compacted portion has one page; the black allocations are 4200
    pages, all of one object that begins 16 bytes into the first of
    them. *)
Definition black_begin : Z := 0x10000000 + 4096.
Definition large : Z := black_begin + 16.

Definition heap : MarkCompact := {|
  bump_pointer_space_Begin := 0x10000000;
  moving_space_begin_ := 0x10000000;
  moving_space_end_ := 0x10000000 + 8192 * 4096;
  from_space_begin_ := 0x20000000;
  from_space_slide_diff_ := 0x10000000;
  black_allocations_begin_ := black_begin;
  post_compact_end_ := 0x10000000 + 4096;
  moving_first_objs_count_ := 1;
  black_page_count_ := 4200;
  first_objs_moving_space_ := 0x10000000 :: repeat large 4200;
  pre_compact_offset_moving_space_ := [0];
  black_alloc_pages_first_chunk_size_ := 0 :: 4096 - 16 :: repeat 4096 4199;
  class_after_obj_hash_map_ := [];
  super_class_after_class_hash_map_ := [];
  klass_SizeOf := fun _ => 128;
  use_uffd_sigbus_ := true;
  minor_fault_initialized_ := false;
  linear_alloc_spaces_data_ := [];
  compaction_buffers_map_Begin := 0x40000000;
  shadow_to_space_map_Begin := 0;
  conc_compaction_termination_page_ := 0x50000000;
  gKernelHasFaultRetry := true;
|}.

(** The pages from 2048 on are mapped, the pages below are not touched
    yet. *)
Definition half_done : Shared :=
  {| status := fun arr i =>
       match arr with
       | MovingPagesStatus =>
           if (2048 <=? i)%nat then code kProcessedAndMapped else code kUnprocessed
       | LinearAllocPageStatus _ => code kUnprocessed
       end;
     compaction_in_progress_count_ := 0;
     compaction_buffer_counter_ := 1;
     sigbus_in_progress_count_ := 0;
     thread_pool_counter_ := 0 |}.

(** The reclaim fields as [CompactMovingSpace] sets them at its start. *)
Definition rc : Reclaim :=
  {| last_reclaimed_page_ := black_begin + 4200 * 4096;
     last_reclaimable_page_ := black_begin + 4200 * 4096;
     cur_reclaimable_page_ := black_begin + 4200 * 4096;
     last_checked_reclaim_page_idx_ := 4201;
     class_after_obj_iter_ := [] |}.

(** The call that the collector makes after it has slid page 2048. *)
Definition free_at_2048 : outcome (bool * Reclaim) * Shared * list entry * list resp :=
  run (FreeFromSpacePages (P := Example.platform) heap 5 rc 2048 kCopyMode 0)
      half_done [].

End LargeObject.


(** ** Reading the map of the classes that lie after their objects *)

(** The key under which [UpdateClassAfterObjMap] files a class: its
    super class recorded in [super_class_after_class_hash_map_], or the
    class itself. *)
Definition class_key {P : Platform} (this : MarkCompact) (klass : Z) : Z :=
  match hash_map_find (super_class_after_class_hash_map_ this) klass with
  | Some super => super
  | None => klass
  end.

(** The pair of the hash map goes into the ordered map. *)
Definition class_pair_kept {P : Platform} (this : MarkCompact) (pair : Z * Z) : Prop :=
  snd pair < class_key this (fst pair) /\ HasAddress this (class_key this (fst pair)) = true.

(** One turn of the loop of [UpdateClassAfterObjMap] over the pairs of
    [class_after_obj_hash_map_]. *)
Definition class_step {P : Platform} (this : MarkCompact)
    (ordered : list (Z * Z)) (pair : Z * Z) : list (Z * Z) :=
  let key := match hash_map_find (super_class_after_class_hash_map_ this) (fst pair) with
             | Some super => super
             | None => fst pair
             end in
  if (snd pair <? key) && HasAddress this key then emplace_lowest key (snd pair) ordered
  else ordered.

(** ** What a routine can return *)

(** Whatever the routine is answered, a value it returns satisfies [Q]. *)
Definition returns_only {A : Type} (p : prog A) (Q : A -> Prop) : Prop :=
  wp (only (fun _ => True)) stay p (fun a _ => Q a) tt.

(** ** The failure of an ioctl *)

(** [errno] is one that [ZeropageIoctl] was told to tolerate. *)
Definition tolerated (tolerate_eexist tolerate_enoent : bool) (e : Errno) : bool :=
  (tolerate_enoent && Errno_eqb e ENOENT) || (tolerate_eexist && Errno_eqb e EEXIST).

(** ** The in-progress counts

    [sigbus_in_progress_count_] and [compaction_in_progress_count_] tell
    the collector how many threads are inside the fault handler and
    inside the compaction of a page; it waits for them to come down. *)

(** The events that leave the two in-progress counts alone. *)
Definition no_count (e : event) : Prop :=
  match e with
  | InProgressFetchAdd _ | SigbusCountCas _ _ | SigbusCountFetchSub => False
  | _ => True
  end.

(** What a thread holds of the two counts: by how much it has raised
    [sigbus_in_progress_count_], and [compaction_in_progress_count_], more
    than it has lowered them. *)
Definition held : Type := Z * Z.

Definition held_next (m : held) (e : event) (r : resp) : held :=
  match e with
  | SigbusCountCas expected desired =>
      if resp_ok r then (fst m + (desired - expected), snd m) else m
  | SigbusCountFetchSub => (fst m - 1, snd m)
  | InProgressFetchAdd delta => (fst m, snd m + delta)
  | _ => m
  end.

(** A thread lowers a count only by what it holds of it. *)
Definition held_allowed (m : held) (e : event) : Prop :=
  match e with
  | SigbusCountFetchSub => 0 < fst m
  | InProgressFetchAdd delta => 0 <= snd m + delta
  | _ => True
  end.

(** The routine never lowers a count it has not raised, and when it
    returns it holds nothing of the two counts. *)
Definition releases_counts {A : Type} (p : prog A) : Prop :=
  wp held_allowed held_next p (fun _ m => m = (0, 0)) (0, 0).

(** ** The arguments of the compaction of a page *)

(** The address of page [idx] of the moving space. *)
Definition page_begin {P : Platform} (this : MarkCompact) (idx : nat) : Z :=
  bump_pointer_space_Begin this + Z.of_nat idx * gPageSize.

(** The call that compacts page [idx] into [dest], with its arguments read
    from the tables of the collector: [CompactPage] for a page of the
    compacted portion, [SlideBlackPage] for a page of black allocations. *)
Definition compaction_call {P : Platform} (this : MarkCompact) (kMode : Mode)
    (idx : nat) (dest : Z) : event :=
  let count := moving_first_objs_count_ this in
  let first_obj := read (first_objs_moving_space_ this) idx in
  if (idx <? count)%nat then
    CompactPageCall idx first_obj (read (pre_compact_offset_moving_space_ this) idx)
      dest (Mode_eqb kMode kCopyMode)
  else
    SlideBlackPageCall idx first_obj
      (if (idx + 1 <? count + black_page_count_ this)%nat
       then read (first_objs_moving_space_ this) (idx + 1) else 0)
      (read (black_alloc_pages_first_chunk_size_ this) idx)
      (black_allocations_begin_ this + Z.of_nat (idx - count) * gPageSize)
      dest (Mode_eqb kMode kCopyMode).

(** An event that copies objects is the call of a used page by the tables;
    in fallback mode it writes the page in its place. *)
Definition compacts_by_table {P : Platform} (this : MarkCompact) (kMode : Mode)
    (e : event) : Prop :=
  is_compaction e = true ->
  exists (idx : nat) (dest : Z),
    e = compaction_call this kMode idx dest /\
    (idx < moving_first_objs_count_ this + black_page_count_ this)%nat /\
    (kMode = kFallbackMode -> dest = page_begin this idx).

(** Whatever the routine is answered, it performs only events of [ok] and
    a value it returns satisfies [Q]. *)
Definition keeps_to {A : Type} (ok : event -> Prop) (p : prog A) (Q : A -> Prop)
  : Prop :=
  wp (only ok) stay p (fun a _ => Q a) tt.

(** What the loop of [CompactMovingSpace] over the black pages keeps of
    its variables [idx], [pre_compact_page], [to_space_end] and
    [next_page_first_obj]. *)
Definition black_inv {P : Platform} (this : MarkCompact)
    (st : nat * Z * Z * Z * Z * Z * Reclaim) : Prop :=
  let '(idx, pre_compact_page, to_space_end, _, _, next_page_first_obj, _) := st in
  (moving_first_objs_count_ this <= idx
   <= moving_first_objs_count_ this + black_page_count_ this)%nat /\
  pre_compact_page =
    black_allocations_begin_ this
    + Z.of_nat (idx - moving_first_objs_count_ this) * gPageSize /\
  to_space_end = page_begin this idx /\
  next_page_first_obj =
    if (idx <? moving_first_objs_count_ this + black_page_count_ this)%nat
    then read (first_objs_moving_space_ this) idx else 0.

(** ** What [FreeFromSpacePages] has seen *)

(** The pages of the moving space that a thread has loaded in state
    [kProcessedAndMapped], the latest first. *)
Definition seen_mapped_next (m : list nat) (e : event) (r : resp) : list nat :=
  match e with
  | AtomicLoad MovingPagesStatus i =>
      if is_state (resp_val r) kProcessedAndMapped then i :: m else m
  | _ => m
  end.

Definition any_event (m : list nat) (e : event) : Prop := True.

(* ================================================================== *)
(** * Part II: proofs *)
(* ================================================================== *)

(** ** Page states and status words *)

Lemma state_of_code (s : PageState) : state_of (code s) = Some s.
Proof. destruct s; reflexivity. Qed.

Lemma land_mask_range (w : Z) : 0 <= Z.land w kPageStateMask < 256.
Proof.
  change kPageStateMask with (Z.ones 8). rewrite Z.land_ones by lia.
  apply Z.mod_pos_bound. lia.
Qed.

Lemma state_of_is_state (w : Z) (s : PageState) :
  state_of w = Some s <-> is_state w s = true.
Proof.
  unfold state_of, is_state. split.
  - intros H. apply find_some in H. destruct H as [_ H].
    apply Z.eqb_eq in H. apply Z.eqb_eq. auto.
  - intros H%Z.eqb_eq. rewrite H. destruct s; reflexivity.
Qed.

Lemma is_state_code (s s' : PageState) :
  is_state (code s) s' = PageState_eqb s s'.
Proof. destruct s, s'; reflexivity. Qed.

Lemma is_state_inj (w : Z) (s s' : PageState) :
  is_state w s = true -> is_state w s' = true -> s = s'.
Proof.
  intros H1%state_of_is_state H2%state_of_is_state. congruence.
Qed.

(** The source offset that the collector packs into a status word leaves
    the state readable. *)
Lemma state_of_lor (off : Z) (s : PageState) :
  Z.land off kPageStateMask = 0 -> state_of (Z.lor off (code s)) = Some s.
Proof.
  intros H. apply state_of_is_state. unfold is_state.
  rewrite Z.land_lor_distr_l, H. simpl.
  apply Z.eqb_eq. change kPageStateMask with (Z.ones 8).
  rewrite Z.land_ones by lia. apply Z.mod_small. destruct s; simpl; lia.
Qed.

Lemma lifecycle_ltb_lt (a b : PageState) :
  lifecycle_ltb a b = true <-> lifecycle_lt a b.
Proof. unfold lifecycle_ltb, lifecycle_lt. apply Nat.ltb_lt. Qed.

Lemma lifecycle_lt_irrefl (a : PageState) : ~ lifecycle_lt a a.
Proof. unfold lifecycle_lt. lia. Qed.

Lemma lifecycle_lt_trans (a b c : PageState) :
  lifecycle_lt a b -> lifecycle_lt b c -> lifecycle_lt a c.
Proof. unfold lifecycle_lt. lia. Qed.

Lemma lifecycle_lt_not_unprocessed (a b : PageState) :
  lifecycle_lt a b -> b <> kUnprocessed.
Proof. unfold lifecycle_lt. destruct b; simpl; try discriminate. lia. Qed.

(** ** Programs and monitors *)

Section MonitorFacts.
Context {M : Type}.
Variable allowed : M -> event -> Prop.
Variable next : M -> event -> resp -> M.

Lemma wp_mono {A : Type} (p : prog A) (Q Q' : A -> M -> Prop) (m : M) :
  (forall a m', Q a m' -> Q' a m') ->
  wp allowed next p Q m -> wp allowed next p Q' m.
Proof.
  intros HQ. revert m.
  induction p as [a| | |e k IH]; simpl; intros m H; auto.
  destruct H as [Ha Hk]. split; auto.
Qed.

Lemma wp_bind {A B : Type} (p : prog A) (f : A -> prog B)
    (Q : B -> M -> Prop) (m : M) :
  wp allowed next p (fun a m' => wp allowed next (f a) Q m') m ->
  wp allowed next (bind p f) Q m.
Proof.
  revert m. induction p as [a| | |e k IH]; simpl; intros m H; auto.
  destruct H as [Ha Hk]. split; auto.
Qed.

Lemma wp_bind_inv {A B : Type} (p : prog A) (f : A -> prog B)
    (Q : B -> M -> Prop) (m : M) :
  wp allowed next (bind p f) Q m ->
  wp allowed next p (fun a m' => wp allowed next (f a) Q m') m.
Proof.
  revert m. induction p as [a| | |e k IH]; simpl; intros m H; auto.
  destruct H as [Ha Hk]. split; auto.
Qed.

(** The rule of a loop: an invariant of the loop state and the monitor
    state. *)
Lemma wp_loop {S R : Type} (I : S -> M -> Prop) (Q : R -> M -> Prop)
    (body : S -> prog (turn S R)) :
  (forall s m, I s m ->
     wp allowed next (body s)
        (fun x m' => match x with
                     | Continue s' => I s' m'
                     | Break r => Q r m'
                     end) m) ->
  forall (fuel : nat) (s : S) (m : M),
    I s m -> wp allowed next (loop fuel body s) Q m.
Proof.
  intros Hbody fuel. induction fuel as [|fuel IH]; intros s m HI; simpl; auto.
  apply wp_bind. eapply wp_mono; [|apply Hbody; exact HI].
  intros [s'|r] m' H; simpl; auto.
Qed.

Lemma wp_trigger (e : event) (Q : resp -> M -> Prop) (m : M) :
  allowed m e -> (forall r, Q r (next m e r)) ->
  wp allowed next (trigger e) Q m.
Proof. intros; simpl; auto. Qed.

(** *** Threads under a monitor *)

Definition threads_wp (m0 : M) (c : config) : Prop :=
  forall t p, pool c !! t = Some p ->
    wp allowed next p (fun _ _ => True) (replay next t (trace c) m0).

Lemma step_inv (t : nat) (env : resp) (c c' : config) :
  step t env c = Some c' ->
  exists e k,
    pool c !! t = Some (Vis e k) /\
    shared c' = snd (exec_event (shared c) e env) /\
    pool c' = <[t := k (fst (exec_event (shared c) e env))]> (pool c) /\
    trace c' = {| tid := t; ev := e; ans := fst (exec_event (shared c) e env);
                  old_word := word_before (shared c) e |} :: trace c.
Proof.
  unfold step. destruct (pool c !! t) as [[a| | |e k]|] eqn:Hp; try discriminate.
  destruct (exec_event (shared c) e env) as [r sh'] eqn:He.
  intros [= <-]. exists e, k. rewrite He. simpl. repeat split; reflexivity.
Qed.

Lemma threads_wp_step (m0 : M) (t : nat) (env : resp) (c c' : config) :
  threads_wp m0 c -> step t env c = Some c' ->
  threads_wp m0 c' /\
  exists x, trace c' = x :: trace c /\ tid x = t /\
            allowed (replay next t (trace c) m0) (ev x).
Proof.
  intros Hw Hs. destruct (step_inv _ _ _ _ Hs) as (e & k & Hp & Hsh & Hpool & Htr).
  pose proof (Hw _ _ Hp) as Hwt. simpl in Hwt. destruct Hwt as [Ha Hk].
  split.
  - intros t' p' Hp'. rewrite Htr. simpl.
    rewrite Hpool in Hp'.
    destruct (decide (t = t')) as [<-|Hne].
    + rewrite list_lookup_insert_eq in Hp' by (eapply lookup_lt_Some; eauto).
      injection Hp' as <-. rewrite Nat.eqb_refl. apply Hk.
    + rewrite list_lookup_insert_ne in Hp' by auto.
      destruct (Nat.eqb_spec t t'); [contradiction|]. apply Hw; auto.
  - eexists; split; [exact Htr|]. simpl. auto.
Qed.

Lemma accepted_step (m0 : M) (t : nat) (env : resp) (c c' : config) :
  threads_wp m0 c -> step t env c = Some c' ->
  (forall t', accepted allowed next t' (trace c) m0) ->
  (forall t', accepted allowed next t' (trace c') m0).
Proof.
  intros Hw Hs Hacc t'.
  destruct (threads_wp_step _ _ _ _ _ Hw Hs) as [_ (x & Htr & Htid & Hal)].
  rewrite Htr. simpl. split; auto. intros Ht. subst t'. rewrite Htid. exact Hal.
Qed.

Lemma reachable_ind (Inv : config -> Prop) (c0 : config) :
  Inv c0 ->
  (forall t env c c', Inv c -> step t env c = Some c' -> Inv c') ->
  forall c, reachable c0 c -> Inv c.
Proof.
  intros H0 Hstep c [sched <-]. revert c0 H0.
  induction sched as [|[t env] sched IH]; intros c0 H0; simpl; auto.
  apply IH. destruct (step t env c0) as [c'|] eqn:Hs; simpl; eauto.
Qed.

End MonitorFacts.

(** ** The invariant of the page states is kept by every step *)

Lemma status_array_eqb_eq (a b : status_array) :
  status_array_eqb a b = true <-> a = b.
Proof.
  destruct a, b; simpl; split; try congruence; try discriminate.
  - intros H%Nat.eqb_eq. congruence.
  - intros [= ->]. apply Nat.eqb_refl.
Qed.

Lemma loc_eqb_eq (a b : loc) : loc_eqb a b = true <-> a = b.
Proof.
  destruct a as [a i], b as [b j]. unfold loc_eqb. simpl.
  rewrite andb_true_iff, status_array_eqb_eq, Nat.eqb_eq.
  split; [intros [-> ->]; reflexivity|intros [= -> ->]; auto].
Qed.

Lemma loc_eqb_refl (a : loc) : loc_eqb a a = true.
Proof. apply loc_eqb_eq. reflexivity. Qed.

Lemma loc_eqb_neq (a b : loc) : a <> b -> loc_eqb a b = false.
Proof.
  intros H. destruct (loc_eqb a b) eqn:E; auto. apply loc_eqb_eq in E. contradiction.
Qed.

Lemma owns_cons (t : nat) (x : entry) (tr : list entry) :
  owns t (x :: tr) =
  if Nat.eqb (tid x) t then own_next (owns t tr) (ev x) (ans x) else owns t tr.
Proof. reflexivity. Qed.

Lemma compaction_count_cons (i : nat) (x : entry) (tr : list entry) :
  compaction_count i (x :: tr) =
  ((if compacts i (ev x) then 1 else 0) + compaction_count i tr)%nat.
Proof.
  unfold compaction_count. simpl. destruct (compacts i (ev x)); reflexivity.
Qed.

Lemma compacts_compacted_page (i : nat) (e : event) :
  compacts i e = true <-> compacted_page e = Some i.
Proof.
  destruct e; simpl; split; try discriminate;
    try (intros H%Nat.eqb_eq; congruence);
    try (intros [= ->]; apply Nat.eqb_refl).
Qed.

Lemma exec_event_status (sh : Shared) (e : event) (env : resp)
    (arr : status_array) (i : nat) :
  status (snd (exec_event sh e env)) arr i =
  match e with
  | AtomicCas arr' idx expected desired =>
      if loc_eqb (arr, i) (arr', idx) && (status sh arr' idx =? expected)
      then desired else status sh arr i
  | AtomicStore arr' idx v =>
      if loc_eqb (arr, i) (arr', idx) then v else status sh arr i
  | _ => status sh arr i
  end.
Proof.
  destruct e; simpl; try reflexivity.
  - destruct (status sh arr0 idx =? expected); simpl.
    + unfold loc_eqb; simpl. rewrite andb_true_r. reflexivity.
    + rewrite andb_false_r. reflexivity.
  - destruct (sigbus_in_progress_count_ sh =? expected); reflexivity.
Qed.

Lemma owned_not_claimable (s : PageState) :
  owned_state s = true -> claimable_state s = true -> False.
Proof. destruct s; simpl; discriminate. Qed.

Lemma own_after_write_same (K : own) (l : loc) (b : PageState) (f : bool) :
  own_after_write K l b f l =
  if owned_state b then Some {| tok_state := b; tok_compact := f |} else None.
Proof.
  unfold own_after_write, own_put, own_remove.
  destruct (owned_state b); rewrite loc_eqb_refl; reflexivity.
Qed.

Lemma own_after_write_other (K : own) (l l' : loc) (b : PageState) (f : bool) :
  l' <> l -> own_after_write K l b f l' = K l'.
Proof.
  intros H. unfold own_after_write, own_put, own_remove.
  destruct (owned_state b); rewrite loc_eqb_neq by auto; reflexivity.
Qed.

(** A thread writes state [b] over state [a] of a page: the shape of the
    step for a winning compare-and-swap and for a store. *)
Lemma own_inv_write (c c' : config) (x : entry) (l : loc) (v : Z)
    (a b : PageState) (f : bool) :
  own_inv c ->
  trace c' = x :: trace c ->
  (forall arr i, status (shared c') arr i =
                 if loc_eqb (arr, i) l then v else status (shared c) arr i) ->
  state_of (status (shared c) (fst l) (snd l)) = Some a ->
  state_of v = Some b ->
  lifecycle_lt a b ->
  is_compaction (ev x) = false ->
  forward_transition x ->
  own_next (owns (tid x) (trace c)) (ev x) (ans x) =
    own_after_write (owns (tid x) (trace c)) l b f ->
  (owns (tid x) (trace c) l = None -> claimable_state a = true) ->
  (f = true ->
   (exists tok, owns (tid x) (trace c) l = Some tok /\ tok_compact tok = true) \/
   (a = kUnprocessed /\ forall i, l = (MovingPagesStatus, i) ->
      wins_page (tid x) i b x /\ compacting_state b = true)) ->
  own_inv c'.
Proof.
  intros Hinv Htr Hst Ha Hb Hlt Hnc Hfw Hnext Hclaim Hf.
  destruct Hinv as [Istate Iexcl Ionce Itodo Ifresh Ifwd Iwin Icomp].
  assert (Hothers : forall t', t' <> tid x -> owns t' (trace c) l = None).
  { intros t' Hne. destruct (owns t' (trace c) l) as [tok'|] eqn:E; auto.
    destruct (Istate _ _ _ E) as [Hs Ho]. rewrite Ha in Hs. injection Hs as ->.
    destruct (owns (tid x) (trace c) l) as [tok|] eqn:E2.
    - rewrite (Iexcl (tid x) t' l tok) in E by auto. discriminate.
    - exfalso. eapply owned_not_claimable; eauto. }
  assert (Hcount : forall i, compaction_count i (trace c') = compaction_count i (trace c)).
  { intros i. rewrite Htr, compaction_count_cons.
    destruct (compacts i (ev x)) eqn:E; auto.
    destruct (ev x); simpl in *; discriminate. }
  assert (Hown : forall t' l', owns t' (trace c') l' =
            if Nat.eqb (tid x) t' then own_after_write (owns t' (trace c)) l b f l'
            else owns t' (trace c) l').
  { intros t' l'. rewrite Htr, owns_cons.
    destruct (Nat.eqb_spec (tid x) t') as [<-|]; auto. rewrite Hnext. reflexivity. }
  constructor.
  - (* inv_state *)
    intros t' l' tok. rewrite Hown. destruct l' as [arr i]. rewrite Hst. simpl.
    destruct (Nat.eqb_spec (tid x) t') as [<-|Hne].
    + destruct (loc_eqb (arr, i) l) eqn:El.
      * apply loc_eqb_eq in El. subst l. rewrite own_after_write_same.
        destruct (owned_state b) eqn:Eb; [|discriminate].
        intros [= <-]. simpl. auto.
      * rewrite own_after_write_other
          by (intros E; subst l; rewrite loc_eqb_refl in El; discriminate).
        apply Istate.
    + destruct (loc_eqb (arr, i) l) eqn:El.
      * apply loc_eqb_eq in El. subst l. rewrite Hothers by auto. discriminate.
      * apply Istate.
  - (* inv_excl *)
    intros t1 t2 l' tok Hne. rewrite !Hown.
    destruct (Nat.eqb_spec (tid x) t1) as [<-|H1],
             (Nat.eqb_spec (tid x) t2) as [<-|H2]; try contradiction.
    + destruct (decide (l' = l)) as [->|Hl].
      * intros _. apply Hothers; auto.
      * rewrite own_after_write_other by auto. apply Iexcl; auto.
    + destruct (decide (l' = l)) as [->|Hl].
      * rewrite Hothers by auto. discriminate.
      * rewrite own_after_write_other by auto. apply Iexcl; auto.
    + apply Iexcl; auto.
  - (* inv_once *)
    intros i. rewrite Hcount. apply Ionce.
  - (* inv_todo *)
    intros t' i tok. rewrite Hown, Hcount.
    destruct (Nat.eqb_spec (tid x) t') as [<-|Hne]; [|apply Itodo].
    destruct (decide ((MovingPagesStatus, i) = l)) as [<-|Hl].
    + rewrite own_after_write_same. destruct (owned_state b); [|discriminate].
      intros [= <-]. simpl. intros Hft.
      destruct (Hf Hft) as [(tok & E & Ec)|[-> _]].
      * eapply Itodo; eauto.
      * apply Ifresh. exact Ha.
    + rewrite own_after_write_other by auto. apply Itodo.
  - (* inv_fresh *)
    intros i. rewrite Hst, Hcount.
    destruct (loc_eqb (MovingPagesStatus, i) l) eqn:El.
    + rewrite Hb. intros [= ->]. exfalso.
      eapply lifecycle_lt_not_unprocessed; eauto.
    + apply Ifresh.
  - (* inv_forward *)
    rewrite Htr. constructor; auto.
  - (* inv_winner *)
    intros t' i tok. rewrite Hown, Htr.
    assert (Hold : forall tok, owns t' (trace c) (MovingPagesStatus, i) = Some tok ->
                   tok_compact tok = true ->
                   exists y s, In y (x :: trace c) /\ wins_page t' i s y /\
                               compacting_state s = true).
    { intros tok0 E Ec. destruct (Iwin _ _ _ E Ec) as (y & s & Hy & Hw & Hs).
      exists y, s. split; [right; auto|auto]. }
    destruct (Nat.eqb_spec (tid x) t') as [<-|Hne]; [|apply Hold].
    destruct (decide ((MovingPagesStatus, i) = l)) as [<-|Hl].
    + rewrite own_after_write_same. destruct (owned_state b); [|discriminate].
      intros [= <-]. simpl. intros Hft.
      destruct (Hf Hft) as [(tok & E & Ec)|[-> Hw]].
      * eapply Hold; eauto.
      * destruct (Hw i eq_refl) as [Hw1 Hw2].
        exists x, b. split; [left; auto|auto].
    + rewrite own_after_write_other by auto. apply Hold.
  - (* inv_compactor *)
    rewrite Htr. simpl. split; auto.
    intros i Hi. destruct (ev x); simpl in *; discriminate.
Qed.

(** An event that writes no page state and copies no objects. *)
Lemma own_inv_silent (c c' : config) (x : entry) :
  own_inv c ->
  trace c' = x :: trace c ->
  (forall arr i, status (shared c') arr i = status (shared c) arr i) ->
  is_compaction (ev x) = false ->
  transition_of x = None ->
  own_next (owns (tid x) (trace c)) (ev x) (ans x) = owns (tid x) (trace c) ->
  own_inv c'.
Proof.
  intros [Istate Iexcl Ionce Itodo Ifresh Ifwd Iwin Icomp] Htr Hst Hnc Htrans Hnext.
  assert (Hcount : forall i, compaction_count i (trace c') = compaction_count i (trace c)).
  { intros i. rewrite Htr, compaction_count_cons.
    destruct (compacts i (ev x)) eqn:E; auto.
    destruct (ev x); simpl in *; discriminate. }
  assert (Hown : forall t', owns t' (trace c') = owns t' (trace c)).
  { intros t'. rewrite Htr, owns_cons.
    destruct (Nat.eqb_spec (tid x) t') as [<-|]; auto. }
  constructor.
  - intros t' l tok. rewrite Hown, Hst. apply Istate.
  - intros t1 t2 l tok. rewrite !Hown. apply Iexcl.
  - intros i. rewrite Hcount. apply Ionce.
  - intros t' i tok. rewrite Hown, Hcount. apply Itodo.
  - intros i. rewrite Hst, Hcount. apply Ifresh.
  - rewrite Htr. constructor; auto. unfold forward_transition. rewrite Htrans. exact I.
  - intros t' i tok. rewrite Hown, Htr. intros E Ec.
    destruct (Iwin _ _ _ E Ec) as (y & s & Hy & Hw & Hs).
    exists y, s. split; [right; auto|auto].
  - rewrite Htr. simpl. split; auto.
    intros i Hi. destruct (ev x); simpl in *; discriminate.
Qed.

(** The owner copies the objects of its page. *)
Lemma own_inv_compact (c c' : config) (x : entry) (idx : nat) (tok0 : token) :
  own_inv c ->
  trace c' = x :: trace c ->
  (forall arr i, status (shared c') arr i = status (shared c) arr i) ->
  compacted_page (ev x) = Some idx ->
  owns (tid x) (trace c) (MovingPagesStatus, idx) = Some tok0 ->
  tok_compact tok0 = true ->
  own_next (owns (tid x) (trace c)) (ev x) (ans x) =
    own_put (owns (tid x) (trace c)) (MovingPagesStatus, idx)
      {| tok_state := tok_state tok0; tok_compact := false |} ->
  own_inv c'.
Proof.
  intros [Istate Iexcl Ionce Itodo Ifresh Ifwd Iwin Icomp] Htr Hst Hcp Hown0 Hc0 Hnext.
  assert (Hcount : forall i, compaction_count i (trace c') =
            ((if Nat.eqb idx i then 1 else 0) + compaction_count i (trace c))%nat).
  { intros i. rewrite Htr, compaction_count_cons. f_equal.
    destruct (ev x); simpl in *; try discriminate; injection Hcp as ->; reflexivity. }
  assert (Hown : forall t' l', owns t' (trace c') l' =
            if Nat.eqb (tid x) t' then
              own_put (owns t' (trace c)) (MovingPagesStatus, idx)
                {| tok_state := tok_state tok0; tok_compact := false |} l'
            else owns t' (trace c) l').
  { intros t' l'. rewrite Htr, owns_cons.
    destruct (Nat.eqb_spec (tid x) t') as [<-|]; auto. rewrite Hnext. reflexivity. }
  assert (Hothers : forall t', t' <> tid x ->
            owns t' (trace c) (MovingPagesStatus, idx) = None).
  { intros t' Hne. eapply Iexcl; [|exact Hown0]. auto. }
  constructor.
  - intros t' l tok. rewrite Hown, Hst.
    destruct (Nat.eqb_spec (tid x) t') as [<-|Hne]; [|apply Istate].
    unfold own_put. destruct (loc_eqb l (MovingPagesStatus, idx)) eqn:El; [|apply Istate].
    apply loc_eqb_eq in El. subst l. intros [= <-]. exact (Istate _ _ _ Hown0).
  - intros t1 t2 l tok Hne. rewrite !Hown. unfold own_put.
    destruct (Nat.eqb_spec (tid x) t1) as [<-|H1],
             (Nat.eqb_spec (tid x) t2) as [<-|H2]; try contradiction.
    + destruct (loc_eqb l (MovingPagesStatus, idx)) eqn:El; [|apply Iexcl; auto].
      apply loc_eqb_eq in El. subst l. intros _. apply Hothers; auto.
    + destruct (loc_eqb l (MovingPagesStatus, idx)) eqn:El; [|apply Iexcl; auto].
      apply loc_eqb_eq in El. subst l. rewrite Hothers by auto. discriminate.
    + apply Iexcl; auto.
  - intros i. rewrite Hcount. destruct (Nat.eqb_spec idx i) as [<-|Hne].
    + rewrite (Itodo _ _ _ Hown0 Hc0). simpl. lia.
    + simpl. apply Ionce.
  - intros t' i tok. rewrite Hown, Hcount. unfold own_put.
    destruct (Nat.eqb_spec idx i) as [<-|Hi].
    + destruct (Nat.eqb_spec (tid x) t') as [<-|Hne].
      * rewrite loc_eqb_refl. intros [= <-]. simpl. discriminate.
      * rewrite Hothers by auto. discriminate.
    + simpl. destruct (Nat.eqb_spec (tid x) t') as [<-|Hne]; [|apply Itodo].
      rewrite loc_eqb_neq by congruence. apply Itodo.
  - intros i. rewrite Hst, Hcount. destruct (Nat.eqb_spec idx i) as [<-|Hi].
    + intros Hs. destruct (Istate _ _ _ Hown0) as [Hs' Ho]. simpl in Hs'.
      rewrite Hs in Hs'. injection Hs' as Hs'. rewrite <- Hs' in Ho. discriminate.
    + simpl. apply Ifresh.
  - rewrite Htr. constructor; auto. unfold forward_transition, transition_of.
    destruct (ev x); simpl in *; try discriminate; exact I.
  - intros t' i tok. rewrite Hown, Htr. unfold own_put.
    assert (Hold : forall tok, owns t' (trace c) (MovingPagesStatus, i) = Some tok ->
                   tok_compact tok = true ->
                   exists y s, In y (x :: trace c) /\ wins_page t' i s y /\
                               compacting_state s = true).
    { intros tok1 E Ec. destruct (Iwin _ _ _ E Ec) as (y & s & Hy & Hw & Hs).
      exists y, s. split; [right; auto|auto]. }
    destruct (Nat.eqb_spec (tid x) t') as [<-|Hne]; [|apply Hold].
    destruct (loc_eqb (MovingPagesStatus, i) (MovingPagesStatus, idx)) eqn:El;
      [|apply Hold].
    intros [= <-]. simpl. discriminate.
  - rewrite Htr. simpl. split; auto.
    intros i Hi. rewrite Hcp in Hi. injection Hi as <-.
    eapply Iwin; eauto.
Qed.

Lemma own_inv_step (t : nat) (env : resp) (c c' : config) :
  threads_wp own_allowed own_next own_none c ->
  own_inv c ->
  step t env c = Some c' ->
  own_inv c'.
Proof.
  intros Hw Hinv Hs.
  destruct (threads_wp_step _ _ _ _ _ _ _ Hw Hs) as [_ (x & Htr & Htid & Hal)].
  destruct (step_inv _ _ _ _ Hs) as (e & k & Hp & Hsh & Hpool & Htr').
  rewrite Htr in Htr'. injection Htr' as Hx.
  fold (owns t (trace c)) in Hal.
  assert (Hst : forall arr i, status (shared c') arr i =
                  status (snd (exec_event (shared c) e env)) arr i)
    by (rewrite Hsh; reflexivity).
  assert (Hev : ev x = e) by (rewrite Hx; reflexivity).
  assert (Hans : ans x = fst (exec_event (shared c) e env)) by (rewrite Hx; reflexivity).
  assert (Hold : old_word x = word_before (shared c) e) by (rewrite Hx; reflexivity).
  clear Hx. rewrite Hev in Hal. rewrite <- Htid in *.
  destruct e;
    try (apply (own_inv_silent c c' x Hinv Htr);
         [intros arr' i'; rewrite Hst, exec_event_status; reflexivity
         |rewrite Hev; reflexivity
         |unfold transition_of; rewrite Hev; reflexivity
         |rewrite Hev; reflexivity]; fail).
  - (* compare-and-swap *)
    simpl in Hal.
    destruct (state_of expected) as [a|] eqn:Ea; [|contradiction].
    destruct (state_of desired) as [b|] eqn:Eb; [|contradiction].
    destruct Hal as [Hlt Hcl].
    simpl in Hans. 
    destruct (status (shared c) arr idx =? expected) eqn:Ecur.
    + apply Z.eqb_eq in Ecur.
      apply (own_inv_write c c' x (arr, idx) desired a b
               match owns (tid x) (trace c) (arr, idx) with
               | Some t => tok_compact t
               | None => PageState_eqb a kUnprocessed && compacting_state b
               end Hinv Htr).
      * intros arr' i'. rewrite Hst, exec_event_status.
        rewrite Ecur, Z.eqb_refl, andb_true_r. reflexivity.
      * simpl. rewrite Ecur. exact Ea.
      * exact Eb.
      * exact Hlt.
      * rewrite Hev. reflexivity.
      * unfold forward_transition, transition_of. rewrite Hev, Hans. simpl.
        rewrite Ecur, Ea, Eb. exact Hlt.
      * rewrite Hev, Hans. simpl. rewrite Ea, Eb. reflexivity.
      * intros Hn. rewrite Hn in Hcl. tauto.
      * destruct (owns (tid x) (trace c) (arr, idx)) as [tok|] eqn:Eo.
        -- intros Hf. left. eauto.
        -- intros Hf. right. apply andb_true_iff in Hf. destruct Hf as [Hu Hc].
           assert (a = kUnprocessed) as -> by (destruct a; cbv in Hu; congruence).
           split; auto. intros i [= -> ->]. split; auto.
           split; auto. exists expected, desired, (status (shared c) MovingPagesStatus i).
           rewrite Hev, Hans. auto.
    + apply (own_inv_silent c c' x Hinv Htr).
      * intros arr' i'. rewrite Hst, exec_event_status.
        rewrite Ecur, andb_false_r. reflexivity.
      * rewrite Hev. reflexivity.
      * unfold transition_of. rewrite Hev, Hans. reflexivity.
      * rewrite Hev, Hans. reflexivity.
  - (* store *)
    simpl in Hal.
    destruct (owns (tid x) (trace c) (arr, idx)) as [tok|] eqn:Eo; [|contradiction].
    destruct (state_of v) as [b|] eqn:Eb; [|contradiction].
    destruct (inv_state _ Hinv _ _ _ Eo) as [Hs0 Ho0]. simpl in Hs0.
    apply (own_inv_write c c' x (arr, idx) v (tok_state tok) b (tok_compact tok)
             Hinv Htr).
    * intros arr' i'. rewrite Hst, exec_event_status. reflexivity.
    * exact Hs0.
    * exact Eb.
    * exact Hal.
    * rewrite Hev. reflexivity.
    * unfold forward_transition, transition_of. rewrite Hev, Hold. simpl.
      rewrite Hs0, Eb. destruct (ans x); exact Hal.
    * rewrite Hev. simpl. rewrite Eo, Eb. reflexivity.
    * rewrite Eo. discriminate.
    * intros Hf. left. eauto.
  - (* CompactPage *)
    simpl in Hal.
    destruct (owns (tid x) (trace c) (MovingPagesStatus, idx)) as [tok|] eqn:Eo;
      [|contradiction].
    apply (own_inv_compact c c' x idx tok Hinv Htr).
    * intros arr' i'. rewrite Hst, exec_event_status. reflexivity.
    * rewrite Hev. reflexivity.
    * exact Eo.
    * exact Hal.
    * rewrite Hev. simpl. rewrite Eo. reflexivity.
  - (* SlideBlackPage *)
    simpl in Hal.
    destruct (owns (tid x) (trace c) (MovingPagesStatus, idx)) as [tok|] eqn:Eo;
      [|contradiction].
    apply (own_inv_compact c c' x idx tok Hinv Htr).
    * intros arr' i'. rewrite Hst, exec_event_status. reflexivity.
    * rewrite Hev. reflexivity.
    * exact Eo.
    * exact Hal.
    * rewrite Hev. simpl. rewrite Eo. reflexivity.
Qed.

Lemma own_inv_initial (threads : list (prog unit)) : own_inv (initial threads).
Proof.
  constructor; simpl; try discriminate; auto.
Qed.

Lemma threads_wp_initial (threads : list (prog unit)) :
  Forall disciplined threads ->
  threads_wp own_allowed own_next own_none (initial threads).
Proof.
  intros H t p Hp. simpl in *.
  rewrite Forall_forall in H. specialize (H p).
  eapply wp_mono; [|apply H]; auto.
  eapply list_elem_of_lookup_2; eauto.
Qed.

(** In every configuration that disciplined threads reach, the invariant
    of the page states holds. *)
Lemma own_inv_reachable (threads : list (prog unit)) (c : config) :
  Forall disciplined threads ->
  reachable (initial threads) c ->
  own_inv c.
Proof.
  intros Hd Hr.
  cut (threads_wp own_allowed own_next own_none c /\ own_inv c); [tauto|].
  revert c Hr. apply reachable_ind.
  - split; [apply threads_wp_initial; auto|apply own_inv_initial].
  - intros t env c c' [Hw Hi] Hs. split.
    + eapply threads_wp_step; eauto.
    + eapply own_inv_step; eauto.
Qed.

(** ** The routines keep the discipline of the page states *)

Lemma own_run_empty (K : own) (arr : status_array) (a : nat) (tok : token) :
  own_run K arr a 0 tok <-> own_empty K.
Proof.
  unfold own_run, own_empty. split.
  - intros H [arr' i]. rewrite H.
    destruct (status_array_eqb arr' arr); simpl; auto.
    destruct (Nat.leb_spec a i), (Nat.ltb_spec i (a + 0)); simpl; auto; lia.
  - intros H arr' i. rewrite H.
    destruct (status_array_eqb arr' arr); simpl; auto.
    destruct (Nat.leb_spec a i), (Nat.ltb_spec i (a + 0)); simpl; auto; lia.
Qed.

Lemma own_run_lookup (K : own) (arr : status_array) (a n : nat) (tok : token) (i : nat) :
  own_run K arr a n tok -> (a <= i < a + n)%nat -> K (arr, i) = Some tok.
Proof.
  intros H Hi. rewrite H.
  replace (status_array_eqb arr arr) with true
    by (symmetry; apply status_array_eqb_eq; auto).
  destruct (Nat.leb_spec a i), (Nat.ltb_spec i (a + n)); simpl; auto; lia.
Qed.

Lemma own_run_outside (K : own) (arr : status_array) (a n : nat) (tok : token) (i : nat) :
  own_run K arr a n tok -> (i < a \/ a + n <= i)%nat -> K (arr, i) = None.
Proof.
  intros H Hi. rewrite H.
  destruct (status_array_eqb arr arr); simpl; auto.
  destruct (Nat.leb_spec a i), (Nat.ltb_spec i (a + n)); simpl; auto; lia.
Qed.

Lemma status_array_eqb_decide (a b : status_array) :
  status_array_eqb a b = bool_decide (a = b).
Proof.
  destruct (status_array_eqb a b) eqn:E; symmetry.
  - apply bool_decide_eq_true. apply status_array_eqb_eq. auto.
  - apply bool_decide_eq_false. intros H%status_array_eqb_eq. congruence.
Qed.

Ltac own_cases :=
  unfold own_put, own_remove, own_after_write, loc_eqb in *; cbn [fst snd] in *;
  rewrite ?status_array_eqb_decide in *;
  repeat case_bool_decide; subst; cbn [andb];
  repeat match goal with
  | |- context [(?x <=? ?y)%nat] => destruct (Nat.leb_spec x y); cbn [andb]
  | |- context [(?x <? ?y)%nat] => destruct (Nat.ltb_spec x y); cbn [andb]
  | |- context [(?x =? ?y)%nat] => destruct (Nat.eqb_spec x y); cbn [andb]; subst
  end;
  try congruence; try lia.

Lemma own_run_push (K : own) (arr : status_array) (a n : nat) (tok : token) :
  own_run K arr a n tok ->
  own_run (own_put K (arr, (a + n)%nat) tok) arr a (S n) tok.
Proof. intros H arr' i. unfold own_put. rewrite H. own_cases. Qed.

Lemma own_run_pop_front (K : own) (arr : status_array) (a n : nat) (tok : token) :
  own_run K arr a (S n) tok ->
  own_run (own_remove K (arr, a)) arr (S a) n tok.
Proof. intros H arr' i. unfold own_remove. rewrite H. own_cases. Qed.

Lemma own_run_pop_back (K : own) (arr : status_array) (a n : nat) (tok : token) :
  own_run K arr a (S n) tok ->
  own_run (own_remove K (arr, (a + n)%nat)) arr a n tok.
Proof. intros H arr' i. unfold own_remove. rewrite H. own_cases. Qed.

Lemma own_run_retoken (K : own) (arr : status_array) (a : nat) (tok tok' : token) :
  own_run K arr a 1 tok ->
  own_run (own_put K (arr, a) tok') arr a 1 tok'.
Proof. intros H arr' i. unfold own_put. rewrite H. own_cases. Qed.

Lemma own_run_first (K : own) (arr : status_array) (a : nat) (tok : token) :
  own_empty K -> own_run (own_put K (arr, a) tok) arr a 1 tok.
Proof. intros H arr' i. unfold own_put. rewrite H. own_cases. Qed.

Lemma own_run_last (K : own) (arr : status_array) (a : nat) (tok : token) :
  own_run K arr a 1 tok -> own_empty (own_remove K (arr, a)).
Proof. intros H [arr' i]. unfold own_remove. rewrite H. own_cases. Qed.

Lemma wp_CHECK {M : Type} (allowed : M -> event -> Prop)
    (next : M -> event -> resp -> M) (b : bool) (Q : unit -> M -> Prop) (m : M) :
  (b = true -> Q tt m) -> wp allowed next (CHECK b) Q m.
Proof. destruct b; simpl; auto. Qed.

Lemma land_mask_divide (x : Z) : (256 | x) -> Z.land x kPageStateMask = 0.
Proof.
  intros [k ->]. change kPageStateMask with (Z.ones 8).
  rewrite Z.land_ones by lia. change (2 ^ 8) with 256. apply Z_mod_mult.
Qed.

Lemma land_mask_uint32 (x : Z) :
  Z.land (to_uint32 x) kPageStateMask = Z.land x kPageStateMask.
Proof.
  unfold to_uint32. change kPageStateMask with (Z.ones 8).
  rewrite !Z.land_ones by lia.
  apply Z.mod_mod_divide. exists (2 ^ 24). reflexivity.
Qed.

Lemma own_quiet (K : own) (e : event) :
  match e with
  | AtomicCas _ _ _ _ | AtomicStore _ _ _ | CompactPageCall _ _ _ _ _
  | SlideBlackPageCall _ _ _ _ _ _ _ => False
  | _ => True
  end ->
  own_allowed K e /\ forall r, own_next K e r = K.
Proof. destruct e; simpl; intros H; try contradiction; auto. Qed.

Lemma keeps_bind {A B : Type} (ok : event -> Prop) (p : prog A) (f : A -> prog B) :
  keeps ok p -> (forall a, keeps ok (f a)) -> keeps ok (bind p f).
Proof.
  intros Hp Hf. apply wp_bind. eapply wp_mono; [|exact Hp].
  intros a [] _. apply Hf.
Qed.

Lemma keeps_loop {S R : Type} (ok : event -> Prop) (body : S -> prog (turn S R))
    (fuel : nat) (s : S) :
  (forall s, keeps ok (body s)) -> keeps ok (loop fuel body s).
Proof.
  intros Hb. apply wp_loop with (I := fun _ _ => True); auto.
  intros s' [] _. eapply wp_mono; [|apply Hb]. intros [?|?] [] _; exact I.
Qed.

Lemma keeps_mono {A : Type} (ok ok' : event -> Prop) (p : prog A) :
  (forall e, ok e -> ok' e) -> keeps ok p -> keeps ok' p.
Proof.
  intros H. unfold keeps. generalize tt.
  induction p as [a| | |e k IH]; simpl; auto.
  intros u [Ho Hk]. split; [apply H; exact Ho|]. intros r. apply IH, Hk.
Qed.

Lemma keeps_trigger (ok : event -> Prop) (e : event) : ok e -> keeps ok (trigger e).
Proof. intros H. split; [exact H|]. intros; exact I. Qed.

Lemma keeps_Ret {A : Type} (ok : event -> Prop) (a : A) : keeps ok (Ret a).
Proof. exact I. Qed.

Lemma keeps_CHECK (ok : event -> Prop) (b : bool) : keeps ok (CHECK b).
Proof. destruct b; exact I. Qed.

(** A program of silent events leaves the ownership as it is. *)
Lemma keeps_owp {A : Type} (p : prog A) (Q : A -> own -> Prop) (K : own) :
  keeps silent_event p -> (forall a, Q a K) -> owp p Q K.
Proof.
  unfold keeps. generalize tt.
  induction p as [a| | |e k IH]; simpl; auto.
  intros u [Ho Hk] HQ. unfold only in Ho.
  destruct (own_quiet K e) as [Ha Hn].
  { destruct e; simpl in *; auto. }
  split; [exact Ha|]. intros r. rewrite Hn. eapply IH; eauto.
Qed.

Lemma silent_no_compaction (e : event) : silent_event e -> no_compaction e.
Proof. destruct e; simpl; intros H; try contradiction; reflexivity. Qed.

Section Discipline.
Context {P : Platform} {HP : PlatformOk P}.
Variable this : MarkCompact.
Variable fuel : nat.

(** System calls leave the ownership as it is. *)
Lemma CopyIoctl_silent (dst buffer length : Z) :
  keeps silent_event (CopyIoctl fuel dst buffer length).
Proof.
  apply keeps_loop. intros [[d s] l].
  destruct (l >? 0); [|exact I].
  split; [exact I|]. intros r. simpl.
  destruct (resp_ret r =? 0); simpl; auto.
  destruct (Errno_eqb (resp_errno r) EAGAIN); simpl; auto.
Qed.

Lemma ZeropageIoctl_silent (addr length : Z) (te tn : bool) :
  keeps silent_event (ZeropageIoctl fuel addr length te tn).
Proof.
  apply keeps_loop. intros [s l].
  destruct (l >? 0); [|exact I].
  split; [exact I|]. intros r. simpl.
  destruct (resp_ret r =? 0); simpl; auto.
  destruct (Errno_eqb (resp_errno r) EAGAIN); simpl; auto.
  unfold CHECK. destruct (_ || _); simpl; auto.
Qed.

Lemma CopyIoctl_owp (dst buffer length : Z) (Q : unit -> own -> Prop) (K : own) :
  Q tt K -> owp (CopyIoctl fuel dst buffer length) Q K.
Proof. intros HQ. apply keeps_owp; [apply CopyIoctl_silent|]. intros []; auto. Qed.

Lemma ZeropageIoctl_owp (addr length : Z) (te tn : bool)
    (Q : unit -> own -> Prop) (K : own) :
  Q tt K -> owp (ZeropageIoctl fuel addr length te tn) Q K.
Proof. intros HQ. apply keeps_owp; [apply ZeropageIoctl_silent|]. intros []; auto. Qed.

Lemma claim_moving_owp (arr_idx arr_len : nat) (Q : Z -> own -> Prop) (K : own) :
  own_empty K ->
  (forall n K', own_run K' MovingPagesStatus arr_idx n tok_mapping ->
                Q (Z.of_nat n * gPageSize) K') ->
  owp (claim_moving arr_idx arr_len) Q K.
Proof.
  intros HK HQ. unfold claim_moving.
  apply wp_loop with
    (I := fun '(i, length) K' => exists n : nat,
            i = (arr_idx + n)%nat /\ length = Z.of_nat n * gPageSize /\
            own_run K' MovingPagesStatus arr_idx n tok_mapping).
  - intros [i length] K' (n & -> & -> & Hrun).
    destruct (_ <? arr_len)%nat; simpl; [|auto].
    split; [exact I|]. intros r.
    destruct (is_state (resp_val r) kProcessed) eqn:Es; simpl; [|auto].
    apply state_of_is_state in Es. rewrite Es.
    rewrite (own_run_outside _ _ _ _ _ _ Hrun) by lia.
    split.
    { split; [unfold lifecycle_lt; simpl; lia|auto]. }
    intros r'. destruct (resp_ok r'); simpl; [|auto].
    exists (S n). split; [lia|]. split; [lia|].
    apply own_run_push. exact Hrun.
  - exists 0%nat. split; [lia|]. split; [lia|].
    apply own_run_empty. exact HK.
Qed.

Lemma store_mapped_owp (arr_idx n : nat) (Q : Z -> own -> Prop) (K : own) :
  own_run K MovingPagesStatus arr_idx n tok_mapping ->
  (forall r K', own_empty K' -> Q r K') ->
  owp (store_mapped arr_idx (Z.of_nat n * gPageSize)) Q K.
Proof.
  intros HK HQ. unfold store_mapped.
  pose proof gPageSize_pos as Hpos.
  apply wp_loop with
    (I := fun '(i, length) K' => exists m : nat,
            length = Z.of_nat m * gPageSize /\
            own_run K' MovingPagesStatus i m tok_mapping).
  - intros [i length] K' (m & -> & Hrun).
    destruct (Z.gtb_spec (Z.of_nat m * gPageSize) 0) as [Hgt|Hle].
    + destruct m as [|m]; [lia|]. cbn -[Z.of_nat Z.mul].
      rewrite (own_run_lookup _ _ _ _ _ _ Hrun) by lia.
      split; [unfold lifecycle_lt; simpl; lia|].
      intros _. exists m. split; [lia|].
      apply own_run_pop_front. exact Hrun.
    + simpl. apply HQ. destruct m as [|m]; [|nia].
      eapply own_run_empty; eauto.
  - exists n. auto.
Qed.

Lemma MapMovingSpacePages_owp (arr_idx arr_len : nat) (Q : Z -> own -> Prop) (K : own) :
  own_empty K ->
  (forall r K', own_empty K' -> Q r K') ->
  owp (MapMovingSpacePages this fuel arr_idx arr_len) Q K.
Proof.
  intros HK HQ. unfold MapMovingSpacePages.
  pose proof gPageSize_pos as Hpos.
  cbn -[claim_moving store_mapped CopyIoctl]. split; [exact I|]. intros r.
  destruct (is_state (resp_val r) kProcessed); cbn -[claim_moving store_mapped CopyIoctl]; [|auto].
  apply wp_bind. apply claim_moving_owp; [exact HK|].
  intros n K' Hrun.
  destruct (Z.gtb_spec (Z.of_nat n * gPageSize) 0) as [Hgt|Hle].
  - apply wp_bind. apply CopyIoctl_owp.
    apply wp_bind. apply store_mapped_owp; [exact Hrun|].
    intros r' K'' HK''. simpl. auto.
  - simpl. apply HQ. destruct n as [|n]; [|nia].
    eapply own_run_empty; eauto.
Qed.



Lemma own_cas_claim (K : own) (arr : status_array) (idx : nat)
    (expected desired : Z) (a b : PageState) :
  K (arr, idx) = None ->
  state_of expected = Some a -> state_of desired = Some b ->
  lifecycle_lt a b -> claimable_state a = true -> owned_state b = true ->
  own_allowed K (AtomicCas arr idx expected desired) /\
  forall r, own_next K (AtomicCas arr idx expected desired) r =
            if resp_ok r then
              own_put K (arr, idx)
                {| tok_state := b;
                   tok_compact := PageState_eqb a kUnprocessed && compacting_state b |}
            else K.
Proof.
  intros HK Ha Hb Hlt Hc Ho. unfold own_allowed, own_next, own_after_write.
  rewrite Ha, Hb, HK, Ho. split; auto.
Qed.

Lemma own_store (K : own) (arr : status_array) (idx : nat) (v : Z)
    (tok : token) (b : PageState) :
  K (arr, idx) = Some tok -> state_of v = Some b ->
  lifecycle_lt (tok_state tok) b ->
  own_allowed K (AtomicStore arr idx v) /\
  forall r, own_next K (AtomicStore arr idx v) r =
            own_after_write K (arr, idx) b (tok_compact tok).
Proof.
  intros HK Hb Hlt. unfold own_allowed, own_next. rewrite HK, Hb. auto.
Qed.

Lemma own_compact (K : own) (e : event) (i : nat) (tok : token) :
  compacted_page e = Some i ->
  K (MovingPagesStatus, i) = Some tok -> tok_compact tok = true ->
  own_allowed K e /\
  forall r, own_next K e r =
            own_put K (MovingPagesStatus, i)
              {| tok_state := tok_state tok; tok_compact := false |}.
Proof.
  intros He HK Hc.
  destruct e; simpl in He; try discriminate; injection He as ->;
    unfold own_allowed, own_next; rewrite HK; auto.
Qed.

Lemma own_put_same (K : own) (l : loc) (t : token) : own_put K l t l = Some t.
Proof. unfold own_put. rewrite loc_eqb_refl. reflexivity. Qed.

Lemma own_one_empty (K : own) (l : loc) (t : token) :
  own_empty K -> own_empty (own_remove (own_put K l t) l).
Proof. intros H l'. unfold own_remove, own_put. destruct (loc_eqb l' l); auto. Qed.

Lemma own_one_empty' (K : own) (l : loc) (t t' : token) :
  own_empty K -> own_empty (own_remove (own_put (own_put K l t) l t') l).
Proof. intros H l'. unfold own_remove, own_put. destruct (loc_eqb l' l); auto. Qed.

Lemma DoPageCompactionWithStateChange_owp (kMode : Mode) (page_idx : nat)
    (to_space_page page : Z) (map_immediately : bool) (e : event)
    (Q : bool -> own -> Prop) (K : own) :
  kMode <> kFallbackMode ->
  compacted_page e = Some page_idx ->
  own_empty K ->
  (map_immediately = false -> kMode = kCopyMode ->
   (256 | page - from_space_begin_ this)) ->
  (forall b K', own_empty K' -> Q b K') ->
  owp (DoPageCompactionWithStateChange this fuel kMode page_idx to_space_page page
         map_immediately (trigger e ;; Ret tt)) Q K.
Proof.
  intros Hmode He HK Hal HQ. unfold DoPageCompactionWithStateChange.
  set (desired := if map_immediately then kProcessingAndMapping else kProcessing).
  assert (Hd : owned_state desired = true /\ compacting_state desired = true /\
               lifecycle_lt kUnprocessed desired)
    by (unfold desired, lifecycle_lt; destruct map_immediately; simpl; auto).
  destruct Hd as (Hown & Hcomp & Hlt).
  destruct (own_cas_claim K MovingPagesStatus page_idx (code kUnprocessed)
              (code desired) kUnprocessed desired) as [Hcas Hnext];
    auto using state_of_code.
  replace (Mode_eqb kMode kFallbackMode) with false by (destruct kMode; auto; congruence).
  cbn [bind compare_exchange_strong trigger wp].
  split; [exact Hcas|]. intros r. rewrite Hnext.
  destruct (resp_ok r); cbn [fst bind wp]; [|auto].
  rewrite Hcomp.
  change (PageState_eqb kUnprocessed kUnprocessed && true) with true.
  set (K1 := own_put K _ _).
  destruct (own_compact K1 e page_idx {| tok_state := desired; tok_compact := true |}
              He (own_put_same _ _ _) eq_refl) as [Hce Hcn].
  split; [exact Hce|]. intros r1. rewrite Hcn. cbn [tok_state].
  set (K2 := own_put K1 _ _).
  assert (HK2 : K2 (MovingPagesStatus, page_idx) =
                Some {| tok_state := desired; tok_compact := false |})
    by apply own_put_same.
  destruct kMode; [| |congruence].
  - (* kCopyMode *)
    destruct map_immediately eqn:Emi.
    + apply wp_bind. apply CopyIoctl_owp. cbn [bind store trigger wp].
      destruct (own_store K2 MovingPagesStatus page_idx (code kProcessedAndMapped)
                  _ kProcessedAndMapped HK2 (state_of_code _)) as [Hs Hn].
      { unfold lifecycle_lt, desired. simpl. lia. }
      split; [exact Hs|]. intros r2. rewrite Hn. unfold own_after_write. simpl.
      apply HQ. apply own_one_empty'. exact HK.
    + cbn [bind store trigger wp].
      destruct (own_store K2 MovingPagesStatus page_idx
                  (Z.lor (to_uint32 (page - from_space_begin_ this)) (code kProcessed))
                  _ kProcessed HK2) as [Hs Hn].
      { apply state_of_lor. rewrite land_mask_uint32. apply land_mask_divide. auto. }
      { unfold lifecycle_lt, desired. simpl. lia. }
      split; [exact Hs|]. intros r2. rewrite Hn. unfold own_after_write. simpl.
      apply HQ. apply own_one_empty'. exact HK.
  - (* kMinorFaultMode *)
    cbn [bind compare_exchange_strong trigger wp].
    split; [|intros; exact I].
    unfold own_allowed. rewrite !state_of_code, HK2.
    split; [unfold lifecycle_lt; simpl; lia|exact I].
Qed.


Lemma AlignUp_divide (x n : Z) : (n | AlignUp x n).
Proof. unfold AlignUp. apply Z.divide_factor_r. Qed.

Lemma scan_reclaim_idx_silent (cur_page_idx idx : nat) :
  keeps silent_event (scan_reclaim_idx cur_page_idx idx).
Proof.
  apply keeps_loop. intros i.
  destruct (_ <? _)%nat; [|exact I].
  split; [exact I|]. intros r. simpl.
  destruct (is_state (resp_val r) kMutatorProcessing); exact I.
Qed.

Lemma wait_mapped_silent (i : nat) : keeps silent_event (wait_mapped fuel i).
Proof.
  split; [exact I|]. intros r. simpl.
  apply keeps_loop. intros [raw n].
  destruct (negb _); [|exact I].
  split; [exact I|]. intros r1. simpl.
  split; [exact I|]. intros r2. exact I.
Qed.

Lemma wait_all_mapped_silent (i end_idx : nat) :
  keeps silent_event (wait_all_mapped fuel i end_idx).
Proof.
  apply keeps_loop. intros j.
  destruct (_ <? _)%nat; [|exact I].
  apply keeps_bind; [apply wait_mapped_silent|]. intros; exact I.
Qed.

Lemma claim_zero_pages_owp (page_idx end_idx : nat) (Q : Z -> own -> Prop) (K : own) :
  own_empty K ->
  (forall n K', own_run K' MovingPagesStatus page_idx n tok_mapping ->
                Q (Z.of_nat n * gPageSize) K') ->
  owp (claim_zero_pages page_idx end_idx) Q K.
Proof.
  intros HK HQ. unfold claim_zero_pages.
  apply wp_loop with
    (I := fun '(i, length) K' => exists n : nat,
            i = (page_idx + n)%nat /\ length = Z.of_nat n * gPageSize /\
            own_run K' MovingPagesStatus page_idx n tok_mapping).
  - intros [i length] K' (n & -> & -> & Hrun).
    destruct (_ <? end_idx)%nat; [|simpl; auto].
    destruct (own_cas_claim K' MovingPagesStatus (page_idx + n) (code kUnprocessed)
                (code kProcessedAndMapping) kUnprocessed kProcessedAndMapping)
      as [Hcas Hnext]; auto using state_of_code.
    { apply (own_run_outside _ _ _ _ _ _ Hrun). lia. }
    { unfold lifecycle_lt. simpl. lia. }
    cbn [bind compare_exchange_strong trigger wp].
    split; [exact Hcas|]. intros r. rewrite Hnext.
    destruct (resp_ok r); cbn [fst bind wp]; [|auto].
    exists (S n). split; [lia|]. split; [lia|].
    apply own_run_push. exact Hrun.
  - exists 0%nat. split; [lia|]. split; [lia|].
    apply own_run_empty. exact HK.
Qed.

Lemma store_zero_pages_owp (page_idx n : nat) (Q : unit -> own -> Prop) (K : own) :
  own_run K MovingPagesStatus page_idx n tok_mapping ->
  (forall K', own_empty K' -> Q tt K') ->
  owp (store_zero_pages page_idx (Z.of_nat n * gPageSize)) Q K.
Proof.
  intros HK HQ. unfold store_zero_pages.
  pose proof gPageSize_pos as Hpos.
  apply wp_loop with
    (I := fun '(len, i) K' => exists m : nat,
            Z.of_nat n * gPageSize - len = Z.of_nat m * gPageSize /\
            own_run K' MovingPagesStatus i m tok_mapping).
  - intros [len i] K' (m & Hlen & Hrun).
    destruct (Z.ltb_spec len (Z.of_nat n * gPageSize)) as [Hlt|Hge].
    + destruct m as [|m]; [lia|].
      destruct (own_store K' MovingPagesStatus i (code kProcessedAndMapped)
                  tok_mapping kProcessedAndMapped) as [Hs Hn];
        auto using state_of_code.
      { apply (own_run_lookup _ _ _ _ _ _ Hrun). lia. }
      { unfold lifecycle_lt. simpl. lia. }
      cbn [bind store trigger wp].
      split; [exact Hs|]. intros r. rewrite Hn.
      exists m. split; [lia|].
      apply own_run_pop_front. exact Hrun.
    + simpl. apply HQ. destruct m as [|m]; [|nia].
      eapply own_run_empty; eauto.
  - exists n. split; [lia|auto].
Qed.

Lemma ConcurrentlyProcessMovingPage_owp (kMode : Mode) (self : Thread)
    (fault_page buf : Z) (nr : nat) (Q : Thread -> own -> Prop) (K : own) :
  own_empty K ->
  (forall self' K', own_empty K' -> Q self' K') ->
  owp (ConcurrentlyProcessMovingPage this fuel kMode self fault_page buf nr) Q K.
Proof.
  intros HK HQ. unfold ConcurrentlyProcessMovingPage.
  pose proof gPageSize_pos as Hpos.
  destruct (_ && _).
  { apply wp_bind. apply ZeropageIoctl_owp. simpl. auto. }
  set (page_idx := Z.to_nat _).
  destruct (_ =? 0).
  { (* the page has no first object *)
    apply wp_bind. apply claim_zero_pages_owp; [exact HK|].
    intros n K' Hrun. apply wp_bind.
    destruct (Z.gtb_spec (Z.of_nat n * gPageSize) 0) as [Hgt|Hle].
    - apply wp_bind. apply ZeropageIoctl_owp.
      apply store_zero_pages_owp; [exact Hrun|].
      intros K'' HK''. simpl. auto.
    - simpl. apply HQ. destruct n as [|n]; [|nia].
      eapply own_run_empty; eauto. }
  cbn [bind load trigger wp]. split; [exact I|]. intros r0.
  change (own_next K (AtomicLoad MovingPagesStatus page_idx) r0) with K.
  apply wp_loop with (I := fun _ K' => own_empty K'); [|exact HK].
  clear HK r0. intros [[[raw backoff_count] buf'] self'] K' HK'.
  destruct (_ || _ || _ || _).
  { destruct (negb _); [simpl; auto|].
    cbn [bind BackOff load trigger wp]. split; [exact I|]. intros r1.
    split; [exact I|]. intros r2. exact HK'. }
  destruct (is_state raw kProcessedAndMapped); [simpl; auto|].
  cbn [bind trigger wp]. split; [exact I|]. intros r1.
  change (own_next K' (InProgressFetchAdd 1) r1) with K'.
  assert (Hlost : forall raw' K2, own_empty K2 ->
    owp (if is_state raw' kProcessed then
           len <- MapMovingSpacePages this fuel page_idx
                    (moving_first_objs_count_ this + black_page_count_ this) ;;
           (if len >=? gPageSize then
              trigger (InProgressFetchAdd (-1)) ;; Ret (Break self')
            else
              raw_state <- load MovingPagesStatus page_idx ;;
              trigger (InProgressFetchAdd (-1)) ;;
              Ret (Continue (raw_state, backoff_count, buf', self')))
         else
           trigger (InProgressFetchAdd (-1)) ;;
           Ret (Continue (raw', backoff_count, buf', self')))
      (fun x m' => match x with
                   | Continue _ => own_empty m'
                   | Break r => Q r m'
                   end) K2).
  { intros raw' K2 HK2. destruct (is_state raw' kProcessed).
    - apply wp_bind. apply MapMovingSpacePages_owp; [exact HK2|].
      intros len K3 HK3. destruct (_ >=? _).
      + cbn [bind trigger wp]. split; [exact I|]. intros r. apply HQ. exact HK3.
      + cbn [bind load trigger wp]. split; [exact I|]. intros r.
        split; [exact I|]. intros r'. exact HK3.
    - cbn [bind trigger wp]. split; [exact I|]. intros r. exact HK2. }
  destruct (is_state raw kUnprocessed) eqn:Eu; [|apply Hlost; exact HK'].
  apply state_of_is_state in Eu.
  destruct (own_cas_claim K' MovingPagesStatus page_idx raw
              (code kMutatorProcessing) kUnprocessed kMutatorProcessing)
    as [Hcas Hnext]; auto using state_of_code.
  { unfold lifecycle_lt. simpl. lia. }
  cbn [bind compare_exchange_strong trigger wp].
  split; [exact Hcas|]. intros r2. rewrite Hnext.
  destruct (resp_ok r2); cbn [fst snd bind wp]; [|apply Hlost; exact HK'].
  change (PageState_eqb kUnprocessed kUnprocessed && compacting_state kMutatorProcessing)
    with true.
  set (K1 := own_put K' _ _).
  (* whatever the buffer, the page is compacted, published and released *)
  assert (Hev : forall e buf2 self2, compacted_page e = Some page_idx ->
    owp (trigger e ;;
         store MovingPagesStatus page_idx (code kProcessedAndMapping) ;;
         (if Mode_eqb kMode kCopyMode then
            CopyIoctl fuel fault_page buf2 gPageSize ;;
            store MovingPagesStatus page_idx (code kProcessedAndMapped) ;;
            trigger (InProgressFetchAdd (-1)) ;;
            Ret (Break self2)
          else Crash))
      (fun (x : turn (Z * Z * Z * Thread) Thread) m' =>
         match x with
         | Continue _ => own_empty m'
         | Break r => Q r m'
         end) K1).
  { intros e buf2 self2 He.
    destruct (own_compact K1 e page_idx
                {| tok_state := kMutatorProcessing; tok_compact := true |})
      as [Hce Hcn]; auto using own_put_same.
    { apply own_put_same. }
    cbn [bind trigger wp]. split; [exact Hce|]. intros r3. rewrite Hcn.
    cbn [tok_state]. set (K2 := own_put K1 _ _).
    destruct (own_store K2 MovingPagesStatus page_idx (code kProcessedAndMapping)
                {| tok_state := kMutatorProcessing; tok_compact := false |}
                kProcessedAndMapping) as [Hs Hn]; auto using state_of_code.
    { apply own_put_same. }
    { unfold lifecycle_lt. simpl. lia. }
    cbn [bind store trigger wp]. split; [exact Hs|]. intros r4. rewrite Hn.
    unfold own_after_write. cbn [owned_state tok_compact].
    set (K3 := own_put K2 _ _).
    destruct (Mode_eqb kMode kCopyMode); [|exact I].
    apply wp_bind. apply CopyIoctl_owp.
    destruct (own_store K3 MovingPagesStatus page_idx (code kProcessedAndMapped)
                {| tok_state := kProcessedAndMapping; tok_compact := false |}
                kProcessedAndMapped) as [Hs' Hn']; auto using state_of_code.
    { apply own_put_same. }
    { unfold lifecycle_lt. simpl. lia. }
    cbn [bind store trigger wp]. split; [exact Hs'|]. intros r5. rewrite Hn'.
    unfold own_after_write. cbn [owned_state].
    split; [exact I|]. intros r6. apply HQ.
    intros l. unfold own_next, own_remove, K3, K2, K1, own_put. cbv beta.
    destruct (loc_eqb l (MovingPagesStatus, page_idx)); auto. }
  assert (Hwork : forall buf2 self2,
    owp ((if fault_page <? post_compact_end_ this then
            trigger
              (CompactPageCall page_idx (read (first_objs_moving_space_ this) page_idx)
                 (read (pre_compact_offset_moving_space_ this) page_idx) buf2
                 (Mode_eqb kMode kCopyMode))
          else
            trigger
              (SlideBlackPageCall page_idx (read (first_objs_moving_space_ this) page_idx)
                 (if (page_idx + 1 <?
                      moving_first_objs_count_ this + black_page_count_ this)%nat
                  then read (first_objs_moving_space_ this) (page_idx + 1) else 0)
                 (read (black_alloc_pages_first_chunk_size_ this) page_idx)
                 (black_allocations_begin_ this + (fault_page - post_compact_end_ this))
                 buf2 (Mode_eqb kMode kCopyMode))) ;;
         store MovingPagesStatus page_idx (code kProcessedAndMapping) ;;
         (if Mode_eqb kMode kCopyMode then
            CopyIoctl fuel fault_page buf2 gPageSize ;;
            store MovingPagesStatus page_idx (code kProcessedAndMapped) ;;
            trigger (InProgressFetchAdd (-1)) ;;
            Ret (Break self2)
          else Crash))
      (fun (x : turn (Z * Z * Z * Thread) Thread) m' =>
         match x with
         | Continue _ => own_empty m'
         | Break r => Q r m'
         end) K1).
  { intros buf2 self2. destruct (fault_page <? _); apply Hev; reflexivity. }
  destruct (Mode_eqb kMode kMinorFaultMode).
  { cbn [bind wp]. apply Hwork. }
  destruct (buf' =? 0).
  - cbn [bind trigger wp]. split; [exact I|]. intros r3.
    change (own_next K1 BufferCounterFetchAdd r3) with K1.
    apply wp_bind. apply wp_bind. apply wp_CHECK. intros _. cbn [bind wp]. apply Hwork.
  - cbn [bind wp]. apply Hwork.
Qed.

Lemma ScopedInProgressCount_silent :
  keeps silent_event (ScopedInProgressCount fuel).
Proof.
  split; [exact I|]. intros r. simpl.
  apply keeps_loop. intros prev.
  destruct (_ =? 0); [|exact I].
  split; [exact I|]. intros c. simpl. destruct (resp_ok c); exact I.
Qed.

Lemma ScopedInProgressCount_exit_silent (b : bool) :
  keeps silent_event (ScopedInProgressCount_exit b).
Proof. destruct b; simpl; [exact I|]. split; [exact I|]. intros; exact I. Qed.

Lemma SigbusHandler_owp (self : Thread) (info : siginfo)
    (Q : bool * Thread -> own -> Prop) (K : own) :
  own_empty K ->
  (forall r K', own_empty K' -> Q r K') ->
  owp (SigbusHandler this fuel self info) Q K.
Proof.
  intros HK HQ. unfold SigbusHandler.
  destruct (negb _); [apply HQ; exact HK|].
  apply wp_bind. apply keeps_owp; [apply ScopedInProgressCount_silent|].
  intros compaction_done.
  destruct (negb compaction_done); [|apply HQ; exact HK].
  destruct (HasAddress _ _).
  - apply wp_bind.
    assert (Hexit : forall self' K', own_empty K' ->
      owp (ScopedInProgressCount_exit compaction_done ;; Ret (true, self')) Q K').
    { intros self' K' HK'. apply wp_bind.
      apply keeps_owp; [apply ScopedInProgressCount_exit_silent|].
      intros []. apply HQ. exact HK'. }
    destruct (minor_fault_initialized_ this);
      apply ConcurrentlyProcessMovingPage_owp; auto.
  - destruct (find _ _).
    + cbn [bind trigger wp]. split; [exact I|]. intros r.
      apply wp_bind. apply keeps_owp; [apply ScopedInProgressCount_exit_silent|].
      intros []. apply HQ. exact HK.
    + apply wp_bind. apply keeps_owp; [apply ScopedInProgressCount_exit_silent|].
      intros []. apply HQ. exact HK.
Qed.

Lemma ConcurrentCompaction_owp (kMode : Mode) (self : Thread) (buf : Z)
    (Q : unit -> own -> Prop) (K : own) :
  own_empty K ->
  (forall K', own_empty K' -> Q tt K') ->
  owp (ConcurrentCompaction this fuel kMode self buf) Q K.
Proof.
  intros HK HQ. unfold ConcurrentCompaction.
  apply wp_loop with (I := fun _ K' => own_empty K'); [|exact HK].
  clear HK. intros self' K' HK'.
  cbn [bind trigger wp]. split; [exact I|]. intros msg.
  change (own_next K' ReadUffd msg) with K'.
  apply wp_bind. apply wp_CHECK. intros _.
  apply wp_bind. apply wp_CHECK. intros _.
  destruct (_ =? conc_compaction_termination_page_ this).
  - cbn [bind trigger wp]. split; [exact I|]. intros r.
    change (own_next K' ThreadPoolCounterDecr r) with K'.
    apply wp_bind. destruct (_ || _).
    + apply ZeropageIoctl_owp. apply HQ. exact HK'.
    + cbn [bind trigger wp]. split; [exact I|]. intros w.
      apply wp_CHECK. intros _. apply HQ. exact HK'.
  - destruct (HasAddress _ _).
    + apply wp_bind. apply ConcurrentlyProcessMovingPage_owp; auto.
    + cbn [bind trigger wp]. split; [exact I|]. intros r. exact HK'.
Qed.

Lemma handle_faults_owp (self : Thread) (faults : list siginfo)
    (Q : unit -> own -> Prop) (K : own) :
  own_empty K ->
  (forall K', own_empty K' -> Q tt K') ->
  owp (handle_faults this fuel self faults) Q K.
Proof.
  revert self K. induction faults as [|info faults IH]; intros self K HK HQ; simpl.
  - apply HQ. exact HK.
  - apply wp_bind. apply SigbusHandler_owp; [exact HK|].
    intros r K' HK'. apply IH; auto.
Qed.

Section Aligned.
Hypothesis Hok : MarkCompactOk this.

Lemma reclaim_begin_of_aligned (idx : nat) :
  (gPageSize | fst (reclaim_begin_of this idx)).
Proof.
  pose proof (black_allocations_begin_aligned _ Hok) as Hb.
  unfold reclaim_begin_of.
  destruct (_ <=? idx)%nat; simpl.
  - destruct (negb _ && _).
    + destruct (find_different _ _ _ _) as [[i obj]|].
      * destruct (negb _); [apply AlignUp_divide|].
        apply Z.divide_add_r; [exact Hb|apply Z.divide_factor_r].
      * apply Z.divide_add_r; [exact Hb|apply Z.divide_factor_r].
    + apply Z.divide_add_r; [exact Hb|apply Z.divide_factor_r].
  - apply AlignUp_divide.
Qed.

Lemma class_after_obj_scan_aligned (iter : list (Z * Z)) (reclaim_begin idx_addr : Z) :
  (gPageSize | reclaim_begin) ->
  (gPageSize | fst (class_after_obj_scan this iter reclaim_begin idx_addr)).
Proof.
  intros H. induction iter as [|[klass obj] rest IH]; simpl; auto.
  destruct (_ >=? _); simpl; auto.
  destruct (_ <? _); simpl; auto. apply AlignUp_divide.
Qed.

Lemma FreeFromSpacePages_owp (rc : Reclaim) (cur_page_idx : nat) (mode : Mode)
    (end_idx_for_mapping : nat) (Q : bool * Reclaim -> own -> Prop) (K : own) :
  own_empty K ->
  reclaim_aligned rc ->
  (forall r K', own_empty K' -> reclaim_aligned (snd r) -> Q r K') ->
  owp (FreeFromSpacePages this fuel rc cur_page_idx mode end_idx_for_mapping) Q K.
Proof.
  intros HK Hrc HQ. unfold FreeFromSpacePages.
  apply wp_bind. apply keeps_owp; [apply scan_reclaim_idx_silent|]. intros idx.
  destruct (_ =? _)%nat; [apply HQ; auto|].
  pose proof (reclaim_begin_of_aligned idx) as Hrb.
  destruct (reclaim_begin_of this idx) as [rb idx_addr]. simpl in Hrb.
  pose proof (class_after_obj_scan_aligned (class_after_obj_iter_ rc) rb idx_addr Hrb)
    as Hrb'.
  destruct (class_after_obj_scan this (class_after_obj_iter_ rc) rb idx_addr)
    as [rb' iter]. simpl in Hrb'.
  apply wp_bind.
  destruct (_ >? kMinFromSpaceMadviseSize).
  - apply wp_bind.
    assert (Hmadv : forall ret K', own_empty K' ->
      owp (r <- trigger (MadviseCall
                 (last_reclaimed_page_ rc - (last_reclaimed_page_ rc - rb' - 4 * gPageSize)
                  + from_space_slide_diff_ this)
                 (last_reclaimed_page_ rc - rb' - 4 * gPageSize)
                 (if minor_fault_initialized_ this then MADV_REMOVE else MADV_DONTNEED)) ;;
           CHECK (resp_ret r =? 0) ;;
           Ret (ret, last_reclaimed_page_ rc - (last_reclaimed_page_ rc - rb' - 4 * gPageSize),
                last_reclaimed_page_ rc - (last_reclaimed_page_ rc - rb' - 4 * gPageSize)))
        (fun a m' =>
           owp (let '(ret0, last_reclaimed, cur_reclaimable) := a in
                CHECK (rb' <=? last_reclaimable_page_ rc) ;;
                Ret (ret0, {| last_reclaimed_page_ := last_reclaimed;
                              last_reclaimable_page_ := rb';
                              cur_reclaimable_page_ := cur_reclaimable;
                              last_checked_reclaim_page_idx_ := idx;
                              class_after_obj_iter_ := iter |})) Q m') K').
    { intros ret K' HK'. simpl. split; [exact I|]. intros r.
      apply wp_bind. apply wp_CHECK. intros _. simpl.
      apply wp_bind. apply wp_CHECK. intros _. simpl.
      apply HQ; auto. unfold reclaim_aligned. simpl.
      replace (last_reclaimed_page_ rc - (last_reclaimed_page_ rc - rb' - 4 * gPageSize))
        with (rb' + 4 * gPageSize) by lia.
      apply Z.divide_add_r; [exact Hrb'|apply Z.divide_factor_r]. }
    destruct (_ && _).
    + apply wp_bind. apply MapMovingSpacePages_owp; [exact HK|].
      intros len K' HK'.
      apply wp_bind. apply keeps_owp; [apply wait_all_mapped_silent|].
      intros []. simpl. apply Hmadv. exact HK'.
    + simpl. apply Hmadv. exact HK.
  - simpl. apply wp_bind. apply wp_CHECK. intros _. simpl.
    apply HQ; auto.
Qed.


Lemma compact_black_pages_owp (kMode : Mode) (st : nat * Z * Z * Z * Z * Z * Reclaim)
    (Q : nat * Z * Z * Z * Z * Z * Reclaim -> own -> Prop) (K : own) :
  kMode <> kFallbackMode ->
  own_empty K ->
  reclaim_aligned (snd st) ->
  (forall st' K', own_empty K' -> reclaim_aligned (snd st') -> Q st' K') ->
  owp (compact_black_pages this fuel kMode st) Q K.
Proof.
  intros Hmode HK Hrc HQ. unfold compact_black_pages.
  destruct st as [[[[[[idx0 pcp0] tse0] sse0] page0] npfo0] rc0].
  apply wp_loop with (I := fun st K' => own_empty K' /\ reclaim_aligned (snd st));
    [|auto].
  clear HK Hrc. intros st K' [HK' Hrc'].
  destruct st as [[[[[[idx pcp] tse] sse] page] npfo] rc]. simpl in Hrc'.
  destruct (_ <? idx)%nat; [|apply HQ; auto].
  apply wp_bind.
  destruct (negb _).
  - apply wp_bind. apply DoPageCompactionWithStateChange_owp; auto.
    { intros [=]. }
    intros b K'' HK''.
    destruct (_ =? 0).
    + apply wp_bind. apply FreeFromSpacePages_owp; auto.
      intros r K3 HK3 Hr3. simpl. auto.
    + simpl. auto.
  - simpl. auto.
Qed.

Lemma compact_moving_pages_owp (kMode : Mode) (reserve_page : Z)
    (st : nat * Z * Z * Z * nat * Reclaim)
    (Q : nat * Z * Z * Z * nat * Reclaim -> own -> Prop) (K : own) :
  kMode <> kFallbackMode ->
  own_empty K ->
  reclaim_aligned (snd st) ->
  (forall st' K', own_empty K' -> Q st' K') ->
  owp (compact_moving_pages this fuel kMode reserve_page st) Q K.
Proof.
  intros Hmode HK Hrc HQ. unfold compact_moving_pages.
  destruct st as [[[[[idx0 tse0] sse0] page0] eifm0] rc0].
  apply wp_loop with (I := fun st K' => own_empty K' /\ reclaim_aligned (snd st));
    [|auto].
  clear HK Hrc. intros st K' [HK' Hrc'].
  destruct st as [[[[[idx tse] sse] page] eifm] rc]. simpl in Hrc'.
  destruct (0 <? idx)%nat; [|apply HQ; auto].
  set (pr := if Mode_eqb kMode kMinorFaultMode then _ else _).
  assert (Hpr : reclaim_aligned (snd pr) /\
                ((fst pr =? reserve_page) = false -> kMode = kCopyMode ->
                 (256 | fst pr - from_space_begin_ this))).
  { unfold pr. destruct kMode; simpl; try congruence.
    - destruct (_ >? _); simpl.
      + unfold reclaim_aligned in *. simpl.
        assert (Hd : (gPageSize | cur_reclaimable_page_ rc - gPageSize))
          by (apply Z.divide_sub_r; [exact Hrc'|apply Z.divide_refl]).
        split; [exact Hd|]. intros _ _.
        rewrite (from_space_slide_diff_eq _ Hok).
        apply Z.divide_trans with gPageSize; [apply gPageSize_state_mask|].
        replace (cur_reclaimable_page_ rc - gPageSize
                 + (from_space_begin_ this - bump_pointer_space_Begin this)
                 - from_space_begin_ this)
          with (cur_reclaimable_page_ rc - gPageSize - bump_pointer_space_Begin this)
          by lia.
        apply Z.divide_sub_r; [exact Hd|apply (Begin_aligned _ Hok)].
      + split; [exact Hrc'|]. rewrite Z.eqb_refl. discriminate.
    - split; [exact Hrc'|]. discriminate. }
  destruct pr as [page' rc']. simpl in Hpr. destruct Hpr as [Hrc1 Hal].
  apply wp_bind. apply DoPageCompactionWithStateChange_owp; auto.
  intros success K1 HK1.
  apply wp_bind.
  assert (Hrest : forall K2, own_empty K2 ->
    owp (f <- FreeFromSpacePages this fuel rc' (idx - 1) kMode eifm ;;
         (let end_idx_for_mapping := if fst f then (idx - 1)%nat else eifm in
          Ret (Continue (S := nat * Z * Z * Z * nat * Reclaim)
                        (R := nat * Z * Z * Z * nat * Reclaim)
                 ((idx - 1)%nat, tse - gPageSize,
                  (if Mode_eqb kMode kMinorFaultMode then sse - gPageSize else sse),
                  page', end_idx_for_mapping, snd f))))
      (fun x m' => match x with
                   | Continue s' => own_empty m' /\ reclaim_aligned (snd s')
                   | Break r => Q r m'
                   end) K2).
  { intros K2 HK2. apply wp_bind. apply FreeFromSpacePages_owp; auto.
    intros r K3 HK3 Hr3. simpl. auto. }
  destruct (_ && _ && _).
  - apply wp_bind. apply MapMovingSpacePages_owp; [exact HK1|].
    intros r K2 HK2. simpl. apply Hrest. exact HK2.
  - simpl. apply Hrest. exact HK1.
Qed.

Lemma CompactMovingSpace_owp (kMode : Mode) (page : Z)
    (Q : unit -> own -> Prop) (K : own) :
  kMode <> kFallbackMode ->
  own_empty K ->
  (forall K', own_empty K' -> Q tt K') ->
  owp (CompactMovingSpace this fuel kMode page) Q K.
Proof.
  intros Hmode HK HQ. unfold CompactMovingSpace.
  apply wp_bind. apply compact_black_pages_owp; auto.
  { unfold reclaim_aligned. simpl.
    apply Z.divide_add_r; [apply (black_allocations_begin_aligned _ Hok)
                          |apply Z.divide_factor_r]. }
  intros st K1 HK1 Hrc1.
  destruct st as [[[[[[idx pcp] tse] sse] page1] npfo] rc]. simpl in Hrc1.
  apply wp_bind. apply compact_moving_pages_owp; auto.
  intros st K2 HK2.
  destruct st as [[[[[idx2 tse2] sse2] page2] eifm] rc2].
  destruct (_ && _).
  - apply wp_bind. apply MapMovingSpacePages_owp; [exact HK2|].
    intros r K3 HK3. simpl. auto.
  - simpl. auto.
Qed.


(** Every party of a concurrent cycle keeps the discipline. *)
Lemma code_of_disciplined (j : job) :
  concurrent_job j -> disciplined (code_of this fuel j).
Proof.
  intros Hj. unfold disciplined.
  destruct j as [kMode page|kMode self buf|self faults]; simpl in *.
  - apply CompactMovingSpace_owp; auto. intros l. reflexivity.
  - apply ConcurrentCompaction_owp; auto. intros l. reflexivity.
  - apply handle_faults_owp; auto. intros l. reflexivity.
Qed.

End Aligned.

End Discipline.

(** ** One thread under a monitor, among other threads *)

Section ThreadMonitor.
Context {M : Type}.
Variable allowed : M -> event -> Prop.
Variable next : M -> event -> resp -> M.

(** A program of events that the monitor allows in every state and that
    leave its state as it is. *)
Lemma keeps_wp {A : Type} (ok : event -> Prop) (p : prog A)
    (Q : A -> M -> Prop) (m : M) :
  (forall m e, ok e -> allowed m e /\ forall r, next m e r = m) ->
  keeps ok p -> (forall a, Q a m) -> wp allowed next p Q m.
Proof.
  intros Hok. unfold keeps. generalize tt.
  induction p as [a| | |e k IH]; simpl; auto.
  intros u [Ho Hk] HQ. destruct (Hok m e Ho) as [Ha Hn].
  split; [exact Ha|]. intros r. rewrite Hn. eapply IH; eauto.
Qed.

Lemma thread_wp_step (t0 : nat) (m0 : M) (t : nat) (env : resp) (c c' : config) :
  thread_wp allowed next t0 m0 c -> accepted allowed next t0 (trace c) m0 ->
  step t env c = Some c' ->
  thread_wp allowed next t0 m0 c' /\ accepted allowed next t0 (trace c') m0.
Proof.
  intros Hw Hacc Hs.
  destruct (step_inv _ _ _ _ Hs) as (e & k & Hp & Hsh & Hpool & Htr).
  unfold thread_wp. rewrite Htr, Hpool. simpl.
  destruct (Nat.eqb_spec t t0) as [->|Hne].
  - pose proof (Hw _ Hp) as Hwt. simpl in Hwt. destruct Hwt as [Ha Hk].
    split; [|split; auto].
    intros p' Hp'.
    rewrite list_lookup_insert_eq in Hp' by (eapply lookup_lt_Some; eauto).
    injection Hp' as <-. apply Hk.
  - split; [|split; [auto|intros; contradiction]].
    intros p' Hp'.
    rewrite list_lookup_insert_ne in Hp' by auto.
    apply Hw; auto.
Qed.

(** What a thread's code promises of its events holds of its events in
    every trace. *)
Lemma accepted_reachable (threads : list (prog unit)) (t0 : nat) (m0 : M)
    (p0 : prog unit) (c : config) :
  threads !! t0 = Some p0 ->
  wp allowed next p0 (fun _ _ => True) m0 ->
  reachable (initial threads) c ->
  accepted allowed next t0 (trace c) m0.
Proof.
  intros Hp0 Hw Hr.
  cut (thread_wp allowed next t0 m0 c /\ accepted allowed next t0 (trace c) m0); [tauto|].
  revert c Hr. apply reachable_ind.
  - split; [|exact I]. intros p Hp. simpl in *. congruence.
  - intros t env c c' [H1 H2] Hs. eapply thread_wp_step; eauto.
Qed.

End ThreadMonitor.

(** ** The collector compacts from the highest page down *)

Lemma desc_quiet (m : option nat) (e : event) :
  no_compaction e -> desc_allowed m e /\ forall r, desc_next m e r = m.
Proof.
  unfold no_compaction, desc_allowed, desc_next.
  destruct e; simpl; try discriminate; auto.
Qed.

Lemma keeps_dwp {A : Type} (p : prog A) (Q : A -> option nat -> Prop) (m : option nat) :
  keeps no_compaction p -> (forall a, Q a m) -> dwp p Q m.
Proof. apply keeps_wp. intros; apply desc_quiet; auto. Qed.

Lemma keeps_silent_no_compaction {A : Type} (p : prog A) :
  keeps silent_event p -> keeps no_compaction p.
Proof. apply keeps_mono. apply silent_no_compaction. Qed.

Section Descending.
Context {P : Platform}.
Variable this : MarkCompact.
Variable fuel : nat.

Lemma compare_exchange_strong_no_compaction (arr : status_array) (idx : nat) (e d : Z) :
  keeps no_compaction (compare_exchange_strong arr idx e d).
Proof. split; [reflexivity|]. intros; exact I. Qed.

Lemma store_no_compaction (arr : status_array) (idx : nat) (v : Z) :
  keeps no_compaction (store arr idx v).
Proof. split; [reflexivity|]. intros; exact I. Qed.

Lemma load_no_compaction (arr : status_array) (idx : nat) :
  keeps no_compaction (load arr idx).
Proof. split; [reflexivity|]. intros; exact I. Qed.

Lemma MapMovingSpacePages_no_compaction (arr_idx arr_len : nat) :
  keeps no_compaction (MapMovingSpacePages this fuel arr_idx arr_len).
Proof.
  unfold MapMovingSpacePages.
  apply keeps_bind; [apply load_no_compaction|]. intros cur.
  destruct (negb _); [exact I|].
  apply keeps_bind.
  { apply keeps_loop. intros [i len]. destruct (_ <? _)%nat; [|exact I].
    apply keeps_bind; [apply load_no_compaction|]. intros w.
    destruct (negb _); [exact I|].
    apply keeps_bind; [apply compare_exchange_strong_no_compaction|].
    intros c. destruct (fst c); exact I. }
  intros len. destruct (_ >? 0); [|exact I].
  apply keeps_bind.
  { apply keeps_silent_no_compaction. apply CopyIoctl_silent. }
  intros []. apply keeps_bind; [|intros; exact I].
  apply keeps_loop. intros [i l]. destruct (_ >? 0); [|exact I].
  apply keeps_bind; [apply store_no_compaction|]. intros; exact I.
Qed.

Lemma FreeFromSpacePages_no_compaction (rc : Reclaim) (cur_page_idx : nat)
    (mode : Mode) (end_idx_for_mapping : nat) :
  keeps no_compaction
    (FreeFromSpacePages this fuel rc cur_page_idx mode end_idx_for_mapping).
Proof.
  unfold FreeFromSpacePages.
  apply keeps_bind.
  { apply keeps_silent_no_compaction. apply scan_reclaim_idx_silent. }
  intros idx. destruct (_ =? _)%nat; [exact I|].
  destruct (reclaim_begin_of this idx) as [rb idx_addr].
  destruct (class_after_obj_scan this _ rb idx_addr) as [rb' iter].
  apply keeps_bind.
  - destruct (_ >? kMinFromSpaceMadviseSize); [|exact I].
    apply keeps_bind.
    + destruct (_ && _); [|exact I].
      apply keeps_bind; [apply MapMovingSpacePages_no_compaction|]. intros len.
      apply keeps_bind; [|intros; exact I].
      apply keeps_silent_no_compaction. apply wait_all_mapped_silent.
    + intros ret. apply keeps_bind; [apply keeps_trigger; reflexivity|].
      intros r. apply keeps_bind; [apply keeps_CHECK|]. intros; exact I.
  - intros [[ret lr] cr]. apply keeps_bind; [apply keeps_CHECK|]. intros; exact I.
Qed.

(** The compaction of page [page_idx] under the state change: one
    compaction at most, of that page. *)
Lemma DoPageCompactionWithStateChange_dwp (kMode : Mode) (page_idx : nat)
    (to_space_page page : Z) (map_immediately : bool) (e : event)
    (Q : bool -> option nat -> Prop) (m : option nat) :
  compacted_page e = Some page_idx ->
  match m with Some last => (page_idx < last)%nat | None => True end ->
  (forall b, Q b m) -> (forall b, Q b (Some page_idx)) ->
  dwp (DoPageCompactionWithStateChange this fuel kMode page_idx to_space_page page
         map_immediately (trigger e ;; Ret tt)) Q m.
Proof.
  intros He Hm HQ0 HQ1. unfold DoPageCompactionWithStateChange.
  assert (Hrest : forall won : bool,
    dwp (if won then
           (trigger e ;; Ret tt) ;;
           match kMode with
           | kCopyMode =>
               if map_immediately then
                 CopyIoctl fuel to_space_page page gPageSize ;;
                 store MovingPagesStatus page_idx (code kProcessedAndMapped) ;;
                 Ret true
               else
                 store MovingPagesStatus page_idx
                   (Z.lor (to_uint32 (page - from_space_begin_ this)) (code kProcessed)) ;;
                 Ret true
           | kMinorFaultMode =>
               compare_exchange_strong MovingPagesStatus page_idx
                 (code kProcessing) (code kProcessed) ;;
               Crash
           | kFallbackMode => Ret true
           end
         else Ret false) Q m).
  { intros [|]; [|apply HQ0].
    cbn [bind trigger wp]. split.
    { unfold desc_allowed. rewrite He. exact Hm. }
    intros r.
    replace (desc_next m e r) with (Some page_idx)
      by (unfold desc_next; rewrite He; reflexivity).
    apply keeps_dwp; [|apply HQ1].
    destruct kMode.
    - destruct map_immediately.
      + apply keeps_bind.
        { apply keeps_silent_no_compaction. apply CopyIoctl_silent. }
        intros []. apply keeps_bind; [apply store_no_compaction|]. intros; exact I.
      + apply keeps_bind; [apply store_no_compaction|]. intros; exact I.
    - apply keeps_bind; [apply compare_exchange_strong_no_compaction|]. intros; exact I.
    - exact I. }
  apply wp_bind. destruct (Mode_eqb kMode kFallbackMode).
  - apply Hrest.
  - apply wp_bind. apply keeps_dwp; [apply compare_exchange_strong_no_compaction|].
    intros c. apply Hrest.
Qed.

Lemma below_lt (idx idx' : nat) (m : option nat) :
  below idx m -> (idx' < idx)%nat ->
  match m with Some last => (idx' < last)%nat | None => True end.
Proof. destruct m; simpl; auto. lia. Qed.

Lemma below_le (idx idx' : nat) (m : option nat) :
  below idx m -> (idx' <= idx)%nat -> below idx' m.
Proof. destruct m; simpl; auto. lia. Qed.

Lemma compact_black_pages_dwp (kMode : Mode) (st : nat * Z * Z * Z * Z * Z * Reclaim)
    (Q : nat * Z * Z * Z * Z * Z * Reclaim -> option nat -> Prop) (m : option nat) :
  below (fst (fst (fst (fst (fst (fst st)))))) m ->
  (forall st' m', below (fst (fst (fst (fst (fst (fst st')))))) m' -> Q st' m') ->
  dwp (compact_black_pages this fuel kMode st) Q m.
Proof.
  intros Hm HQ. unfold compact_black_pages.
  destruct st as [[[[[[idx0 pcp0] tse0] sse0] page0] npfo0] rc0].
  apply wp_loop with (I := fun st m => below (fst (fst (fst (fst (fst (fst st)))))) m);
    [|exact Hm].
  clear Hm. intros [[[[[[idx pcp] tse] sse] pg] npfo] rc] m' Hm. simpl in Hm.
  destruct (Nat.ltb_spec (moving_first_objs_count_ this) idx) as [Hlt|Hge];
    [|apply HQ; exact Hm].
  apply wp_bind. destruct (negb _).
  - apply wp_bind. apply DoPageCompactionWithStateChange_dwp.
    + reflexivity.
    + eapply below_lt; eauto. lia.
    + intros b. destruct (_ =? 0).
      * apply wp_bind. apply keeps_dwp; [apply FreeFromSpacePages_no_compaction|].
        intros f. simpl. eapply below_le; eauto. lia.
      * simpl. eapply below_le; eauto. lia.
    + intros b. destruct (_ =? 0).
      * apply wp_bind. apply keeps_dwp; [apply FreeFromSpacePages_no_compaction|].
        intros f. simpl. lia.
      * simpl. lia.
  - simpl. eapply below_le; eauto. lia.
Qed.

Lemma compact_moving_pages_dwp (kMode : Mode) (reserve_page : Z)
    (st : nat * Z * Z * Z * nat * Reclaim)
    (Q : nat * Z * Z * Z * nat * Reclaim -> option nat -> Prop) (m : option nat) :
  below (fst (fst (fst (fst (fst st))))) m ->
  (forall st' m', Q st' m') ->
  dwp (compact_moving_pages this fuel kMode reserve_page st) Q m.
Proof.
  intros Hm HQ. unfold compact_moving_pages.
  destruct st as [[[[[idx0 tse0] sse0] page0] eifm0] rc0].
  apply wp_loop with (I := fun st m => below (fst (fst (fst (fst (fst st))))) m);
    [|exact Hm].
  clear Hm. intros [[[[[idx tse] sse] pg] eifm] rc] m' Hm. simpl in Hm.
  destruct (Nat.ltb_spec 0 idx) as [Hlt|Hge]; [|apply HQ].
  set (pr := if Mode_eqb kMode kMinorFaultMode then _ else _).
  destruct pr as [page' rc'].
  assert (Hrest : forall (b : bool) m2, below (idx - 1) m2 ->
    dwp ((if b then MapMovingSpacePages this fuel (idx - 1 + 1) eifm ;; Ret tt
          else Ret tt) ;;
         f <- FreeFromSpacePages this fuel rc' (idx - 1) kMode eifm ;;
         (let end_idx_for_mapping := if fst f then (idx - 1)%nat else eifm in
          Ret (Continue (S := nat * Z * Z * Z * nat * Reclaim)
                        (R := nat * Z * Z * Z * nat * Reclaim)
                 ((idx - 1)%nat, tse - gPageSize,
                  (if Mode_eqb kMode kMinorFaultMode then sse - gPageSize else sse),
                  page', end_idx_for_mapping, snd f))))
      (fun x m3 => match x with
                   | Continue s' => below (fst (fst (fst (fst (fst s'))))) m3
                   | Break r => Q r m3
                   end) m2).
  { intros b m2 Hm2. apply wp_bind. apply keeps_dwp.
    { destruct b; [|exact I].
      apply keeps_bind; [apply MapMovingSpacePages_no_compaction|]. intros; exact I. }
    intros []. apply wp_bind.
    apply keeps_dwp; [apply FreeFromSpacePages_no_compaction|].
    intros f. simpl. exact Hm2. }
  apply wp_bind. apply DoPageCompactionWithStateChange_dwp.
  - reflexivity.
  - eapply below_lt; eauto. lia.
  - intros b. apply Hrest. eapply below_le; eauto. lia.
  - intros b. apply Hrest. simpl. lia.
Qed.

Lemma CompactMovingSpace_dwp (kMode : Mode) (page : Z) :
  dwp (CompactMovingSpace this fuel kMode page) (fun _ _ => True) None.
Proof.
  unfold CompactMovingSpace.
  apply wp_bind. apply compact_black_pages_dwp; [exact I|].
  intros [[[[[[idx pcp] tse] sse] pg] npfo] rc] m Hm. simpl in Hm.
  apply wp_bind. apply compact_moving_pages_dwp; [exact Hm|].
  intros [[[[[idx2 tse2] sse2] pg2] eifm] rc2] m2.
  apply keeps_dwp; [|auto].
  destruct (_ && _); [|exact I].
  apply keeps_bind; [apply MapMovingSpacePages_no_compaction|]. intros; exact I.
Qed.

End Descending.

Lemma accepted_desc_sorted (t : nat) (tr : list entry) :
  accepted desc_allowed desc_next t tr None ->
  Sorted lt (compaction_pages t tr) /\
  replay desc_next t tr None = head (compaction_pages t tr).
Proof.
  induction tr as [|x older IH]; simpl.
  - intros _. split; [constructor|reflexivity].
  - intros [Hacc Hx]. destruct (IH Hacc) as [Hs Hr].
    destruct (Nat.eqb_spec (tid x) t) as [Ht|Ht]; [|auto].
    specialize (Hx Ht). unfold desc_allowed, desc_next in *.
    destruct (compacted_page (ev x)) as [i|]; [|auto].
    split; [|reflexivity].
    constructor; [exact Hs|].
    rewrite Hr in Hx.
    destruct (compaction_pages t older) as [|j rest]; constructor.
    simpl in Hx. exact Hx.
Qed.

(** The pages that the collector thread itself compacts come in
    descending order, whatever the other threads do. *)
Lemma collector_descending {P : Platform} (this : MarkCompact) (fuel : nat)
    (threads : list (prog unit)) (t : nat) (kMode : Mode) (page : Z) (c : config) :
  threads !! t = Some (CompactMovingSpace this fuel kMode page) ->
  reachable (initial threads) c ->
  StronglySorted lt (compaction_pages t (trace c)).
Proof.
  intros Ht Hr. apply Sorted_StronglySorted; [intros x y z; lia|].
  apply accepted_desc_sorted.
  eapply accepted_reachable; eauto. apply CompactMovingSpace_dwp.
Qed.

(** ** The threads of a trace *)

Lemma trace_tids (threads : list (prog unit)) (c : config) :
  reachable (initial threads) c ->
  length (pool c) = length threads /\
  Forall (fun x => (tid x < length threads)%nat) (trace c).
Proof.
  revert c. apply reachable_ind.
  - simpl. auto.
  - intros t env c c' [Hl Hf] Hs.
    destruct (step_inv _ _ _ _ Hs) as (e & k & Hp & Hsh & Hpool & Htr).
    rewrite Hpool, Htr, length_insert. split; [exact Hl|].
    constructor; [|exact Hf]. simpl. rewrite <- Hl.
    eapply lookup_lt_Some; eauto.
Qed.

Lemma compaction_count_pages (i : nat) (tr : list entry) :
  Forall (fun x => tid x = 0%nat) tr ->
  compaction_count i tr = length (List.filter (Nat.eqb i) (compaction_pages 0 tr)).
Proof.
  unfold compaction_count.
  induction tr as [|x older IH]; simpl; [reflexivity|].
  intros H. inversion H as [|? ? Hx Ho]; subst. rewrite Hx. simpl.
  specialize (IH Ho).
  destruct (ev x); simpl; auto.
  all: destruct (Nat.eqb_spec idx i) as [->|Hne]; simpl;
    [rewrite Nat.eqb_refl; simpl; f_equal; exact IH|].
  all: destruct (Nat.eqb_spec i idx); [congruence|]; exact IH.
Qed.

Lemma sorted_filter_le_1 (i : nat) (l : list nat) :
  StronglySorted lt l -> (length (List.filter (Nat.eqb i) l) <= 1)%nat.
Proof.
  induction 1 as [|a l Hs IH Hall]; simpl; [lia|].
  destruct (Nat.eqb_spec i a) as [->|Hne]; [|exact IH].
  simpl. replace (List.filter (Nat.eqb a) l) with (@nil nat); [simpl; lia|].
  symmetry. clear IH Hs. induction l as [|b l IHl]; simpl; [reflexivity|].
  inversion Hall as [|? ? Hb Hl]; subst.
  destruct (Nat.eqb_spec a b); [lia|]. auto.
Qed.

Lemma silent_writes_no_state (e : event) : silent_event e -> writes_no_state e.
Proof. destruct e; simpl; auto. Qed.

Section Fallback.
Context {P : Platform}.
Variable this : MarkCompact.
Variable fuel : nat.

Lemma FreeFromSpacePages_fallback (rc : Reclaim) (cur_page_idx end_idx : nat) :
  keeps writes_no_state
    (FreeFromSpacePages this fuel rc cur_page_idx kFallbackMode end_idx).
Proof.
  unfold FreeFromSpacePages.
  apply keeps_bind.
  { eapply keeps_mono; [apply silent_writes_no_state|]. apply scan_reclaim_idx_silent. }
  intros idx. destruct (_ =? _)%nat; [exact I|].
  destruct (reclaim_begin_of this idx) as [rb idx_addr].
  destruct (class_after_obj_scan this _ rb idx_addr) as [rb' iter].
  apply keeps_bind.
  - destruct (_ >? kMinFromSpaceMadviseSize); [|exact I].
    simpl Mode_eqb. cbn [andb].
    apply keeps_bind; [exact I|].
    intros ret. apply keeps_bind; [apply keeps_trigger; exact I|].
    intros r. apply keeps_bind; [apply keeps_CHECK|]. intros; exact I.
  - intros [[ret lr] cr]. apply keeps_bind; [apply keeps_CHECK|]. intros; exact I.
Qed.

Lemma DoPageCompactionWithStateChange_fallback (page_idx : nat)
    (to_space_page page : Z) (map_immediately : bool) (e : event) :
  writes_no_state e ->
  keeps writes_no_state
    (DoPageCompactionWithStateChange this fuel kFallbackMode page_idx to_space_page
       page map_immediately (trigger e ;; Ret tt)).
Proof.
  intros He. unfold DoPageCompactionWithStateChange. simpl Mode_eqb. cbn iota.
  apply keeps_bind; [exact I|]. intros [|]; [|exact I].
  apply keeps_bind; [|intros; exact I].
  apply keeps_bind; [apply keeps_trigger; exact He|]. intros; exact I.
Qed.

Lemma CompactMovingSpace_fallback (page : Z) :
  keeps writes_no_state (CompactMovingSpace this fuel kFallbackMode page).
Proof.
  unfold CompactMovingSpace.
  apply keeps_bind.
  { unfold compact_black_pages. apply keeps_loop.
    intros [[[[[[idx pcp] tse] sse] pg] npfo] rc].
    destruct (_ <? _)%nat; [|exact I].
    apply keeps_bind; [|intros; exact I].
    destruct (negb _); [|exact I].
    apply keeps_bind; [apply DoPageCompactionWithStateChange_fallback; exact I|].
    intros b. destruct (_ =? 0); [|exact I].
    apply keeps_bind; [apply FreeFromSpacePages_fallback|]. intros; exact I. }
  intros [[[[[[idx pcp] tse] sse] pg] npfo] rc].
  apply keeps_bind.
  { unfold compact_moving_pages. apply keeps_loop.
    intros [[[[[i tse'] sse'] pg'] eim] rc'].
    destruct (0 <? i)%nat; [|exact I].
    simpl Mode_eqb. cbn iota. cbn [andb].
    apply keeps_bind; [apply DoPageCompactionWithStateChange_fallback; exact I|].
    intros b. apply keeps_bind; [exact I|]. intros [].
    apply keeps_bind; [apply FreeFromSpacePages_fallback|]. intros; exact I. }
  intros [[[[[i tse'] sse'] pg'] eim] rc'].
  simpl Mode_eqb. cbn [andb]. exact I.
Qed.

End Fallback.

Lemma accepted_only (ok : event -> Prop) (t : nat) (tr : list entry) :
  accepted (only ok) stay t tr tt ->
  Forall (fun x => tid x = t -> ok (ev x)) tr.
Proof.
  induction tr as [|x older IH]; simpl; [constructor|].
  intros [Ha Hx]. constructor; [|auto].
  intros Ht. specialize (Hx Ht).
  replace (replay stay t older tt) with tt in Hx by (destruct (replay stay t older tt); reflexivity).
  exact Hx.
Qed.

(** ** Runs of one thread *)

Lemma run_bind {A B : Type} (p : prog A) (f : A -> prog B) (sh : Shared)
    (ks : list resp) :
  run (bind p f) sh ks =
  match run p sh ks with
  | (Done a, sh1, tr1, ks1) =>
      let '(o, sh2, tr2, ks2) := run (f a) sh1 ks1 in (o, sh2, tr1 ++ tr2, ks2)
  | (Crashed, sh1, tr1, ks1) => (Crashed, sh1, tr1, ks1)
  | (Spinning, sh1, tr1, ks1) => (Spinning, sh1, tr1, ks1)
  end.
Proof.
  revert sh ks. induction p as [a| | |e k IH]; intros sh ks; simpl.
  - destruct (run (f a) sh ks) as [[[o s] t] r]. reflexivity.
  - reflexivity.
  - reflexivity.
  - destruct (exec_event sh e _) as [r sh'].
    rewrite IH.
    destruct (run (k r) sh' _) as [[[o s] t] rest].
    destruct o; [|reflexivity|reflexivity].
    destruct (run (f a) s rest) as [[[o2 s2] t2] r2]. reflexivity.
Qed.

Lemma runs_bind {A B : Type} (p : prog A) (f : A -> prog B) (sh sh1 sh2 : Shared)
    (ks ks1 ks2 : list resp) (a : A) (b : B) (tr1 tr2 : list entry) :
  runs p sh ks a sh1 tr1 ks1 ->
  runs (f a) sh1 ks1 b sh2 tr2 ks2 ->
  runs (bind p f) sh ks b sh2 (tr1 ++ tr2) ks2.
Proof.
  unfold runs. intros H1 H2. rewrite run_bind, H1, H2. reflexivity.
Qed.

Lemma runs_Ret {A : Type} (a : A) (sh : Shared) (ks : list resp) :
  runs (Ret a) sh ks a sh [] ks.
Proof. reflexivity. Qed.

Lemma runs_loop_Continue {S R : Type} (body : S -> prog (turn S R)) (n : nat)
    (s s' : S) (r : R) (sh sh1 sh2 : Shared) (ks ks1 ks2 : list resp)
    (tr1 tr2 : list entry) :
  runs (body s) sh ks (Continue s') sh1 tr1 ks1 ->
  runs (loop n body s') sh1 ks1 r sh2 tr2 ks2 ->
  runs (loop (Datatypes.S n) body s) sh ks r sh2 (tr1 ++ tr2) ks2.
Proof. intros H1 H2. simpl. eapply runs_bind; eauto. Qed.

Lemma runs_loop_Break {S R : Type} (body : S -> prog (turn S R)) (n : nat)
    (s : S) (r : R) (sh sh1 : Shared) (ks ks1 : list resp) (tr1 : list entry) :
  runs (body s) sh ks (Break r) sh1 tr1 ks1 ->
  runs (loop (Datatypes.S n) body s) sh ks r sh1 tr1 ks1.
Proof.
  intros H1. simpl. rewrite <- (app_nil_r tr1).
  eapply runs_bind; eauto. apply runs_Ret.
Qed.

Lemma sum_Z_nonneg (ms : list Z) : Forall (fun m => 0 < m) ms -> 0 <= sum_Z ms.
Proof. induction 1; simpl; [lia|]. fold (sum_Z l). lia. Qed.

Section Retry.
Context {P : Platform}.

Lemma CopyIoctl_runs (ms : list Z) : forall (fuel : nat) (dst src len : Z)
    (sh : Shared) (e : Errno) (v : Z) (rest : list resp),
  (length ms < fuel)%nat ->
  Forall (fun m => 0 < m) ms ->
  sum_Z ms < len < 2 ^ 64 ->
  exists tr,
    runs (CopyIoctl fuel dst src len) sh (map short ms ++ RSys 0 e v :: rest)
         tt sh tr rest /\
    map ev tr = copy_calls dst src len ms.
Proof.
  unfold CopyIoctl.
  induction ms as [|m ms IH]; intros fuel dst src len sh e v rest Hf Hm Hl;
    (destruct fuel as [|fuel]; [simpl in Hf; lia|]); simpl in Hl.
  - eexists. split.
    + apply runs_loop_Break. cbv beta iota.
      destruct (Z.gtb_spec len 0) as [_|]; [|lia].
      unfold runs. simpl. reflexivity.
    + reflexivity.
  - inversion Hm as [|? ? Hm1 Hm2]; subst.
    pose proof (sum_Z_nonneg ms Hm2) as Hs. fold (sum_Z ms) in Hl.
    destruct (IH fuel (dst + m) (src + m) (len - m) sh e v rest) as (tr & Hr & Ht).
    { simpl in Hf. lia. }
    { exact Hm2. }
    { lia. }
    eexists. split.
    + eapply runs_loop_Continue; [|exact Hr]. cbv beta iota.
      destruct (Z.gtb_spec len 0) as [_|]; [|lia].
      unfold runs. simpl. unfold to_size_t.
      rewrite Z.mod_small by lia. reflexivity.
    + simpl. rewrite Ht. reflexivity.
Qed.

Lemma ZeropageIoctl_runs (ms : list Z) : forall (fuel : nat) (start len : Z)
    (te tn : bool) (sh : Shared) (e : Errno) (v : Z) (rest : list resp),
  (length ms < fuel)%nat ->
  Forall (fun m => 0 < m) ms ->
  sum_Z ms < len < 2 ^ 64 ->
  exists tr,
    runs (ZeropageIoctl fuel start len te tn) sh (map short ms ++ RSys 0 e v :: rest)
         tt sh tr rest /\
    map ev tr = zeropage_calls start len ms.
Proof.
  unfold ZeropageIoctl.
  induction ms as [|m ms IH]; intros fuel start len te tn sh e v rest Hf Hm Hl;
    (destruct fuel as [|fuel]; [simpl in Hf; lia|]); simpl in Hl.
  - eexists. split.
    + apply runs_loop_Break. cbv beta iota.
      destruct (Z.gtb_spec len 0) as [_|]; [|lia].
      unfold runs. simpl. reflexivity.
    + reflexivity.
  - inversion Hm as [|? ? Hm1 Hm2]; subst.
    pose proof (sum_Z_nonneg ms Hm2) as Hs. fold (sum_Z ms) in Hl.
    destruct (IH fuel (start + m) (len - m) te tn sh e v rest) as (tr & Hr & Ht).
    { simpl in Hf. lia. }
    { exact Hm2. }
    { lia. }
    eexists. split.
    + eapply runs_loop_Continue; [|exact Hr]. cbv beta iota.
      destruct (Z.gtb_spec len 0) as [_|]; [|lia].
      unfold runs. simpl. unfold to_size_t.
      rewrite Z.mod_small by lia. reflexivity.
    + simpl. rewrite Ht. reflexivity.
Qed.

End Retry.

Lemma updated_refl (sh : Shared) (arr : status_array) (a : nat) (v : Z) :
  updated sh sh arr a 0 v.
Proof.
  split; [|auto]. intros arr' i.
  case_bool_decide as H; [lia|reflexivity].
Qed.

Lemma status_set_status (sh : Shared) (arr arr' : status_array) (idx i : nat) (v : Z) :
  status (set_status sh arr idx v) arr' i =
  if bool_decide (arr' = arr /\ i = idx) then v else status sh arr' i.
Proof.
  simpl. rewrite status_array_eqb_decide.
  case_bool_decide as H1; case_bool_decide as H2; simpl; try reflexivity.
  - destruct (Nat.eqb_spec i idx); [reflexivity|]. tauto.
  - destruct (Nat.eqb_spec i idx); [tauto|reflexivity].
  - tauto.
Qed.

(** Setting the page before a run of pages, or the page after it. *)
Lemma updated_front (sh sh' : Shared) (arr : status_array) (a n : nat) (v : Z) :
  updated (set_status sh arr a v) sh' arr (S a) n v ->
  updated sh sh' arr a (S n) v.
Proof.
  intros [H Hc]. split; [|exact Hc]. intros arr' i. rewrite H.
  rewrite status_set_status.
  repeat case_bool_decide; try reflexivity; lia || tauto || (exfalso; intuition lia).
Qed.

Lemma updated_back (sh sh1 : Shared) (arr : status_array) (a n : nat) (v : Z) :
  updated sh sh1 arr (S a) n v ->
  updated sh (set_status sh1 arr a v) arr a (S n) v.
Proof.
  intros [H Hc]. split; [|exact Hc]. intros arr' i.
  rewrite status_set_status, H.
  repeat case_bool_decide; try reflexivity; lia || tauto || (exfalso; intuition lia).
Qed.

Lemma syscalls_app (t1 t2 : list entry) : syscalls (t1 ++ t2) = syscalls t1 ++ syscalls t2.
Proof. unfold syscalls. rewrite map_app, List.filter_app. reflexivity. Qed.

Lemma runs_cas_ok (arr : status_array) (i : nat) (e d : Z) (sh : Shared)
    (ks : list resp) :
  status sh arr i = e ->
  runs (compare_exchange_strong arr i e d) sh ks (true, e) (set_status sh arr i d)
       [entry_of sh (AtomicCas arr i e d) (RCas true e)] ks.
Proof.
  intros H. unfold runs, compare_exchange_strong. simpl.
  rewrite H, Z.eqb_refl. simpl. unfold entry_of. simpl. rewrite H. reflexivity.
Qed.

Lemma runs_cas_fail (arr : status_array) (i : nat) (e d : Z) (sh : Shared)
    (ks : list resp) :
  status sh arr i <> e ->
  runs (compare_exchange_strong arr i e d) sh ks (false, status sh arr i) sh
       [entry_of sh (AtomicCas arr i e d) (RCas false (status sh arr i))] ks.
Proof.
  intros H. unfold runs, compare_exchange_strong. simpl.
  destruct (Z.eqb_spec (status sh arr i) e); [tauto|]. reflexivity.
Qed.

Lemma runs_store (arr : status_array) (i : nat) (v : Z) (sh : Shared) (ks : list resp) :
  runs (store arr i v) sh ks tt (set_status sh arr i v)
       [entry_of sh (AtomicStore arr i v) RUnit] ks.
Proof. reflexivity. Qed.

Lemma runs_load (arr : status_array) (i : nat) (sh : Shared) (ks : list resp) :
  runs (load arr i) sh ks (status sh arr i) sh
       [entry_of sh (AtomicLoad arr i) (RVal (status sh arr i))] ks.
Proof. reflexivity. Qed.

Lemma runs_syscall (e : event) (r : resp) (sh : Shared) (ks : list resp) :
  is_syscall e = true ->
  runs (trigger e) sh (r :: ks) r sh [entry_of sh e r] ks.
Proof.
  intros H. unfold runs, trigger. simpl. rewrite H. simpl.
  destruct e; try discriminate; reflexivity.
Qed.

Lemma runs_CHECK (sh : Shared) (ks : list resp) : runs (CHECK true) sh ks tt sh [] ks.
Proof. reflexivity. Qed.

Lemma forward_cas_fail (sh : Shared) (arr : status_array) (i : nat) (e d v : Z) :
  forward_transition (entry_of sh (AtomicCas arr i e d) (RCas false v)).
Proof. exact I. Qed.

Lemma forward_cas_ok (sh : Shared) (arr : status_array) (i : nat) (e d v : Z)
    (a b : PageState) :
  state_of v = Some a -> state_of d = Some b -> lifecycle_lt a b ->
  forward_transition (entry_of sh (AtomicCas arr i e d) (RCas true v)).
Proof.
  intros Ha Hb Hl. unfold forward_transition, transition_of. simpl.
  rewrite Ha, Hb. exact Hl.
Qed.

Lemma forward_store (sh : Shared) (arr : status_array) (i : nat) (v : Z)
    (a b : PageState) :
  state_of (status sh arr i) = Some a -> state_of v = Some b -> lifecycle_lt a b ->
  forward_transition (entry_of sh (AtomicStore arr i v) RUnit).
Proof.
  intros Ha Hb Hl. unfold forward_transition, transition_of. simpl.
  rewrite Ha, Hb. exact Hl.
Qed.

Lemma updated_last (sh sh' : Shared) (arr : status_array) (a n : nat) (v : Z) :
  updated (set_status sh arr (a + n) v) sh' arr a n v ->
  updated sh sh' arr a (S n) v.
Proof.
  intros [H Hc]. split; [|exact Hc]. intros arr' i. rewrite H.
  rewrite status_set_status.
  repeat case_bool_decide; try reflexivity; lia || tauto || (exfalso; intuition lia).
Qed.

Section Mapping.
Context {P : Platform} {HP : PlatformOk P}.

Lemma claim_processed_runs (arr : status_array) (arr_len n : nat) :
  forall (a : nat) (len : Z) (sh : Shared) (ks : list resp),
  (forall i, (a <= i < a + n)%nat -> status sh arr i = code kProcessed) ->
  (a + n <= arr_len)%nat ->
  ((a + n)%nat = arr_len \/ status sh arr (a + n) <> code kProcessed) ->
  exists sh' tr,
    runs (claim_processed arr a arr_len len) sh ks
         ((a + n)%nat, len + Z.of_nat n * gPageSize) sh' tr ks /\
    updated sh sh' arr a n (code kProcessedAndMapping) /\
    Forall forward_transition tr /\ syscalls tr = [].
Proof.
  unfold claim_processed. intros a len sh ks.
  assert (Hf : (n + (arr_len - (a + n)) < S (arr_len - a))%nat \/ (a + n > arr_len)%nat) by lia.
  revert Hf. generalize (S (arr_len - a)) as f. revert a len sh.
  induction n as [|n IH]; intros a len sh f Hf Hst Hle Hend;
    (destruct f as [|f]; [lia|]).
  - replace (a + 0)%nat with a in * by lia.
    replace (len + Z.of_nat 0 * gPageSize) with len by lia.
    exists sh. destruct (Nat.ltb_spec a arr_len) as [Hlt|Hge].
    + destruct Hend as [->|Hne]; [lia|].
      eexists. split; [|split; [apply updated_refl|]].
      * apply runs_loop_Break. cbv beta iota.
        destruct (Nat.ltb_spec a arr_len); [|lia].
        eapply runs_bind; [apply runs_cas_fail; exact Hne|]. apply runs_Ret.
      * split; [|reflexivity]. repeat constructor.
    + exists []. split; [|split; [apply updated_refl|split; [constructor|reflexivity]]].
      apply runs_loop_Break. cbv beta iota.
      destruct (Nat.ltb_spec a arr_len); [lia|]. apply runs_Ret.
  - destruct (IH (S a) (len + gPageSize)
                (set_status sh arr a (code kProcessedAndMapping)) f)
      as (sh' & tr & Hr & Hu & Hfw & Hsys).
    { lia. }
    { intros i Hi. rewrite status_set_status.
      case_bool_decide; [lia|]. apply Hst. lia. }
    { lia. }
    { destruct Hend as [He|He]; [left; lia|right].
      rewrite status_set_status. case_bool_decide; [lia|].
      replace (S a + n)%nat with (a + S n)%nat by lia. exact He. }
    exists sh'. eexists. split; [|split; [apply updated_front; exact Hu|]].
    + replace (a + S n)%nat with (S a + n)%nat by lia.
      replace (len + Z.of_nat (S n) * gPageSize)
        with (len + gPageSize + Z.of_nat n * gPageSize) by lia.
      eapply runs_loop_Continue; [|exact Hr]. cbv beta iota.
      destruct (Nat.ltb_spec a arr_len); [|lia].
      eapply runs_bind; [apply runs_cas_ok; apply Hst; lia|]. apply runs_Ret.
    + split.
      * constructor; [|exact Hfw].
        apply forward_cas_ok with (a := kProcessed) (b := kProcessedAndMapping);
          reflexivity || (cbv; lia).
      * rewrite syscalls_app, Hsys. reflexivity.
Qed.

Lemma store_backwards_runs (arr : status_array) (s : PageState) (k : nat) :
  forall (hi : nat) (sh : Shared) (ks : list resp),
  (k <= hi)%nat ->
  exists sh' tr,
    runs (store_backwards arr s hi (Z.of_nat k * gPageSize)) sh ks (hi - k)%nat sh' tr ks /\
    updated sh sh' arr (hi - k) k (code s) /\
    Forall (stores_over sh arr (hi - k) hi (code s)) tr /\
    syscalls tr = [].
Proof.
  pose proof gPageSize_pos as Hpg.
  unfold store_backwards. intros hi sh ks.
  assert (Hf : (k < S (Z.to_nat (Z.of_nat k * gPageSize / gPageSize)))%nat).
  { rewrite Z.div_mul by lia. lia. }
  revert Hf. generalize (S (Z.to_nat (Z.of_nat k * gPageSize / gPageSize))) as f.
  revert hi sh.
  induction k as [|k IH]; intros hi sh f Hf Hle; (destruct f as [|f]; [lia|]).
  - exists sh, []. replace (hi - 0)%nat with hi by lia.
    split; [|split; [apply updated_refl|split; [constructor|reflexivity]]].
    apply runs_loop_Break. cbv beta iota. simpl. apply runs_Ret.
  - destruct (IH (Nat.pred hi) (set_status sh arr (Nat.pred hi) (code s)) f)
      as (sh' & tr & Hr & Hu & Hst & Hsys); [lia|lia|].
    replace (Nat.pred hi - k)%nat with (hi - S k)%nat in * by lia.
    exists sh'. eexists. split; [|split; [|split]].
    + eapply runs_loop_Continue; [|].
      * cbv beta iota.
        destruct (Z.gtb_spec (Z.of_nat (S k) * gPageSize) 0) as [_|]; [|nia].
        eapply runs_bind; [apply runs_store|]. apply runs_Ret.
      * replace (Z.of_nat (S k) * gPageSize - gPageSize) with (Z.of_nat k * gPageSize) by lia.
        exact Hr.
    + apply updated_last.
      replace (hi - S k + k)%nat with (Nat.pred hi) by lia. exact Hu.
    + simpl. constructor.
      * exists (Nat.pred hi). split; [lia|]. split; reflexivity.
      * eapply Forall_impl; [exact Hst|]. intros x (i & Hi & He & Ho).
        exists i. split; [lia|]. split; [exact He|].
        rewrite Ho, status_set_status. case_bool_decide; [lia|reflexivity].
    + rewrite syscalls_app, Hsys. reflexivity.
Qed.

Variable this : MarkCompact.
Variable fuel : nat.

Lemma MapProcessedPages_short (kFirst : bool) (start : Z) (arr : status_array)
    (a arr_len n m : nat) (sh : Shared) (wake : resp) (rest : list resp) :
  let first := (if kFirst then 1 else 0)%nat in
  let N := (first + n)%nat in
  (forall i, (a + first <= i < a + N)%nat -> status sh arr i = code kProcessed) ->
  (a + N <= arr_len)%nat ->
  ((a + N)%nat = arr_len \/ status sh arr (a + N) <> code kProcessed) ->
  (kFirst = true -> status sh arr a = code kProcessing) ->
  (first <= m < N)%nat ->
  Z.of_nat N * gPageSize < 2 ^ 64 ->
  resp_ret wake = 0 ->
  exists sh' tr,
    runs (MapProcessedPages this kFirst start arr a arr_len) sh
         (short (Z.of_nat m * gPageSize) :: wake :: rest) tt sh' tr rest /\
    (forall i, (a <= i < a + m)%nat ->
       status sh' arr i =
       if use_uffd_sigbus_ this then code kProcessedAndMapped
       else if kFirst && (i =? a)%nat then status sh arr i
       else code kProcessedAndMapping) /\
    (forall i, (a + m <= i < a + N)%nat -> status sh' arr i = code kProcessed) /\
    (forall arr' i, ~ (arr' = arr /\ (a <= i < a + N)%nat) ->
       status sh' arr' i = status sh arr' i) /\
    syscalls tr =
      [IoctlContinue start (Z.of_nat N * gPageSize);
       IoctlWake (start + Z.of_nat m * gPageSize) (Z.of_nat (N - m) * gPageSize)] /\
    Forall lawful_transition tr.
Proof.
  intros first N Hst Hle Hend Hfirst Hm Hsz Hwake.
  pose proof gPageSize_pos as Hpg.
  destruct (claim_processed_runs arr arr_len n (a + first)
              (if kFirst then gPageSize else 0) sh
              (short (Z.of_nat m * gPageSize) :: wake :: rest))
    as (sh1 & tr1 & Hr1 & Hu1 & Hf1 & Hs1).
  { intros i Hi. apply Hst. lia. }
  { lia. }
  { replace (a + first + n)%nat with (a + N)%nat by lia. exact Hend. }
  assert (Hlen : (if kFirst then gPageSize else 0) + Z.of_nat n * gPageSize
                 = Z.of_nat N * gPageSize).
  { subst N first. destruct kFirst; lia. }
  rewrite Hlen in Hr1.
  replace (a + first + n)%nat with (a + N)%nat in Hr1 by lia.
  destruct (store_backwards_runs arr kProcessed (N - m) (a + N) sh1 (wake :: rest))
    as (sh2 & tr2 & Hr2 & Hu2 & Hf2 & Hs2); [lia|].
  replace (a + N - (N - m))%nat with (a + m)%nat in * by lia.
  destruct (store_backwards_runs arr kProcessedAndMapped m (a + m) sh2 rest)
    as (sh3 & tr3 & Hr3 & Hu3 & Hf3 & Hs3); [lia|].
  replace (a + m - m)%nat with a in * by lia.
  destruct Hu1 as [Hu1 _], Hu2 as [Hu2 _], Hu3 as [Hu3 _].
  assert (Hold1 : forall i, (a + m <= i < a + N)%nat ->
                   status sh1 arr i = code kProcessedAndMapping).
  { intros i Hi. rewrite Hu1. case_bool_decide as Hd; [reflexivity|].
    exfalso. apply Hd. split; [reflexivity|lia]. }
  assert (Hold2 : forall i, (a <= i < a + m)%nat ->
                   status sh2 arr i = code kProcessedAndMapping \/
                   status sh2 arr i = code kProcessing).
  { intros i Hi. rewrite Hu2. case_bool_decide as Hd; [lia|].
    rewrite Hu1. case_bool_decide as Hd1; [left; reflexivity|right].
    assert (kFirst = true /\ i = a) as [Hk ->].
    { subst first. destruct kFirst; [split; [reflexivity|]|]; 
        destruct (decide (i = a)); auto; exfalso; apply Hd1; split; auto; lia. }
    auto. }
  assert (Hrew : Forall lawful_transition tr2).
  { eapply Forall_impl; [exact Hf2|]. intros x (i & Hi & He & Ho).
    right. unfold rewinds, transition_of. rewrite He, Ho, Hold1 by lia.
    reflexivity. }
  assert (Hmap : Forall lawful_transition tr3).
  { eapply Forall_impl; [exact Hf3|]. intros x (i & Hi & He & Ho).
    left. unfold forward_transition, transition_of. rewrite He, Ho.
    destruct (Hold2 i Hi) as [-> | ->]; cbv; lia. }
  assert (Hfw1 : Forall lawful_transition tr1).
  { eapply Forall_impl; [exact Hf1|]. intros x Hx. left. exact Hx. }
  assert (Hrun : forall (k : resp -> nat -> prog unit) b shf trf,
            runs (k (short (Z.of_nat m * gPageSize)) (a + m)%nat) sh2 rest b shf trf rest ->
            exists tr, runs (claimed <- claim_processed arr (a + first) arr_len
                                 (if kFirst then gPageSize else 0) ;;
                             let '(arr_idx, length) := claimed in
                             if length >? 0 then
                               r <- trigger (IoctlContinue start length) ;;
                               let mapped := resp_val r in
                               arr_idx <-
                                 (if (resp_ret r =? -1) && Errno_eqb (resp_errno r) EAGAIN then
                                    arr_idx <- store_backwards arr kProcessed arr_idx
                                                 (to_size_t (length - mapped)) ;;
                                    w <- trigger (IoctlWake (start + mapped) (length - mapped)) ;;
                                    CHECK (resp_ret w =? 0) ;;
                                    Ret arr_idx
                                  else
                                    CHECK ((resp_ret r =? 0) || negb kFirst
                                           || Errno_eqb (resp_errno r) ENOENT) ;;
                                    Ret arr_idx) ;;
                               k r arr_idx
                             else Ret tt)
                          sh (short (Z.of_nat m * gPageSize) :: wake :: rest) b shf tr rest /\
                       syscalls tr =
                         [IoctlContinue start (Z.of_nat N * gPageSize);
                          IoctlWake (start + Z.of_nat m * gPageSize)
                            (Z.of_nat (N - m) * gPageSize)] ++ syscalls trf /\
                       (Forall lawful_transition trf -> Forall lawful_transition tr)).
  { intros k b shf trf Hk. eexists. split; [|split].
    - eapply runs_bind; [exact Hr1|]. cbv beta iota.
      destruct (Z.gtb_spec (Z.of_nat N * gPageSize) 0) as [_|]; [|nia].
      eapply runs_bind; [apply runs_syscall; reflexivity|].
      change (resp_val (short (Z.of_nat m * gPageSize))) with (Z.of_nat m * gPageSize).
      change (resp_ret (short (Z.of_nat m * gPageSize)) =? -1) with true.
      change (Errno_eqb (resp_errno (short (Z.of_nat m * gPageSize))) EAGAIN) with true.
      cbn [andb].
      eapply runs_bind; [|exact Hk].
      eapply runs_bind.
      + replace (to_size_t (Z.of_nat N * gPageSize - Z.of_nat m * gPageSize))
          with (Z.of_nat (N - m) * gPageSize).
        { exact Hr2. }
        unfold to_size_t. rewrite Z.mod_small by nia. nia.
      + replace (Z.of_nat N * gPageSize - Z.of_nat m * gPageSize)
          with (Z.of_nat (N - m) * gPageSize) by nia.
        eapply runs_bind; [apply runs_syscall; reflexivity|].
        rewrite Hwake. simpl (0 =? 0).
        eapply runs_bind; [apply runs_CHECK|]. apply runs_Ret.
    - rewrite !syscalls_app, Hs1, Hs2. reflexivity.
    - intros Hfin. rewrite !Forall_app. split; [exact Hfw1|]. split.
      + repeat constructor.
      + split; [|exact Hfin]. split; [exact Hrew|].
        repeat constructor. }
  unfold MapProcessedPages.
  replace (if kFirst then S a else a) with (a + first)%nat
    by (subst first; destruct kFirst; lia).
  destruct (use_uffd_sigbus_ this) eqn:Hsig.
  - destruct (Hrun (fun r arr_idx =>
                store_backwards arr kProcessedAndMapped arr_idx (resp_val r) ;;
                Ret tt) tt sh3 (tr3 ++ []))
      as (tr & Hr & Hsys & Hlaw).
    { eapply runs_bind; [exact Hr3|]. apply runs_Ret. }
    exists sh3, tr. split; [|split; [|split; [|split; [|split]]]].
    + exact Hr.
    + intros i Hi. rewrite Hu3. case_bool_decide as Hd; [reflexivity|].
      exfalso; apply Hd; split; [reflexivity|lia].
    + intros i Hi. rewrite Hu3. case_bool_decide as Hd; [lia|].
      rewrite Hu2. case_bool_decide as Hd2; [reflexivity|].
      exfalso; apply Hd2; split; [reflexivity|lia].
    + intros arr' i Hn. rewrite Hu3, Hu2, Hu1.
      repeat case_bool_decide; try reflexivity; exfalso; apply Hn; intuition lia.
    + rewrite Hsys, app_nil_r, Hs3. reflexivity.
    + apply Hlaw. rewrite app_nil_r. exact Hmap.
  - destruct (Hrun (fun _ _ => Ret tt) tt sh2 []) as (tr & Hr & Hsys & Hlaw).
    { apply runs_Ret. }
    exists sh2, tr. split; [|split; [|split; [|split; [|split]]]].
    + exact Hr.
    + intros i Hi. rewrite Hu2. case_bool_decide as Hd; [lia|].
      rewrite Hu1. subst first N.
      destruct kFirst; cbn [andb].
      * destruct (Nat.eqb_spec i a) as [->|Hne].
        { case_bool_decide as Hd1; [lia|reflexivity]. }
        repeat case_bool_decide; try reflexivity; exfalso; intuition lia.
      * repeat case_bool_decide; try reflexivity; exfalso; intuition lia.
    + intros i Hi. rewrite Hu2. case_bool_decide as Hd2; [reflexivity|].
      exfalso; apply Hd2; split; [reflexivity|lia].
    + intros arr' i Hn. rewrite Hu2, Hu1.
      repeat case_bool_decide; try reflexivity; exfalso; apply Hn; intuition lia.
    + rewrite Hsys. reflexivity.
    + apply Hlaw. constructor.
Qed.

End Mapping.

Lemma updated_over (sh sh1 sh2 : Shared) (arr : status_array) (a n : nat) (v w : Z) :
  updated sh sh1 arr a n v -> updated sh1 sh2 arr a n w -> updated sh sh2 arr a n w.
Proof.
  intros [H1 (A1 & B1 & C1 & D1)] [H2 (A2 & B2 & C2 & D2)].
  split; [|repeat split; congruence].
  intros arr' i. rewrite H2, H1. repeat case_bool_decide; tauto.
Qed.

Section NullPage.
Context {P : Platform} {HP : PlatformOk P}.
Variable this : MarkCompact.
Variable fuel : nat.

Lemma claim_zero_pages_runs (end_idx n : nat) :
  forall (a : nat) (sh : Shared) (ks : list resp),
  (forall i, (a <= i < a + n)%nat -> status sh MovingPagesStatus i = code kUnprocessed) ->
  (a + n <= end_idx)%nat ->
  ((a + n)%nat = end_idx \/ status sh MovingPagesStatus (a + n) <> code kUnprocessed) ->
  exists sh' tr,
    runs (claim_zero_pages a end_idx) sh ks (Z.of_nat n * gPageSize) sh' tr ks /\
    updated sh sh' MovingPagesStatus a n (code kProcessedAndMapping) /\
    Forall forward_transition tr /\ syscalls tr = [] /\ quiet tr.
Proof.
  unfold claim_zero_pages. intros a sh ks.
  assert (Hf : (n + (end_idx - (a + n)) < S (end_idx - a))%nat \/ (a + n > end_idx)%nat) by lia.
  revert Hf. generalize (S (end_idx - a)) as f.
  change 0 with (Z.of_nat 0 * gPageSize) at 1.
  assert (Hlen : Z.of_nat n * gPageSize = Z.of_nat 0 * gPageSize + Z.of_nat n * gPageSize) by lia.
  rewrite Hlen. clear Hlen. generalize (Z.of_nat 0 * gPageSize) as len.
  revert a sh.
  induction n as [|n IH]; intros a sh len f Hf Hst Hle Hend;
    (destruct f as [|f]; [lia|]).
  - replace (a + 0)%nat with a in * by lia.
    replace (len + Z.of_nat 0 * gPageSize) with len by lia.
    exists sh. destruct (Nat.ltb_spec a end_idx) as [Hlt|Hge].
    + destruct Hend as [->|Hne]; [lia|].
      eexists. split; [|split; [apply updated_refl|]].
      * apply runs_loop_Break. cbv beta iota.
        destruct (Nat.ltb_spec a end_idx); [|lia].
        eapply runs_bind; [apply runs_cas_fail; exact Hne|]. apply runs_Ret.
      * split; [|split; [reflexivity|]]; repeat constructor.
    + exists []. split; [|split; [apply updated_refl|repeat split; constructor]].
      apply runs_loop_Break. cbv beta iota.
      destruct (Nat.ltb_spec a end_idx); [lia|]. apply runs_Ret.
  - destruct (IH (S a) (set_status sh MovingPagesStatus a (code kProcessedAndMapping))
                (len + gPageSize) f)
      as (sh' & tr & Hr & Hu & Hfw & Hsys & Hq).
    { lia. }
    { intros i Hi. rewrite status_set_status.
      case_bool_decide; [lia|]. apply Hst. lia. }
    { lia. }
    { destruct Hend as [He|He]; [left; lia|right].
      rewrite status_set_status. case_bool_decide; [lia|].
      replace (S a + n)%nat with (a + S n)%nat by lia. exact He. }
    exists sh'. eexists. split; [|split; [apply updated_front; exact Hu|]].
    + replace (len + Z.of_nat (S n) * gPageSize)
        with (len + gPageSize + Z.of_nat n * gPageSize) by lia.
      eapply runs_loop_Continue; [|exact Hr]. cbv beta iota.
      destruct (Nat.ltb_spec a end_idx); [|lia].
      eapply runs_bind; [apply runs_cas_ok; apply Hst; lia|]. apply runs_Ret.
    + split; [|split].
      * constructor; [|exact Hfw].
        apply forward_cas_ok with (a := kUnprocessed) (b := kProcessedAndMapping);
          reflexivity || (cbv; lia).
      * rewrite syscalls_app, Hsys. reflexivity.
      * constructor; [reflexivity|exact Hq].
Qed.

Lemma store_zero_pages_runs (n : nat) :
  forall (a : nat) (sh : Shared) (ks : list resp),
  exists sh' tr,
    runs (store_zero_pages a (Z.of_nat n * gPageSize)) sh ks tt sh' tr ks /\
    updated sh sh' MovingPagesStatus a n (code kProcessedAndMapped) /\
    Forall (stores_over sh MovingPagesStatus a (a + n) (code kProcessedAndMapped)) tr /\
    syscalls tr = [] /\ quiet tr.
Proof.
  pose proof gPageSize_pos as Hpg.
  unfold store_zero_pages. intros a sh ks.
  assert (Hf : (n < S (Z.to_nat (Z.of_nat n * gPageSize / gPageSize)))%nat).
  { rewrite Z.div_mul by lia. lia. }
  revert Hf. generalize (S (Z.to_nat (Z.of_nat n * gPageSize / gPageSize))) as f.
  assert (Hgen : forall (k : nat) (a : nat) (sh : Shared) (f : nat) (len : Z),
    (k < f)%nat ->
    exists sh' tr,
      runs (loop f (fun '(len0, idx) =>
              if len0 <? len + Z.of_nat k * gPageSize then
                store MovingPagesStatus idx (code kProcessedAndMapped) ;;
                Ret (Continue (len0 + gPageSize, S idx))
              else Ret (Break tt)) (len, a)) sh ks tt sh' tr ks /\
      updated sh sh' MovingPagesStatus a k (code kProcessedAndMapped) /\
      Forall (stores_over sh MovingPagesStatus a (a + k) (code kProcessedAndMapped)) tr /\
      syscalls tr = [] /\ quiet tr).
  { clear a sh. induction k as [|k IH]; intros a sh f len Hf;
      (destruct f as [|f]; [lia|]).
    - exists sh, []. split; [|split; [apply updated_refl|repeat split; constructor]].
      apply runs_loop_Break. cbv beta iota.
      destruct (Z.ltb_spec len (len + Z.of_nat 0 * gPageSize)); [lia|]. apply runs_Ret.
    - destruct (IH (S a) (set_status sh MovingPagesStatus a (code kProcessedAndMapped))
                  f (len + gPageSize)) as (sh' & tr & Hr & Hu & Hst & Hsys & Hq); [lia|].
      exists sh'. eexists. split; [|split; [apply updated_front; exact Hu|]].
      + eapply runs_loop_Continue.
        * cbv beta iota.
          destruct (Z.ltb_spec len (len + Z.of_nat (S k) * gPageSize)); [|nia].
          eapply runs_bind; [apply runs_store|]. apply runs_Ret.
        * replace (len + Z.of_nat (S k) * gPageSize)
            with (len + gPageSize + Z.of_nat k * gPageSize) by lia.
          exact Hr.
      + split; [|split].
        * simpl. constructor.
          { exists a. split; [lia|]. split; reflexivity. }
          eapply Forall_impl; [exact Hst|]. intros x (i & Hi & He & Ho).
          exists i. split; [lia|]. split; [exact He|].
          rewrite Ho, status_set_status. case_bool_decide; [lia|reflexivity].
        * rewrite syscalls_app, Hsys. reflexivity.
        * constructor; [reflexivity|exact Hq]. }
  intros f Hf. apply (Hgen n a sh f 0 Hf).
Qed.

Lemma ConcurrentlyProcessMovingPage_null_runs (kMode : Mode) (self : Thread)
    (fault_page buf : Z) (nr_moving_space_used_pages n : nat) (sh : Shared)
    (e : Errno) (v : Z) (rest : list resp) :
  let page_idx :=
    Z.to_nat (DivideByPageSize (fault_page - bump_pointer_space_Begin this)) in
  let end_ := AlignDown (GetTlabEnd self) gPageSize in
  let end_ := if (fault_page <? GetTlabStart self) || (fault_page >=? end_)
              then fault_page + gPageSize else end_ in
  let end_idx := (page_idx + Z.to_nat (DivideByPageSize (end_ - fault_page)))%nat in
  Mode_eqb kMode kCopyMode &&
    (fault_page >=? bump_pointer_space_Begin this
                    + Z.of_nat nr_moving_space_used_pages * gPageSize) = false ->
  read (first_objs_moving_space_ this) page_idx = 0 ->
  (forall i, (page_idx <= i < page_idx + n)%nat ->
     status sh MovingPagesStatus i = code kUnprocessed) ->
  (page_idx + n <= end_idx)%nat ->
  ((page_idx + n)%nat = end_idx \/
   status sh MovingPagesStatus (page_idx + n) <> code kUnprocessed) ->
  (0 < n)%nat -> Z.of_nat n * gPageSize < 2 ^ 64 -> (0 < fuel)%nat ->
  exists sh' tr,
    runs (ConcurrentlyProcessMovingPage this fuel kMode self fault_page buf
            nr_moving_space_used_pages) sh (RSys 0 e v :: rest) self sh' tr rest /\
    updated sh sh' MovingPagesStatus page_idx n (code kProcessedAndMapped) /\
    syscalls tr = [IoctlZeropage fault_page (Z.of_nat n * gPageSize)] /\
    quiet tr /\ Forall forward_transition tr.
Proof.
  intros page_idx end_ end_0 end_idx Hused Hnull Hst Hle Hend Hn Hsz Hfuel.
  pose proof gPageSize_pos as Hpg.
  destruct (claim_zero_pages_runs end_idx n page_idx sh (RSys 0 e v :: rest) Hst Hle Hend)
    as (sh1 & tr1 & Hr1 & Hu1 & Hf1 & Hs1 & Hq1).
  destruct (ZeropageIoctl_runs [] fuel fault_page (Z.of_nat n * gPageSize) false true
              sh1 e v rest) as (tr2 & Hr2 & He2); [simpl; lia|constructor|simpl; nia|].
  destruct (store_zero_pages_runs n page_idx sh1 rest)
    as (sh3 & tr3 & Hr3 & Hu3 & Hf3 & Hs3 & Hq3).
  exists sh3. eexists. split; [|split; [|split; [|split]]].
  - unfold ConcurrentlyProcessMovingPage. rewrite Hused.
    fold page_idx. rewrite Hnull. simpl (0 =? 0). cbv iota.
    fold end_ end_0 end_idx.
    eapply runs_bind; [exact Hr1|].
    eapply runs_bind; [|apply runs_Ret].
    destruct (Z.gtb_spec (Z.of_nat n * gPageSize) 0); [|nia].
    eapply runs_bind; [exact Hr2|]. exact Hr3.
  - eapply updated_over; eauto.
  - rewrite !syscalls_app, Hs1, Hs3. unfold syscalls at 1. rewrite He2. reflexivity.
  - unfold quiet. rewrite !Forall_app. split; [exact Hq1|]. split; [|constructor].
    split; [|exact Hq3].
    assert (Hall : Forall no_compaction (map ev tr2)).
    { rewrite He2. repeat constructor. }
    rewrite Forall_map in Hall. exact Hall.
  - rewrite !Forall_app. split; [exact Hf1|]. split; [|constructor]. split.
    + assert (Hall : Forall (fun e => is_syscall e = true) (map ev tr2)).
      { rewrite He2. repeat constructor. }
      rewrite Forall_map in Hall. eapply Forall_impl; [exact Hall|].
      intros x Hx. unfold forward_transition, transition_of. simpl in Hx.
      destruct (ev x); try discriminate; exact I.
    + eapply Forall_impl; [exact Hf3|]. intros x (i & Hi & He & Ho).
      unfold forward_transition, transition_of. rewrite He, Ho.
      destruct Hu1 as [Hu1 _]. rewrite Hu1.
      case_bool_decide as Hd; [cbv; lia|]. exfalso; apply Hd; auto.
Qed.

Lemma ConcurrentlyProcessMovingPage_null_quiet (kMode : Mode) (self : Thread)
    (fault_page buf : Z) (nr_moving_space_used_pages : nat) :
  read (first_objs_moving_space_ this)
    (Z.to_nat (DivideByPageSize (fault_page - bump_pointer_space_Begin this))) = 0 ->
  keeps no_compaction
    (ConcurrentlyProcessMovingPage this fuel kMode self fault_page buf
       nr_moving_space_used_pages).
Proof.
  intros Hnull. unfold ConcurrentlyProcessMovingPage.
  destruct (_ && _).
  { apply keeps_bind; [|intros; exact I].
    apply keeps_silent_no_compaction. apply ZeropageIoctl_silent. }
  rewrite Hnull. simpl (0 =? 0). cbv iota.
  apply keeps_bind.
  { unfold claim_zero_pages. apply keeps_loop. intros [idx len].
    destruct (_ <? _)%nat; [|exact I].
    apply keeps_bind; [apply compare_exchange_strong_no_compaction|].
    intros c. destruct (fst c); exact I. }
  intros len. apply keeps_bind; [|intros; exact I].
  destruct (_ >? 0); [|exact I].
  apply keeps_bind.
  { apply keeps_silent_no_compaction. apply ZeropageIoctl_silent. }
  intros []. unfold store_zero_pages. apply keeps_loop. intros [l idx].
  destruct (_ <? _); [|exact I].
  apply keeps_bind; [apply store_no_compaction|]. intros; exact I.
Qed.

End NullPage.

Lemma find_existsb_false {A : Type} (f : A -> bool) (l : list A) :
  existsb f l = false -> find f l = None.
Proof.
  induction l as [|a l IH]; simpl; [reflexivity|].
  destruct (f a); simpl; [discriminate|exact IH].
Qed.

Section Handler.
Context {P : Platform}.
Variable this : MarkCompact.
Variable fuel : nat.

Lemma SigbusHandler_other_cause (self : Thread) (info : siginfo) :
  si_code info <> BUS_ADRERR ->
  SigbusHandler this fuel self info = Ret (false, self).
Proof.
  intros H. unfold SigbusHandler.
  destruct (Z.eqb_spec (si_code info) BUS_ADRERR); [tauto|]. reflexivity.
Qed.

Lemma ScopedInProgressCount_done (sh : Shared) (ks : list resp) :
  (0 < fuel)%nat -> compaction_finished sh ->
  runs (ScopedInProgressCount fuel) sh ks true sh
       [entry_of sh SigbusCountLoad (RVal (sigbus_in_progress_count_ sh))] ks.
Proof.
  intros Hf Hd. unfold ScopedInProgressCount.
  destruct fuel as [|f]; [lia|].
  unfold runs. simpl.
  destruct (Z.eqb_spec (Z.land (sigbus_in_progress_count_ sh)
                          kSigbusCounterCompactionDoneMask) 0) as [E|E];
    [exfalso; apply Hd; exact E|].
  reflexivity.
Qed.

Lemma ScopedInProgressCount_enter (sh : Shared) (ks : list resp) :
  (0 < fuel)%nat -> ~ compaction_finished sh ->
  runs (ScopedInProgressCount fuel) sh ks false
       (set_sigbus_count sh (sigbus_in_progress_count_ sh + 1))
       [entry_of sh SigbusCountLoad (RVal (sigbus_in_progress_count_ sh));
        entry_of sh (SigbusCountCas (sigbus_in_progress_count_ sh)
                       (sigbus_in_progress_count_ sh + 1))
          (RCas true (sigbus_in_progress_count_ sh))] ks.
Proof.
  intros Hf Hd. unfold ScopedInProgressCount.
  destruct fuel as [|f]; [lia|].
  unfold runs. simpl.
  destruct (Z.eqb_spec (Z.land (sigbus_in_progress_count_ sh)
                          kSigbusCounterCompactionDoneMask) 0) as [E|E].
  - simpl. rewrite Z.eqb_refl. reflexivity.
  - exfalso. apply Hd. exact E.
Qed.

Lemma SigbusHandler_finished (self : Thread) (info : siginfo) (sh : Shared)
    (ks : list resp) :
  (0 < fuel)%nat -> si_code info = BUS_ADRERR -> compaction_finished sh ->
  runs (SigbusHandler this fuel self info) sh ks
       (claims_fault this (AlignDown (si_addr info) gPageSize), self) sh
       [entry_of sh SigbusCountLoad (RVal (sigbus_in_progress_count_ sh))] ks.
Proof.
  intros Hf Hc Hd. unfold SigbusHandler. rewrite Hc, Z.eqb_refl. cbn [negb].
  rewrite <- (app_nil_r [_]).
  eapply runs_bind; [apply ScopedInProgressCount_done; auto|].
  cbn [negb]. apply runs_Ret.
Qed.

Lemma SigbusHandler_outside (self : Thread) (info : siginfo) (sh : Shared)
    (ks : list resp) :
  (0 < fuel)%nat -> si_code info = BUS_ADRERR ->
  claims_fault this (AlignDown (si_addr info) gPageSize) = false ->
  exists sh' tr,
    runs (SigbusHandler this fuel self info) sh ks (false, self) sh' tr ks /\
    status sh' = status sh /\
    sigbus_in_progress_count_ sh' = sigbus_in_progress_count_ sh /\
    quiet tr /\ Forall forward_transition tr.
Proof.
  intros Hf Hc Hout.
  destruct (Z.eq_dec (Z.land (sigbus_in_progress_count_ sh)
                        kSigbusCounterCompactionDoneMask) 0) as [E|E].
  - unfold claims_fault in Hout. apply orb_false_iff in Hout as [Hh Hl].
    eexists. eexists. split; [|split; [|split; [|split]]].
    + unfold SigbusHandler. rewrite Hc, Z.eqb_refl. cbn [negb].
      eapply runs_bind;
        [apply ScopedInProgressCount_enter;
           [exact Hf|unfold compaction_finished; intros Hn; apply Hn; exact E]|].
      cbn [negb]. rewrite Hh. rewrite (find_existsb_false _ _ Hl).
      eapply runs_bind; [|apply runs_Ret]. reflexivity.
    + reflexivity.
    + simpl. lia.
    + repeat constructor.
    + repeat constructor.
  - exists sh. eexists. split; [|split; [|split; [|split]]].
    + rewrite <- Hout. apply SigbusHandler_finished; auto.
    + reflexivity.
    + reflexivity.
    + repeat constructor.
    + repeat constructor.
Qed.

End Handler.

(** ** The example heap is well formed *)

#[export] Instance example_platform_ok : PlatformOk Example.platform.
Proof.
  constructor; try reflexivity.
  - exists 8. reflexivity.
  - exists 16. reflexivity.
Qed.

Lemma example_heap_ok : MarkCompactOk (P := Example.platform) Example.heap.
Proof.
  constructor.
  - exists 0x10000. reflexivity.
  - exists 0x10004. reflexivity.
  - reflexivity.
Qed.

(** ** The claims *)

Lemma jobs_disciplined {P : Platform} {HP : PlatformOk P} (this : MarkCompact)
    (fuel : nat) (jobs : list job) :
  MarkCompactOk this -> Forall concurrent_job jobs ->
  Forall disciplined (map (code_of this fuel) jobs).
Proof.
  intros Hok Hj. rewrite Forall_map. eapply Forall_impl; [exact Hj|].
  intros j. simpl. apply code_of_disciplined; assumption.
Qed.

Lemma won_needs_cas (tr : list entry) :
  compactions_won tr -> Forall (fun x => writes_no_state (ev x)) tr ->
  forall i, compaction_count i tr = 0%nat.
Proof.
  induction tr as [|x older IH]; intros Hw Hq i; [reflexivity|].
  destruct Hw as [Ho Hx]. inversion Hq as [|? ? Hqx Hqo]; subst.
  rewrite compaction_count_cons, (IH Ho Hqo i).
  destruct (compacts i (ev x)) eqn:Hc; [|reflexivity].
  apply compacts_compacted_page in Hc.
  destruct (Hx i Hc) as (y & s & Hin & (_ & ex & d & o & Hev & _) & _).
  rewrite Forall_forall in Hqo. specialize (Hqo y).
  rewrite Hev in Hqo. exfalso. apply Hqo.
  apply list_elem_of_In. exact Hin.
Qed.

Lemma single_thread_once {P : Platform} (this : MarkCompact) (fuel : nat)
    (kMode : Mode) (page : Z) (c : config) :
  reachable (initial [CompactMovingSpace this fuel kMode page]) c ->
  forall i, (compaction_count i (trace c) <= 1)%nat.
Proof.
  intros Hr i.
  destruct (trace_tids _ _ Hr) as [_ Ht].
  rewrite compaction_count_pages.
  - apply sorted_filter_le_1.
    eapply collector_descending; [|exact Hr]. reflexivity.
  - eapply Forall_impl; [exact Ht|]. simpl. intros x Hx. lia.
Qed.

(** C1.  In the concurrent modes a page is compacted once at most, and
    every compaction is preceded, in the same thread, by the
    compare-and-swap that took the page from [kUnprocessed] to
    [kProcessing], [kProcessingAndMapping] or [kMutatorProcessing]: who
    loses the compare-and-swap does not compact.  In [kFallbackMode] the
    collector thread compacts every page once at most and writes no page
    state at all. *)
Theorem compaction_only_by_cas_winner {P : Platform} {HP : PlatformOk P}
    (this : MarkCompact) (fuel : nat) :
  MarkCompactOk this ->
  (forall jobs c, Forall concurrent_job jobs ->
     reachable (initial (map (code_of this fuel) jobs)) c ->
     (forall i, (compaction_count i (trace c) <= 1)%nat) /\
     compactions_won (trace c)) /\
  (forall page c,
     reachable (initial [CompactMovingSpace this fuel kFallbackMode page]) c ->
     (forall i, (compaction_count i (trace c) <= 1)%nat) /\
     Forall (fun x => writes_no_state (ev x)) (trace c)).
Proof.
  intros Hok. split.
  - intros jobs c Hj Hr.
    pose proof (own_inv_reachable _ c (jobs_disciplined this fuel jobs Hok Hj) Hr)
      as Hinv.
    split; [apply (inv_once c Hinv)|apply (inv_compactor c Hinv)].
  - intros page c Hr. split; [eapply single_thread_once; exact Hr|].
    destruct (trace_tids _ _ Hr) as [_ Ht].
    assert (Hacc : accepted (only writes_no_state) stay 0 (trace c) tt).
    { refine (accepted_reachable (only writes_no_state) stay
                [CompactMovingSpace this fuel kFallbackMode page] 0%nat tt _ c
                eq_refl _ Hr).
      apply (keeps_wp _ _ writes_no_state);
        [|apply CompactMovingSpace_fallback|auto].
      intros [] e He. split; [exact He|reflexivity]. }
    apply accepted_only in Hacc.
    rewrite Forall_forall in Hacc, Ht. rewrite Forall_forall.
    intros x Hx. apply (Hacc x Hx). specialize (Ht x Hx). simpl in Ht. lia.
Qed.

Lemma compaction_only_by_cas_winner_witness :
  (forall i, (compaction_count i (trace Example.race) <= 1)%nat) /\
  compactions_won (trace Example.race).
Proof.
  refine (proj1 (compaction_only_by_cas_winner (P := Example.platform)
                   Example.heap 5 example_heap_ok)
                Example.race_jobs Example.race _ _).
  - repeat constructor. discriminate.
  - exists (Example.turns 1 20 ++ Example.turns 0 40).
    unfold Example.race, Example.race_jobs. reflexivity.
Defined.

Lemma fallback_compacts_without_cas :
  reachable (initial [CompactMovingSpace (P := Example.platform) Example.heap 5
                        kFallbackMode 0])
    Example.fallback /\
  compaction_count 2 (trace Example.fallback) = 1%nat /\
  ~ compactions_won (trace Example.fallback).
Proof.
  split; [exists (Example.turns 0 40); unfold Example.fallback; reflexivity|].
  split; [vm_compute; reflexivity|].
  intros Hw.
  assert (Hq : Forall (fun x => writes_no_state (ev x)) (trace Example.fallback)).
  { vm_compute. repeat constructor. }
  pose proof (won_needs_cas _ Hw Hq 2%nat) as H0.
  vm_compute in H0. discriminate.
Qed.

Lemma rewinds_not_forward (x : entry) : rewinds x -> ~ forward_transition x.
Proof.
  unfold rewinds, forward_transition. intros ->. cbv. lia.
Qed.

Lemma Exists_rewinds_not_forward (tr : list entry) :
  Exists rewinds tr -> ~ Forall forward_transition tr.
Proof.
  intros He Hf. rewrite Exists_exists in He. destruct He as (x & Hx & Hr).
  rewrite Forall_forall in Hf. exact (rewinds_not_forward x Hr (Hf x Hx)).
Qed.

(** X1.  Every write of a page state by the parties of the compaction of
    the moving space (collector, helpers, fault handlers) moves the state
    strictly forward in the lifecycle.  [MapProcessedPages] is the
    exception: when its map call is aborted after [m] pages, it stores
    [kProcessed] back over [kProcessedAndMapping] for the pages it had
    claimed and that were not mapped; all its other writes move forward. *)
Theorem page_state_transitions {P : Platform} {HP : PlatformOk P}
    (this : MarkCompact) (fuel : nat) :
  MarkCompactOk this ->
  (forall jobs c, Forall concurrent_job jobs ->
     reachable (initial (map (code_of this fuel) jobs)) c ->
     Forall forward_transition (trace c)) /\
  (forall (kFirst : bool) (start : Z) (arr : status_array) (a arr_len n m : nat)
          (sh : Shared) (wake : resp) (rest : list resp),
     let first := (if kFirst then 1 else 0)%nat in
     let N := (first + n)%nat in
     (forall i, (a + first <= i < a + N)%nat -> status sh arr i = code kProcessed) ->
     (a + N <= arr_len)%nat ->
     ((a + N)%nat = arr_len \/ status sh arr (a + N) <> code kProcessed) ->
     (kFirst = true -> status sh arr a = code kProcessing) ->
     (first <= m < N)%nat ->
     Z.of_nat N * gPageSize < 2 ^ 64 ->
     resp_ret wake = 0 ->
     exists sh' tr,
       runs (MapProcessedPages this kFirst start arr a arr_len) sh
            (short (Z.of_nat m * gPageSize) :: wake :: rest) tt sh' tr rest /\
       Forall lawful_transition tr /\
       (forall i, (a + m <= i < a + N)%nat -> status sh' arr i = code kProcessed)).
Proof.
  intros Hok. split.
  - intros jobs c Hj Hr.
    apply (inv_forward c
             (own_inv_reachable _ c (jobs_disciplined this fuel jobs Hok Hj) Hr)).
  - intros kFirst start arr a arr_len n m sh wake rest first N H1 H2 H3 H4 H5 H6 H7.
    destruct (MapProcessedPages_short this kFirst start arr a arr_len n m sh wake
                rest H1 H2 H3 H4 H5 H6 H7)
      as (sh' & tr & Hr & _ & Hb & _ & _ & Hl).
    exists sh', tr. auto.
Qed.

Lemma page_state_transitions_witness :
  Forall forward_transition (trace Example.race) /\
  exists sh' tr,
    runs (MapProcessedPages (P := Example.platform) Example.heap false 0x30000000
            (LinearAllocPageStatus 0) 0 3)
         Example.processed [short 4096; RSys 0 (EOTHER 0) 0] tt sh' tr [] /\
    Forall lawful_transition tr /\
    (forall i, (1 <= i < 3)%nat ->
       status sh' (LinearAllocPageStatus 0) i = code kProcessed).
Proof.
  pose proof (page_state_transitions (P := Example.platform) Example.heap 5
                example_heap_ok) as [H1 H2].
  split.
  - apply (H1 Example.race_jobs Example.race).
    + repeat constructor. discriminate.
    + exists (Example.turns 1 20 ++ Example.turns 0 40).
      unfold Example.race, Example.race_jobs. reflexivity.
  - apply (H2 false 0x30000000 (LinearAllocPageStatus 0) 0%nat 3%nat 3%nat 1%nat
              Example.processed (RSys 0 (EOTHER 0) 0) []).
    + intros i Hi. destruct i as [|[|[|i]]]; try reflexivity; simpl in Hi; lia.
    + simpl. lia.
    + left. reflexivity.
    + discriminate.
    + simpl. lia.
    + reflexivity.
    + reflexivity.
Defined.

Lemma short_map_rewinds_state :
  outcome_of Partial.short_continue = Done tt /\
  Exists rewinds (trace_of Partial.short_continue) /\
  ~ Forall forward_transition (trace_of Partial.short_continue).
Proof.
  assert (He : Exists rewinds (trace_of Partial.short_continue)).
  { vm_compute. repeat (first [apply Exists_cons_hd; reflexivity | apply Exists_cons_tl]). }
  split; [vm_compute; reflexivity|]. split; [exact He|].
  apply Exists_rewinds_not_forward. exact He.
Qed.

(** X5.  The pages that the thread running [CompactMovingSpace] compacts
    itself come in strictly descending order of page index, in every mode
    and whatever the other threads do in between. *)
Theorem collector_pass_descending {P : Platform} (this : MarkCompact) (fuel : nat)
    (threads : list (prog unit)) (t : nat) (kMode : Mode) (page : Z) (c : config) :
  threads !! t = Some (CompactMovingSpace this fuel kMode page) ->
  reachable (initial threads) c ->
  StronglySorted lt (compaction_pages t (trace c)).
Proof. apply collector_descending. Qed.

Lemma collector_pass_descending_witness :
  StronglySorted lt (compaction_pages 0 (trace Example.race)).
Proof.
  apply (collector_pass_descending (P := Example.platform) Example.heap 5
           (map (code_of (P := Example.platform) Example.heap 5) Example.race_jobs)
           0 kCopyMode 0x40000000).
  - reflexivity.
  - exists (Example.turns 1 20 ++ Example.turns 0 40).
    unfold Example.race. reflexivity.
Defined.

Lemma mutator_compacts_out_of_order :
  reachable (initial (map (code_of (P := Example.platform) Example.heap 5)
                        Example.race_jobs)) Example.race /\
  all_compactions (trace Example.race) = [1; 2; 0]%nat /\
  ~ StronglySorted lt (all_compactions (trace Example.race)).
Proof.
  assert (He : all_compactions (trace Example.race) = [1; 2; 0]%nat).
  { vm_compute. reflexivity. }
  split; [|split; [exact He|]].
  - exists (Example.turns 1 20 ++ Example.turns 0 40).
    unfold Example.race. reflexivity.
  - rewrite He. intros Hs. inversion Hs as [|? ? _ Hall]; subst.
    inversion Hall as [|? ? _ Hall']; subst.
    inversion Hall' as [|? ? Hlt _]; subst. lia.
Qed.

(** X2.  When a copy or zeropage call is aborted after part of the range,
    [CopyIoctl] and [ZeropageIoctl] call again for exactly what is left
    unmapped, and go on until the kernel reports the rest mapped; they
    change no page state.  When the continue call of [MapProcessedPages]
    is aborted after [m] pages, it stores [kProcessed] back into the
    claimed pages that were not mapped, wakes the waiters of exactly that
    unmapped suffix, and marks the mapped prefix in sigbus mode; it does
    not call again. *)
Theorem partial_map_recovery {P : Platform} {HP : PlatformOk P} (this : MarkCompact) :
  (forall (ms : list Z) (fuel : nat) (dst src len : Z) (sh : Shared) (e : Errno)
          (v : Z) (rest : list resp),
     (length ms < fuel)%nat -> Forall (fun m => 0 < m) ms ->
     sum_Z ms < len < 2 ^ 64 ->
     exists tr,
       runs (CopyIoctl fuel dst src len) sh (map short ms ++ RSys 0 e v :: rest)
            tt sh tr rest /\
       map ev tr = copy_calls dst src len ms) /\
  (forall (ms : list Z) (fuel : nat) (start len : Z) (te tn : bool) (sh : Shared)
          (e : Errno) (v : Z) (rest : list resp),
     (length ms < fuel)%nat -> Forall (fun m => 0 < m) ms ->
     sum_Z ms < len < 2 ^ 64 ->
     exists tr,
       runs (ZeropageIoctl fuel start len te tn) sh
            (map short ms ++ RSys 0 e v :: rest) tt sh tr rest /\
       map ev tr = zeropage_calls start len ms) /\
  (forall (kFirst : bool) (start : Z) (arr : status_array) (a arr_len n m : nat)
          (sh : Shared) (wake : resp) (rest : list resp),
     let first := (if kFirst then 1 else 0)%nat in
     let N := (first + n)%nat in
     (forall i, (a + first <= i < a + N)%nat -> status sh arr i = code kProcessed) ->
     (a + N <= arr_len)%nat ->
     ((a + N)%nat = arr_len \/ status sh arr (a + N) <> code kProcessed) ->
     (kFirst = true -> status sh arr a = code kProcessing) ->
     (first <= m < N)%nat ->
     Z.of_nat N * gPageSize < 2 ^ 64 ->
     resp_ret wake = 0 ->
     exists sh' tr,
       runs (MapProcessedPages this kFirst start arr a arr_len) sh
            (short (Z.of_nat m * gPageSize) :: wake :: rest) tt sh' tr rest /\
       (forall i, (a <= i < a + m)%nat ->
          status sh' arr i =
          if use_uffd_sigbus_ this then code kProcessedAndMapped
          else if kFirst && (i =? a)%nat then status sh arr i
          else code kProcessedAndMapping) /\
       (forall i, (a + m <= i < a + N)%nat -> status sh' arr i = code kProcessed) /\
       (forall arr' i, ~ (arr' = arr /\ (a <= i < a + N)%nat) ->
          status sh' arr' i = status sh arr' i) /\
       syscalls tr =
         [IoctlContinue start (Z.of_nat N * gPageSize);
          IoctlWake (start + Z.of_nat m * gPageSize)
            (Z.of_nat (N - m) * gPageSize)]).
Proof.
  split; [|split].
  - intros. apply CopyIoctl_runs; assumption.
  - intros. apply ZeropageIoctl_runs; assumption.
  - intros kFirst start arr a arr_len n m sh wake rest first N H1 H2 H3 H4 H5 H6 H7.
    destruct (MapProcessedPages_short this kFirst start arr a arr_len n m sh wake
                rest H1 H2 H3 H4 H5 H6 H7)
      as (sh' & tr & Hr & Ha & Hb & Hc & Hd & _).
    exists sh', tr. auto.
Qed.

Lemma partial_map_recovery_witness :
  (exists tr,
     runs (CopyIoctl 5 0x10000000 0x20000000 8192) Example.processed
          [short 4096; RSys 0 (EOTHER 0) 4096] tt Example.processed tr [] /\
     map ev tr = [IoctlCopy 0x10000000 0x20000000 8192;
                  IoctlCopy 0x10001000 0x20001000 4096]) /\
  (exists sh' tr,
     runs (MapProcessedPages (P := Example.platform) Example.heap false 0x30000000
             (LinearAllocPageStatus 0) 0 3)
          Example.processed [short 4096; RSys 0 (EOTHER 0) 0] tt sh' tr [] /\
     status sh' (LinearAllocPageStatus 0) 0 = code kProcessedAndMapped /\
     status sh' (LinearAllocPageStatus 0) 1 = code kProcessed /\
     status sh' (LinearAllocPageStatus 0) 2 = code kProcessed /\
     syscalls tr = [IoctlContinue 0x30000000 12288; IoctlWake 0x30001000 8192]).
Proof.
  pose proof (partial_map_recovery (P := Example.platform) Example.heap)
    as (H1 & _ & H3).
  split.
  - apply (H1 [4096] 5%nat 0x10000000 0x20000000 8192 Example.processed
              (EOTHER 0) 4096 []).
    + simpl. lia.
    + repeat constructor.
    + simpl. lia.
  - destruct (H3 false 0x30000000 (LinearAllocPageStatus 0) 0%nat 3%nat 3%nat 1%nat
                Example.processed (RSys 0 (EOTHER 0) 0) [])
      as (sh' & tr & Hr & Ha & Hb & _ & Hs).
    + intros i Hi. destruct i as [|[|[|i]]]; try reflexivity; simpl in Hi; lia.
    + simpl. lia.
    + left. reflexivity.
    + discriminate.
    + simpl. lia.
    + reflexivity.
    + reflexivity.
    + exists sh', tr. split; [exact Hr|]. split; [apply (Ha 0%nat); simpl; lia|].
      split; [apply (Hb 1%nat); simpl; lia|].
      split; [apply (Hb 2%nat); simpl; lia|exact Hs].
Defined.

Lemma short_copy_rewinds_nothing :
  outcome_of Partial.short_copy = Done 0 /\
  syscalls (trace_of Partial.short_copy) =
    [IoctlCopy 0x10000000 0x20000000 8192; IoctlCopy 0x10001000 0x20001000 4096] /\
  stores_of (trace_of Partial.short_copy) =
    [(MovingPagesStatus, 0%nat, code kProcessedAndMapped);
     (MovingPagesStatus, 1%nat, code kProcessedAndMapped)].
Proof. vm_compute. auto. Qed.

(** X6.  A fault on a page of the moving space whose first object is null
    performs no compaction, whatever the other threads do.  Taken alone,
    the handler claims the run of [n] adjacent unprocessed pages from the
    fault page on (up to the end of the thread's TLAB) by compare-and-swap,
    maps them with one zeropage call, and leaves each of them
    [kProcessedAndMapped]. *)
Theorem null_first_object_fault {P : Platform} {HP : PlatformOk P}
    (this : MarkCompact) (fuel : nat) (kMode : Mode) (self : Thread)
    (fault_page buf : Z) (nr_moving_space_used_pages : nat) :
  let page_idx :=
    Z.to_nat (DivideByPageSize (fault_page - bump_pointer_space_Begin this)) in
  let end_ := AlignDown (GetTlabEnd self) gPageSize in
  let end_ := if (fault_page <? GetTlabStart self) || (fault_page >=? end_)
              then fault_page + gPageSize else end_ in
  let end_idx := (page_idx + Z.to_nat (DivideByPageSize (end_ - fault_page)))%nat in
  read (first_objs_moving_space_ this) page_idx = 0 ->
  keeps no_compaction
    (ConcurrentlyProcessMovingPage this fuel kMode self fault_page buf
       nr_moving_space_used_pages) /\
  (forall (n : nat) (sh : Shared) (e : Errno) (v : Z) (rest : list resp),
     Mode_eqb kMode kCopyMode &&
       (fault_page >=? bump_pointer_space_Begin this
                       + Z.of_nat nr_moving_space_used_pages * gPageSize) = false ->
     (forall i, (page_idx <= i < page_idx + n)%nat ->
        status sh MovingPagesStatus i = code kUnprocessed) ->
     (page_idx + n <= end_idx)%nat ->
     ((page_idx + n)%nat = end_idx \/
      status sh MovingPagesStatus (page_idx + n) <> code kUnprocessed) ->
     (0 < n)%nat -> Z.of_nat n * gPageSize < 2 ^ 64 -> (0 < fuel)%nat ->
     exists sh' tr,
       runs (ConcurrentlyProcessMovingPage this fuel kMode self fault_page buf
               nr_moving_space_used_pages) sh (RSys 0 e v :: rest) self sh' tr rest /\
       updated sh sh' MovingPagesStatus page_idx n (code kProcessedAndMapped) /\
       syscalls tr = [IoctlZeropage fault_page (Z.of_nat n * gPageSize)] /\
       quiet tr).
Proof.
  intros page_idx end_ end_0 end_idx Hnull. split.
  - apply ConcurrentlyProcessMovingPage_null_quiet. exact Hnull.
  - intros n sh e v rest Hused Hst Hle Hend Hn Hsz Hf.
    destruct (ConcurrentlyProcessMovingPage_null_runs this fuel kMode self fault_page
                buf nr_moving_space_used_pages n sh e v rest Hused Hnull Hst Hle
                Hend Hn Hsz Hf) as (sh' & tr & Hr & Hu & Hs & Hq & _).
    exists sh', tr. auto.
Qed.

Lemma null_first_object_fault_witness :
  keeps no_compaction
    (ConcurrentlyProcessMovingPage (P := Example.platform) Example.heap 5 kCopyMode
       Example.mutator (0x10000000 + 3 * 4096) 0 4) /\
  exists sh' tr,
    runs (ConcurrentlyProcessMovingPage (P := Example.platform) Example.heap 5
            kCopyMode Example.mutator (0x10000000 + 3 * 4096) 0 4)
         fresh_shared [RSys 0 (EOTHER 0) 4096] Example.mutator sh' tr [] /\
    updated fresh_shared sh' MovingPagesStatus 3 1 (code kProcessedAndMapped) /\
    syscalls tr = [IoctlZeropage (0x10000000 + 3 * 4096) 4096] /\
    quiet tr.
Proof.
  pose proof (null_first_object_fault (P := Example.platform) Example.heap 5
                kCopyMode Example.mutator (0x10000000 + 3 * 4096) 0 4 eq_refl)
    as [H1 H2].
  split; [exact H1|].
  apply (H2 1%nat fresh_shared (EOTHER 0) 4096 []).
  - reflexivity.
  - intros i Hi. reflexivity.
  - vm_compute. lia.
  - left. reflexivity.
  - lia.
  - reflexivity.
  - lia.
Defined.

(** X7.  [SigbusHandler] returns false, without an event, when the cause
    of the signal is not an address error; it returns false, and leaves
    the page states as they were, when the page of the fault lies neither
    in the moving space nor in a registered linear-alloc space; and once
    the compaction-done bit is set it reads the counter, compacts nothing,
    changes nothing, and reports a fault inside those spaces as
    handled. *)
Theorem sigbus_handler_claims {P : Platform} (this : MarkCompact) (fuel : nat)
    (self : Thread) (info : siginfo) (sh : Shared) (ks : list resp) :
  (0 < fuel)%nat ->
  let fault_page := AlignDown (si_addr info) gPageSize in
  (si_code info <> BUS_ADRERR ->
   runs (SigbusHandler this fuel self info) sh ks (false, self) sh [] ks) /\
  (si_code info = BUS_ADRERR -> claims_fault this fault_page = false ->
   exists sh' tr,
     runs (SigbusHandler this fuel self info) sh ks (false, self) sh' tr ks /\
     status sh' = status sh /\ quiet tr) /\
  (si_code info = BUS_ADRERR -> compaction_finished sh ->
   runs (SigbusHandler this fuel self info) sh ks
        (claims_fault this fault_page, self) sh
        [entry_of sh SigbusCountLoad (RVal (sigbus_in_progress_count_ sh))] ks).
Proof.
  intros Hf fault_page. split; [|split].
  - intros Hc. rewrite SigbusHandler_other_cause by exact Hc. apply runs_Ret.
  - intros Hc Hout.
    destruct (SigbusHandler_outside this fuel self info sh ks Hf Hc Hout)
      as (sh' & tr & Hr & Hs & _ & Hq & _).
    exists sh', tr. auto.
  - intros Hc Hd. apply SigbusHandler_finished; assumption.
Qed.

Lemma sigbus_handler_claims_witness :
  runs (SigbusHandler (P := Example.platform) Example.heap 5 Example.mutator
          {| si_code := 1; si_addr := 0x10000008 |})
       fresh_shared [] (false, Example.mutator) fresh_shared [] [] /\
  (exists sh' tr,
     runs (SigbusHandler (P := Example.platform) Example.heap 5 Example.mutator
             {| si_code := BUS_ADRERR; si_addr := 0x60000008 |})
          fresh_shared [] (false, Example.mutator) sh' tr [] /\
     status sh' = status fresh_shared /\ quiet tr) /\
  runs (SigbusHandler (P := Example.platform) Example.heap 5 Example.mutator
          (Example.fault_on 1))
       (set_sigbus_count fresh_shared (2 ^ 31)) [] (true, Example.mutator)
       (set_sigbus_count fresh_shared (2 ^ 31))
       [entry_of (set_sigbus_count fresh_shared (2 ^ 31)) SigbusCountLoad
          (RVal (2 ^ 31))] [].
Proof.
  split; [|split].
  - apply (sigbus_handler_claims (P := Example.platform) Example.heap 5
             Example.mutator {| si_code := 1; si_addr := 0x10000008 |}
             fresh_shared []); [lia|].
    simpl. discriminate.
  - apply (sigbus_handler_claims (P := Example.platform) Example.heap 5
             Example.mutator {| si_code := BUS_ADRERR; si_addr := 0x60000008 |}
             fresh_shared []); [lia|reflexivity|reflexivity].
  - apply (sigbus_handler_claims (P := Example.platform) Example.heap 5
             Example.mutator (Example.fault_on 1)
             (set_sigbus_count fresh_shared (2 ^ 31)) []); [lia|reflexivity|].
    intros H. vm_compute in H. discriminate.
Defined.

(** ** The planner *)

Lemma read_nil (i : nat) : read [] i = 0.
Proof. destruct i; reflexivity. Qed.

Lemma read_cons_0 (x : Z) (l : list Z) : read (x :: l) 0 = x.
Proof. reflexivity. Qed.

Lemma read_cons_S (x : Z) (l : list Z) (i : nat) : read (x :: l) (S i) = read l i.
Proof. reflexivity. Qed.

Lemma sum_Z_firstn_le (vec : list Z) : Forall (fun x => 0 <= x) vec ->
  forall i, 0 <= sum_Z (firstn i vec) <= sum_Z vec.
Proof.
  induction 1 as [|x l Hx Hl IH]; intros i.
  - rewrite firstn_nil. simpl. lia.
  - destruct i as [|i]; simpl.
    + fold (sum_Z l). specialize (IH 0%nat). simpl in IH. lia.
    + fold (sum_Z l) (sum_Z (firstn i l)). specialize (IH i). lia.
Qed.

Lemma live_before_mono (vec : list Z) : Forall (fun x => 0 <= x) vec ->
  forall i j, (i <= j)%nat -> live_before vec i <= live_before vec j.
Proof.
  unfold live_before. induction 1 as [|x l Hx Hl IH]; intros i j Hij.
  - rewrite !firstn_nil. lia.
  - destruct i as [|i], j as [|j]; simpl; try lia.
    + fold (sum_Z (firstn j l)).
      pose proof (sum_Z_firstn_le l Hl j). lia.
    + fold (sum_Z (firstn i l)) (sum_Z (firstn j l)).
      specialize (IH i j). lia.
Qed.

Lemma live_before_S (vec : list Z) (i : nat) :
  live_before vec (S i) = live_before vec i + read vec i.
Proof.
  unfold live_before. revert i. induction vec as [|x l IH]; intros i.
  - rewrite !firstn_nil, read_nil. reflexivity.
  - destruct i as [|i].
    + simpl. rewrite read_cons_0. lia.
    + change (firstn (S (S i)) (x :: l)) with (x :: firstn (S i) l).
      change (firstn (S i) (x :: l)) with (x :: firstn i l).
      simpl sum_Z. fold (sum_Z (firstn (S i) l)) (sum_Z (firstn i l)).
      rewrite IH, read_cons_S. lia.
Qed.

Lemma live_before_all (vec : list Z) (i : nat) :
  (length vec <= i)%nat -> live_before vec i = sum_Z vec.
Proof. intros H. unfold live_before. rewrite firstn_all2 by exact H. reflexivity. Qed.

Lemma exclusive_scan_spec (n : nat) : forall (vec : list Z) (init : Z),
  Forall (fun x => 0 <= x) vec -> 0 <= init -> init + sum_Z vec < 2 ^ 32 ->
  (forall i, (i < n)%nat -> (i < length vec)%nat ->
     read (exclusive_scan vec n init) i = init + live_before vec i) /\
  (forall i, (n <= i)%nat -> read (exclusive_scan vec n init) i = read vec i) /\
  length (exclusive_scan vec n init) = length vec.
Proof.
  induction n as [|n IH]; intros vec init Hv Hi Hs.
  - simpl. split; [intros; lia|]. split; reflexivity.
  - destruct vec as [|x l].
    + simpl. split; [intros; lia|]. split; reflexivity.
    + inversion Hv as [|? ? Hx Hl]; subst.
      simpl in Hs. fold (sum_Z l) in Hs.
      pose proof (sum_Z_firstn_le l Hl 0) as H0. simpl in H0.
      assert (Hw : to_uint32 (init + x) = init + x).
      { unfold to_uint32. apply Z.mod_small. lia. }
      destruct (IH l (to_uint32 (init + x)) Hl) as (A & B & C).
      { rewrite Hw. lia. }
      { rewrite Hw. lia. }
      simpl exclusive_scan. split; [|split].
      * intros [|i] Hin Hil.
        { rewrite read_cons_0. unfold live_before. simpl. lia. }
        rewrite read_cons_S, A by (simpl in Hil; lia). rewrite Hw.
        unfold live_before. simpl. fold (sum_Z (firstn i l)). lia.
      * intros [|i] Hin; [lia|]. rewrite !read_cons_S. apply B. lia.
      * simpl. rewrite C. reflexivity.
Qed.

Lemma scan_chunk_info_spec (vector_len vector_length_ : nat) (vec : list Z) :
  histogram_ok vec -> length vec = vector_length_ ->
  (vector_len <= vector_length_)%nat -> (0 < vector_length_)%nat ->
  let r := scan_chunk_info vector_len vector_length_ vec in
  let n := fst (fst r) in
  let scanned := snd (fst r) in
  let total := snd r in
  (forall i, (i < n)%nat -> read scanned i = live_before vec i) /\
  (forall i j, (i <= j < n)%nat -> read scanned i <= read scanned j) /\
  (forall i, (n <= i)%nat -> read scanned i = read vec i) /\
  total = live_before vec vector_len /\
  (if (vector_len <? vector_length_)%nat
   then n = S vector_len /\ read scanned (n - 1) = total
   else n = vector_len /\
        read scanned (n - 1) = total - read vec (vector_len - 1)).
Proof.
  intros [Hv Hs] Hlen Hle Hpos r n scanned total.
  subst r n scanned total. unfold scan_chunk_info.
  pose proof (sum_Z_firstn_le vec Hv) as Hb.
  destruct (Nat.ltb_spec vector_len vector_length_) as [Hlt|Hge]; cbn [fst snd].
  - destruct (exclusive_scan_spec (S vector_len) vec 0 Hv) as (A & B & C); [lia|lia|].
    assert (Ha : forall i, (i < S vector_len)%nat ->
                 read (exclusive_scan vec (S vector_len) 0) i = live_before vec i).
    { intros i Hi. rewrite A by lia. lia. }
    replace (S vector_len - 1)%nat with vector_len by lia.
    assert (Ht : to_uint32 (0 + read (exclusive_scan vec (S vector_len) 0) vector_len)
                 = live_before vec vector_len).
    { rewrite Ha by lia. unfold to_uint32. rewrite Z.add_0_l.
      apply Z.mod_small. unfold live_before. specialize (Hb vector_len). lia. }
    split; [exact Ha|]. split; [|split; [exact B|split; [exact Ht|]]].
    + intros i j Hij. rewrite !Ha by lia. apply live_before_mono; [exact Hv|lia].
    + split; [reflexivity|]. rewrite Ht. apply Ha. lia.
  - assert (vector_len = vector_length_) by lia. subst vector_len.
    destruct (exclusive_scan_spec vector_length_ vec 0 Hv) as (A & B & C); [lia|lia|].
    assert (Ha : forall i, (i < vector_length_)%nat ->
                 read (exclusive_scan vec vector_length_ 0) i = live_before vec i).
    { intros i Hi. rewrite A by lia. lia. }
    assert (Hlast : live_before vec vector_length_ =
                    live_before vec (vector_length_ - 1)
                    + read vec (vector_length_ - 1)).
    { rewrite <- live_before_S. f_equal. lia. }
    assert (Ht : to_uint32 (read vec (vector_length_ - 1)
                            + read (exclusive_scan vec vector_length_ 0)
                                (vector_length_ - 1))
                 = live_before vec vector_length_).
    { rewrite Ha by lia. unfold to_uint32. rewrite Hlast.
      rewrite Z.mod_small; [lia|].
      rewrite Z.add_comm, <- Hlast. unfold live_before.
      specialize (Hb vector_length_). lia. }
    split; [exact Ha|]. split; [|split; [exact B|split; [exact Ht|]]].
    + intros i j Hij. rewrite !Ha by lia. apply live_before_mono; [exact Hv|lia].
    + split; [reflexivity|]. rewrite Ht, Ha by lia. lia.
Qed.

(** X4.  For a histogram that 32 bits can sum, the scan leaves in entry
    [i] of the scanned part the sum of the entries before [i], so the
    scanned part does not decrease; [total] is the sum of the live bytes
    of the chunks below the black allocations, and it is the last scanned
    entry plus the live bytes fetched before the scan.  The last scanned
    entry is [total] when the vector has an entry past the heap usage; when
    the heap usage fills the vector it is [total] less the live bytes of
    the last chunk. *)
Theorem prefix_sum_pass (vector_len vector_length_ : nat) (vec : list Z) :
  histogram_ok vec -> length vec = vector_length_ ->
  (vector_len <= vector_length_)%nat -> (0 < vector_length_)%nat ->
  let r := scan_chunk_info vector_len vector_length_ vec in
  let n := fst (fst r) in
  let scanned := snd (fst r) in
  let total := snd r in
  (forall i, (i < n)%nat -> read scanned i = live_before vec i) /\
  (forall i j, (i <= j < n)%nat -> read scanned i <= read scanned j) /\
  (forall i, (n <= i)%nat -> read scanned i = read vec i) /\
  total = live_before vec vector_len /\
  (if (vector_len <? vector_length_)%nat
   then n = S vector_len /\ read scanned (n - 1) = total
   else n = vector_len /\
        read scanned (n - 1) = total - read vec (vector_len - 1)).
Proof. apply scan_chunk_info_spec. Qed.

Lemma prefix_sum_pass_witness :
  let r := scan_chunk_info 2 4 [8; 16; 0; 0] in
  (forall i, (i < fst (fst r))%nat ->
     read (snd (fst r)) i = live_before [8; 16; 0; 0] i) /\
  (forall i j, (i <= j < fst (fst r))%nat ->
     read (snd (fst r)) i <= read (snd (fst r)) j) /\
  (forall i, (fst (fst r) <= i)%nat -> read (snd (fst r)) i = read [8; 16; 0; 0] i) /\
  snd r = live_before [8; 16; 0; 0] 2 /\
  fst (fst r) = 3%nat /\ read (snd (fst r)) (fst (fst r) - 1) = snd r.
Proof.
  apply (prefix_sum_pass 2 4 [8; 16; 0; 0]).
  - split; [repeat constructor; lia|reflexivity].
  - reflexivity.
  - lia.
  - lia.
Defined.

Lemma full_vector_last_entry :
  PlanExample.full_vector = (1%nat, [0], 8) /\
  live_before [8] 1 = 8 /\
  read (snd (fst PlanExample.full_vector)) 0 <> snd PlanExample.full_vector.
Proof. split; [reflexivity|]. split; [reflexivity|]. vm_compute. discriminate. Qed.

Lemma AlignUp_bounds (x n : Z) : 0 < n -> x <= AlignUp x n < x + n.
Proof.
  intros Hn. unfold AlignUp.
  pose proof (Z.div_mod (x + n - 1) n ltac:(lia)) as Hd.
  pose proof (Z.mod_pos_bound (x + n - 1) n Hn) as Hm. nia.
Qed.

Lemma AlignUp_exact (x n : Z) : 0 < n -> (AlignUp x n = x <-> (n | x)).
Proof.
  intros Hn. split.
  - intros <-. apply AlignUp_divide.
  - intros [k ->]. unfold AlignUp.
    replace (k * n + n - 1) with (n - 1 + k * n) by lia.
    rewrite Z.div_add by lia. rewrite (Z.div_small (n - 1) n) by lia. lia.
Qed.

(** X3.  When [PrepareForCompaction] passes its checks, the end of the
    compacted heap is the region base plus the live bytes below the black
    allocations, rounded up to a page: it is at or above base plus live
    bytes, less than a page above it, equal to it only when that sum is
    page aligned, and it does not exceed the start of the black
    allocations.  The checks pass whenever the rounded end is page
    [moving_first_objs_count_] and does not exceed the start of the black
    allocations. *)
Theorem post_compact_end_rounded {P : Platform} {HP : PlatformOk P}
    (st : Planner.State) :
  let vec := Planner.chunk_info_vec_ st in
  let base := Planner.space_begin st in
  let vector_len :=
    Z.to_nat ((Planner.black_allocations_begin_ st - base) / kOffsetChunkSize) in
  let live := live_before vec vector_len in
  histogram_ok vec -> length vec = Planner.vector_length_ st ->
  (vector_len <= Planner.vector_length_ st)%nat ->
  (0 < Planner.vector_length_ st)%nat ->
  (forall st', PrepareForCompaction st = Some st' ->
     Planner.post_compact_end_ st' = AlignUp (base + live) gPageSize /\
     Planner.post_compact_end_ st' <= Planner.black_allocations_begin_ st /\
     base + live <= Planner.post_compact_end_ st' < base + live + gPageSize /\
     (Planner.post_compact_end_ st' = base + live <-> (gPageSize | base + live)) /\
     Planner.black_objs_slide_diff_ st' =
       Planner.black_allocations_begin_ st - Planner.post_compact_end_ st') /\
  (AlignUp (base + live) gPageSize =
     base + Z.of_nat (Planner.moving_first_objs_count_ st) * gPageSize ->
   AlignUp (base + live) gPageSize <= Planner.black_allocations_begin_ st ->
   exists st', PrepareForCompaction st = Some st').
Proof.
  intros vec base vector_len live Hh Hlen Hle Hpos.
  pose proof gPageSize_pos as Hpg.
  destruct (scan_chunk_info_spec vector_len (Planner.vector_length_ st) vec Hh Hlen Hle Hpos)
    as (_ & _ & _ & Ht & _).
  fold live in Ht. unfold PrepareForCompaction. fold base vec vector_len.
  destruct (scan_chunk_info vector_len (Planner.vector_length_ st) vec)
    as [[n scanned] total]. cbn [fst snd] in Ht. subst total.
  split.
  - intros st' Hst.
    destruct (Z.eqb_spec (AlignUp (base + live) gPageSize)
                (base + Z.of_nat (Planner.moving_first_objs_count_ st) * gPageSize))
      as [He|]; [|discriminate].
    destruct (Z.geb_spec (Planner.black_allocations_begin_ st
                          - AlignUp (base + live) gPageSize) 0) as [Hd|];
      [|discriminate].
    injection Hst as <-. cbn.
    split; [reflexivity|]. split; [lia|].
    split; [apply AlignUp_bounds; exact Hpg|].
    split; [apply AlignUp_exact; exact Hpg|reflexivity].
  - intros He Hb. rewrite He, Z.eqb_refl.
    destruct (Z.geb_spec (Planner.black_allocations_begin_ st
                          - (base + Z.of_nat (Planner.moving_first_objs_count_ st)
                                    * gPageSize)) 0) as [Hd|Hd]; [eauto|lia].
Qed.

Lemma post_compact_end_rounded_witness :
  exists st',
    PrepareForCompaction (P := Example.platform) PlanExample.one_object = Some st' /\
    Planner.post_compact_end_ st' = AlignUp (0x10000000 + 8) 4096 /\
    Planner.post_compact_end_ st' <= 0x10000000 + 4096 /\
    0x10000000 + 8 <= Planner.post_compact_end_ st' < 0x10000000 + 8 + 4096.
Proof.
  destruct (post_compact_end_rounded (P := Example.platform) PlanExample.one_object)
    as [H1 H2].
  - split; [repeat constructor; lia|reflexivity].
  - reflexivity.
  - vm_compute. lia.
  - simpl. lia.
  - destruct H2 as [st' Hst]; [reflexivity|vm_compute; discriminate|].
    exists st'. split; [exact Hst|].
    destruct (H1 st' Hst) as (A & B & C & _). auto.
Defined.

Lemma post_compact_end_above_live_bytes :
  (exists st',
     PrepareForCompaction (P := Example.platform) PlanExample.one_object = Some st' /\
     Planner.post_compact_end_ st' = 0x10000000 + 4096) /\
  live_before (Planner.chunk_info_vec_ PlanExample.one_object) 8 = 8 /\
  0x10000000 + 4096 <> 0x10000000 + 8.
Proof.
  split; [eexists; split; reflexivity|]. split; [reflexivity|discriminate].
Qed.

(** ** Marking *)

Lemma count_bits_bounds (bm : bitmap) (len : nat) : forall lo,
  0 <= count_bits bm lo len <= Z.of_nat len.
Proof.
  induction len as [|len IH]; intros lo; simpl count_bits; [lia|].
  specialize (IH (lo + 1)). destruct (bm lo); lia.
Qed.

Lemma count_bits_ext (bm bm' : bitmap) (len : nat) : forall lo,
  (forall i, lo <= i < lo + Z.of_nat len -> bm i = bm' i) ->
  count_bits bm lo len = count_bits bm' lo len.
Proof.
  induction len as [|len IH]; intros lo H; simpl count_bits; [reflexivity|].
  rewrite (H lo) by lia. rewrite (IH (lo + 1)); [reflexivity|].
  intros i Hi. apply H. lia.
Qed.

Lemma count_bits_app (bm : bitmap) (a b : nat) : forall lo,
  count_bits bm lo (a + b) = count_bits bm lo a + count_bits bm (lo + Z.of_nat a) b.
Proof.
  induction a as [|a IH]; intros lo.
  - simpl. rewrite Z.add_0_r. reflexivity.
  - change (S a + b)%nat with (S (a + b)). simpl count_bits.
    rewrite IH. replace (lo + 1 + Z.of_nat a) with (lo + Z.of_nat (S a)) by lia. lia.
Qed.

Lemma count_bits_fresh (bm : bitmap) (len : nat) : forall lo,
  fresh bm lo (Z.of_nat len) -> count_bits bm lo len = 0.
Proof.
  induction len as [|len IH]; intros lo H; simpl count_bits; [reflexivity|].
  rewrite (H lo) by lia. rewrite IH; [reflexivity|].
  intros i Hi. apply H. lia.
Qed.

Lemma count_bits_set (bm : bitmap) (b n : Z) (len : nat) : forall lo,
  0 <= n -> fresh bm b n ->
  count_bits (fun i => bm i || ((b <=? i) && (i <? b + n))) lo len =
  count_bits bm lo len + overlap b n lo (Z.of_nat len).
Proof.
  unfold overlap.
  induction len as [|len IH]; intros lo Hn Hf; simpl count_bits; [lia|].
  rewrite (IH (lo + 1) Hn Hf).
  destruct (Z.leb_spec b lo) as [H1|H1], (Z.ltb_spec lo (b + n)) as [H2|H2];
    cbn [andb].
  - rewrite (Hf lo) by lia. cbn [orb]. lia.
  - rewrite orb_false_r. lia.
  - rewrite orb_false_r. lia.
  - rewrite orb_false_r. lia.
Qed.

Section MarkingFacts.
Context {P : Platform} {HP : PlatformOk P}.
Variable Begin : Z.

Lemma popcount_sum (bm : bitmap) (index k : nat) : forall (s : nat) (acc : Z),
  fold_left (fun words i => words + POPCOUNT bm (index + i)) (seq s k) acc =
  acc + count_bits bm (Z.of_nat (index + s) * kBitsPerBitmapWord)
          (k * Z.to_nat kBitsPerBitmapWord).
Proof.
  pose proof kBitsPerBitmapWord_pos as HW.
  induction k as [|k IH]; intros s acc; simpl seq; simpl fold_left.
  - simpl. lia.
  - rewrite IH. change (S k * Z.to_nat kBitsPerBitmapWord)%nat
      with (Z.to_nat kBitsPerBitmapWord + k * Z.to_nat kBitsPerBitmapWord)%nat.
    rewrite count_bits_app. unfold POPCOUNT.
    rewrite Z2Nat.id by lia.
    replace (Z.of_nat (index + S s) * kBitsPerBitmapWord)
      with (Z.of_nat (index + s) * kBitsPerBitmapWord + kBitsPerBitmapWord) by lia.
    lia.
Qed.

Lemma LiveBytesInBitmapWord_count (bm : bitmap) (c : nat) :
  LiveBytesInBitmapWord bm c =
  kAlignment * count_bits bm (Z.of_nat c * kBitsPerVectorWord)
                 (Z.to_nat kBitsPerVectorWord).
Proof.
  pose proof kBitsPerBitmapWord_pos as HW.
  unfold LiveBytesInBitmapWord. rewrite popcount_sum.
  rewrite kBitsPerVectorWord_eq.
  rewrite Z2Nat.inj_mul, Nat2Z.id by lia.
  replace (Z.of_nat (c * kBitmapWordsPerVectorWord + 0) * kBitsPerBitmapWord)
    with (Z.of_nat c * (Z.of_nat kBitmapWordsPerVectorWord * kBitsPerBitmapWord))
    by lia.
  lia.
Qed.

Lemma fill_chunks_spec (turns : nat) : forall (vec : nat -> Z) (c : nat) (r : Z),
  0 <= r -> r < (Z.of_nat turns + 1) * kBitsPerVectorWord ->
  exists (T : nat) (vec' : nat -> Z),
    fill_chunks turns vec c (r * kAlignment) =
      (vec', (c + T)%nat, (r - Z.of_nat T * kBitsPerVectorWord) * kAlignment) /\
    (forall j, vec' j = if (c <=? j)%nat && (j <? c + T)%nat
                        then to_uint32 kOffsetChunkSize else vec j) /\
    0 <= r - Z.of_nat T * kBitsPerVectorWord <= kBitsPerVectorWord /\
    ((0 < T)%nat -> 0 < r - Z.of_nat T * kBitsPerVectorWord).
Proof.
  pose proof kAlignment_pos as HA. pose proof kBitsPerVectorWord_pos as HV.
  pose proof kOffsetChunkSize_eq as HK.
  induction turns as [|t IH]; intros vec c r Hr Hb.
  - exists 0%nat, vec. simpl fill_chunks. split; [|split; [|split]].
    + f_equal; [f_equal; lia|f_equal; lia].
    + intros j. destruct (Nat.leb_spec c j), (Nat.ltb_spec j (c + 0)); cbn [andb];
        reflexivity || lia.
    + lia.
    + lia.
  - simpl fill_chunks.
    destruct (Z.gtb_spec (r * kAlignment) kOffsetChunkSize) as [Hgt|Hle].
    + assert (Hrv : kBitsPerVectorWord < r) by nia.
      destruct (IH (set_at vec c kOffsetChunkSize) (S c) (r - kBitsPerVectorWord))
        as (T & vec' & Hf & Hv & Hbound & Hpos); [lia|lia|].
      exists (S T), vec'. split; [|split; [|split]].
      * replace (r * kAlignment - kOffsetChunkSize)
          with ((r - kBitsPerVectorWord) * kAlignment) by lia.
        rewrite Hf. f_equal; [f_equal; lia|f_equal; lia].
      * intros j. rewrite Hv. unfold set_at.
        destruct (Nat.leb_spec (S c) j), (Nat.ltb_spec j (S c + T)),
                 (Nat.leb_spec c j), (Nat.ltb_spec j (c + S T)),
                 (Nat.eqb_spec j c); cbn [andb]; reflexivity || lia.
      * lia.
      * intros _. destruct T as [|T]; [lia|]. specialize (Hpos ltac:(lia)). lia.
    + assert (Hrv : r <= kBitsPerVectorWord) by nia.
      exists 0%nat, vec. split; [|split; [|split]].
      * f_equal; [f_equal; lia|f_equal; lia].
      * intros j. destruct (Nat.leb_spec c j), (Nat.ltb_spec j (c + 0)); cbn [andb];
          reflexivity || lia.
      * lia.
      * lia.
Qed.

Lemma object_bits (o : Z * Z) :
  object_ok Begin o ->
  0 <= first_bit Begin o /\ 1 <= bit_count o /\
  fst o - Begin = first_bit Begin o * kAlignment /\
  RoundUp (snd o) kAlignment = bit_count o * kAlignment.
Proof.
  pose proof kAlignment_pos as HA.
  intros (Hb & [k Hk] & Hs). unfold first_bit, bit_count, RoundUp.
  rewrite Hk, !Z.div_mul by lia.
  split; [nia|]. split; [|split; reflexivity].
  apply Z.div_le_lower_bound; lia.
Qed.

Lemma chunk_start_le (j c : nat) :
  (j <= c)%nat -> Z.of_nat j * kBitsPerVectorWord <= Z.of_nat c * kBitsPerVectorWord.
Proof. pose proof kBitsPerVectorWord_pos as HV. intros H. nia. Qed.

Lemma chunk_start_S (j : nat) :
  Z.of_nat (S j) * kBitsPerVectorWord =
  Z.of_nat j * kBitsPerVectorWord + kBitsPerVectorWord.
Proof. lia. Qed.

Lemma UpdateLivenessInfo_inv (st : Liveness) (o : Z * Z) :
  kOffsetChunkSize < 2 ^ 32 ->
  live_inv st -> object_ok Begin o ->
  fresh (live_words_bitmap_ st) (first_bit Begin o) (bit_count o) ->
  live_inv (UpdateLivenessInfo Begin st (fst o) (snd o)) /\
  (forall i,
     live_words_bitmap_ (UpdateLivenessInfo Begin st (fst o) (snd o)) i =
     live_words_bitmap_ st i
     || ((first_bit Begin o <=? i) && (i <? first_bit Begin o + bit_count o))).
Proof.
  pose proof kAlignment_pos as HA. pose proof kBitsPerVectorWord_pos as HV.
  pose proof kOffsetChunkSize_eq as HK.
  intros H32 Hinv Hok Hfresh.
  destruct (object_bits o Hok) as (Hb0 & Hn1 & Hoff & Hsize).
  unfold UpdateLivenessInfo, SetLiveWords.
  rewrite Hsize. rewrite Z.div_mul by lia.
  fold (first_bit Begin o).
  revert Hfresh Hb0 Hn1 Hoff Hsize.
  generalize (first_bit Begin o) as b. generalize (bit_count o) as n.
  intros n b Hfresh Hb0 Hn1 Hoff Hsize.
  (* the chunk of the first word *)
  assert (Hc0 : Z.of_nat (Z.to_nat ((fst o - Begin) / kOffsetChunkSize))
                = b / kBitsPerVectorWord).
  { rewrite Hoff, HK. rewrite Z.div_mul_cancel_r by lia.
    apply Z2Nat.id. apply Z.div_pos; lia. }
  revert Hc0. generalize (Z.to_nat ((fst o - Begin) / kOffsetChunkSize)) as c0.
  intros c0 Hc0.
  assert (HVne : kBitsPerVectorWord <> 0) by lia.
  pose proof (Z.div_mod b kBitsPerVectorWord HVne) as Hdm.
  pose proof (Z.mod_pos_bound b kBitsPerVectorWord HV) as Hmod.
  rewrite <- Hc0 in Hdm. clear Hc0.
  revert Hdm Hmod. generalize (b mod kBitsPerVectorWord) as bm0. intros bm0 Hdm Hmod.
  assert (HL0 : Z.of_nat c0 * kBitsPerVectorWord = b - bm0) by lia.
  (* the first portion *)
  assert (Hfirst : Z.min (n * kAlignment) ((kBitsPerVectorWord - bm0) * kAlignment)
                   = Z.min n (kBitsPerVectorWord - bm0) * kAlignment).
  { rewrite <- Z.mul_min_distr_nonneg_r by lia. reflexivity. }
  rewrite Hfirst. clear Hfirst.
  assert (Hf : exists f, f = Z.min n (kBitsPerVectorWord - bm0)) by eauto.
  destruct Hf as [f Hf]. rewrite <- Hf.
  replace (n * kAlignment - f * kAlignment) with ((n - f) * kAlignment) by lia.
  assert (Hturns : Z.of_nat (Z.to_nat ((n - f) * kAlignment / kOffsetChunkSize))
                   = (n - f) / kBitsPerVectorWord).
  { rewrite HK. rewrite Z.div_mul_cancel_r by lia.
    apply Z2Nat.id. apply Z.div_pos; lia. }
  pose proof (Z.div_mod (n - f) kBitsPerVectorWord HVne) as Hdr.
  pose proof (Z.mod_pos_bound (n - f) kBitsPerVectorWord HV) as Hmr.
  destruct (fill_chunks_spec (Z.to_nat ((n - f) * kAlignment / kOffsetChunkSize))
              (add_at (chunk_info_vec_ st) c0 (f * kAlignment)) (S c0) (n - f))
    as (T & vec2 & Heq & Hvec2 & Hbound & Hpos); [lia|rewrite Hturns; lia|].
  rewrite Heq. clear Heq Hturns Hdr Hmr.
  split; [|intros i; reflexivity].
  intros j. cbn [live_words_bitmap_ chunk_info_vec_].
  rewrite (count_bits_set _ b n (Z.to_nat kBitsPerVectorWord)) by (auto; lia).
  rewrite Z2Nat.id by lia.
  pose proof (count_bits_bounds
                (fun i => live_words_bitmap_ st i || ((b <=? i) && (i <? b + n)))
                (Z.to_nat kBitsPerVectorWord) (Z.of_nat j * kBitsPerVectorWord)) as Hcb.
  rewrite (count_bits_set _ b n (Z.to_nat kBitsPerVectorWord)) in Hcb by (auto; lia).
  rewrite Z2Nat.id in Hcb by lia.
  pose proof (count_bits_bounds (live_words_bitmap_ st) (Z.to_nat kBitsPerVectorWord)
                (Z.of_nat j * kBitsPerVectorWord)) as Hc.
  pose proof (Hinv j) as Hj. pose proof (Hinv c0) as Hv0.
  assert (Hsmall : forall x, 0 <= x <= kBitsPerVectorWord ->
                     to_uint32 (kAlignment * x) = kAlignment * x).
  { intros x Hx. unfold to_uint32. apply Z.mod_small. nia. }
  assert (HTV : 0 <= Z.of_nat T * kBitsPerVectorWord) by nia.
  assert (HTV0 : T = 0%nat -> Z.of_nat T * kBitsPerVectorWord = 0) by (intros ->; lia).
  assert (HST : Z.of_nat (S c0 + T) * kBitsPerVectorWord
                = Z.of_nat c0 * kBitsPerVectorWord + kBitsPerVectorWord
                  + Z.of_nat T * kBitsPerVectorWord) by lia.
  unfold add_at at 1. rewrite !Hvec2. unfold add_at.
  unfold overlap in *.
  destruct (Nat.eqb_spec j (S c0 + T)) as [Ej|Ej].
  - (* the last chunk of the object *)
    subst j.
    destruct (Nat.leb_spec (S c0) (S c0 + T)), (Nat.ltb_spec (S c0 + T) (S c0 + T));
      cbn [andb]; try lia.
    destruct (Nat.eqb_spec (S c0 + T) c0); [lia|].
    rewrite Hj.
    replace (kAlignment * count_bits (live_words_bitmap_ st)
                            (Z.of_nat (S c0 + T) * kBitsPerVectorWord)
                            (Z.to_nat kBitsPerVectorWord)
             + (n - f - Z.of_nat T * kBitsPerVectorWord) * kAlignment)
      with (kAlignment * (count_bits (live_words_bitmap_ st)
                            (Z.of_nat (S c0 + T) * kBitsPerVectorWord)
                            (Z.to_nat kBitsPerVectorWord)
                          + (n - f - Z.of_nat T * kBitsPerVectorWord))) by lia.
    assert (Hov : Z.max 0 (Z.min (b + n)
                             (Z.of_nat (S c0 + T) * kBitsPerVectorWord
                              + kBitsPerVectorWord)
                           - Z.max b (Z.of_nat (S c0 + T) * kBitsPerVectorWord))
                  = n - f - Z.of_nat T * kBitsPerVectorWord).
    { destruct T as [|T']; [rewrite HTV0 in * by reflexivity; lia|].
      specialize (Hpos ltac:(lia)). lia. }
    rewrite Hov in *. apply Hsmall. lia.
  - destruct (Nat.leb_spec (S c0) j) as [Hlo|Hlo],
             (Nat.ltb_spec j (S c0 + T)) as [Hhi|Hhi]; cbn [andb].
    + (* a chunk that the object fills *)
      assert (HT : (0 < T)%nat) by lia. specialize (Hpos HT).
      pose proof (chunk_start_le (S c0) j Hlo) as H1.
      pose proof (chunk_start_le (S j) (S c0 + T) ltac:(lia)) as H2.
      rewrite chunk_start_S in H1, H2.
      assert (Hz : count_bits (live_words_bitmap_ st)
                     (Z.of_nat j * kBitsPerVectorWord)
                     (Z.to_nat kBitsPerVectorWord) = 0).
      { apply count_bits_fresh. rewrite Z2Nat.id by lia.
        intros i Hi. apply Hfresh. lia. }
      rewrite Hz in *.
      replace (Z.max 0 (Z.min (b + n) (Z.of_nat j * kBitsPerVectorWord
                                       + kBitsPerVectorWord)
                        - Z.max b (Z.of_nat j * kBitsPerVectorWord)))
        with kBitsPerVectorWord by lia.
      rewrite HK. rewrite Z.mul_comm. rewrite Hsmall by lia. lia.
    + (* a chunk above the object *)
      destruct (Nat.eqb_spec j c0); [lia|].
      pose proof (chunk_start_le (S (S c0 + T)) j ltac:(lia)) as H1.
      rewrite chunk_start_S in H1. rewrite Hj. lia.
    + destruct (Nat.eqb_spec j c0) as [E0|E0].
      * (* the chunk of the first word *)
        subst j. rewrite Hv0.
        replace (kAlignment * count_bits (live_words_bitmap_ st)
                                (Z.of_nat c0 * kBitsPerVectorWord)
                                (Z.to_nat kBitsPerVectorWord) + f * kAlignment)
          with (kAlignment * (count_bits (live_words_bitmap_ st)
                                (Z.of_nat c0 * kBitsPerVectorWord)
                                (Z.to_nat kBitsPerVectorWord) + f)) by lia.
        assert (Hov : Z.max 0 (Z.min (b + n) (Z.of_nat c0 * kBitsPerVectorWord
                                              + kBitsPerVectorWord)
                               - Z.max b (Z.of_nat c0 * kBitsPerVectorWord)) = f)
          by lia.
        rewrite Hov in *. apply Hsmall. lia.
      * (* a chunk below the object *)
        pose proof (chunk_start_le (S j) c0 ltac:(lia)) as H1.
        rewrite chunk_start_S in H1. rewrite Hj. lia.
    + lia.
Qed.

Lemma live_inv_none : live_inv no_liveness.
Proof.
  intros c. simpl. rewrite count_bits_fresh; [lia|]. intros i _. reflexivity.
Qed.

Lemma mark_from (objs : list (Z * Z)) : forall st : Liveness,
  kOffsetChunkSize < 2 ^ 32 ->
  live_inv st -> objects_ok Begin objs ->
  Forall (fun o => fresh (live_words_bitmap_ st) (first_bit Begin o) (bit_count o))
         objs ->
  let st' := fold_left (fun st o => UpdateLivenessInfo Begin st (fst o) (snd o))
               objs st in
  live_inv st' /\
  (forall i, live_words_bitmap_ st i = true -> live_words_bitmap_ st' i = true) /\
  (forall o, In o objs ->
     forall i, first_bit Begin o <= i < first_bit Begin o + bit_count o ->
       live_words_bitmap_ st' i = true).
Proof.
  induction objs as [|o rest IH]; intros st H32 Hinv Hok Hfr; simpl.
  - split; [exact Hinv|]. split; [auto|]. intros o [].
  - destruct Hok as (Ho & Hap & Hrest).
    inversion Hfr as [|? ? Hfo Hfrest]; subst.
    destruct (UpdateLivenessInfo_inv st o H32 Hinv Ho Hfo) as [Hinv1 Hbm1].
    destruct (IH (UpdateLivenessInfo Begin st (fst o) (snd o)) H32 Hinv1 Hrest)
      as (A & B & C).
    { rewrite Forall_forall in Hap, Hfrest. rewrite Forall_forall.
      intros o' Ho'. intros i Hi. rewrite Hbm1.
      rewrite (Hfrest o' Ho' i Hi). cbn [orb].
      destruct (Hap o' Ho') as [Hd|Hd];
        destruct (Z.leb_spec (first_bit Begin o) i),
                 (Z.ltb_spec i (first_bit Begin o + bit_count o)); cbn [andb];
        reflexivity || lia. }
    split; [exact A|]. split.
    + intros i Hi. apply B. rewrite Hbm1, Hi. reflexivity.
    + intros o' [<-|Hin] i Hi; [|eapply C; eauto].
      apply B. rewrite Hbm1.
      destruct (Z.leb_spec (first_bit Begin o) i),
               (Z.ltb_spec i (first_bit Begin o + bit_count o)); cbn [andb];
        try lia; apply orb_true_r.
Qed.

End MarkingFacts.

(** X8.  After the marking of objects of the moving space, no two of which
    share a word, every word of every marked object is set in the
    live-words bitmap, and the entry of every chunk in the histogram is
    the live bytes that the bitmap records for the chunk, at most the size
    of a chunk. *)
Theorem marking_builds_histogram {P : Platform} {HP : PlatformOk P} (Begin : Z)
    (objs : list (Z * Z)) :
  kOffsetChunkSize < 2 ^ 32 -> objects_ok Begin objs ->
  (forall o, In o objs ->
     forall i, first_bit Begin o <= i < first_bit Begin o + bit_count o ->
       live_words_bitmap_ (mark_all Begin objs) i = true) /\
  (forall c,
     chunk_info_vec_ (mark_all Begin objs) c =
       LiveBytesInBitmapWord (live_words_bitmap_ (mark_all Begin objs)) c /\
     chunk_info_vec_ (mark_all Begin objs) c <= kOffsetChunkSize).
Proof.
  intros H32 Hok.
  destruct (mark_from Begin objs no_liveness H32 live_inv_none Hok) as (A & _ & C).
  { rewrite Forall_forall. intros o _ i _. reflexivity. }
  split; [exact C|]. intros c. rewrite LiveBytesInBitmapWord_count.
  split; [apply A|]. unfold mark_all. rewrite (A c).
  pose proof (count_bits_bounds
                (live_words_bitmap_
                   (fold_left (fun st o => UpdateLivenessInfo Begin st (fst o) (snd o))
                      objs no_liveness))
                (Z.to_nat kBitsPerVectorWord) (Z.of_nat c * kBitsPerVectorWord)) as Hb.
  pose proof kAlignment_pos as HA. pose proof kBitsPerVectorWord_pos as HV.
  rewrite kOffsetChunkSize_eq. rewrite Z2Nat.id in Hb by lia. nia.
Qed.

Lemma marking_builds_histogram_witness :
  (forall o, In o [(0x10000000, 24); (0x10000000 + 504, 20)] ->
     forall i, first_bit (P := Example.platform) 0x10000000 o <= i
               < first_bit (P := Example.platform) 0x10000000 o
                 + bit_count (P := Example.platform) o ->
       live_words_bitmap_
         (mark_all (P := Example.platform) 0x10000000
            [(0x10000000, 24); (0x10000000 + 504, 20)]) i = true) /\
  (forall c,
     chunk_info_vec_
       (mark_all (P := Example.platform) 0x10000000
          [(0x10000000, 24); (0x10000000 + 504, 20)]) c =
     LiveBytesInBitmapWord (P := Example.platform)
       (live_words_bitmap_
          (mark_all (P := Example.platform) 0x10000000
             [(0x10000000, 24); (0x10000000 + 504, 20)])) c /\
     chunk_info_vec_
       (mark_all (P := Example.platform) 0x10000000
          [(0x10000000, 24); (0x10000000 + 504, 20)]) c <= 512).
Proof.
  apply (marking_builds_histogram (P := Example.platform) 0x10000000
           [(0x10000000, 24); (0x10000000 + 504, 20)]).
  - reflexivity.
  - split; [|split].
    + split; [vm_compute; discriminate|].
      split; [exists 0; reflexivity|reflexivity].
    + constructor; [|constructor]. left. vm_compute. discriminate.
    + split; [|split; [constructor|exact I]].
      split; [vm_compute; discriminate|].
      split; [exists 63; reflexivity|reflexivity].
Defined.

(** ** The reclaim point *)

Section ReclaimFacts.
Context {P : Platform} {HP : PlatformOk P}.
Variable this : MarkCompact.
Variable fuel : nat.











End ReclaimFacts.



Lemma large_object_released_early :
  syscalls (trace_of LargeObject.free_at_2048) =
    [MadviseCall (LargeObject.black_begin + 2051 * 4096 + 0x10000000)
       (2149 * 4096) MADV_DONTNEED] /\
  LargeObject.black_begin + 2051 * 4096 =
    idx_addr_of (P := Example.platform) LargeObject.heap 2052 /\
  read (first_objs_moving_space_ LargeObject.heap) 2052 = LargeObject.large /\
  LargeObject.large < idx_addr_of (P := Example.platform) LargeObject.heap 2 /\
  idx_addr_of (P := Example.platform) LargeObject.heap 1 <= LargeObject.large /\
  status LargeObject.half_done MovingPagesStatus 1 = code kUnprocessed.
Proof.
  split; [vm_compute; reflexivity|].
  split; [vm_compute; reflexivity|].
  split; [vm_compute; reflexivity|].
  split; [vm_compute; reflexivity|].
  split; [vm_compute; discriminate|reflexivity].
Qed.

(** ** UpdateClassAfterObjMap *)

Lemma emplace_lowest_keys_above (key obj bound : Z) (m : list (Z * Z)) :
  bound < key -> Forall (fun k => bound < k) (map fst m) ->
  Forall (fun k => bound < k) (map fst (emplace_lowest key obj m)).
Proof.
  intros Hb. induction m as [|[k o] m IH]; simpl; intros Hm.
  - repeat constructor. exact Hb.
  - inversion Hm as [|? ? Hk Hrest]; subst.
    destruct (key <? k); [constructor; [exact Hb|exact Hm]|].
    destruct (key =? k); simpl; constructor; auto.
Qed.

Lemma emplace_lowest_sorted (key obj : Z) (m : list (Z * Z)) :
  StronglySorted Z.lt (map fst m) ->
  StronglySorted Z.lt (map fst (emplace_lowest key obj m)).
Proof.
  induction m as [|[k o] m IH]; simpl; intros Hs.
  - repeat constructor.
  - inversion Hs as [|? ? Hrest Hall]; subst.
    destruct (Z.ltb_spec key k) as [Hlt|Hge].
    + simpl. constructor; [exact Hs|]. constructor; [exact Hlt|].
      eapply Forall_impl; [exact Hall|]. simpl. intros x Hx. lia.
    + destruct (Z.eqb_spec key k) as [->|Hne]; simpl.
      * constructor; assumption.
      * constructor; [apply IH; exact Hrest|].
        apply emplace_lowest_keys_above; [lia|exact Hall].
Qed.

Lemma emplace_lowest_from (key obj : Z) (m : list (Z * Z)) (k o : Z) :
  In (k, o) (emplace_lowest key obj m) -> In (k, o) m \/ (k = key /\ o = obj).
Proof.
  induction m as [|[k1 o1] m IH]; simpl.
  - intros [[= <- <-]|[]]. auto.
  - destruct (key <? k1).
    + intros [[= <- <-]|H]; auto.
    + destruct (Z.eqb_spec key k1) as [->|Hne].
      * intros [[= <- <-]|H]; [|auto].
        destruct (obj <? o1); auto.
      * intros [[= <- <-]|H]; [auto|]. destruct (IH H); auto.
Qed.

Lemma emplace_lowest_has (key obj : Z) (m : list (Z * Z)) :
  exists o', In (key, o') (emplace_lowest key obj m) /\ o' <= obj.
Proof.
  induction m as [|[k1 o1] m IH]; simpl.
  - exists obj. split; [auto|lia].
  - destruct (key <? k1).
    + exists obj. split; [left; reflexivity|lia].
    + destruct (Z.eqb_spec key k1) as [->|Hne].
      * destruct (Z.ltb_spec obj o1).
        { exists obj. split; [left; reflexivity|lia]. }
        exists o1. split; [left; reflexivity|lia].
      * destruct IH as (o' & Hin & Hle). exists o'. split; [right; exact Hin|exact Hle].
Qed.

Lemma emplace_lowest_keeps (key obj : Z) (m : list (Z * Z)) (k o : Z) :
  In (k, o) m -> exists o', In (k, o') (emplace_lowest key obj m) /\ o' <= o.
Proof.
  induction m as [|[k1 o1] m IH]; simpl; [intros []|].
  intros Hin. destruct (key <? k1).
  - exists o. split; [right; exact Hin|lia].
  - destruct (Z.eqb_spec key k1) as [->|Hne].
    + destruct Hin as [[= <- <-]|Hin].
      * destruct (Z.ltb_spec obj o1).
        { exists obj. split; [left; reflexivity|lia]. }
        exists o1. split; [left; reflexivity|lia].
      * exists o. split; [right; exact Hin|lia].
    + destruct Hin as [[= <- <-]|Hin].
      * exists o1. split; [left; reflexivity|lia].
      * destruct (IH Hin) as (o' & H1 & H2). exists o'. split; [right; exact H1|exact H2].
Qed.

Section ClassMap.
Context {P : Platform}.
Variable this : MarkCompact.

Lemma class_fold_spec (pairs : list (Z * Z)) : forall acc : list (Z * Z),
  StronglySorted Z.lt (map fst acc) ->
  let out := fold_left (class_step this) pairs acc in
  StronglySorted Z.lt (map fst out) /\
  (forall k o, In (k, o) out ->
     In (k, o) acc \/
     exists klass, In (klass, o) pairs /\ class_key this klass = k /\
                   class_pair_kept this (klass, o)) /\
  (forall k o, In (k, o) acc -> exists o', In (k, o') out /\ o' <= o) /\
  (forall pair, In pair pairs -> class_pair_kept this pair ->
     exists o', In (class_key this (fst pair), o') out /\ o' <= snd pair).
Proof.
  induction pairs as [|pair pairs IH]; intros acc Hs; simpl.
  - split; [exact Hs|]. split; [auto|]. split; [|intros ? []].
    intros k o Hin. exists o. split; [exact Hin|lia].
  - assert (Hstep : StronglySorted Z.lt (map fst (class_step this acc pair))).
    { unfold class_step. destruct (_ && _); [|exact Hs].
      apply emplace_lowest_sorted. exact Hs. }
    destruct (IH (class_step this acc pair) Hstep) as (A & B & C & D).
    split; [exact A|]. split; [|split].
    + intros k o Hin. destruct (B k o Hin) as [Hacc|(klass & H1 & H2 & H3)].
      * unfold class_step in Hacc. fold (class_key this (fst pair)) in Hacc.
        destruct (Z.ltb_spec (snd pair) (class_key this (fst pair))) as [Hlt|];
          [|left; exact Hacc].
        destruct (HasAddress this (class_key this (fst pair))) eqn:Hh;
          [|left; exact Hacc].
        cbn [andb] in Hacc.
        destruct (emplace_lowest_from _ _ _ _ _ Hacc) as [|[-> ->]]; [auto|].
        right. exists (fst pair). split; [left; destruct pair; reflexivity|].
        split; [reflexivity|]. split; assumption.
      * right. exists klass. split; [right; exact H1|]. auto.
    + intros k o Hin.
      assert (Hk : exists o1, In (k, o1) (class_step this acc pair) /\ o1 <= o).
      { unfold class_step. destruct (_ && _).
        - apply emplace_lowest_keeps. exact Hin.
        - exists o. split; [exact Hin|lia]. }
      destruct Hk as (o1 & H1 & H2). destruct (C k o1 H1) as (o' & H3 & H4).
      exists o'. split; [exact H3|lia].
    + intros pr [<-|Hin] Hk; [|apply D; assumption].
      destruct Hk as [Hlt Hh].
      assert (Hk : exists o1, In (class_key this (fst pair), o1) (class_step this acc pair)
                              /\ o1 <= snd pair).
      { unfold class_step. fold (class_key this (fst pair)).
        destruct (Z.ltb_spec (snd pair) (class_key this (fst pair))); [|lia].
        rewrite Hh. cbn [andb]. apply emplace_lowest_has. }
      destruct Hk as (o1 & H1 & H2). destruct (C _ o1 H1) as (o' & H3 & H4).
      exists o'. split; [exact H3|lia].
Qed.

End ClassMap.

(** X10.  The ordered map that [UpdateClassAfterObjMap] builds is in strictly
    ascending order of the classes; each of its pairs comes from a pair of
    the hash map whose object lies below its class (or the recorded super
    class), a class of the moving space; and it holds, for every such
    pair, the class with an object at or below the object of the pair:
    the lowest object of the class. *)
Theorem UpdateClassAfterObjMap_lowest {P : Platform} (this : MarkCompact) :
  let ordered := UpdateClassAfterObjMap this in
  StronglySorted Z.lt (map fst ordered) /\
  (forall k o, In (k, o) ordered ->
     o < k /\ HasAddress this k = true /\
     exists klass, In (klass, o) (class_after_obj_hash_map_ this) /\
                   class_key this klass = k) /\
  (forall klass o, In (klass, o) (class_after_obj_hash_map_ this) ->
     o < class_key this klass -> HasAddress this (class_key this klass) = true ->
     exists o', In (class_key this klass, o') ordered /\ o' <= o).
Proof.
  destruct (class_fold_spec this (class_after_obj_hash_map_ this) [])
    as (A & B & _ & D); [constructor|].
  split; [exact A|]. split.
  - intros k o Hin. destruct (B k o Hin) as [[]|(klass & H1 & <- & H2 & H3)].
    simpl in H2, H3. split; [exact H2|]. split; [exact H3|]. exists klass. auto.
  - intros klass o Hin Hlt Hh. apply (D (klass, o) Hin). split; assumption.
Qed.

(** ** MapMovingSpacePages *)

Lemma returns_only_bind {A B : Type} (p : prog A) (f : A -> prog B)
    (Q : A -> Prop) (R : B -> Prop) :
  returns_only p Q -> (forall a, Q a -> returns_only (f a) R) ->
  returns_only (bind p f) R.
Proof.
  unfold returns_only. intros Hp Hf. apply wp_bind.
  eapply wp_mono; [|exact Hp]. intros a [] Ha. apply Hf. exact Ha.
Qed.

Lemma returns_only_loop {S R : Type} (I : S -> Prop) (Q : R -> Prop)
    (body : S -> prog (turn S R)) :
  (forall s, I s ->
     returns_only (body s)
       (fun x => match x with Continue s' => I s' | Break r => Q r end)) ->
  forall (fuel : nat) (s : S), I s -> returns_only (loop fuel body s) Q.
Proof.
  unfold returns_only. intros Hbody fuel s Hs.
  apply (wp_loop (only (fun _ => True)) stay (fun s _ => I s) (fun r _ => Q r));
    [|exact Hs].
  intros s0 [] H0. eapply wp_mono; [|apply Hbody; exact H0].
  intros [s'|r] [] H; exact H.
Qed.

Lemma returns_only_any {A : Type} (p : prog A) : returns_only p (fun _ => True).
Proof.
  unfold returns_only. induction p as [a| | |e k IH]; simpl; auto.
  split; [exact I|]. intros r. apply IH.
Qed.

Section MapMoving.
Context {P : Platform} {HP : PlatformOk P}.
Variable this : MarkCompact.
Variable fuel : nat.

Lemma claim_moving_returns (arr_idx arr_len : nat) :
  returns_only (claim_moving arr_idx arr_len)
    (fun len => exists n : nat, len = Z.of_nat n * gPageSize).
Proof.
  unfold claim_moving.
  apply (returns_only_loop
           (fun s : nat * Z => exists n : nat, snd s = Z.of_nat n * gPageSize)).
  - intros [i len] [n Hn]. simpl in Hn. cbv beta iota.
    destruct (i <? arr_len)%nat; [|exists n; exact Hn].
    unfold returns_only. simpl. split; [exact I|]. intros r.
    destruct (negb _); [exists n; exact Hn|].
    simpl. split; [exact I|]. intros r'.
    destruct (resp_ok r'); simpl; [|exists n; exact Hn].
    exists (S n). rewrite Hn. lia.
  - exists 0%nat. reflexivity.
Qed.

Lemma store_mapped_returns (f : nat) : forall (n i : nat),
  returns_only
    (loop f (fun '(i, length) =>
       if length >? 0 then
         store MovingPagesStatus i (code kProcessedAndMapped) ;;
         Ret (Continue (S i, length - gPageSize))
       else Ret (Break length)) (i, Z.of_nat n * gPageSize))
    (fun len => len = 0).
Proof.
  pose proof gPageSize_pos as Hpg.
  intros n i.
  apply (returns_only_loop
           (fun s : nat * Z => exists n : nat, snd s = Z.of_nat n * gPageSize)).
  - intros [j len] [m Hm]. simpl in Hm. cbv beta iota.
    destruct (Z.gtb_spec len 0) as [Hgt|Hle].
    + unfold returns_only. simpl. split; [exact I|]. intros r.
      destruct m as [|m]; [lia|]. exists m. lia.
    + unfold returns_only. simpl. nia.
  - exists n. reflexivity.
Qed.

End MapMoving.

Lemma MapMovingSpacePages_zero {P : Platform} {HP : PlatformOk P}
    (this : MarkCompact) (fuel arr_idx arr_len : nat) :
  returns_only (MapMovingSpacePages this fuel arr_idx arr_len) (fun len => len = 0).
Proof.
  unfold MapMovingSpacePages.
  eapply returns_only_bind; [apply returns_only_any|]. intros cur_state _.
  destruct (negb _); [reflexivity|].
  eapply returns_only_bind; [apply claim_moving_returns|].
  intros len [n ->]. pose proof gPageSize_pos as Hpg.
  destruct (Z.gtb_spec (Z.of_nat n * gPageSize) 0) as [Hgt|Hle].
  - eapply returns_only_bind; [apply returns_only_any|]. intros _ _.
    eapply returns_only_bind; [apply store_mapped_returns|].
    intros a ->. reflexivity.
  - unfold returns_only. simpl. nia.
Qed.

(** X11.  [MapMovingSpacePages] returns 0 whenever it returns: the count of the
    bytes it claimed is counted down to 0 by the loop that marks the
    pages mapped, before it is returned. *)
Theorem MapMovingSpacePages_returns_zero {P : Platform} {HP : PlatformOk P}
    (this : MarkCompact) (fuel arr_idx arr_len : nat) :
  returns_only (MapMovingSpacePages this fuel arr_idx arr_len) (fun len => len = 0).
Proof. apply MapMovingSpacePages_zero. Qed.

Lemma MapMovingSpacePages_returns_zero_witness :
  returns_only (MapMovingSpacePages (P := Example.platform) Example.heap 3 0 2)
    (fun len => len = 0).
Proof.
  apply (MapMovingSpacePages_returns_zero (P := Example.platform)).
Defined.

Section MapMovingRuns.
Context {P : Platform} {HP : PlatformOk P}.

Lemma claim_moving_loop_runs (arr_len n : nat) :
  forall (f a : nat) (len : Z) (sh : Shared) (ks : list resp),
  (n + (arr_len - (a + n)) < f)%nat ->
  (forall i, (a <= i < a + n)%nat ->
     is_state (status sh MovingPagesStatus i) kProcessed = true) ->
  (a + n <= arr_len)%nat ->
  ((a + n)%nat = arr_len \/
   is_state (status sh MovingPagesStatus (a + n)) kProcessed = false) ->
  exists sh' tr,
    runs (loop f (fun '(i, length) =>
            if (i <? arr_len)%nat then
              let desired_state := code kProcessedAndMapping in
              cur_state <- load MovingPagesStatus i ;;
              if negb (is_state cur_state kProcessed) then Ret (Break length)
              else
                c <- compare_exchange_strong MovingPagesStatus i cur_state
                       desired_state ;;
                if fst c then Ret (Continue (S i, length + gPageSize))
                else Ret (Break length)
            else Ret (Break length)) (a, len)) sh ks
         (len + Z.of_nat n * gPageSize) sh' tr ks /\
    updated sh sh' MovingPagesStatus a n (code kProcessedAndMapping) /\
    syscalls tr = [].
Proof.
  induction n as [|n IH]; intros f a len sh ks Hf Hst Hle Hend;
    (destruct f as [|f]; [lia|]).
  - replace (a + 0)%nat with a in * by lia.
    replace (len + Z.of_nat 0 * gPageSize) with len by lia.
    exists sh. destruct (Nat.ltb_spec a arr_len) as [Hlt|Hge].
    + destruct Hend as [->|Hne]; [lia|].
      eexists. split; [|split; [apply updated_refl|]].
      * apply runs_loop_Break. cbv beta iota zeta.
        destruct (Nat.ltb_spec a arr_len); [|lia].
        eapply runs_bind; [apply runs_load|]. rewrite Hne. apply runs_Ret.
      * reflexivity.
    + exists []. split; [|split; [apply updated_refl|reflexivity]].
      apply runs_loop_Break. cbv beta iota.
      destruct (Nat.ltb_spec a arr_len); [lia|]. apply runs_Ret.
  - destruct (IH f (S a) (len + gPageSize)
                (set_status sh MovingPagesStatus a (code kProcessedAndMapping)) ks)
      as (sh' & tr & Hr & Hu & Hsys).
    { lia. }
    { intros i Hi. rewrite status_set_status.
      case_bool_decide; [lia|]. apply Hst. lia. }
    { lia. }
    { destruct Hend as [He|He]; [left; lia|right].
      rewrite status_set_status. case_bool_decide; [lia|].
      replace (S a + n)%nat with (a + S n)%nat by lia. exact He. }
    exists sh'. eexists. split; [|split; [apply updated_front; exact Hu|]].
    + replace (len + Z.of_nat (S n) * gPageSize)
        with (len + gPageSize + Z.of_nat n * gPageSize) by lia.
      eapply runs_loop_Continue; [|exact Hr]. cbv beta iota zeta.
      destruct (Nat.ltb_spec a arr_len); [|lia].
      eapply runs_bind; [apply runs_load|].
      rewrite (Hst a) by lia. cbn [negb].
      eapply runs_bind; [apply runs_cas_ok; reflexivity|]. apply runs_Ret.
    + rewrite !syscalls_app, Hsys. reflexivity.
Qed.

Lemma store_mapped_loop_runs (k : nat) :
  forall (f a : nat) (sh : Shared) (ks : list resp),
  (k < f)%nat ->
  exists sh' tr,
    runs (loop f (fun '(i, length) =>
            if length >? 0 then
              store MovingPagesStatus i (code kProcessedAndMapped) ;;
              Ret (Continue (S i, length - gPageSize))
            else Ret (Break length)) (a, Z.of_nat k * gPageSize)) sh ks
         0 sh' tr ks /\
    updated sh sh' MovingPagesStatus a k (code kProcessedAndMapped) /\
    Forall (stores_over sh MovingPagesStatus a (a + k) (code kProcessedAndMapped)) tr /\
    syscalls tr = [].
Proof.
  pose proof gPageSize_pos as Hpg.
  induction k as [|k IH]; intros f a sh ks Hf; (destruct f as [|f]; [lia|]).
  - exists sh, [].
    split; [|split; [apply updated_refl|split; [constructor|reflexivity]]].
    apply runs_loop_Break. cbv beta iota. simpl. apply runs_Ret.
  - destruct (IH f (S a) (set_status sh MovingPagesStatus a (code kProcessedAndMapped)) ks)
      as (sh' & tr & Hr & Hu & Hst & Hsys); [lia|].
    exists sh'. eexists. split; [|split; [|split]].
    + eapply runs_loop_Continue; [|].
      * cbv beta iota.
        destruct (Z.gtb_spec (Z.of_nat (S k) * gPageSize) 0) as [_|]; [|nia].
        eapply runs_bind; [apply runs_store|]. apply runs_Ret.
      * replace (Z.of_nat (S k) * gPageSize - gPageSize) with (Z.of_nat k * gPageSize) by lia.
        exact Hr.
    + apply updated_front. exact Hu.
    + simpl. constructor.
      * exists a. split; [lia|]. split; reflexivity.
      * eapply Forall_impl; [exact Hst|]. intros x (i & Hi & He & Ho).
        exists i. split; [lia|]. split; [exact He|].
        rewrite Ho, status_set_status. case_bool_decide; [lia|reflexivity].
    + rewrite syscalls_app, Hsys. reflexivity.
Qed.

End MapMovingRuns.

Lemma MapMovingSpacePages_runs {P : Platform} {HP : PlatformOk P}
    (this : MarkCompact) (fuel a arr_len : nat) (sh : Shared) :
  (is_state (status sh MovingPagesStatus a) kProcessed = false ->
   forall ks,
     runs (MapMovingSpacePages this fuel a arr_len) sh ks 0 sh
          [entry_of sh (AtomicLoad MovingPagesStatus a)
             (RVal (status sh MovingPagesStatus a))] ks) /\
  (forall (n : nat) (ms : list Z) (e : Errno) (v : Z) (rest : list resp),
     (0 < n)%nat ->
     (forall i, (a <= i < a + n)%nat ->
        is_state (status sh MovingPagesStatus i) kProcessed = true) ->
     (a + n <= arr_len)%nat ->
     ((a + n)%nat = arr_len \/
      is_state (status sh MovingPagesStatus (a + n)) kProcessed = false) ->
     (length ms < fuel)%nat ->
     Forall (fun m => 0 < m) ms ->
     sum_Z ms < Z.of_nat n * gPageSize < 2 ^ 64 ->
     exists sh' tr,
       runs (MapMovingSpacePages this fuel a arr_len) sh
            (map short ms ++ RSys 0 e v :: rest) 0 sh' tr rest /\
       updated sh sh' MovingPagesStatus a n (code kProcessedAndMapped) /\
       syscalls tr =
         copy_calls (moving_space_begin_ this + Z.of_nat a * gPageSize)
           (from_space_begin_ this
            + Z.land (status sh MovingPagesStatus a) (Z.lnot kPageStateMask))
           (Z.of_nat n * gPageSize) ms).
Proof.
  pose proof gPageSize_pos as Hpg. split.
  - intros Hne ks. unfold MapMovingSpacePages.
    rewrite <- (app_nil_r [_]).
    eapply runs_bind; [apply runs_load|]. rewrite Hne. apply runs_Ret.
  - intros n ms e v rest Hn Hst Hle Hend Hf Hms Hlen.
    destruct (claim_moving_loop_runs arr_len n (S (arr_len - a)) a 0 sh
                (map short ms ++ RSys 0 e v :: rest))
      as (sh1 & tr1 & Hr1 & Hu1 & Hs1); [lia|exact Hst|exact Hle|exact Hend|].
    destruct (CopyIoctl_runs ms fuel
                (moving_space_begin_ this + Z.of_nat a * gPageSize)
                (from_space_begin_ this
                 + Z.land (status sh MovingPagesStatus a) (Z.lnot kPageStateMask))
                (Z.of_nat n * gPageSize) sh1 e v rest Hf Hms Hlen)
      as (tr2 & Hr2 & Hc2).
    destruct (store_mapped_loop_runs n
                (S (Z.to_nat (Z.of_nat n * gPageSize / gPageSize))) a sh1 rest)
      as (sh2 & tr3 & Hr3 & Hu3 & _ & Hs3).
    { rewrite Z.div_mul by lia. lia. }
    exists sh2, ([entry_of sh (AtomicLoad MovingPagesStatus a)
                    (RVal (status sh MovingPagesStatus a))]
                 ++ tr1 ++ tr2 ++ tr3 ++ []).
    split; [|split].
    + unfold MapMovingSpacePages.
      eapply runs_bind; [apply runs_load|].
      rewrite (Hst a) by lia. cbn [negb].
      rewrite Z.add_0_l in Hr1.
      eapply runs_bind; [exact Hr1|]. cbv beta.
      destruct (Z.gtb_spec (Z.of_nat n * gPageSize) 0) as [_|]; [|nia].
      eapply runs_bind; [exact Hr2|].
      eapply runs_bind; [exact Hr3|]. apply runs_Ret.
    + eapply updated_over; [exact Hu1|exact Hu3].
    + rewrite !syscalls_app, Hs1, Hs3, app_nil_r. simpl.
      unfold syscalls. rewrite Hc2.
      clear. generalize (moving_space_begin_ this + Z.of_nat a * gPageSize) as d.
      generalize (from_space_begin_ this
                  + Z.land (status sh MovingPagesStatus a) (Z.lnot kPageStateMask)) as s.
      generalize (Z.of_nat n * gPageSize) as l.
      induction ms as [|m ms IH]; intros l s d; simpl; [reflexivity|].
      f_equal. apply IH.
Qed.

(** X12.  [MapMovingSpacePages] on a page that is not [kProcessed] only loads its
    word and returns.  On a run of [n] pages that are [kProcessed], up to
    [arr_len] or a page in another state, it claims the [n] pages, copies
    them by [CopyIoctl] from the from-space offset kept in the upper bits
    of the word of the first page, and leaves the [n] pages
    [kProcessedAndMapped]; no other word changes. *)
Theorem MapMovingSpacePages_maps {P : Platform} {HP : PlatformOk P}
    (this : MarkCompact) (fuel a arr_len : nat) (sh : Shared) :
  (is_state (status sh MovingPagesStatus a) kProcessed = false ->
   forall ks,
     runs (MapMovingSpacePages this fuel a arr_len) sh ks 0 sh
          [entry_of sh (AtomicLoad MovingPagesStatus a)
             (RVal (status sh MovingPagesStatus a))] ks) /\
  (forall (n : nat) (ms : list Z) (e : Errno) (v : Z) (rest : list resp),
     (0 < n)%nat ->
     (forall i, (a <= i < a + n)%nat ->
        is_state (status sh MovingPagesStatus i) kProcessed = true) ->
     (a + n <= arr_len)%nat ->
     ((a + n)%nat = arr_len \/
      is_state (status sh MovingPagesStatus (a + n)) kProcessed = false) ->
     (length ms < fuel)%nat ->
     Forall (fun m => 0 < m) ms ->
     sum_Z ms < Z.of_nat n * gPageSize < 2 ^ 64 ->
     exists sh' tr,
       runs (MapMovingSpacePages this fuel a arr_len) sh
            (map short ms ++ RSys 0 e v :: rest) 0 sh' tr rest /\
       updated sh sh' MovingPagesStatus a n (code kProcessedAndMapped) /\
       syscalls tr =
         copy_calls (moving_space_begin_ this + Z.of_nat a * gPageSize)
           (from_space_begin_ this
            + Z.land (status sh MovingPagesStatus a) (Z.lnot kPageStateMask))
           (Z.of_nat n * gPageSize) ms).
Proof. apply MapMovingSpacePages_runs. Qed.

Lemma MapMovingSpacePages_maps_witness :
  exists sh' tr,
    runs (MapMovingSpacePages (P := Example.platform) Example.heap 3 0 3)
         Example.processed (map short [4096] ++ RSys 0 (EOTHER 0) 0 :: []) 0 sh' tr [] /\
    updated Example.processed sh' MovingPagesStatus 0 2 (code kProcessedAndMapped) /\
    syscalls tr =
      copy_calls
        (moving_space_begin_ Example.heap + Z.of_nat 0 * gPageSize (Platform := Example.platform))
        (from_space_begin_ Example.heap
         + Z.land (status Example.processed MovingPagesStatus 0) (Z.lnot kPageStateMask))
        (Z.of_nat 2 * gPageSize (Platform := Example.platform)) [4096].
Proof.
  refine (proj2 (MapMovingSpacePages_maps (P := Example.platform) Example.heap 3 0 3
                   Example.processed) 2%nat [4096] (EOTHER 0) 0 [] _ _ _ _ _ _ _).
  - lia.
  - intros i Hi. assert (Hc : i = 0%nat \/ i = 1%nat) by lia.
    destruct Hc as [-> | ->]; reflexivity.
  - lia.
  - right. reflexivity.
  - simpl. lia.
  - repeat constructor.
  - vm_compute. split; reflexivity.
Defined.

(** ** The source page packed into the status word *)

Lemma low_byte_free (d : Z) (n : Z) :
  (256 | d) -> 0 <= n < 8 -> Z.testbit d n = false.
Proof.
  intros [q ->] Hn. change 256 with (2 ^ 8).
  apply Z.mul_pow2_bits_low. lia.
Qed.

Lemma state_byte_bits (s : PageState) (n : Z) : 8 <= n -> Z.testbit (code s) n = false.
Proof.
  intros Hn. apply Z.bits_above_log2; [destruct s; cbv; discriminate|].
  destruct s; cbv [code PageState_code]; simpl; lia.
Qed.

Lemma status_word_decode (d : Z) (s : PageState) :
  (256 | d) ->
  is_state (Z.lor d (code s)) s = true /\
  Z.land (Z.lor d (code s)) (Z.lnot kPageStateMask) = d.
Proof.
  intros Hd. split.
  - apply state_of_is_state, state_of_lor.
    apply Z.bits_inj'. intros n Hn. rewrite Z.land_spec, Z.bits_0.
    change kPageStateMask with (Z.ones 8).
    destruct (Z.ltb_spec n 8).
    + rewrite low_byte_free by (auto; lia). reflexivity.
    + rewrite Z.ones_spec_high by lia. apply andb_false_r.
  - apply Z.bits_inj'. intros n Hn.
    rewrite Z.land_spec, Z.lor_spec, Z.lnot_spec by lia.
    change kPageStateMask with (Z.ones 8).
    destruct (Z.ltb_spec n 8).
    + rewrite Z.ones_spec_low by lia. rewrite low_byte_free by (auto; lia).
      simpl. apply andb_false_r.
    + rewrite Z.ones_spec_high by lia. rewrite state_byte_bits by lia.
      simpl. rewrite orb_false_r, andb_true_r. reflexivity.
Qed.

(** X13.  A page that the collector compacts in copy mode without mapping it at
    once is mapped, when [MapMovingSpacePages] comes to it, from the very
    buffer it was compacted into: the offset of the buffer in the
    from-space, packed into the status word with [kProcessed], is read
    back out of the word. *)
Theorem compacted_page_mapped_from_buffer {P : Platform} {HP : PlatformOk P}
    (this : MarkCompact) (fuel idx : nat) (to_space_page page : Z)
    (func : prog unit) (sh sh2 : Shared) (ks rest : list resp)
    (trf : list entry) (ms : list Z) (e : Errno) (v : Z) :
  status sh MovingPagesStatus idx = code kUnprocessed ->
  runs func (set_status sh MovingPagesStatus idx (code kProcessing)) ks tt sh2 trf
       (map short ms ++ RSys 0 e v :: rest) ->
  0 <= page - from_space_begin_ this < 2 ^ 32 ->
  (256 | page - from_space_begin_ this) ->
  (length ms < fuel)%nat ->
  Forall (fun m => 0 < m) ms ->
  sum_Z ms < gPageSize < 2 ^ 64 ->
  exists sh' tr,
    runs (DoPageCompactionWithStateChange this fuel kCopyMode idx to_space_page page
            false func ;;
          MapMovingSpacePages this fuel idx (S idx)) sh ks 0 sh' tr rest /\
    syscalls tr =
      syscalls trf
      ++ copy_calls (moving_space_begin_ this + Z.of_nat idx * gPageSize) page
           gPageSize ms /\
    updated sh2 sh' MovingPagesStatus idx 1 (code kProcessedAndMapped).
Proof.
  intros Hun Hfunc Hrange Hal Hf Hms Hlen.
  set (w := Z.lor (to_uint32 (page - from_space_begin_ this)) (code kProcessed)).
  assert (Hw : to_uint32 (page - from_space_begin_ this) = page - from_space_begin_ this).
  { unfold to_uint32. apply Z.mod_small. exact Hrange. }
  destruct (status_word_decode (page - from_space_begin_ this) kProcessed Hal)
    as [Hst Hoff].
  set (sh3 := set_status sh2 MovingPagesStatus idx w).
  assert (Hw3 : status sh3 MovingPagesStatus idx = w).
  { unfold sh3. rewrite status_set_status. case_bool_decide as Hd; [reflexivity|].
    exfalso. apply Hd. auto. }
  destruct (proj2 (MapMovingSpacePages_runs this fuel idx (S idx) sh3)
              1%nat ms e v rest) as (sh' & tr & Hr & Hu & Hsys).
  { lia. }
  { intros i Hi. replace i with idx by lia. rewrite Hw3. unfold w.
    rewrite Hw. exact Hst. }
  { lia. }
  { left. lia. }
  { exact Hf. }
  { exact Hms. }
  { lia. }
  exists sh'. eexists. split; [|split].
  - eapply runs_bind; [|exact Hr].
    unfold DoPageCompactionWithStateChange. cbn [Mode_eqb].
    eapply runs_bind.
    { eapply runs_bind; [apply runs_cas_ok; exact Hun|]. apply runs_Ret. }
    cbn [fst].
    eapply runs_bind; [exact Hfunc|].
    eapply runs_bind; [apply runs_store|]. apply runs_Ret.
  - rewrite !syscalls_app, Hsys, Hw3. unfold w. rewrite Hw, Hoff.
    replace (from_space_begin_ this + (page - from_space_begin_ this)) with page by lia.
    replace (Z.of_nat 1 * gPageSize) with gPageSize by lia.
    simpl. rewrite app_nil_r. reflexivity.
  - destruct Hu as [Hu Hc]. split; [|exact Hc].
    intros arr' i. rewrite Hu. unfold sh3. rewrite status_set_status.
    repeat case_bool_decide; try reflexivity; exfalso; intuition lia.
Qed.

Lemma compacted_page_mapped_from_buffer_witness :
  exists sh' tr,
    runs (DoPageCompactionWithStateChange (P := Example.platform) Example.heap 3
            kCopyMode 1 (268435456 + 4096) (536870912 + 8192) false (Ret tt) ;;
          MapMovingSpacePages (P := Example.platform) Example.heap 3 1 2)
         (shared (initial [])) [short 1024; RSys 0 (EOTHER 0) 0] 0 sh' tr [] /\
    syscalls tr =
      syscalls []
      ++ copy_calls
           (moving_space_begin_ Example.heap
            + Z.of_nat 1 * gPageSize (Platform := Example.platform))
           (536870912 + 8192) (gPageSize (Platform := Example.platform)) [1024] /\
    updated (set_status (shared (initial [])) MovingPagesStatus 1 (code kProcessing))
      sh' MovingPagesStatus 1 1 (code kProcessedAndMapped).
Proof.
  refine (compacted_page_mapped_from_buffer (P := Example.platform) Example.heap 3 1
            (268435456 + 4096) (536870912 + 8192) (Ret tt) (shared (initial []))
            _ [short 1024; RSys 0 (EOTHER 0) 0] [] [] [1024] (EOTHER 0) 0
            _ _ _ _ _ _ _).
  - reflexivity.
  - reflexivity.
  - vm_compute. split; [discriminate|reflexivity].
  - exists 32. reflexivity.
  - simpl. lia.
  - repeat constructor.
  - vm_compute. split; reflexivity.
Defined.

(** ** The failure of an ioctl *)

Lemma run_loop_Continue {S R : Type} (body : S -> prog (turn S R)) (n : nat)
    (s s' : S) (sh sh1 : Shared) (ks ks1 : list resp) (tr1 : list entry) :
  runs (body s) sh ks (Continue s') sh1 tr1 ks1 ->
  run (loop (Datatypes.S n) body s) sh ks =
  let '(o, sh2, tr2, ks2) := run (loop n body s') sh1 ks1 in (o, sh2, tr1 ++ tr2, ks2).
Proof. intros H. simpl. rewrite run_bind, H. reflexivity. Qed.

Lemma Errno_eqb_neq (e e' : Errno) : e <> e' -> Errno_eqb e e' = false.
Proof.
  intros H. destruct e, e'; simpl; try reflexivity; try congruence.
  apply Z.eqb_neq. congruence.
Qed.

Lemma CopyIoctl_fails (ms : list Z) : forall (fuel : nat) (dst src len : Z)
    (sh : Shared) (ret : Z) (e : Errno) (v : Z) (rest : list resp),
  (length ms < fuel)%nat ->
  Forall (fun m => 0 < m) ms ->
  sum_Z ms < len < 2 ^ 64 ->
  ret <> 0 -> e <> EAGAIN ->
  exists tr,
    run (CopyIoctl fuel dst src len) sh (map short ms ++ RSys ret e v :: rest)
      = (Crashed, sh, tr, rest) /\
    map ev tr = copy_calls dst src len ms.
Proof.
  unfold CopyIoctl.
  induction ms as [|m ms IH]; intros fuel dst src len sh ret e v rest Hf Hm Hl Hret He;
    (destruct fuel as [|fuel]; [simpl in Hf; lia|]); simpl in Hl.
  - eexists. split.
    + simpl. destruct (Z.gtb_spec len 0) as [_|]; [|lia]. simpl.
      destruct (Z.eqb_spec ret 0) as [|_]; [contradiction|].
      rewrite (Errno_eqb_neq e EAGAIN He). reflexivity.
    + reflexivity.
  - inversion Hm as [|? ? Hm1 Hm2]; subst.
    pose proof (sum_Z_nonneg ms Hm2) as Hs. fold (sum_Z ms) in Hl.
    destruct (IH fuel (dst + m) (src + m) (len - m) sh ret e v rest)
      as (tr & Hr & Ht); [simpl in Hf; lia|exact Hm2|lia|exact Hret|exact He|].
    eexists. split.
    + erewrite run_loop_Continue.
      * rewrite Hr. reflexivity.
      * cbv beta iota. destruct (Z.gtb_spec len 0) as [_|]; [|lia].
        unfold runs. simpl. unfold to_size_t.
        rewrite Z.mod_small by lia. reflexivity.
    + simpl. rewrite Ht. reflexivity.
Qed.

Lemma ZeropageIoctl_fails (ms : list Z) : forall (fuel : nat) (start len : Z)
    (te tn : bool) (sh : Shared) (ret : Z) (e : Errno) (v : Z) (rest : list resp),
  (length ms < fuel)%nat ->
  Forall (fun m => 0 < m) ms ->
  sum_Z ms < len < 2 ^ 64 ->
  ret <> 0 -> e <> EAGAIN ->
  exists tr,
    run (ZeropageIoctl fuel start len te tn) sh (map short ms ++ RSys ret e v :: rest)
      = (if tolerated te tn e then Done tt else Crashed, sh, tr, rest) /\
    map ev tr = zeropage_calls start len ms.
Proof.
  unfold ZeropageIoctl.
  induction ms as [|m ms IH];
    intros fuel start len te tn sh ret e v rest Hf Hm Hl Hret He;
    (destruct fuel as [|fuel]; [simpl in Hf; lia|]); simpl in Hl.
  - eexists. split.
    + simpl. destruct (Z.gtb_spec len 0) as [_|]; [|lia]. simpl.
      destruct (Z.eqb_spec ret 0) as [|_]; [contradiction|].
      rewrite (Errno_eqb_neq e EAGAIN He). unfold tolerated.
      destruct (_ || _); reflexivity.
    + reflexivity.
  - inversion Hm as [|? ? Hm1 Hm2]; subst.
    pose proof (sum_Z_nonneg ms Hm2) as Hs. fold (sum_Z ms) in Hl.
    destruct (IH fuel (start + m) (len - m) te tn sh ret e v rest)
      as (tr & Hr & Ht); [simpl in Hf; lia|exact Hm2|lia|exact Hret|exact He|].
    eexists. split.
    + erewrite run_loop_Continue.
      * rewrite Hr. reflexivity.
      * cbv beta iota. destruct (Z.gtb_spec len 0) as [_|]; [|lia].
        unfold runs. simpl. unfold to_size_t.
        rewrite Z.mod_small by lia. reflexivity.
    + simpl. rewrite Ht. reflexivity.
Qed.

(** X14.  [CopyIoctl] and [ZeropageIoctl] make no call for a length of 0.  When a
    call fails with an [errno] other than [EAGAIN], after any number of
    calls cut short by [EAGAIN], [CopyIoctl] ends the process, and
    [ZeropageIoctl] ends it unless the [errno] is [ENOENT] or [EEXIST] and
    the caller tolerates it, in which case it returns; neither makes
    another call, and neither writes a page state. *)
Theorem ioctl_failure :
  (forall (fuel : nat) (dst src start : Z) (te tn : bool) (sh : Shared)
          (ks : list resp),
     run (CopyIoctl (S fuel) dst src 0) sh ks = (Done tt, sh, [], ks) /\
     run (ZeropageIoctl (S fuel) start 0 te tn) sh ks = (Done tt, sh, [], ks)) /\
  (forall (ms : list Z) (fuel : nat) (dst src len : Z) (sh : Shared) (ret : Z)
          (e : Errno) (v : Z) (rest : list resp),
     (length ms < fuel)%nat -> Forall (fun m => 0 < m) ms ->
     sum_Z ms < len < 2 ^ 64 ->
     ret <> 0 -> e <> EAGAIN ->
     exists tr,
       run (CopyIoctl fuel dst src len) sh (map short ms ++ RSys ret e v :: rest)
         = (Crashed, sh, tr, rest) /\
       map ev tr = copy_calls dst src len ms) /\
  (forall (ms : list Z) (fuel : nat) (start len : Z) (te tn : bool) (sh : Shared)
          (ret : Z) (e : Errno) (v : Z) (rest : list resp),
     (length ms < fuel)%nat -> Forall (fun m => 0 < m) ms ->
     sum_Z ms < len < 2 ^ 64 ->
     ret <> 0 -> e <> EAGAIN ->
     exists tr,
       run (ZeropageIoctl fuel start len te tn) sh
           (map short ms ++ RSys ret e v :: rest)
         = (if tolerated te tn e then Done tt else Crashed, sh, tr, rest) /\
       map ev tr = zeropage_calls start len ms).
Proof.
  split; [|split].
  - intros. split; reflexivity.
  - intros. apply CopyIoctl_fails; assumption.
  - intros. apply ZeropageIoctl_fails; assumption.
Qed.

Lemma ioctl_failure_witness :
  exists tr,
    run (ZeropageIoctl 3 0x10000000 8192 false true)
        (shared (initial [])) (map short [4096] ++ RSys (-1) ENOENT 0 :: [])
      = (if tolerated false true ENOENT then Done tt else Crashed,
         shared (initial []), tr, []) /\
    map ev tr = zeropage_calls 0x10000000 8192 [4096].
Proof.
  refine (proj2 (proj2 ioctl_failure) [4096] 3%nat
            0x10000000 8192 false true (shared (initial [])) (-1) ENOENT 0 []
            _ _ _ _ _).
  - simpl. lia.
  - repeat constructor.
  - vm_compute. split; reflexivity.
  - lia.
  - discriminate.
Defined.

(** ** The in-progress counts *)

Ltac keeps_tac :=
  repeat match goal with
  | |- keeps _ (Ret _) => exact I
  | |- keeps _ Crash => exact I
  | |- keeps _ Spin => exact I
  | |- keeps _ (CHECK _) => apply keeps_CHECK
  | |- keeps _ (trigger _) => apply keeps_trigger; exact I
  | |- keeps _ (bind _ _) => apply keeps_bind; [|intros]
  | |- keeps _ (loop _ _ _) => apply keeps_loop; intros
  | |- keeps _ (load _ _) => unfold load
  | |- keeps _ (store _ _ _) => unfold store
  | |- keeps _ (compare_exchange_strong _ _ _ _) => unfold compare_exchange_strong
  | |- keeps _ (BackOff _) => unfold BackOff
  | |- keeps _ (if ?b then _ else _) => destruct b
  | |- keeps _ (match ?x with _ => _ end) => destruct x
  end.

Lemma no_count_held (m : held) (e : event) :
  no_count e -> held_allowed m e /\ forall r, held_next m e r = m.
Proof. destruct e; simpl; intros H; try contradiction; auto. Qed.

Lemma keeps_held {A : Type} (p : prog A) (Q : A -> held -> Prop) (m : held) :
  keeps no_count p -> (forall a, Q a m) -> wp held_allowed held_next p Q m.
Proof. apply keeps_wp. apply no_count_held. Qed.

Section Counts.
Context {P : Platform}.
Variable this : MarkCompact.
Variable fuel : nat.

Lemma CopyIoctl_no_count (dst buffer length : Z) :
  keeps no_count (CopyIoctl fuel dst buffer length).
Proof. unfold CopyIoctl. keeps_tac. Qed.

Lemma ZeropageIoctl_no_count (addr length : Z) (te tn : bool) :
  keeps no_count (ZeropageIoctl fuel addr length te tn).
Proof. unfold ZeropageIoctl. keeps_tac. Qed.

Lemma MapMovingSpacePages_no_count (arr_idx arr_len : nat) :
  keeps no_count (MapMovingSpacePages this fuel arr_idx arr_len).
Proof.
  unfold MapMovingSpacePages, claim_moving, store_mapped.
  keeps_tac; apply CopyIoctl_no_count.
Qed.

Lemma claim_zero_pages_no_count (page_idx end_idx : nat) :
  keeps no_count (claim_zero_pages page_idx end_idx).
Proof. unfold claim_zero_pages. keeps_tac. Qed.

Lemma store_zero_pages_no_count (page_idx : nat) (length : Z) :
  keeps no_count (store_zero_pages page_idx length).
Proof. unfold store_zero_pages. keeps_tac. Qed.

Lemma ConcurrentlyProcessMovingPage_held (kMode : Mode) (self : Thread)
    (fault_page buf : Z) (nr : nat) (m : held) (Q : Thread -> held -> Prop) :
  0 <= snd m -> (forall t, Q t m) ->
  wp held_allowed held_next
     (ConcurrentlyProcessMovingPage this fuel kMode self fault_page buf nr) Q m.
Proof.
  intros Hm HQ. unfold ConcurrentlyProcessMovingPage.
  destruct (_ && _).
  { apply wp_bind. apply keeps_held; [apply ZeropageIoctl_no_count|].
    intros _. apply HQ. }
  destruct (_ =? 0).
  { apply wp_bind. apply keeps_held; [apply claim_zero_pages_no_count|].
    intros len. apply wp_bind. apply keeps_held.
    - destruct (_ >? 0); [|exact I].
      apply keeps_bind; [apply ZeropageIoctl_no_count|]. intros _.
      apply store_zero_pages_no_count.
    - intros _. apply HQ. }
  apply wp_bind. apply keeps_held; [unfold load; keeps_tac|]. intros raw0.
  apply (wp_loop held_allowed held_next (fun _ m' => m' = m) Q); [|exact eq_refl].
  intros [[[raw backoff] b] t] m' ->. 
  destruct (_ || _).
  { destruct (negb _); [apply HQ|].
    apply wp_bind. apply keeps_held; [unfold BackOff; keeps_tac|]. intros _.
    apply wp_bind. apply keeps_held; [unfold load; keeps_tac|]. intros raw'.
    exact eq_refl. }
  destruct (is_state raw kProcessedAndMapped); [apply HQ|].
  apply wp_bind. apply wp_trigger; [simpl; lia|]. intros r0. cbn [held_next]. clear r0.
  apply wp_bind.
  set (m1 := (fst m, snd m + 1)).
  apply keeps_held.
  { destruct (is_state raw kUnprocessed); [unfold compare_exchange_strong|]; keeps_tac. }
  intros c.
  assert (Hrel : forall x : turn (Z * Z * Z * Thread) Thread,
            wp held_allowed held_next
              (trigger (InProgressFetchAdd (-1)) ;; Ret x)
              (fun x m' => match x with
                           | Continue _ => m' = m
                           | Break r => Q r m'
                           end) m1).
  { intros x. simpl. split; [lia|]. intros _.
    replace (snd m + 1 + -1) with (snd m) by lia.
    destruct x, m; simpl; [reflexivity|apply HQ]. }
  destruct (fst c).
  - apply wp_bind. apply keeps_held.
    { destruct (Mode_eqb kMode kMinorFaultMode); [exact I|].
      destruct (b =? 0); keeps_tac. }
    intros [buf' self'].
    apply wp_bind. apply keeps_held.
    { destruct (_ <? _); keeps_tac. }
    intros _.
    apply wp_bind. apply keeps_held; [unfold store; keeps_tac|]. intros _.
    destruct (Mode_eqb kMode kCopyMode); [|exact I].
    apply wp_bind. apply keeps_held; [apply CopyIoctl_no_count|]. intros _.
    apply wp_bind. apply keeps_held; [unfold store; keeps_tac|]. intros _.
    apply (Hrel (Break self')).
  - destruct (is_state (snd c) kProcessed).
    + apply wp_bind. apply keeps_held; [apply MapMovingSpacePages_no_count|].
      intros len. destruct (len >=? gPageSize).
      * apply (Hrel (Break t)).
      * apply wp_bind. apply keeps_held; [unfold load; keeps_tac|]. intros raw'.
        apply (Hrel (Continue (raw', backoff, b, t))).
    + apply (Hrel (Continue (snd c, backoff, b, t))).
Qed.

Lemma ScopedInProgressCount_held (m : held) (Q : bool -> held -> Prop) :
  Q true m -> Q false (fst m + 1, snd m) ->
  wp held_allowed held_next (ScopedInProgressCount fuel) Q m.
Proof.
  intros Ht Hf. unfold ScopedInProgressCount.
  apply wp_bind. apply wp_trigger; [exact I|]. intros prev. cbn [held_next].
  apply (wp_loop held_allowed held_next (fun _ m' => m' = m) Q); [|exact eq_refl].
  intros p m' ->. destruct (_ =? 0); [|exact Ht].
  apply wp_bind. apply wp_trigger; [exact I|]. intros c. cbn [held_next].
  destruct (resp_ok c); simpl; [|reflexivity].
  replace (p + 1 - p) with 1 by lia. exact Hf.
Qed.

Lemma ScopedInProgressCount_exit_held (done : bool) (m : held) (Q : unit -> held -> Prop) :
  (if done then Q tt m else 0 < fst m /\ Q tt (fst m - 1, snd m)) ->
  wp held_allowed held_next (ScopedInProgressCount_exit done) Q m.
Proof.
  unfold ScopedInProgressCount_exit. destruct done; simpl; [auto|].
  intros [H1 H2]. split; [exact H1|]. intros _. exact H2.
Qed.

Lemma SigbusHandler_held (self : Thread) (info : siginfo) :
  releases_counts (SigbusHandler this fuel self info).
Proof.
  unfold releases_counts, SigbusHandler.
  destruct (negb _); [reflexivity|].
  apply wp_bind. apply ScopedInProgressCount_held; cbn [negb fst snd];
    [reflexivity|].
  assert (Hexit : forall (r : bool * Thread),
            wp held_allowed held_next
              (ScopedInProgressCount_exit false ;; Ret r)
              (fun _ m => m = (0, 0)) (0 + 1, 0)).
  { intros r. apply wp_bind. apply ScopedInProgressCount_exit_held.
    split; [simpl; lia|]. reflexivity. }
  destruct (HasAddress _ _).
  - apply wp_bind.
    destruct (minor_fault_initialized_ this);
      (apply ConcurrentlyProcessMovingPage_held; [simpl; lia|]);
      intros t; apply Hexit.
  - destruct (find _ _).
    + apply wp_bind. apply wp_trigger; [exact I|]. intros r. cbn [held_next].
      apply Hexit.
    + apply Hexit.
Qed.

Lemma ConcurrentCompaction_held (kMode : Mode) (self : Thread) (buf : Z) :
  releases_counts (ConcurrentCompaction this fuel kMode self buf).
Proof.
  unfold releases_counts, ConcurrentCompaction.
  apply (wp_loop held_allowed held_next (fun _ m' => m' = (0, 0))
           (fun _ m' => m' = (0, 0))); [|exact eq_refl].
  intros t m ->.
  apply wp_bind. apply wp_trigger; [exact I|]. intros msg. cbn [held_next].
  apply wp_bind. apply keeps_held; [apply keeps_CHECK|]. intros _.
  apply wp_bind. apply keeps_held; [apply keeps_CHECK|]. intros _.
  destruct (_ =? _).
  - apply wp_bind. apply wp_trigger; [exact I|]. intros r. cbn [held_next].
    apply wp_bind. apply keeps_held; [|intros; exact eq_refl].
    destruct (_ || _); [apply ZeropageIoctl_no_count|].
    apply keeps_bind; [apply keeps_trigger; exact I|]. intros; apply keeps_CHECK.
  - destruct (HasAddress _ _).
    + apply wp_bind. apply ConcurrentlyProcessMovingPage_held; [simpl; lia|].
      intros; exact eq_refl.
    + apply wp_bind. apply wp_trigger; [exact I|]. intros r. exact eq_refl.
Qed.

End Counts.

(** With no other thread in between, the two counts change by what the
    monitor of the counts says. *)
Lemma held_run {A : Type} (p : prog A) : forall (Q : A -> held -> Prop) (m : held)
    (sh sh' : Shared) (ks rest : list resp) (a : A) (tr : list entry),
  wp held_allowed held_next p Q m ->
  runs p sh ks a sh' tr rest ->
  exists m', Q a m' /\
    sigbus_in_progress_count_ sh' - sigbus_in_progress_count_ sh = fst m' - fst m /\
    compaction_in_progress_count_ sh' - compaction_in_progress_count_ sh
      = snd m' - snd m.
Proof.
  unfold runs.
  induction p as [a0| | |e k IH]; intros Q m sh sh' ks rest a tr Hwp Hrun;
    simpl in Hrun; try discriminate.
  - injection Hrun as <- <- <- <-. exists m. split; [exact Hwp|]. lia.
  - destruct Hwp as [_ Hk].
    destruct (exec_event sh e _) as [r sh1] eqn:Hex.
    destruct (run (k r) sh1 _) as [[[o sh2] tr2] rest2] eqn:Hr.
    injection Hrun as -> -> <- ->.
    destruct (IH r Q (held_next m e r) sh1 sh' _ rest a tr2 (Hk r) Hr)
      as (m' & HQ & H1 & H2).
    exists m'. split; [exact HQ|].
    destruct e; simpl in Hex; try (injection Hex as <- <-; simpl in *; lia).
    + destruct (_ =? _); injection Hex as <- <-; simpl in *; lia.
    + destruct (Z.eqb_spec (sigbus_in_progress_count_ sh) expected);
        injection Hex as <- <-; simpl in *; lia.
Qed.

(** X15.  The fault handlers give back what they take of the in-progress counts.
    [SigbusHandler], [ConcurrentlyProcessMovingPage] and
    [ConcurrentCompaction] never lower [sigbus_in_progress_count_] or
    [compaction_in_progress_count_] without having raised it, and on every
    path on which they return they have lowered each count as often as
    they raised it; so a [SigbusHandler] that runs with no other thread in
    between returns with both counts as it found them. *)
Theorem handlers_release_counts {P : Platform} (this : MarkCompact) (fuel : nat) :
  (forall self info, releases_counts (SigbusHandler this fuel self info)) /\
  (forall kMode self fault_page buf nr,
     releases_counts
       (ConcurrentlyProcessMovingPage this fuel kMode self fault_page buf nr)) /\
  (forall kMode self buf,
     releases_counts (ConcurrentCompaction this fuel kMode self buf)) /\
  (forall self info sh ks r sh' tr rest,
     runs (SigbusHandler this fuel self info) sh ks r sh' tr rest ->
     sigbus_in_progress_count_ sh' = sigbus_in_progress_count_ sh /\
     compaction_in_progress_count_ sh' = compaction_in_progress_count_ sh).
Proof.
  split; [|split; [|split]].
  - apply SigbusHandler_held.
  - intros. apply ConcurrentlyProcessMovingPage_held; [simpl; lia|reflexivity].
  - apply ConcurrentCompaction_held.
  - intros self info sh ks r sh' tr rest Hr.
    destruct (held_run _ _ _ _ _ _ _ _ _ (SigbusHandler_held this fuel self info) Hr)
      as (m' & -> & H1 & H2).
    simpl in H1, H2. lia.
Qed.

Lemma handlers_release_counts_witness :
  exists r sh' tr,
    runs (SigbusHandler (P := Example.platform) Example.heap 5 Example.mutator
            (Example.fault_on 0)) fresh_shared [] r sh' tr [] /\
    stores_of tr = [(MovingPagesStatus, 0%nat, code kProcessedAndMapping);
                    (MovingPagesStatus, 0%nat, code kProcessedAndMapped)] /\
    sigbus_in_progress_count_ sh' = sigbus_in_progress_count_ fresh_shared /\
    compaction_in_progress_count_ sh' = compaction_in_progress_count_ fresh_shared.
Proof.
  pose proof (proj2 (proj2 (proj2
                (handlers_release_counts (P := Example.platform) Example.heap 5)))
                Example.mutator (Example.fault_on 0) fresh_shared []) as H.
  eexists _, _, _.
  split; [vm_compute; reflexivity|].
  split; [vm_compute; reflexivity|].
  eapply H. vm_compute. reflexivity.
Defined.

(** ** The arguments of the compaction of a page *)

Lemma keeps_to_bind {A B : Type} (ok : event -> Prop) (p : prog A) (f : A -> prog B)
    (Q : A -> Prop) (R : B -> Prop) :
  keeps_to ok p Q -> (forall a, Q a -> keeps_to ok (f a) R) ->
  keeps_to ok (bind p f) R.
Proof.
  unfold keeps_to. intros Hp Hf. apply wp_bind.
  eapply wp_mono; [|exact Hp]. intros a [] Ha. apply Hf. exact Ha.
Qed.

Lemma keeps_to_loop {S R : Type} (ok : event -> Prop) (I : S -> Prop) (Q : R -> Prop)
    (body : S -> prog (turn S R)) :
  (forall s, I s ->
     keeps_to ok (body s)
       (fun x => match x with Continue s' => I s' | Break r => Q r end)) ->
  forall (fuel : nat) (s : S), I s -> keeps_to ok (loop fuel body s) Q.
Proof.
  unfold keeps_to. intros Hbody fuel s Hs.
  apply (wp_loop (only ok) stay (fun s _ => I s) (fun r _ => Q r)); [|exact Hs].
  intros s0 [] H0. eapply wp_mono; [|apply Hbody; exact H0].
  intros [s'|r] [] H; exact H.
Qed.

Lemma keeps_to_keeps {A : Type} (ok ok' : event -> Prop) (p : prog A) (Q : A -> Prop) :
  (forall e, ok' e -> ok e) -> keeps ok' p -> (forall a, Q a) -> keeps_to ok p Q.
Proof.
  intros Hok Hp HQ. unfold keeps_to.
  eapply wp_mono; [|apply (keeps_mono ok' ok p Hok Hp)].
  intros a [] _. apply HQ.
Qed.

Lemma keeps_to_done {A : Type} (ok : event -> Prop) (p : prog A) (Q : A -> Prop) :
  keeps_to ok p Q -> keeps ok p.
Proof. unfold keeps_to, keeps. apply wp_mono. auto. Qed.

Lemma no_compaction_by_table {P : Platform} (this : MarkCompact) (kMode : Mode)
    (e : event) :
  no_compaction e -> compacts_by_table this kMode e.
Proof. unfold no_compaction, compacts_by_table. intros H1 H2. congruence. Qed.

Section Arguments.
Context {P : Platform} {HP : PlatformOk P}.
Variable this : MarkCompact.
Variable fuel : nat.

Lemma DoPageCompactionWithStateChange_by_table (kMode : Mode) (page_idx : nat)
    (to_space_page page : Z) (map_immediately : bool) (e : event) :
  compacts_by_table this kMode e ->
  keeps (compacts_by_table this kMode)
    (DoPageCompactionWithStateChange this fuel kMode page_idx to_space_page page
       map_immediately (trigger e ;; Ret tt)).
Proof.
  intros He. unfold DoPageCompactionWithStateChange.
  apply keeps_bind.
  { destruct (Mode_eqb kMode kFallbackMode); [exact I|].
    apply keeps_bind; [|intros; exact I].
    eapply keeps_mono; [apply no_compaction_by_table|].
    apply compare_exchange_strong_no_compaction. }
  intros [|]; [|exact I].
  apply keeps_bind.
  { apply keeps_bind; [apply keeps_trigger; exact He|]. intros; exact I. }
  intros _. eapply keeps_mono; [apply no_compaction_by_table|].
  destruct kMode.
  - destruct map_immediately.
    + apply keeps_bind.
      { apply keeps_silent_no_compaction. apply CopyIoctl_silent. }
      intros []. apply keeps_bind; [apply store_no_compaction|]. intros; exact I.
    + apply keeps_bind; [apply store_no_compaction|]. intros; exact I.
  - apply keeps_bind; [apply compare_exchange_strong_no_compaction|]. intros; exact I.
  - exact I.
Qed.

Lemma compact_black_pages_by_table (kMode : Mode)
    (st : nat * Z * Z * Z * Z * Z * Reclaim) :
  black_inv this st ->
  keeps_to (compacts_by_table this kMode) (compact_black_pages this fuel kMode st)
    (fun st' => black_inv this st' /\
                fst (fst (fst (fst (fst (fst st'))))) = moving_first_objs_count_ this).
Proof.
  intros Hst. unfold compact_black_pages.
  destruct st as [[[[[[idx0 pcp0] tse0] sse0] page0] npfo0] rc0].
  apply (keeps_to_loop _ (black_inv this)); [|exact Hst]. clear.
  intros [[[[[[idx pcp] tse] sse] pg] npfo] rc] (Hidx & Hpcp & Htse & Hn).
  destruct (Nat.ltb_spec (moving_first_objs_count_ this) idx) as [Hlt|Hge].
  2:{ unfold keeps_to. simpl.
      split; [split; [exact Hidx|split; [exact Hpcp|split; [exact Htse|exact Hn]]]|lia]. }
  eapply keeps_to_bind with (Q := fun _ => True).
  - apply (keeps_to_keeps (compacts_by_table this kMode) (compacts_by_table this kMode));
      [auto| |auto].
    destruct (negb _); [|exact I].
    apply keeps_bind.
    + apply DoPageCompactionWithStateChange_by_table.
      intros _. exists (idx - 1)%nat. eexists. split; [|split].
      * unfold compaction_call.
        destruct (Nat.ltb_spec (idx - 1) (moving_first_objs_count_ this)); [lia|].
        replace (idx - 1 + 1)%nat with idx by lia. rewrite <- Hn.
        replace (black_allocations_begin_ this
                 + Z.of_nat (idx - 1 - moving_first_objs_count_ this) * gPageSize)
          with (pcp - gPageSize)
          by (subst pcp;
              replace (Z.of_nat (idx - 1 - moving_first_objs_count_ this))
                with (Z.of_nat (idx - moving_first_objs_count_ this) - 1) by lia;
              ring).
        reflexivity.
      * lia.
      * intros ->. simpl. subst tse. unfold page_begin.
        replace (Z.of_nat (idx - 1)) with (Z.of_nat idx - 1) by lia. ring.
    + intros b. destruct (_ =? 0); [|exact I].
      apply keeps_bind; [|intros; exact I].
      eapply keeps_mono; [apply no_compaction_by_table|].
      apply FreeFromSpacePages_no_compaction.
  - intros rc' _. unfold keeps_to. simpl. split; [lia|]. split; [|split].
    + subst pcp.
      replace (Z.of_nat (idx - 1 - moving_first_objs_count_ this))
        with (Z.of_nat (idx - moving_first_objs_count_ this) - 1) by lia.
      ring.
    + subst tse. unfold page_begin.
      replace (Z.of_nat (idx - 1)) with (Z.of_nat idx - 1) by lia. ring.
    + destruct (Nat.ltb_spec (idx - 1)
                  (moving_first_objs_count_ this + black_page_count_ this)); [|lia].
      reflexivity.
Qed.

Lemma compact_moving_pages_by_table (kMode : Mode) (reserve_page : Z)
    (st : nat * Z * Z * Z * nat * Reclaim) :
  (fst (fst (fst (fst (fst st)))) <= moving_first_objs_count_ this)%nat ->
  snd (fst (fst (fst (fst st)))) = page_begin this (fst (fst (fst (fst (fst st))))) ->
  keeps_to (compacts_by_table this kMode)
    (compact_moving_pages this fuel kMode reserve_page st)
    (fun st' => fst (fst (fst (fst (fst st')))) = 0%nat /\
                snd (fst (fst (fst (fst st')))) = bump_pointer_space_Begin this).
Proof.
  intros Hidx Htse. unfold compact_moving_pages.
  destruct st as [[[[[idx0 tse0] sse0] page0] eifm0] rc0]. simpl in Hidx, Htse.
  apply (keeps_to_loop _
           (fun st : nat * Z * Z * Z * nat * Reclaim =>
              (fst (fst (fst (fst (fst st)))) <= moving_first_objs_count_ this)%nat /\
              snd (fst (fst (fst (fst st))))
                = page_begin this (fst (fst (fst (fst (fst st)))))));
    [|split; assumption].
  clear. intros [[[[[idx tse] sse] pg] eifm] rc] [Hidx Htse]. simpl in Hidx, Htse.
  destruct (Nat.ltb_spec 0 idx) as [Hlt|Hge].
  2:{ unfold keeps_to. simpl. split; [lia|]. subst tse. unfold page_begin.
      replace idx with 0%nat by lia. lia. }
  set (pr := if Mode_eqb kMode kMinorFaultMode then _ else _).
  assert (Hpr : kMode = kFallbackMode -> fst pr = tse - gPageSize).
  { intros ->. reflexivity. }
  destruct pr as [page' rc']. simpl in Hpr.
  eapply keeps_to_bind with (Q := fun _ => True).
  - apply (keeps_to_keeps (compacts_by_table this kMode) (compacts_by_table this kMode));
      [auto| |auto].
    apply DoPageCompactionWithStateChange_by_table.
    intros _. exists (idx - 1)%nat, page'. split; [|split].
    + unfold compaction_call.
      destruct (Nat.ltb_spec (idx - 1) (moving_first_objs_count_ this)); [|lia].
      reflexivity.
    + lia.
    + intros Hm. rewrite (Hpr Hm). subst tse. unfold page_begin.
      replace (Z.of_nat (idx - 1)) with (Z.of_nat idx - 1) by lia. ring.
  - intros b _. eapply keeps_to_bind with (Q := fun _ => True).
    + apply (keeps_to_keeps (compacts_by_table this kMode) no_compaction);
        [apply no_compaction_by_table| |auto].
      destruct (_ && _); [|exact I].
      apply keeps_bind; [apply MapMovingSpacePages_no_compaction|]. intros; exact I.
    + intros _ _. eapply keeps_to_bind with (Q := fun _ => True).
      * apply (keeps_to_keeps (compacts_by_table this kMode) no_compaction);
          [apply no_compaction_by_table| |auto].
        apply FreeFromSpacePages_no_compaction.
      * intros f _. unfold keeps_to. simpl. split; [lia|].
        subst tse. unfold page_begin.
        replace (Z.of_nat (idx - 1)) with (Z.of_nat idx - 1) by lia. ring.
Qed.

Lemma CompactMovingSpace_by_table (kMode : Mode) (page : Z) :
  keeps (compacts_by_table this kMode) (CompactMovingSpace this fuel kMode page).
Proof.
  apply keeps_to_done with (Q := fun _ => True).
  unfold CompactMovingSpace.
  eapply keeps_to_bind.
  - apply compact_black_pages_by_table. repeat split; try lia.
    + replace (moving_first_objs_count_ this + black_page_count_ this
               - moving_first_objs_count_ this)%nat
        with (black_page_count_ this) by lia.
      reflexivity.
    + rewrite Nat.ltb_irrefl. reflexivity.
  - intros [[[[[[idx pcp] tse] sse] pg] npfo] rc] [(Hidx & Hpcp & Htse & Hn) Heq].
    simpl in Heq. subst idx.
    eapply keeps_to_bind.
    + apply compact_moving_pages_by_table; simpl; [lia|exact Htse].
    + intros [[[[[idx2 tse2] sse2] pg2] eifm] rc2] _.
      apply (keeps_to_keeps (compacts_by_table this kMode) no_compaction);
        [apply no_compaction_by_table| |auto].
      destruct (_ && _); [|exact I].
      apply keeps_bind; [apply MapMovingSpacePages_no_compaction|]. intros; exact I.
Qed.

Ltac by_table_tac :=
  repeat match goal with
  | |- keeps _ (Ret _) => exact I
  | |- keeps _ Crash => exact I
  | |- keeps _ (CHECK _) => apply keeps_CHECK
  | |- keeps _ (trigger (CompactPageCall _ _ _ _ _)) => apply keeps_trigger
  | |- keeps _ (trigger (SlideBlackPageCall _ _ _ _ _ _ _)) => apply keeps_trigger
  | |- keeps _ (trigger _) => apply keeps_trigger; intros Hc; discriminate Hc
  | |- keeps _ (bind _ _) => apply keeps_bind; [|intros]
  | |- keeps _ (load _ _) => unfold load
  | |- keeps _ (store _ _ _) => unfold store
  | |- keeps _ (compare_exchange_strong _ _ _ _) => unfold compare_exchange_strong
  | |- keeps _ (BackOff _) => unfold BackOff
  | |- keeps (compacts_by_table _ _) (CopyIoctl _ _ _ _) =>
      eapply keeps_mono; [apply no_compaction_by_table|];
      apply keeps_silent_no_compaction; apply CopyIoctl_silent
  | |- keeps (compacts_by_table _ _) (ZeropageIoctl _ _ _ _ _) =>
      eapply keeps_mono; [apply no_compaction_by_table|];
      apply keeps_silent_no_compaction; apply ZeropageIoctl_silent
  | |- keeps (compacts_by_table _ _) (MapMovingSpacePages _ _ _ _) =>
      eapply keeps_mono; [apply no_compaction_by_table|];
      apply MapMovingSpacePages_no_compaction
  | |- keeps _ (if ?b then _ else _) => destruct b eqn:?
  | |- keeps _ (match ?x with _ => _ end) => destruct x eqn:?
  end.

Lemma ConcurrentlyProcessMovingPage_by_table (kMode : Mode) (self : Thread)
    (fault_page buf : Z) (nr idx : nat) :
  kMode <> kFallbackMode ->
  post_compact_end_ this = page_begin this (moving_first_objs_count_ this) ->
  fault_page = page_begin this idx ->
  (idx < moving_first_objs_count_ this + black_page_count_ this)%nat ->
  keeps (compacts_by_table this kMode)
    (ConcurrentlyProcessMovingPage this fuel kMode self fault_page buf nr).
Proof.
  intros Hmode Hpost Hfault Hidx. pose proof gPageSize_pos as Hpg.
  unfold ConcurrentlyProcessMovingPage.
  assert (Hpi : Z.to_nat (DivideByPageSize (fault_page - bump_pointer_space_Begin this))
                = idx).
  { unfold DivideByPageSize. subst fault_page. unfold page_begin.
    replace (bump_pointer_space_Begin this + Z.of_nat idx * gPageSize
             - bump_pointer_space_Begin this) with (Z.of_nat idx * gPageSize) by ring.
    rewrite Z.div_mul by lia. lia. }
  rewrite Hpi.
  destruct (_ && _).
  { by_table_tac. }
  destruct (_ =? 0).
  { eapply keeps_mono; [apply no_compaction_by_table|].
    apply keeps_bind.
    { unfold claim_zero_pages. apply keeps_loop. intros [i len].
      destruct (_ <? _)%nat; [|exact I].
      apply keeps_bind; [apply compare_exchange_strong_no_compaction|].
      intros c. destruct (fst c); exact I. }
    intros len. apply keeps_bind; [|intros; exact I].
    destruct (_ >? 0); [|exact I].
    apply keeps_bind.
    { apply keeps_silent_no_compaction. apply ZeropageIoctl_silent. }
    intros _. unfold store_zero_pages. apply keeps_loop. intros [l i].
    destruct (_ <? _); [|exact I].
    apply keeps_bind; [apply store_no_compaction|]. intros; exact I. }
  assert (Hcall : forall dest,
    compacts_by_table this kMode
      (if fault_page <? post_compact_end_ this then
         CompactPageCall idx (read (first_objs_moving_space_ this) idx)
           (read (pre_compact_offset_moving_space_ this) idx) dest
           (Mode_eqb kMode kCopyMode)
       else
         SlideBlackPageCall idx (read (first_objs_moving_space_ this) idx)
           (if (idx + 1 <? moving_first_objs_count_ this + black_page_count_ this)%nat
            then read (first_objs_moving_space_ this) (idx + 1) else 0)
           (read (black_alloc_pages_first_chunk_size_ this) idx)
           (black_allocations_begin_ this + (fault_page - post_compact_end_ this))
           dest (Mode_eqb kMode kCopyMode))).
  { intros dest _. exists idx, dest. split; [|split; [exact Hidx|tauto]].
    unfold compaction_call. rewrite Hpost, Hfault. unfold page_begin.
    destruct (Z.ltb_spec (bump_pointer_space_Begin this + Z.of_nat idx * gPageSize)
                (bump_pointer_space_Begin this
                 + Z.of_nat (moving_first_objs_count_ this) * gPageSize)) as [Hlt|Hge];
      destruct (Nat.ltb_spec idx (moving_first_objs_count_ this)) as [Hlt'|Hge'];
      try reflexivity; try nia.
    f_equal. rewrite Nat2Z.inj_sub by lia. ring. }
  apply keeps_bind; [by_table_tac|]. intros raw0.
  apply keeps_loop. intros [[[raw backoff] b] t].
  destruct (_ || _); [by_table_tac|].
  destruct (is_state raw kProcessedAndMapped); [exact I|].
  apply keeps_bind; [by_table_tac|]. intros _.
  apply keeps_bind; [by_table_tac|]. intros c.
  destruct (fst c); [|by_table_tac].
  apply keeps_bind; [by_table_tac|]. intros [buf' self'].
  apply keeps_bind.
  { pose proof (Hcall buf') as H. destruct (fault_page <? post_compact_end_ this);
      apply keeps_trigger; exact H. }
  intros _. by_table_tac.
Qed.

End Arguments.

(** X16.  Whoever compacts a page passes the same arguments.  Every call of
    [CompactPage] and [SlideBlackPage] that [CompactMovingSpace] makes,
    and every one that [ConcurrentlyProcessMovingPage] makes for a fault
    on a used page, is the call of that page by the tables of the
    collector: first object, offset, first object of the next page, first
    chunk size and pre-compact page depend on the page alone, only the
    destination differs; in fallback mode the collector writes each page
    in its place. *)
Theorem compaction_arguments_from_tables {P : Platform} {HP : PlatformOk P}
    (this : MarkCompact) (fuel : nat) :
  (forall kMode page,
     keeps (compacts_by_table this kMode) (CompactMovingSpace this fuel kMode page)) /\
  (forall kMode self fault_page buf (nr idx : nat),
     kMode <> kFallbackMode ->
     post_compact_end_ this = page_begin this (moving_first_objs_count_ this) ->
     fault_page = page_begin this idx ->
     (idx < moving_first_objs_count_ this + black_page_count_ this)%nat ->
     keeps (compacts_by_table this kMode)
       (ConcurrentlyProcessMovingPage this fuel kMode self fault_page buf nr)).
Proof.
  split.
  - apply CompactMovingSpace_by_table.
  - intros. eapply ConcurrentlyProcessMovingPage_by_table; eassumption.
Qed.

Lemma compaction_arguments_from_tables_witness :
  keeps (compacts_by_table (P := Example.platform) Example.heap kCopyMode)
    (CompactMovingSpace (P := Example.platform) Example.heap 5 kCopyMode 0x40000000) /\
  keeps (compacts_by_table (P := Example.platform) Example.heap kCopyMode)
    (ConcurrentlyProcessMovingPage (P := Example.platform) Example.heap 5 kCopyMode
       Example.mutator (0x10000000 + 2 * 4096) 0 4).
Proof.
  pose proof (compaction_arguments_from_tables (P := Example.platform) Example.heap 5)
    as [H1 H2].
  split; [apply H1|].
  apply (H2 kCopyMode Example.mutator (0x10000000 + 2 * 4096) 0 4%nat 2%nat).
  - discriminate.
  - reflexivity.
  - reflexivity.
  - simpl. lia.
Defined.

Lemma keeps_to_mono {A : Type} (ok ok' : event -> Prop) (p : prog A) (Q Q' : A -> Prop) :
  (forall e, ok e -> ok' e) -> (forall a, Q a -> Q' a) ->
  keeps_to ok p Q -> keeps_to ok' p Q'.
Proof.
  intros Hok HQ. unfold keeps_to. generalize tt.
  induction p as [a| | |e k IH]; simpl; auto.
  intros u [Ho Hk]. split; [apply Hok; exact Ho|]. intros r. apply IH, Hk.
Qed.

(** X17.  The assertions of [CompactMovingSpace] on its loops hold.  The loop
    over the black pages, started as [CompactMovingSpace] starts it, ends
    at page [moving_first_objs_count_] with [pre_compact_page] at
    [black_allocations_begin_]; the loop over the compacted portion,
    started where the first loop ends, ends at page 0 with [to_space_end]
    at the begin of the space. *)
Theorem CompactMovingSpace_loops_end {P : Platform} {HP : PlatformOk P}
    (this : MarkCompact) (fuel : nat) (kMode : Mode) :
  (forall shadow_space_end page rc,
     keeps_to (fun _ => True)
       (compact_black_pages this fuel kMode
          ((moving_first_objs_count_ this + black_page_count_ this)%nat,
           black_allocations_begin_ this + Z.of_nat (black_page_count_ this) * gPageSize,
           page_begin this (moving_first_objs_count_ this + black_page_count_ this),
           shadow_space_end, page, 0, rc))
       (fun '(idx, pre_compact_page, to_space_end, _, _, _, _) =>
          idx = moving_first_objs_count_ this /\
          pre_compact_page = black_allocations_begin_ this /\
          to_space_end = page_begin this (moving_first_objs_count_ this))) /\
  (forall reserve_page shadow_space_end page end_idx_for_mapping rc,
     keeps_to (fun _ => True)
       (compact_moving_pages this fuel kMode reserve_page
          (moving_first_objs_count_ this,
           page_begin this (moving_first_objs_count_ this),
           shadow_space_end, page, end_idx_for_mapping, rc))
       (fun '(idx, to_space_end, _, _, _, _) =>
          idx = 0%nat /\ to_space_end = bump_pointer_space_Begin this)).
Proof.
  split.
  - intros sse page rc.
    eapply keeps_to_mono; [| |apply (compact_black_pages_by_table this fuel kMode)].
    + auto.
    + intros [[[[[[idx pcp] tse] sse'] pg] npfo] rc'] [(Hidx & Hpcp & Htse & _) Heq].
      simpl in Heq. subst idx. split; [reflexivity|]. split; [|exact Htse].
      rewrite Hpcp, Nat.sub_diag. simpl. lia.
    + repeat split; try lia.
      * replace (moving_first_objs_count_ this + black_page_count_ this
                 - moving_first_objs_count_ this)%nat
          with (black_page_count_ this) by lia.
        reflexivity.
      * rewrite Nat.ltb_irrefl. reflexivity.
  - intros reserve sse page eifm rc.
    eapply keeps_to_mono;
      [| |apply (compact_moving_pages_by_table this fuel kMode)].
    + auto.
    + intros [[[[[idx tse] sse'] pg] eifm'] rc'] [H1 H2]. simpl in H1, H2. auto.
    + simpl. lia.
    + reflexivity.
Qed.

Lemma CompactMovingSpace_loops_end_witness :
  keeps_to (fun _ => True)
    (compact_black_pages (P := Example.platform) Example.heap 5 kCopyMode
       (4%nat, 0x10000000 + 4 * 4096 + 2 * 4096, 0x10000000 + 4 * 4096, 0, 0x40000000, 0,
        {| last_reclaimed_page_ := 0; last_reclaimable_page_ := 0;
           cur_reclaimable_page_ := 0; last_checked_reclaim_page_idx_ := 4;
           class_after_obj_iter_ := [] |}))
    (fun '(idx, pre_compact_page, to_space_end, _, _, _, _) =>
       idx = 2%nat /\
       pre_compact_page = 0x10000000 + 4 * 4096 /\
       to_space_end = 0x10000000 + 2 * 4096).
Proof.
  exact (proj1 (CompactMovingSpace_loops_end (P := Example.platform) Example.heap 5
                  kCopyMode) 0 0x40000000
           {| last_reclaimed_page_ := 0; last_reclaimable_page_ := 0;
              cur_reclaimable_page_ := 0; last_checked_reclaim_page_idx_ := 4;
              class_after_obj_iter_ := [] |}).
Defined.

(** ** The result of FreeFromSpacePages *)

Section FreeResult.
Context {P : Platform} {HP : PlatformOk P}.
Variable this : MarkCompact.
Variable fuel : nat.

Lemma scan_reclaim_idx_returns (cur_page_idx idx0 : nat) :
  returns_only (scan_reclaim_idx cur_page_idx idx0)
    (fun idx => (idx <= idx0)%nat /\ ((cur_page_idx <= idx0)%nat -> (cur_page_idx <= idx)%nat)).
Proof.
  unfold scan_reclaim_idx.
  apply (returns_only_loop
           (fun idx => (idx <= idx0)%nat /\
                       ((cur_page_idx <= idx0)%nat -> (cur_page_idx <= idx)%nat))).
  - intros idx [H1 H2].
    destruct (Nat.ltb_spec cur_page_idx idx) as [Hlt|Hge].
    + unfold returns_only. simpl. split; [exact I|]. intros r.
      destruct (is_state _ _); simpl; split; auto; lia.
    + unfold returns_only. simpl. auto.
  - split; [lia|auto].
Qed.

(** X18.  What [FreeFromSpacePages] does to the reclaim fields.  Whenever it
    returns, [last_checked_reclaim_page_idx_] has not gone up and has not
    gone below [cur_page_idx], and [last_reclaimable_page_] and
    [last_reclaimed_page_] have not gone up.  When the page index has not
    moved it returns false and leaves every field as it was, in every
    mode; in fallback mode it returns true whenever the index has moved. *)
Theorem FreeFromSpacePages_fields (rc : Reclaim) (cur_page_idx : nat) (mode : Mode)
    (end_idx_for_mapping : nat) :
  4 * gPageSize <= kMinFromSpaceMadviseSize ->
  returns_only (FreeFromSpacePages this fuel rc cur_page_idx mode end_idx_for_mapping)
    (fun '(ret, rc') =>
       (last_checked_reclaim_page_idx_ rc' <= last_checked_reclaim_page_idx_ rc)%nat /\
       ((cur_page_idx <= last_checked_reclaim_page_idx_ rc)%nat ->
        (cur_page_idx <= last_checked_reclaim_page_idx_ rc')%nat) /\
       last_reclaimable_page_ rc' <= last_reclaimable_page_ rc /\
       last_reclaimed_page_ rc' <= last_reclaimed_page_ rc /\
       (last_checked_reclaim_page_idx_ rc' = last_checked_reclaim_page_idx_ rc ->
        ret = false /\ rc' = rc) /\
       (mode = kFallbackMode ->
        (last_checked_reclaim_page_idx_ rc' < last_checked_reclaim_page_idx_ rc)%nat ->
        ret = true)).
Proof.
  intros Hbuf. unfold FreeFromSpacePages.
  eapply returns_only_bind; [apply scan_reclaim_idx_returns|].
  intros idx [Hle Hcur].
  destruct (Nat.eqb_spec idx (last_checked_reclaim_page_idx_ rc)) as [Heq|Hne].
  { unfold returns_only. simpl. repeat split; auto; lia. }
  destruct (reclaim_begin_of this idx) as [rb0 idx_addr].
  destruct (class_after_obj_scan this _ rb0 idx_addr) as [rb iter].
  eapply returns_only_bind with
    (Q := fun '(ret, last_reclaimed, cur_reclaimable) =>
            last_reclaimed <= last_reclaimed_page_ rc /\
            (mode = kFallbackMode -> ret = true)).
  - destruct (Z.gtb_spec (last_reclaimed_page_ rc - rb) kMinFromSpaceMadviseSize)
      as [Hgt|Hle'].
    + eapply returns_only_bind with
        (Q := fun ret => mode = kFallbackMode -> ret = true).
      * destruct (_ && _) eqn:Hm.
        { eapply returns_only_bind; [apply returns_only_any|]. intros len _.
          eapply returns_only_bind; [apply returns_only_any|]. intros _ _.
          unfold returns_only. simpl. auto. }
        unfold returns_only. simpl. intros ->. reflexivity.
      * intros ret Hret.
        eapply returns_only_bind; [apply returns_only_any|]. intros r _.
        eapply returns_only_bind; [apply returns_only_any|]. intros _ _.
        unfold returns_only. simpl. split; [lia|exact Hret].
    + unfold returns_only. simpl. split; [lia|]. intros ->. reflexivity.
  - intros [[ret lr] cr] [Hlr Hret].
    destruct (Z.leb_spec rb (last_reclaimable_page_ rc)) as [Hrb|Hrb].
    + unfold returns_only. simpl. repeat split; auto; try lia.
    + exact I.
Qed.

Lemma wait_mapped_seen (i : nat) (m : list nat) (Q : unit -> list nat -> Prop) :
  (forall m', (In i m' /\ forall j, In j m -> In j m') -> Q tt m') ->
  wp any_event seen_mapped_next (wait_mapped fuel i) Q m.
Proof.
  intros HQ. unfold wait_mapped, load.
  cbn [bind trigger wp]. split; [exact I|]. intros r. cbn [seen_mapped_next].
  apply (wp_loop any_event seen_mapped_next
           (fun (s : Z * Z) m' =>
              (forall j, In j m -> In j m') /\
              (is_state (fst s) kProcessedAndMapped = true -> In i m')) Q).
  - intros [raw bc] m' [Hm Hraw]. simpl in Hraw.
    destruct (is_state raw kProcessedAndMapped) eqn:Hst; simpl.
    + apply HQ. auto.
    + unfold BackOff, load. cbn [bind trigger wp].
      split; [exact I|]. intros _. split; [exact I|]. intros r'.
      cbn [seen_mapped_next fst].
      destruct (is_state (resp_val r') kProcessedAndMapped) eqn:Hst'.
      * split; [intros j Hj; right; auto|]. intros _. left. reflexivity.
      * split; [exact Hm|]. discriminate.
  - destruct (is_state (resp_val r) kProcessedAndMapped) eqn:Hst; simpl.
    + split; [intros j Hj; right; exact Hj|]. intros _. left. reflexivity.
    + split; [auto|]. rewrite Hst. discriminate.
Qed.

Lemma wait_all_mapped_seen (i0 end_idx : nat) (m : list nat)
    (Q : unit -> list nat -> Prop) :
  (forall m', (forall j, (i0 <= j < end_idx)%nat -> In j m') -> Q tt m') ->
  wp any_event seen_mapped_next (wait_all_mapped fuel i0 end_idx) Q m.
Proof.
  intros HQ. unfold wait_all_mapped.
  apply (wp_loop any_event seen_mapped_next
           (fun (i : nat) m' =>
              (i0 <= i)%nat /\ forall j, (i0 <= j < i)%nat -> In j m') Q).
  - intros i m' [Hi Hm].
    destruct (Nat.ltb_spec i end_idx) as [Hlt|Hge].
    + apply wp_bind. apply wait_mapped_seen. intros m2 [Hin Hsub]. simpl.
      split; [lia|]. intros j Hj.
      destruct (Nat.eq_dec j i) as [->|Hne]; [exact Hin|].
      apply Hsub, Hm. lia.
    + simpl. apply HQ. intros j Hj. apply Hm. lia.
  - split; [lia|]. intros j Hj. lia.
Qed.

Lemma keeps_seen {A : Type} (p : prog A) (Q : A -> list nat -> Prop) (m : list nat) :
  (forall a m', (forall j, In j m -> In j m') -> Q a m') ->
  wp any_event seen_mapped_next p Q m.
Proof.
  revert m. induction p as [a| | |e k IH]; intros m HQ; simpl; auto.
  split; [exact I|]. intros r. apply IH. intros a m' Hm. apply HQ.
  intros j Hj. apply Hm.
  destruct e; simpl; auto. destruct arr; auto.
  destruct (is_state _ _); [right|]; exact Hj.
Qed.

Lemma returns_only_seen {A : Type} (p : prog A) (Q : A -> Prop) (m : list nat) :
  returns_only p Q -> wp any_event seen_mapped_next p (fun a _ => Q a) m.
Proof.
  unfold returns_only. generalize tt. revert m.
  induction p as [a| | |e k IH]; intros m u; simpl; auto.
  intros [_ Hk]. split; [exact I|]. intros r. apply (IH r _ _ (Hk r)).
Qed.

(** X19.  In copy mode [FreeFromSpacePages] returns true only after it has
    loaded every page from [cur_page_idx] up to [end_idx_for_mapping] in
    state [kProcessedAndMapped]: [MapMovingSpacePages] tells it 0 bytes,
    so its wait starts at [cur_page_idx].  The caller may then take
    [end_idx_for_mapping] down to the page. *)
Theorem FreeFromSpacePages_true_when_mapped (rc : Reclaim) (cur_page_idx end_idx_for_mapping : nat) :
  wp any_event seen_mapped_next
     (FreeFromSpacePages this fuel rc cur_page_idx kCopyMode end_idx_for_mapping)
     (fun f m => fst f = true ->
                 forall i, (cur_page_idx <= i < end_idx_for_mapping)%nat -> In i m) [].
Proof.
  unfold FreeFromSpacePages.
  apply wp_bind. apply keeps_seen. intros idx m _.
  destruct (_ =? _)%nat; [simpl; discriminate|].
  destruct (reclaim_begin_of this idx) as [rb0 idx_addr].
  destruct (class_after_obj_scan this _ rb0 idx_addr) as [rb iter].
  apply wp_bind.
  apply wp_mono with
    (Q := fun (x : bool * Z * Z) m' =>
            fst (fst x) = true ->
            forall i, (cur_page_idx <= i < end_idx_for_mapping)%nat -> In i m').
  { intros [[ret lr] cr] m' H. simpl in H.
    apply wp_bind. apply keeps_seen. intros _ m2 Hsub. simpl.
    intros Hret i Hi. apply Hsub. apply H; assumption. }
  destruct (_ >? kMinFromSpaceMadviseSize); [|simpl; discriminate].
  apply wp_bind.
  apply wp_mono with
    (Q := fun (ret : bool) m' =>
            ret = true ->
            forall i, (cur_page_idx <= i < end_idx_for_mapping)%nat -> In i m').
  { intros ret m' H.
    apply wp_bind. apply keeps_seen. intros r m2 Hsub.
    apply wp_bind. apply keeps_seen. intros _ m3 Hsub3. simpl.
    intros Hret i Hi. apply Hsub3, Hsub. apply H; assumption. }
  destruct (_ && _); [|simpl; discriminate].
  apply wp_bind.
  apply wp_mono with (Q := fun (len : Z) (_ : list nat) => len = 0).
  2:{ apply returns_only_seen. apply MapMovingSpacePages_zero. }
  intros len m' ->.
  replace (cur_page_idx + Z.to_nat (DivideByPageSize 0))%nat with cur_page_idx
    by (unfold DivideByPageSize; rewrite Z.div_0_l by (pose proof gPageSize_pos; lia); lia).
  apply wp_bind. apply wait_all_mapped_seen. intros m2 Hm2. simpl. intros _. exact Hm2.
Qed.

End FreeResult.

Lemma FreeFromSpacePages_fields_witness :
  returns_only
    (FreeFromSpacePages (P := Example.platform) LargeObject.heap 5 LargeObject.rc
       2048 kCopyMode 0)
    (fun '(ret, rc') =>
       (last_checked_reclaim_page_idx_ rc'
        <= last_checked_reclaim_page_idx_ LargeObject.rc)%nat /\
       ((2048 <= last_checked_reclaim_page_idx_ LargeObject.rc)%nat ->
        (2048 <= last_checked_reclaim_page_idx_ rc')%nat) /\
       last_reclaimable_page_ rc' <= last_reclaimable_page_ LargeObject.rc /\
       last_reclaimed_page_ rc' <= last_reclaimed_page_ LargeObject.rc /\
       (last_checked_reclaim_page_idx_ rc'
        = last_checked_reclaim_page_idx_ LargeObject.rc ->
        ret = false /\ rc' = LargeObject.rc) /\
       (kCopyMode = kFallbackMode ->
        (last_checked_reclaim_page_idx_ rc'
         < last_checked_reclaim_page_idx_ LargeObject.rc)%nat ->
        ret = true)).
Proof.
  apply (FreeFromSpacePages_fields (P := Example.platform) LargeObject.heap 5
           LargeObject.rc 2048 kCopyMode 0).
  vm_compute. discriminate.
Defined.

Lemma FreeFromSpacePages_true_when_mapped_witness :
  wp any_event seen_mapped_next
     (FreeFromSpacePages (P := Example.platform) LargeObject.heap 5 LargeObject.rc
        2048 kCopyMode 2050)
     (fun f m => fst f = true ->
                 forall i, (2048 <= i < 2050)%nat -> In i m) [].
Proof.
  apply (FreeFromSpacePages_true_when_mapped (P := Example.platform)).
Defined.

(** ** A fault on a page that nobody has worked on *)

Lemma runs_event (e : event) (sh : Shared) (ks : list resp) :
  is_syscall e = false ->
  runs (trigger e) sh ks (fst (exec_event sh e RUnit)) (snd (exec_event sh e RUnit))
       [entry_of sh e (fst (exec_event sh e RUnit))] ks.
Proof.
  intros H. unfold runs, trigger. simpl. rewrite H.
  destruct (exec_event sh e RUnit) as [r sh']. reflexivity.
Qed.

Lemma keeps_run {A : Type} (ok : event -> Prop) (p : prog A) :
  forall (sh sh' : Shared) (ks rest : list resp) (o : outcome A) (tr : list entry),
  keeps ok p -> run p sh ks = (o, sh', tr, rest) -> Forall (fun x => ok (ev x)) tr.
Proof.
  unfold keeps. generalize tt.
  induction p as [a| | |e k IH]; intros u sh sh' ks rest o tr Hk Hr; simpl in Hr;
    try (injection Hr as <- <- <- <-; constructor).
  destruct Hk as [He Hk].
  destruct (exec_event sh e _) as [r sh1].
  destruct (run (k r) sh1 _) as [[[o2 sh2] tr2] rest2] eqn:Hr2.
  injection Hr as <- <- <- <-. constructor; [exact He|].
  eapply IH; [apply Hk|exact Hr2].
Qed.

Section Unprocessed.
Context {P : Platform} {HP : PlatformOk P}.
Variable this : MarkCompact.
Variable fuel : nat.

Lemma mutator_call (kMode : Mode) (idx : nat) (dest : Z) :
  post_compact_end_ this = page_begin this (moving_first_objs_count_ this) ->
  (if page_begin this idx <? post_compact_end_ this then
     CompactPageCall idx (read (first_objs_moving_space_ this) idx)
       (read (pre_compact_offset_moving_space_ this) idx) dest
       (Mode_eqb kMode kCopyMode)
   else
     SlideBlackPageCall idx (read (first_objs_moving_space_ this) idx)
       (if (idx + 1 <? moving_first_objs_count_ this + black_page_count_ this)%nat
        then read (first_objs_moving_space_ this) (idx + 1) else 0)
       (read (black_alloc_pages_first_chunk_size_ this) idx)
       (black_allocations_begin_ this + (page_begin this idx - post_compact_end_ this))
       dest (Mode_eqb kMode kCopyMode))
  = compaction_call this kMode idx dest.
Proof.
  intros Hpost. pose proof gPageSize_pos as Hpg.
  unfold compaction_call. rewrite Hpost. unfold page_begin.
  destruct (Z.ltb_spec (bump_pointer_space_Begin this + Z.of_nat idx * gPageSize)
              (bump_pointer_space_Begin this
               + Z.of_nat (moving_first_objs_count_ this) * gPageSize)) as [Hlt|Hge];
    destruct (Nat.ltb_spec idx (moving_first_objs_count_ this)) as [Hlt'|Hge'];
    try reflexivity; try nia.
  f_equal. rewrite Nat2Z.inj_sub by lia. ring.
Qed.

Lemma compaction_call_exec (kMode : Mode) (idx : nat) (dest : Z) (sh : Shared)
    (r : resp) :
  is_syscall (compaction_call this kMode idx dest) = false /\
  exec_event sh (compaction_call this kMode idx dest) r = (RUnit, sh).
Proof.
  unfold compaction_call.
  destruct (idx <? moving_first_objs_count_ this)%nat; split; reflexivity.
Qed.

(** X20.  A fault in copy mode on a used page that is still [kUnprocessed]: the
    faulting thread takes the page by a compare-and-swap to
    [kMutatorProcessing], compacts it into its own buffer with the
    arguments of the tables, maps it at the fault address by [CopyIoctl]
    (repeated after [EAGAIN]) and leaves it [kProcessedAndMapped]; it
    raises [compaction_in_progress_count_] before the compare-and-swap and
    lowers it at the end, and changes no other word. *)
Theorem fault_on_unprocessed_page (self : Thread) (buf : Z)
    (nr idx : nat) (sh : Shared) (ms : list Z) (e : Errno) (v : Z) (rest : list resp) :
  post_compact_end_ this = page_begin this (moving_first_objs_count_ this) ->
  (idx < nr)%nat ->
  read (first_objs_moving_space_ this) idx <> 0 ->
  status sh MovingPagesStatus idx = code kUnprocessed ->
  buf <> 0 ->
  (length ms < fuel)%nat -> Forall (fun m => 0 < m) ms ->
  sum_Z ms < gPageSize < 2 ^ 64 ->
  exists sh' tr,
    runs (ConcurrentlyProcessMovingPage this fuel kCopyMode self (page_begin this idx)
            buf nr) sh (map short ms ++ RSys 0 e v :: rest) self sh' tr rest /\
    map ev tr =
      [AtomicLoad MovingPagesStatus idx;
       InProgressFetchAdd 1;
       AtomicCas MovingPagesStatus idx (code kUnprocessed) (code kMutatorProcessing);
       compaction_call this kCopyMode idx buf;
       AtomicStore MovingPagesStatus idx (code kProcessedAndMapping)]
      ++ copy_calls (page_begin this idx) buf gPageSize ms
      ++ [AtomicStore MovingPagesStatus idx (code kProcessedAndMapped);
          InProgressFetchAdd (-1)] /\
    updated sh sh' MovingPagesStatus idx 1 (code kProcessedAndMapped).
Proof.
  intros Hpost Hidx Hfirst Hst Hbuf Hf Hms Hlen. pose proof gPageSize_pos as Hpg.
  assert (Hpi : Z.to_nat (DivideByPageSize (page_begin this idx
                                             - bump_pointer_space_Begin this)) = idx).
  { unfold DivideByPageSize, page_begin.
    replace (bump_pointer_space_Begin this + Z.of_nat idx * gPageSize
             - bump_pointer_space_Begin this) with (Z.of_nat idx * gPageSize) by ring.
    rewrite Z.div_mul by lia. lia. }
  set (ks := map short ms ++ RSys 0 e v :: rest).
  set (sh1 := snd (exec_event sh (InProgressFetchAdd 1) RUnit)).
  set (sh2 := set_status sh1 MovingPagesStatus idx (code kMutatorProcessing)).
  set (sh3 := set_status sh2 MovingPagesStatus idx (code kProcessedAndMapping)).
  destruct (CopyIoctl_runs ms fuel (page_begin this idx) buf gPageSize sh3 e v rest
              Hf Hms Hlen) as (trc & Hrc & Hec).
  set (sh4 := set_status sh3 MovingPagesStatus idx (code kProcessedAndMapped)).
  set (sh5 := snd (exec_event sh4 (InProgressFetchAdd (-1)) RUnit)).
  exists sh5. eexists. split; [|split].
  - unfold ConcurrentlyProcessMovingPage. cbn [Mode_eqb].
    replace (page_begin this idx >=? bump_pointer_space_Begin this + Z.of_nat nr * gPageSize)
      with false
      by (symmetry; unfold page_begin; rewrite Z.geb_leb; apply Z.leb_gt; nia).
    cbn [andb]. rewrite Hpi.
    destruct (Z.eqb_spec (read (first_objs_moving_space_ this) idx) 0) as [|_];
      [contradiction|].
    eapply runs_bind; [apply runs_load|]. rewrite Hst.
    destruct fuel as [|fuel']; [simpl in Hf; lia|].
    apply runs_loop_Break. cbv beta iota.
    change (is_state (code kUnprocessed) kProcessing) with false.
    change (is_state (code kUnprocessed) kMutatorProcessing) with false.
    change (is_state (code kUnprocessed) kProcessingAndMapping) with false.
    change (is_state (code kUnprocessed) kProcessedAndMapping) with false.
    change (is_state (code kUnprocessed) kProcessedAndMapped) with false.
    change (is_state (code kUnprocessed) kUnprocessed) with true.
    cbn [orb].
    eapply runs_bind; [apply (runs_event (InProgressFetchAdd 1)); reflexivity|].
    fold sh1.
    eapply runs_bind.
    { apply runs_cas_ok. exact Hst. }
    fold sh2. cbn [fst].
    eapply runs_bind.
    { destruct (Z.eqb_spec buf 0) as [|_]; [contradiction|]. apply runs_Ret. }
    cbv beta iota.
    eapply runs_bind.
    { pose proof (mutator_call kCopyMode idx buf Hpost) as Hmc.
      cbn [Mode_eqb] in Hmc.
      destruct (page_begin this idx <? post_compact_end_ this); rewrite Hmc;
        apply (runs_event (compaction_call this kCopyMode idx buf));
        apply (proj1 (compaction_call_exec kCopyMode idx buf sh RUnit)). }
    rewrite (proj2 (compaction_call_exec kCopyMode idx buf sh2 RUnit)). cbn [snd].
    eapply runs_bind; [apply runs_store|]. fold sh3.
    eapply runs_bind; [exact Hrc|].
    eapply runs_bind; [apply runs_store|]. fold sh4.
    eapply runs_bind; [apply (runs_event (InProgressFetchAdd (-1))); reflexivity|].
    apply runs_Ret.
  - rewrite !map_app. simpl. rewrite Hec.
    reflexivity.
  - split.
    + intros arr' i. subst sh5 sh4 sh3 sh2 sh1. simpl.
      repeat case_bool_decide; destruct arr'; simpl;
        repeat match goal with
               | |- context [Nat.eqb ?a ?b] => destruct (Nat.eqb_spec a b)
               end; simpl; try reflexivity; try lia; try (exfalso; intuition (congruence || lia)).
    + subst sh5 sh4 sh3 sh2 sh1. simpl. repeat split; lia.
Qed.

Lemma is_state_other (w : Z) (s s' : PageState) :
  is_state w s = true -> s <> s' -> is_state w s' = false.
Proof.
  unfold is_state. intros H%Z.eqb_eq Hne. apply Z.eqb_neq. rewrite H.
  destruct s, s'; simpl; try lia; congruence.
Qed.

(** X21.  A fault in copy mode on a page that the collector has left
    [kProcessed]: the faulting thread maps the page, and the run of
    [kProcessed] pages after it, by [MapMovingSpacePages] from the
    from-space offset kept in the word of the page, sees the page
    [kProcessedAndMapped] and returns; it copies no objects, and it
    raises and lowers [compaction_in_progress_count_] around the
    mapping. *)
Theorem fault_on_processed_page (self : Thread) (buf : Z)
    (nr idx n : nat) (sh : Shared) (ms : list Z) (e : Errno) (v : Z)
    (rest : list resp) :
  let arr_len := (moving_first_objs_count_ this + black_page_count_ this)%nat in
  (idx < nr)%nat ->
  read (first_objs_moving_space_ this) idx <> 0 ->
  (0 < n)%nat ->
  (forall i, (idx <= i < idx + n)%nat ->
     is_state (status sh MovingPagesStatus i) kProcessed = true) ->
  (idx + n <= arr_len)%nat ->
  ((idx + n)%nat = arr_len \/
   is_state (status sh MovingPagesStatus (idx + n)) kProcessed = false) ->
  (S (length ms) < fuel)%nat -> Forall (fun m => 0 < m) ms ->
  sum_Z ms < Z.of_nat n * gPageSize < 2 ^ 64 ->
  exists sh' tr,
    runs (ConcurrentlyProcessMovingPage this fuel kCopyMode self (page_begin this idx)
            buf nr) sh (map short ms ++ RSys 0 e v :: rest) self sh' tr rest /\
    updated sh sh' MovingPagesStatus idx n (code kProcessedAndMapped) /\
    syscalls tr =
      copy_calls (moving_space_begin_ this + Z.of_nat idx * gPageSize)
        (from_space_begin_ this
         + Z.land (status sh MovingPagesStatus idx) (Z.lnot kPageStateMask))
        (Z.of_nat n * gPageSize) ms /\
    quiet tr.
Proof.
  intros arr_len Hidx Hfirst Hn Hst Hle Hend Hf Hms Hlen.
  pose proof gPageSize_pos as Hpg.
  assert (Hpi : Z.to_nat (DivideByPageSize (page_begin this idx
                                             - bump_pointer_space_Begin this)) = idx).
  { unfold DivideByPageSize, page_begin.
    replace (bump_pointer_space_Begin this + Z.of_nat idx * gPageSize
             - bump_pointer_space_Begin this) with (Z.of_nat idx * gPageSize) by ring.
    rewrite Z.div_mul by lia. lia. }
  set (w := status sh MovingPagesStatus idx).
  assert (Hw : is_state w kProcessed = true) by (apply Hst; lia).
  set (sh1 := snd (exec_event sh (InProgressFetchAdd 1) RUnit)).
  destruct (proj2 (MapMovingSpacePages_runs this fuel idx arr_len sh1) n ms e v rest)
    as (sh2 & tr2 & Hr2 & Hu2 & Hs2); [exact Hn|exact Hst|exact Hle|exact Hend|lia|
                                       exact Hms|exact Hlen|].
  set (sh3 := snd (exec_event sh2 (InProgressFetchAdd (-1)) RUnit)).
  assert (Hm2 : status sh2 MovingPagesStatus idx = code kProcessedAndMapped).
  { destruct Hu2 as [Hu2 _]. rewrite Hu2. case_bool_decide as Hd; [reflexivity|].
    exfalso. apply Hd. split; [reflexivity|lia]. }
  exists sh3. eexists. split; [|split; [|split]].
  - unfold ConcurrentlyProcessMovingPage. cbn [Mode_eqb].
    replace (page_begin this idx >=? bump_pointer_space_Begin this + Z.of_nat nr * gPageSize)
      with false
      by (symmetry; unfold page_begin; rewrite Z.geb_leb; apply Z.leb_gt; nia).
    cbn [andb]. rewrite Hpi.
    destruct (Z.eqb_spec (read (first_objs_moving_space_ this) idx) 0) as [|_];
      [contradiction|].
    eapply runs_bind; [apply runs_load|]. fold w.
    destruct fuel as [|[|fuel']]; [simpl in Hf; lia|simpl in Hf; lia|].
    eapply runs_loop_Continue.
    + cbv beta iota.
      rewrite (is_state_other w kProcessed kProcessing Hw) by discriminate.
      rewrite (is_state_other w kProcessed kMutatorProcessing Hw) by discriminate.
      rewrite (is_state_other w kProcessed kProcessingAndMapping Hw) by discriminate.
      rewrite (is_state_other w kProcessed kProcessedAndMapping Hw) by discriminate.
      rewrite (is_state_other w kProcessed kProcessedAndMapped Hw) by discriminate.
      rewrite (is_state_other w kProcessed kUnprocessed Hw) by discriminate.
      cbn [orb].
      eapply runs_bind; [apply (runs_event (InProgressFetchAdd 1)); reflexivity|].
      fold sh1.
      eapply runs_bind; [apply runs_Ret|]. cbn [fst snd]. rewrite Hw.
      fold arr_len.
      eapply runs_bind; [exact Hr2|].
      destruct (Z.geb_spec 0 gPageSize) as [|_]; [lia|].
      eapply runs_bind; [apply runs_load|].
      eapply runs_bind; [apply (runs_event (InProgressFetchAdd (-1))); reflexivity|].
      apply runs_Ret.
    + fold sh3. apply runs_loop_Break. cbv beta iota. rewrite Hm2.
      change (is_state (code kProcessedAndMapped) kProcessing) with false.
      change (is_state (code kProcessedAndMapped) kMutatorProcessing) with false.
      change (is_state (code kProcessedAndMapped) kProcessingAndMapping) with false.
      change (is_state (code kProcessedAndMapped) kProcessedAndMapping) with false.
      change (is_state (code kProcessedAndMapped) kProcessedAndMapped) with true.
      cbn [orb]. apply runs_Ret.
  - destruct Hu2 as [Hu2 Hc2]. split.
    + intros arr' i. subst sh3. simpl. rewrite Hu2. subst sh1. reflexivity.
    + subst sh3 sh1. simpl in *. repeat split; lia.
  - rewrite !syscalls_app, Hs2. subst sh1. simpl.
    change (syscalls []) with (@nil event). rewrite !app_nil_r. reflexivity.
  - unfold quiet. rewrite !Forall_app. repeat split; try (repeat constructor; fail).
    apply (keeps_run no_compaction _ _ _ _ _ _ _
             (MapMovingSpacePages_no_compaction this fuel idx arr_len) Hr2).
Qed.

End Unprocessed.

Lemma fault_on_unprocessed_page_witness :
  exists sh' tr,
    runs (ConcurrentlyProcessMovingPage (P := Example.platform) Example.heap 5
            kCopyMode Example.mutator (page_begin (P := Example.platform) Example.heap 2)
            0x40001000 4)
         fresh_shared (map short [2048] ++ RSys 0 (EOTHER 0) 0 :: []) Example.mutator
         sh' tr [] /\
    map ev tr =
      [AtomicLoad MovingPagesStatus 2;
       InProgressFetchAdd 1;
       AtomicCas MovingPagesStatus 2 (code kUnprocessed) (code kMutatorProcessing);
       compaction_call (P := Example.platform) Example.heap kCopyMode 2 0x40001000;
       AtomicStore MovingPagesStatus 2 (code kProcessedAndMapping)]
      ++ copy_calls (page_begin (P := Example.platform) Example.heap 2) 0x40001000
           (gPageSize (Platform := Example.platform)) [2048]
      ++ [AtomicStore MovingPagesStatus 2 (code kProcessedAndMapped);
          InProgressFetchAdd (-1)] /\
    updated fresh_shared sh' MovingPagesStatus 2 1 (code kProcessedAndMapped).
Proof.
  apply (fault_on_unprocessed_page (P := Example.platform) Example.heap 5
           Example.mutator 0x40001000 4 2 fresh_shared [2048] (EOTHER 0) 0 []).
  - reflexivity.
  - lia.
  - vm_compute. discriminate.
  - reflexivity.
  - discriminate.
  - simpl. lia.
  - repeat constructor.
  - vm_compute. split; reflexivity.
Defined.

Lemma fault_on_processed_page_witness :
  exists sh' tr,
    runs (ConcurrentlyProcessMovingPage (P := Example.platform) Example.heap 5
            kCopyMode Example.mutator (page_begin (P := Example.platform) Example.heap 0)
            0 4)
         Example.processed (map short [] ++ RSys 0 (EOTHER 0) 0 :: []) Example.mutator
         sh' tr [] /\
    updated Example.processed sh' MovingPagesStatus 0 2 (code kProcessedAndMapped) /\
    syscalls tr =
      copy_calls
        (moving_space_begin_ Example.heap
         + Z.of_nat 0 * gPageSize (Platform := Example.platform))
        (from_space_begin_ Example.heap
         + Z.land (status Example.processed MovingPagesStatus 0) (Z.lnot kPageStateMask))
        (Z.of_nat 2 * gPageSize (Platform := Example.platform)) [] /\
    quiet tr.
Proof.
  apply (fault_on_processed_page (P := Example.platform) Example.heap 5
           Example.mutator 0 4 0 2 Example.processed [] (EOTHER 0) 0 []).
  - lia.
  - vm_compute. discriminate.
  - lia.
  - intros i Hi. assert (Hc : i = 0%nat \/ i = 1%nat) by lia.
    destruct Hc as [-> | ->]; reflexivity.
  - simpl. lia.
  - right. reflexivity.
  - simpl. lia.
  - constructor.
  - vm_compute. split; reflexivity.
Defined.

(** ** MapProcessedPages when the ioctl is not cut short *)

Section Continue.
Context {P : Platform} {HP : PlatformOk P}.
Variable this : MarkCompact.

Lemma store_backwards_none (arr : status_array) (s : PageState) (hi : nat) (len : Z)
    (sh : Shared) (ks : list resp) :
  len <= 0 -> runs (store_backwards arr s hi len) sh ks hi sh [] ks.
Proof.
  intros Hlen. unfold store_backwards. apply runs_loop_Break. cbv beta iota.
  destruct (Z.gtb_spec len 0); [lia|]. apply runs_Ret.
Qed.

Lemma MapProcessedPages_full_runs (kFirst : bool) (start : Z) (arr : status_array)
    (a arr_len n : nat) (sh : Shared) (e : Errno) (rest : list resp) :
  let first := (if kFirst then 1 else 0)%nat in
  let N := (first + n)%nat in
  (forall i, (a + first <= i < a + N)%nat -> status sh arr i = code kProcessed) ->
  (a + N <= arr_len)%nat ->
  ((a + N)%nat = arr_len \/ status sh arr (a + N) <> code kProcessed) ->
  (0 < N)%nat ->
  exists sh' tr,
    runs (MapProcessedPages this kFirst start arr a arr_len) sh
         (RSys 0 e (Z.of_nat N * gPageSize) :: rest) tt sh' tr rest /\
    (forall i, (a <= i < a + N)%nat ->
       status sh' arr i =
       if use_uffd_sigbus_ this then code kProcessedAndMapped
       else if kFirst && (i =? a)%nat then status sh arr i
       else code kProcessedAndMapping) /\
    (forall arr' i, ~ (arr' = arr /\ (a <= i < a + N)%nat) ->
       status sh' arr' i = status sh arr' i) /\
    syscalls tr = [IoctlContinue start (Z.of_nat N * gPageSize)].
Proof.
  intros first N Hst Hle Hend HN. pose proof gPageSize_pos as Hpg.
  destruct (claim_processed_runs arr arr_len n (a + first)
              (if kFirst then gPageSize else 0) sh
              (RSys 0 e (Z.of_nat N * gPageSize) :: rest))
    as (sh1 & tr1 & Hr1 & Hu1 & Hf1 & Hs1).
  { intros i Hi. apply Hst. lia. }
  { lia. }
  { replace (a + first + n)%nat with (a + N)%nat by lia. exact Hend. }
  assert (Hlen : (if kFirst then gPageSize else 0) + Z.of_nat n * gPageSize
                 = Z.of_nat N * gPageSize).
  { subst N first. destruct kFirst; lia. }
  rewrite Hlen in Hr1.
  replace (a + first + n)%nat with (a + N)%nat in Hr1 by lia.
  destruct (store_backwards_runs arr kProcessedAndMapped N (a + N) sh1 rest)
    as (sh2 & tr2 & Hr2 & Hu2 & Hf2 & Hs2); [lia|].
  replace (a + N - N)%nat with a in * by lia.
  destruct Hu1 as [Hu1 _], Hu2 as [Hu2 _].
  assert (Hhead :
            runs (claimed <- claim_processed arr (a + first) arr_len
                               (if kFirst then gPageSize else 0) ;;
                  let '(arr_idx, length) := claimed in
                  if length >? 0 then
                    r <- trigger (IoctlContinue start length) ;;
                    let mapped := resp_val r in
                    arr_idx <-
                      (if (resp_ret r =? -1) && Errno_eqb (resp_errno r) EAGAIN then
                         arr_idx <- store_backwards arr kProcessed arr_idx
                                      (to_size_t (length - mapped)) ;;
                         w <- trigger (IoctlWake (start + mapped) (length - mapped)) ;;
                         CHECK (resp_ret w =? 0) ;;
                         Ret arr_idx
                       else
                         CHECK ((resp_ret r =? 0) || negb kFirst
                                || Errno_eqb (resp_errno r) ENOENT) ;;
                         Ret arr_idx) ;;
                    (if use_uffd_sigbus_ this then
                       store_backwards arr kProcessedAndMapped arr_idx mapped ;; Ret tt
                     else Ret tt)
                  else Ret tt)
              sh (RSys 0 e (Z.of_nat N * gPageSize) :: rest) tt
              (if use_uffd_sigbus_ this then sh2 else sh1)
              (tr1 ++ [entry_of sh1 (IoctlContinue start (Z.of_nat N * gPageSize))
                         (RSys 0 e (Z.of_nat N * gPageSize))]
                   ++ [] ++ (if use_uffd_sigbus_ this then tr2 ++ [] else [])) rest).
  { eapply runs_bind; [exact Hr1|]. cbv beta iota.
    destruct (Z.gtb_spec (Z.of_nat N * gPageSize) 0) as [_|]; [|nia].
    eapply runs_bind; [apply runs_syscall; reflexivity|].
    cbn [resp_val resp_ret resp_errno]. simpl (0 =? -1). cbn [andb].
    eapply runs_bind.
    { simpl (0 =? 0). cbn [orb]. reflexivity. }
    simpl. destruct (use_uffd_sigbus_ this).
    - eapply runs_bind; [exact Hr2|]. apply runs_Ret.
    - apply runs_Ret. }
  exists (if use_uffd_sigbus_ this then sh2 else sh1). eexists.
  split; [|split; [|split]].
  - unfold MapProcessedPages.
    replace (if kFirst then S a else a) with (a + first)%nat
      by (subst first; destruct kFirst; lia).
    exact Hhead.
  - intros i Hi. destruct (use_uffd_sigbus_ this).
    + rewrite Hu2. case_bool_decide as Hd; [reflexivity|].
      exfalso. apply Hd. split; [reflexivity|lia].
    + rewrite Hu1. subst first N.
      destruct kFirst; simpl; destruct (Nat.eqb_spec i a); simpl;
        case_bool_decide as Hd; try reflexivity; try lia;
        exfalso; apply Hd; split; auto; lia.
  - intros arr' i Hn. destruct (use_uffd_sigbus_ this).
    + rewrite Hu2, Hu1.
      repeat case_bool_decide; try reflexivity; exfalso; apply Hn; intuition lia.
    + rewrite Hu1.
      repeat case_bool_decide; try reflexivity; exfalso; apply Hn; intuition lia.
  - rewrite !syscalls_app, Hs1. destruct (use_uffd_sigbus_ this).
    + rewrite !syscalls_app, Hs2. reflexivity.
    + reflexivity.
Qed.

Lemma MapProcessedPages_fail_runs (kFirst : bool) (start : Z) (arr : status_array)
    (a arr_len n : nat) (sh : Shared) (err : Errno) (acted : Z) (rest : list resp) :
  let first := (if kFirst then 1 else 0)%nat in
  let N := (first + n)%nat in
  (forall i, (a + first <= i < a + N)%nat -> status sh arr i = code kProcessed) ->
  (a + N <= arr_len)%nat ->
  ((a + N)%nat = arr_len \/ status sh arr (a + N) <> code kProcessed) ->
  (0 < N)%nat ->
  err <> EAGAIN -> acted <= 0 ->
  exists sh' tr,
    run (MapProcessedPages this kFirst start arr a arr_len) sh
        (RSys (-1) err acted :: rest)
      = (if negb kFirst || Errno_eqb err ENOENT then Done tt else Crashed,
         sh', tr, rest) /\
    updated sh sh' arr (a + first) n (code kProcessedAndMapping) /\
    syscalls tr = [IoctlContinue start (Z.of_nat N * gPageSize)].
Proof.
  intros first N Hst Hle Hend HN Herr Hacted. pose proof gPageSize_pos as Hpg.
  destruct (claim_processed_runs arr arr_len n (a + first)
              (if kFirst then gPageSize else 0) sh
              (RSys (-1) err acted :: rest))
    as (sh1 & tr1 & Hr1 & Hu1 & Hf1 & Hs1).
  { intros i Hi. apply Hst. lia. }
  { lia. }
  { replace (a + first + n)%nat with (a + N)%nat by lia. exact Hend. }
  assert (Hlen : (if kFirst then gPageSize else 0) + Z.of_nat n * gPageSize
                 = Z.of_nat N * gPageSize).
  { subst N first. destruct kFirst; lia. }
  rewrite Hlen in Hr1.
  replace (a + first + n)%nat with (a + N)%nat in Hr1 by lia.
  exists sh1. eexists. split; [|split; [exact Hu1|]].
  - unfold MapProcessedPages.
    replace (if kFirst then S a else a) with (a + first)%nat
      by (subst first; destruct kFirst; lia).
    rewrite run_bind, Hr1. cbv beta iota.
    destruct (Z.gtb_spec (Z.of_nat N * gPageSize) 0) as [_|]; [|nia].
    rewrite run_bind.
    rewrite (runs_syscall (IoctlContinue start (Z.of_nat N * gPageSize))
               (RSys (-1) err acted) sh1 rest eq_refl).
    cbn [resp_val resp_ret resp_errno]. simpl (-1 =? -1). simpl (-1 =? 0).
    rewrite (Errno_eqb_neq err EAGAIN Herr). cbn [andb orb].
    destruct (negb kFirst || Errno_eqb err ENOENT); simpl.
    + destruct (use_uffd_sigbus_ this).
      * rewrite run_bind, (store_backwards_none arr kProcessedAndMapped (a + N) acted
                             sh1 rest Hacted).
        simpl. reflexivity.
      * simpl. reflexivity.
    + reflexivity.
  - rewrite !syscalls_app, Hs1.
    destruct (negb kFirst || Errno_eqb err ENOENT); [destruct (use_uffd_sigbus_ this)|];
      reflexivity.
Qed.

End Continue.

(** X22.  [MapProcessedPages] when [UFFDIO_CONTINUE] is not cut short.  When the
    ioctl maps all it was asked to, the pages that were claimed (and the
    first page, with [kFirstPageMapping]) are left [kProcessedAndMapped]
    if SIGBUS is in use, and the claimed pages [kProcessedAndMapping]
    otherwise; there is no wake.  When the ioctl fails with an [errno]
    other than [EAGAIN], the process ends if the first page was being
    mapped and the [errno] is not [ENOENT]; otherwise the routine returns
    and the claimed pages stay [kProcessedAndMapping]. *)
Theorem MapProcessedPages_outcomes {P : Platform} {HP : PlatformOk P}
    (this : MarkCompact) (kFirst : bool) (start : Z) (arr : status_array)
    (a arr_len n : nat) (sh : Shared) (rest : list resp) :
  let first := (if kFirst then 1 else 0)%nat in
  let N := (first + n)%nat in
  (forall i, (a + first <= i < a + N)%nat -> status sh arr i = code kProcessed) ->
  (a + N <= arr_len)%nat ->
  ((a + N)%nat = arr_len \/ status sh arr (a + N) <> code kProcessed) ->
  (0 < N)%nat ->
  (forall e,
     exists sh' tr,
       runs (MapProcessedPages this kFirst start arr a arr_len) sh
            (RSys 0 e (Z.of_nat N * gPageSize) :: rest) tt sh' tr rest /\
       (forall i, (a <= i < a + N)%nat ->
          status sh' arr i =
          if use_uffd_sigbus_ this then code kProcessedAndMapped
          else if kFirst && (i =? a)%nat then status sh arr i
          else code kProcessedAndMapping) /\
       (forall arr' i, ~ (arr' = arr /\ (a <= i < a + N)%nat) ->
          status sh' arr' i = status sh arr' i) /\
       syscalls tr = [IoctlContinue start (Z.of_nat N * gPageSize)]) /\
  (forall err acted,
     err <> EAGAIN -> acted <= 0 ->
     exists sh' tr,
       run (MapProcessedPages this kFirst start arr a arr_len) sh
           (RSys (-1) err acted :: rest)
         = (if negb kFirst || Errno_eqb err ENOENT then Done tt else Crashed,
            sh', tr, rest) /\
       updated sh sh' arr (a + first) n (code kProcessedAndMapping) /\
       syscalls tr = [IoctlContinue start (Z.of_nat N * gPageSize)]).
Proof.
  intros first N Hst Hle Hend HN. split.
  - intros e. apply MapProcessedPages_full_runs; assumption.
  - intros err acted He Ha. apply MapProcessedPages_fail_runs; assumption.
Qed.

Lemma MapProcessedPages_outcomes_witness :
  (exists sh' tr,
     runs (MapProcessedPages (P := Example.platform) Example.heap false 0x30000000
             (LinearAllocPageStatus 0) 0 3)
          Example.processed [RSys 0 (EOTHER 0) 12288] tt sh' tr [] /\
     status sh' (LinearAllocPageStatus 0) 0 = code kProcessedAndMapped /\
     status sh' (LinearAllocPageStatus 0) 2 = code kProcessedAndMapped /\
     syscalls tr = [IoctlContinue 0x30000000 12288]) /\
  (exists sh' tr,
     run (MapProcessedPages (P := Example.platform) Example.heap false 0x30000000
            (LinearAllocPageStatus 0) 0 3)
         Example.processed [RSys (-1) ENOENT (-2)]
       = (Done tt, sh', tr, []) /\
     updated Example.processed sh' (LinearAllocPageStatus 0) 0 3
       (code kProcessedAndMapping)).
Proof.
  pose proof (MapProcessedPages_outcomes (P := Example.platform) Example.heap false
                0x30000000 (LinearAllocPageStatus 0) 0 3 3 Example.processed []) as H.
  destruct H as [H1 H2].
  - intros i Hi. destruct i as [|[|[|i]]]; try reflexivity; simpl in Hi; lia.
  - simpl. lia.
  - left. reflexivity.
  - simpl. lia.
  - split.
    + destruct (H1 (EOTHER 0)) as (sh' & tr & Hr & Ha & _ & Hs).
      exists sh', tr. split; [exact Hr|].
      split; [apply (Ha 0%nat); simpl; lia|].
      split; [apply (Ha 2%nat); simpl; lia|exact Hs].
    + destruct (H2 ENOENT (-2)) as (sh' & tr & Hr & Hu & _); [discriminate|lia|].
      exists sh', tr. split; [exact Hr|exact Hu].
Defined.

(** ** The end of a worker thread *)

Section Termination.
Context {P : Platform} {HP : PlatformOk P}.
Variable this : MarkCompact.
Variable fuel : nat.



End Termination.


